(** * Reaction network: combination generator, cost model, graph builder,
      path finder and pathway aggregates.

    Shallow embedding of
      - [rxn_network/core.py]            (module [Core]),
      - [rxn_network/pathways/base.py]   (module [Pathways]),
      - [rxn_network/network/network.py] (module [Network]).

    Conventions.  Python floats are idealised as rationals ([Q]):
    arithmetic is exact, the rounding of float operations is not modelled,
    and there is no NaN or infinity; Python
    sets of entries are [gset]s; the dictionary-backed networkx graph is a
    finite map from node pairs to edge attributes together with the node
    list; the index-addressed rustworkx multigraph is a slot list of nodes
    plus a list of parallel-capable edges.  Exceptions are values of
    [Py.result]. *)

From Stdlib Require Import QArith Qabs Qminmax Lqa ZArith Lia Sorted.
From stdpp Require Import gmap strings list.

Local Open Scope nat_scope.

(** * Part I: the program *)

(** ** Python runtime: exceptions, rational comparisons *)

Module Py.

Inductive exn : Type :=
| TypeError
| IndexError
| AttributeError
| ValueError
| NetworkXError
| NoEdgeBetweenNodes.

Inductive result (A : Type) : Type :=
| Ok (a : A)
| Raise (e : exn).
Arguments Ok {A} a.
Arguments Raise {A} e.

#[global] Instance result_ret : MRet result := λ A a, Ok a.
#[global] Instance result_bind : MBind result := λ A B f m,
  match m with
  | Ok a => f a
  | Raise e => Raise e
  end.

(** [x < y] and [x <= y] on floats. *)
Definition Qltb (x y : Q) : bool := negb (Qle_bool y x).
Definition Qleb (x y : Q) : bool := Qle_bool x y.

(** [sum(xs)] on floats: left to right from [0], every addition exact. *)
Definition Qsum (xs : list Q) : Q := fold_left Qplus xs 0%Q.

End Py.

(** ** itertools *)

Module Itertools.

(** [itertools.combinations(l, r)]: the length-[r] subsequences of [l], in
    lexicographic order of the positions used. *)
Fixpoint combinations {A : Type} (l : list A) (r : nat) : list (list A) :=
  match l with
  | [] => match r with O => [[]] | S _ => [] end
  | x :: t =>
      match r with
      | O => [[]]
      | S r' => map (cons x) (combinations t r') ++ combinations t r
      end
  end.

(** [range(1, m + 1)] for a Python integer [m]. *)
Definition range1 (m : Z) : list nat := seq 1 (Z.to_nat m).

End Itertools.

(** Binomial coefficients by Pascal's rule. *)
Fixpoint binom (n k : nat) : nat :=
  match n, k with
  | _, O => 1
  | O, S _ => 0
  | S n', S k' => binom n' k' + binom n' k
  end.

(** [C(n,1) + ... + C(n,m)]. *)
Definition binom_sum (n m : nat) : nat :=
  sum_list (map (binom n) (seq 1 m)).

(** ** [rxn_network/core.py] *)

Module Core.
Import Py.

(** Node tags of [RxnEntries]. *)
Inductive Description : Type :=
| Reactants
| Products
| Starters
| Target.

#[global] Instance Description_eq_dec : EqDecision Description.
Proof. solve_decision. Defined.

#[global] Instance Description_countable : Countable Description.
Proof.
  refine (inj_countable'
    (λ d, match d with
          | Reactants => 0 | Products => 1 | Starters => 2 | Target => 3
          end)
    (λ n, match n with
          | 0 => Reactants | 1 => Products | 2 => Starters | _ => Target
          end) _).
  intros []; reflexivity.
Defined.

Section WithCollaborators.

(** External collaborators: entries with their compositions, the reaction
    balancer, and the two numpy primitives used by the smooth cost
    functions. *)
Context `{Countable Entry} `{Countable Element} `{Countable Composition}.
Variable composition_elements : Entry → list Element.
Variable reduced_composition : Entry → Composition.

(** The attributes of a pymatgen [ComputedReaction] read by this module. *)
Record Reaction : Type := mkReaction {
  coeffs : list Q;
  TOLERANCE : Q;
  rxn_reactants : list Composition;
  rxn_products : list Composition;
  calculated_reaction_energy : Q;
  (** [[rxn.get_el_amount(elem) for elem in rxn.elements]] *)
  el_amounts : list Q
}.

(** [ComputedReaction(list(reactants), list(products))]; [None] when the
    constructor raises. *)
Variable ComputedReaction : gset Entry → gset Entry → option Reaction.
Variable np_exp : Q → Q.
Variable np_log : Q → Q.
(** [physical_constants["Boltzmann constant in eV/K"][0]] *)
Variable kb : Q.

(** [ReactionNetwork.generate_all_combos] (static method). *)
Definition combo_tuples (entries : list Entry) (max_num_combos : Z)
  : list (list Entry) :=
  flat_map (Itertools.combinations entries) (Itertools.range1 max_num_combos).

Definition generate_all_combos (entries : list Entry) (max_num_combos : Z)
  : list (gset Entry) :=
  map list_to_set (combo_tuples entries max_num_combos).

(** Modelled from the spec: [RxnEntries] of [rxn_network/helpers.py], which
    is not in the sources.  A graph node is a tag together with an entry
    set, and node identity is the pair (tag, entry set). *)
Record RxnEntries : Type := mkRxnEntries {
  entries : gset Entry;
  description : Description
}.

#[global] Instance RxnEntries_eq_dec : EqDecision RxnEntries.
Proof. solve_decision. Defined.

#[global] Instance RxnEntries_countable : Countable RxnEntries.
Proof.
  refine (inj_countable' (λ n, (entries n, description n))
            (λ p, mkRxnEntries p.1 p.2) _).
  intros []; reflexivity.
Defined.

(** *** The networkx [DiGraph] *)

(** Edge attribute dictionary: [weight] and the optional [rxn]. *)
Record EdgeAttr : Type := mkEdgeAttr {
  weight : Q;
  rxn : option Reaction
}.

Record DiGraph : Type := mkDiGraph {
  nodes : list RxnEntries;
  adj : gmap (RxnEntries * RxnEntries) EdgeAttr
}.

Definition empty_graph : DiGraph := mkDiGraph [] ∅.

Definition add_node (g : DiGraph) (n : RxnEntries) : DiGraph :=
  if decide (n ∈ nodes g) then g else mkDiGraph (nodes g ++ [n]) (adj g).

(** [g.add_edge(u, v, weight=w)] when [r = None], and
    [g.add_edge(u, v, weight=w, rxn=r')] when [r = Some r'].  Missing end
    points are created; an existing attribute dictionary is updated, so an
    [rxn] already stored survives a call that passes none. *)
Definition add_edge (g : DiGraph) (u v : RxnEntries) (w : Q)
    (r : option Reaction) : DiGraph :=
  let g1 := add_node (add_node g u) v in
  let old := adj g1 !! (u, v) in
  let r' := match r with
            | Some x => Some x
            | None => old ≫= rxn
            end in
  mkDiGraph (nodes g1) (<[(u, v) := mkEdgeAttr w r']> (adj g1)).

(** [g.remove_node(n)] for a node of the graph: the node goes with every
    edge incident to it. *)
Definition remove_node (g : DiGraph) (n : RxnEntries) : DiGraph :=
  mkDiGraph (filter (λ x, x ≠ n) (nodes g))
            (filter (λ kv, kv.1.1 ≠ n ∧ kv.1.2 ≠ n) (adj g)).

(** [g.remove_edge(u, v)]: raises when the edge is absent. *)
Definition remove_edge (g : DiGraph) (u v : RxnEntries) : result DiGraph :=
  match adj g !! (u, v) with
  | Some _ => Ok (mkDiGraph (nodes g) (delete (u, v) (adj g)))
  | None => Raise NetworkXError
  end.

(** *** Cost model *)

Definition _arrhenius (energy t : Q) : Q :=
  np_exp (energy / (kb * t))%Q.

Definition _softplus (energy t : Q) : Q :=
  np_log (1 + (273 / t) * np_exp energy)%Q.

(** [weight < self._most_negative_rxn], where [None] stands for
    [float("inf")]. *)
Definition below (weight : Q) (most_negative : option Q) : bool :=
  match most_negative with
  | None => true
  | Some m => Qltb weight m
  end.

(** [determine_rxn_weight]: the pair of the returned weight and the value of
    [self._most_negative_rxn] after the call. *)
Definition determine_rxn_weight (most_negative : option Q) (energy : Q)
    (cost_function : string) : Q * option Q :=
  if String.eqb cost_function "softplus" then
    (_softplus energy 500, most_negative)
  else if String.eqb cost_function "bipartite" then
    let weight := energy in
    let m := if below weight most_negative then Some weight
             else most_negative in
    let weight := if Qleb 0 weight then (2 * weight + 1)%Q else weight in
    (weight, m)
  else if String.eqb cost_function "rectified" then
    let weight := energy in
    let weight := if Qltb weight 0 then 0%Q else weight in
    (weight, most_negative)
  else if String.eqb cost_function "arrhenius" then
    (_arrhenius energy 100, most_negative)
  else if String.eqb cost_function "enthalpies_positive" then
    let weight := energy in
    let m := if below weight most_negative then Some weight
             else most_negative in
    (weight, m)
  else (0%Q, most_negative).

(** *** Network state *)

Record ReactionNetwork : Type := mkReactionNetwork {
  _filtered_entries : list Entry;
  _max_num_components : Z;
  _all_combos : list (gset Entry);
  _starters : option (gset Entry);
  _all_targets : option (list Entry);
  _selected_target : option (list Entry);
  _cost_function : option string;
  _complex_loopback : option bool;
  _most_negative_rxn : option Q;
  _rxn_network : option DiGraph
}.

(** [__init__], given the list that [filter_entries] returns (the phase
    diagram is an external collaborator). *)
Definition init (filtered_entries : list Entry) (max_num_components : Z)
  : ReactionNetwork :=
  {| _filtered_entries := filtered_entries;
     _max_num_components := max_num_components;
     _all_combos := generate_all_combos filtered_entries max_num_components;
     _starters := None;
     _all_targets := None;
     _selected_target := None;
     _cost_function := None;
     _complex_loopback := None;
     _most_negative_rxn := None;
     _rxn_network := None |}.

(** [set([elem for entry in combo for elem in entry.composition.elements])] *)
Definition combo_elems (combo : gset Entry) : gset Element :=
  list_to_set (elements combo ≫= composition_elements).

(** [{e.composition.reduced_composition for e in combo}] *)
Definition combo_comps (combo : gset Entry) : gset Composition :=
  set_map reduced_composition combo.

(** The guard inside the [try] block: some coefficient is below tolerance,
    or a composition changed sides or disappeared. *)
Definition degenerate (reactants products : gset Entry) (r : Reaction)
  : bool :=
  existsb (λ c, Qltb (Qabs c) (TOLERANCE r)) (coeffs r)
  || bool_decide (combo_comps reactants ≠ list_to_set (rxn_reactants r))
  || bool_decide (combo_comps products ≠ list_to_set (rxn_products r)).

(** The whole [try ... except: continue] block. *)
Definition try_reaction (reactants products : gset Entry) : option Reaction :=
  match ComputedReaction reactants products with
  | None => None
  | Some r => if degenerate reactants products r then None else Some r
  end.

(** [rxn.calculated_reaction_energy / total_num_atoms], with
    [total_num_atoms = sum([rxn.get_el_amount(elem) ...])]. *)
Definition dg_per_atom (r : Reaction) : Q :=
  (calculated_reaction_energy r / Qsum (el_amounts r))%Q.

(** First loop of [generate_rxn_network] (also the linking loop of
    [set_starters], which adds no node). *)
Definition link_reactant (add : bool) (starter_entries : RxnEntries)
    (starters : gset Entry) (g : DiGraph) (reactants : gset Entry)
  : DiGraph :=
  let reactant_entries := mkRxnEntries reactants Reactants in
  let g := if add then add_node g reactant_entries else g in
  if decide (reactants ⊆ starters)
  then add_edge g starter_entries reactant_entries 0 None
  else g.

(** Body of the innermost loop: one candidate (reactants, products) pair. *)
Definition reaction_step (cost_function : string) (products : gset Entry)
    (acc : DiGraph * option Q) (reactants : gset Entry)
  : DiGraph * option Q :=
  let '(g, m) := acc in
  if decide (products = reactants) then acc
  else if decide (combo_elems reactants ≠ combo_elems products) then acc
  else
    match try_reaction reactants products with
    | None => acc
    | Some r =>
        let '(w, m') := determine_rxn_weight m (dg_per_atom r) cost_function in
        (add_edge g (mkRxnEntries reactants Reactants)
                    (mkRxnEntries products Products) w (Some r), m')
    end.

(** The loopback edges leaving one Products node. *)
Definition add_loopbacks (complex_loopback : bool) (max_num_components : Z)
    (starters : gset Entry) (g : DiGraph) (products : gset Entry) : DiGraph :=
  let product_entries := mkRxnEntries products Products in
  if complex_loopback then
    let linking_combos :=
      generate_all_combos (elements (products ∪ starters))
                          max_num_components in
    foldl (λ g combo,
             add_edge g product_entries (mkRxnEntries combo Reactants) 0 None)
          g linking_combos
  else add_edge g product_entries (mkRxnEntries products Reactants) 0 None.

(** Body of the second loop: one Products combination. *)
Definition product_step (cost_function : string) (complex_loopback : bool)
    (max_num_components : Z) (all_combos : list (gset Entry))
    (starters target : gset Entry) (target_entry : RxnEntries)
    (acc : DiGraph * option Q) (products : gset Entry)
  : DiGraph * option Q :=
  let '(g, m) := acc in
  let product_entries := mkRxnEntries products Products in
  let g := add_node g product_entries in
  let g := add_loopbacks complex_loopback max_num_components starters g
                         products in
  let g := if decide (target ⊆ products)
           then add_edge g product_entries target_entry 0 None else g in
  foldl (reaction_step cost_function products) (g, m) all_combos.

(** The closing pass over [g.edges.data(data='rxn')], one edge at a time.
    An edge with a reaction exists only after [determine_rxn_weight] has
    recorded a finite minimum, so the case of a reaction edge together with
    a minimum still at [float("inf")] does not arise; the edge is left as it
    is there. *)
Definition shift_edge (cost_function : string) (most_negative : option Q)
    (e : EdgeAttr) : EdgeAttr :=
  match rxn e, most_negative with
  | Some _, Some m =>
      if String.eqb cost_function "enthalpies_positive" then
        mkEdgeAttr (weight e - m)%Q (rxn e)
      else if String.eqb cost_function "bipartite" then
        if Qltb (weight e) 0
        then mkEdgeAttr (1 - weight e / m)%Q (rxn e)
        else e
      else e
  | _, _ => e
  end.

Definition shift_pass (cost_function : string) (most_negative : option Q)
    (g : DiGraph) : DiGraph :=
  mkDiGraph (nodes g) (shift_edge cost_function most_negative <$> adj g).

(** [generate_rxn_network].  [targets[0]] raises on an empty list.  The
    [isinstance] check has no counterpart: starters and targets are entries
    by their type.  [self._starters] is kept as the set the code converts it
    to at every use. *)
Definition generate_rxn_network (self : ReactionNetwork)
    (starters targets : list Entry) (cost_function : string)
    (complex_loopback : bool) : result ReactionNetwork :=
  match targets with
  | [] => Raise IndexError
  | target0 :: _ =>
      let starters_set : gset Entry := list_to_set starters in
      let target : gset Entry := {[ target0 ]} in
      let starter_entries := mkRxnEntries starters_set Starters in
      let target_entry := mkRxnEntries target Target in
      let g := add_node (add_node empty_graph starter_entries) target_entry in
      let g := foldl (link_reactant true starter_entries starters_set) g
                     (_all_combos self) in
      let '(g, m) :=
        foldl (product_step cost_function complex_loopback
                 (_max_num_components self) (_all_combos self)
                 starters_set target target_entry)
              (g, None) (_all_combos self) in
      let g := shift_pass cost_function m g in
      Ok {| _filtered_entries := _filtered_entries self;
            _max_num_components := _max_num_components self;
            _all_combos := _all_combos self;
            _starters := Some starters_set;
            _all_targets := Some targets;
            _selected_target := Some [target0];
            _cost_function := Some cost_function;
            _complex_loopback := Some complex_loopback;
            _most_negative_rxn := m;
            _rxn_network := Some g |}
  end.

(** One iteration of the loop of [set_cost_function]. *)
Definition recost_step (cost_function : string)
    (acc : gmap (RxnEntries * RxnEntries) EdgeAttr * option Q)
    (kv : (RxnEntries * RxnEntries) * EdgeAttr)
  : gmap (RxnEntries * RxnEntries) EdgeAttr * option Q :=
  let '(a, m) := acc in
  match rxn kv.2 with
  | Some r =>
      let '(w, m') := determine_rxn_weight m (dg_per_atom r) cost_function in
      (<[kv.1 := mkEdgeAttr w (rxn kv.2)]> a, m')
  | None => acc
  end.

Definition with_graph (self : ReactionNetwork) (g : DiGraph)
    (m : option Q) : ReactionNetwork :=
  {| _filtered_entries := _filtered_entries self;
     _max_num_components := _max_num_components self;
     _all_combos := _all_combos self;
     _starters := _starters self;
     _all_targets := _all_targets self;
     _selected_target := _selected_target self;
     _cost_function := _cost_function self;
     _complex_loopback := _complex_loopback self;
     _most_negative_rxn := m;
     _rxn_network := Some g |}.

(** [set_cost_function].  The edges are visited in the order of
    [map_to_list]; the weight written on an edge depends on that edge
    alone. *)
Definition set_cost_function (self : ReactionNetwork)
    (cost_function : string) : result ReactionNetwork :=
  match _rxn_network self with
  | None => Raise AttributeError
  | Some g =>
      let '(a, m) :=
        foldl (recost_step cost_function)
              (adj g, _most_negative_rxn self) (map_to_list (adj g)) in
      Ok (with_graph self (mkDiGraph (nodes g) a) m)
  end.

(** [set_starters] *)
Definition relink_starters (self : ReactionNetwork) (g : DiGraph)
    (starters : gset Entry) : DiGraph :=
  match list_find (λ n, description n = Starters) (nodes g) with
  | Some (_, node) =>
      let g := remove_node g node in
      let starter_entries := mkRxnEntries starters Starters in
      let g := add_node g starter_entries in
      foldl (link_reactant false starter_entries starters) g
            (_all_combos self)
  | None => g
  end.

(** Body of the loop of [set_starters] that re-creates the loopback edges of
    one Products node. *)
Definition swap_loopbacks (max_num_components : Z)
    (old_starters starters : gset Entry) (g : DiGraph)
    (products : gset Entry) : result DiGraph :=
  let product_entries := mkRxnEntries products Products in
  let old_loopbacks :=
    generate_all_combos (elements (products ∪ old_starters))
                        max_num_components in
  g ← foldl (λ acc combo,
               g ← acc;
               remove_edge g product_entries (mkRxnEntries combo Reactants))
            (Ok g) old_loopbacks;
  let new_loopbacks :=
    generate_all_combos (elements (products ∪ starters))
                        max_num_components in
  Ok (foldl (λ g combo,
               add_edge g product_entries (mkRxnEntries combo Reactants)
                        0 None)
            g new_loopbacks).

Definition with_starters (self : ReactionNetwork) (g : DiGraph)
    (starters : gset Entry) : ReactionNetwork :=
  {| _filtered_entries := _filtered_entries self;
     _max_num_components := _max_num_components self;
     _all_combos := _all_combos self;
     _starters := Some starters;
     _all_targets := _all_targets self;
     _selected_target := _selected_target self;
     _cost_function := _cost_function self;
     _complex_loopback := _complex_loopback self;
     _most_negative_rxn := _most_negative_rxn self;
     _rxn_network := Some g |}.

Definition set_starters (self : ReactionNetwork) (starters : list Entry)
  : result ReactionNetwork :=
  match _rxn_network self with
  | None => Raise AttributeError
  | Some g =>
      let new_starters : gset Entry := list_to_set starters in
      let g := relink_starters self g new_starters in
      match _complex_loopback self with
      | Some true =>
          match _starters self with
          | None => Raise TypeError
          | Some old_starters =>
              g ← foldl (λ acc products,
                           g ← acc;
                           swap_loopbacks (_max_num_components self)
                             old_starters new_starters g products)
                        (Ok g) (_all_combos self);
              Ok (with_starters self g new_starters)
          end
      | _ => Ok (with_starters self g new_starters)
      end
  end.

(** [set_target] *)
Definition relink_target (self : ReactionNetwork) (g : DiGraph)
    (target : gset Entry) : DiGraph :=
  match list_find (λ n, description n = Target) (nodes g) with
  | Some (_, node) =>
      let g := remove_node g node in
      let target_entry := mkRxnEntries target Target in
      foldl (λ g products,
               if decide (target ⊆ products)
               then add_edge g (mkRxnEntries products Products) target_entry
                             0 None
               else g)
            g (_all_combos self)
  | None => g
  end.

Definition set_target (self : ReactionNetwork) (target : Entry)
  : result ReactionNetwork :=
  match _selected_target self with
  | None => Raise TypeError
  | Some selected =>
      if decide (target ∈ selected) then Ok self
      else
        match _rxn_network self with
        | None => Raise AttributeError
        | Some g =>
            let g := relink_target self g {[ target ]} in
            Ok {| _filtered_entries := _filtered_entries self;
                  _max_num_components := _max_num_components self;
                  _all_combos := _all_combos self;
                  _starters := _starters self;
                  _all_targets := _all_targets self;
                  _selected_target := Some [target];
                  _cost_function := _cost_function self;
                  _complex_loopback := _complex_loopback self;
                  _most_negative_rxn := _most_negative_rxn self;
                  _rxn_network := Some g |}
        end
  end.

End WithCollaborators.

End Core.

(** ** [rxn_network/pathways/base.py] *)

Module Pathways.
Import Py.

Section WithEntries.
Context `{Countable Entry}.

(** Modelled from the spec: the attributes of [Reaction]
    ([rxn_network/reactions/base.py], not in the sources) that [Pathway]
    reads. *)
Record Reaction : Type := mkReaction {
  rxn_entries : list Entry;
  rxn_reactants : list Entry;
  rxn_products : list Entry;
  rxn_energy : Q;
  rxn_energy_per_atom : Q
}.

Record Pathway : Type := mkPathway {
  _reactions : list Reaction
}.

Definition entries (self : Pathway) : gset Entry :=
  list_to_set (_reactions self ≫= rxn_entries).

Definition all_reactants (self : Pathway) : gset Entry :=
  list_to_set (_reactions self ≫= rxn_reactants).

Definition all_products (self : Pathway) : gset Entry :=
  list_to_set (_reactions self ≫= rxn_products).

Definition compositions (self : Pathway) : list Entry :=
  elements (all_reactants self ∪ all_products self).

Definition reactants (self : Pathway) : gset Entry :=
  all_reactants self ∖ all_products self.

Definition products (self : Pathway) : gset Entry :=
  all_products self ∖ all_reactants self.

Definition intermediates (self : Pathway) : gset Entry :=
  all_products self ∩ all_reactants self.

(** [sum(rxn.energy for rxn in self._reactions)], with exact additions:
    the rounding of the float sum is not modelled. *)
Definition energy (self : Pathway) : Q :=
  Qsum (map rxn_energy (_reactions self)).

Definition energy_per_atom (self : Pathway) : Q :=
  Qsum (map rxn_energy_per_atom (_reactions self)).

(** The specification's wording of the intermediates, for comparison with
    [intermediates]: the entries that one step produces and the very next
    step consumes. *)
Fixpoint consecutive_intermediates (steps : list Reaction) : gset Entry :=
  match steps with
  | r1 :: ((r2 :: _) as rest) =>
      (list_to_set (rxn_products r1) ∩ list_to_set (rxn_reactants r2))
      ∪ consecutive_intermediates rest
  | _ => ∅
  end.

End WithEntries.

(** *** [Solver] *)

Section WithReactions.
(** Reactions are compared with [==] by [rxn not in rxns]. *)
Context {Rxn : Type} `{EqDecision Rxn}.

(** The attributes of a pathway that [Solver.__init__] reads
    ([path.reactions], [path.costs]); [BasicPathway] itself is not in the
    sources. *)
Record CostedPath : Type := mkCostedPath {
  path_reactions : list Rxn;
  path_costs : list Q
}.

Record Solver : Type := mkSolver {
  _pathways : list CostedPath;
  _solver_reactions : list Rxn;
  _costs : list Q
}.

(** Body of the inner loop: keep a reaction, with its cost, the first time
    it is met. *)
Definition solver_step (acc : list Rxn * list Q) (rc : Rxn * Q)
  : list Rxn * list Q :=
  let '(rxns, costs) := acc in
  if decide (rc.1 ∈ rxns) then acc
  else (rxns ++ [rc.1], costs ++ [rc.2]).

(** [Solver.__init__], given the list [pathways.get_paths()]. *)
Definition solver_init (pathways : list CostedPath) : Solver :=
  let '(rxns, costs) :=
    foldl (λ acc path,
             foldl solver_step acc
                   (zip (path_reactions path) (path_costs path)))
          ([], []) pathways in
  mkSolver pathways rxns costs.

Definition solver_reactions (self : Solver) : list Rxn :=
  _solver_reactions self.

Definition solver_costs (self : Solver) : list Q := _costs self.

Definition num_rxns (self : Solver) : nat := length (solver_reactions self).

End WithReactions.

End Pathways.

(** ** [rxn_network/network/network.py] *)

Module Network.
Import Py.

Inductive NetworkEntryType : Type :=
| Precursors
| Reactants
| Products
| Target.

#[global] Instance NetworkEntryType_eq_dec : EqDecision NetworkEntryType.
Proof. solve_decision. Defined.

(** *** Priority queue of [(cost, path)] tuples *)

(** [p < q] on lists of node indices (lexicographic, a proper prefix is
    smaller). *)
Fixpoint list_ltb (p q : list nat) : bool :=
  match p, q with
  | [], [] => false
  | [], _ :: _ => true
  | _ :: _, [] => false
  | x :: p', y :: q' =>
      if x <? y then true
      else if y <? x then false
      else list_ltb p' q'
  end.

(** Tuple comparison [(c1, p1) < (c2, p2)]. *)
Definition item_ltb (x y : Q * list nat) : bool :=
  Qltb x.1 y.1 || (Qeq_bool x.1 y.1 && list_ltb x.2 y.2).

(** [b.put(item)] *)
Definition b_put (b : list (Q * list nat)) (item : Q * list nat)
  : list (Q * list nat) :=
  b ++ [item].

(** [b.get(block=False)]: a least item together with the remaining queue;
    [None] is [queue.Empty]. *)
Fixpoint b_get (b : list (Q * list nat))
  : option ((Q * list nat) * list (Q * list nat)) :=
  match b with
  | [] => None
  | x :: b' =>
      match b_get b' with
      | None => Some (x, [])
      | Some (y, rest) =>
          if item_ltb y x then Some (y, x :: rest) else Some (x, b')
      end
  end.

Section WithEntries.
Context `{Countable Entry}.

(** The reactions of the [ReactionSet]: opaque objects with the two entry
    lists the graph builder reads. *)
Variable Rxn : Type.
Variable reactant_entries : Rxn → list Entry.
Variable product_entries : Rxn → list Entry.
(** [self.entries.get_min_entry_by_formula(formula)] *)
Variable get_min_entry_by_formula : gset Entry → string → result Entry.

(** Modelled from the spec: [NetworkEntry] of
    [rxn_network/network/entry.py], which is not in the sources.  A graph
    node is a tag together with an entry set, compared by both. *)
Record NetworkEntry : Type := mkNetworkEntry {
  entries : gset Entry;
  description : NetworkEntryType
}.

#[global] Instance NetworkEntry_eq_dec : EqDecision NetworkEntry.
Proof. solve_decision. Defined.

(** The objects stored on edges: the three structural markers (strings in
    the source) and reactions.  No other object is ever stored, so the
    [ValueError] branch of [get_edge_weight] has no counterpart. *)
Inductive EdgeObj : Type :=
| loopback_edge
| precursor_edge
| target_edge
| ReactionEdge (r : Rxn).

(** *** The rustworkx [PyDiGraph] *)

(** Nodes live in index-addressed slots; a removed node leaves a vacant slot
    that the next [add_node] reuses (most recently vacated first).  Parallel
    edges are allowed; the edge list is kept most recent first, which is the
    order in which an edge between two nodes is looked up. *)
Record PyDiGraph : Type := mkPyDiGraph {
  node_slots : list (option NetworkEntry);
  free_slots : list nat;
  edge_list : list (nat * nat * EdgeObj)
}.

Definition empty_graph : PyDiGraph := mkPyDiGraph [] [] [].

Definition node_indices (g : PyDiGraph) : list nat :=
  filter (λ i, is_Some (mjoin (node_slots g !! i)))
         (seq 0 (length (node_slots g))).

Definition get_node_data (g : PyDiGraph) (i : nat) : option NetworkEntry :=
  mjoin (node_slots g !! i).

(** [len(g)], which decides the truth value of a graph object. *)
Definition num_nodes (g : PyDiGraph) : nat := length (node_indices g).

Definition add_node (g : PyDiGraph) (n : NetworkEntry) : PyDiGraph * nat :=
  match free_slots g with
  | i :: rest =>
      (mkPyDiGraph (<[i := Some n]> (node_slots g)) rest (edge_list g), i)
  | [] =>
      (mkPyDiGraph (node_slots g ++ [Some n]) [] (edge_list g),
       length (node_slots g))
  end.

Definition add_nodes_from (g : PyDiGraph) (ns : list NetworkEntry)
  : PyDiGraph :=
  foldl (λ g n, (add_node g n).1) g ns.

(** [g.remove_node(i)]: silently ignores an index that holds no node. *)
Definition remove_node (g : PyDiGraph) (i : nat) : PyDiGraph :=
  match get_node_data g i with
  | None => g
  | Some _ =>
      mkPyDiGraph (<[i := None]> (node_slots g)) (i :: free_slots g)
        (filter (λ e, e.1.1 ≠ i ∧ e.1.2 ≠ i) (edge_list g))
  end.

Definition add_edge (g : PyDiGraph) (e : nat * nat * EdgeObj) : PyDiGraph :=
  mkPyDiGraph (node_slots g) (free_slots g) (e :: edge_list g).

Definition add_edges_from (g : PyDiGraph) (es : list (nat * nat * EdgeObj))
  : PyDiGraph :=
  foldl add_edge g es.

Definition connects (u v : nat) (e : nat * nat * EdgeObj) : bool :=
  (e.1.1 =? u) && (e.1.2 =? v).

(** [g.get_edge_data(u, v)]; [None] is [NoEdgeBetweenNodes]. *)
Definition get_edge_data (g : PyDiGraph) (u v : nat) : option EdgeObj :=
  snd <$> find (connects u v) (edge_list g).

Fixpoint remove_first (u v : nat) (es : list (nat * nat * EdgeObj))
  : list (nat * nat * EdgeObj) :=
  match es with
  | [] => []
  | e :: es' => if connects u v e then es' else e :: remove_first u v es'
  end.

(** [g.remove_edge(u, v)] for an edge that exists: removes the edge that
    [get_edge_data] returns. *)
Definition remove_edge (g : PyDiGraph) (u v : nat) : PyDiGraph :=
  mkPyDiGraph (node_slots g) (free_slots g) (remove_first u v (edge_list g)).

(** *** Edge weights *)

Definition get_edge_weight (edge_obj : EdgeObj) (cf : Rxn → Q) : Q :=
  match edge_obj with
  | loopback_edge | precursor_edge | target_edge => 0%Q
  | ReactionEdge r => cf r
  end.

(** *** [rx.dijkstra_shortest_paths]

    The library routine, called with the indices of two nodes of the graph.
    Nodes are settled in order of tentative score; a score is replaced only
    by a strictly smaller one; the search stops when the target is settled.
    The frontier holds one [(node, score, path)] triple per discovered,
    unsettled node; among equal scores the earliest discovered is settled
    first.

    The weight of an edge is asked for when the edge is scanned, that is
    for every edge that leaves the node being settled and does not end at a
    node settled before; the routine refuses a negative weight with
    [ValueError].  (It refuses a NaN alike; costs are rationals here, so
    none arises.) *)

Definition Label : Type := nat * Q * list nat.

Fixpoint min_label (frontier : list Label) : option Label :=
  match frontier with
  | [] => None
  | x :: rest =>
      match min_label rest with
      | None => Some x
      | Some y => if Qltb y.1.2 x.1.2 then Some y else Some x
      end
  end.

(** The weight callback as the routine sees it. *)
Definition edge_cost (cf : Rxn → Q) (edge_obj : EdgeObj) : result Q :=
  let w := get_edge_weight edge_obj cf in
  if Qltb w 0 then Raise ValueError else Ok w.

(** One edge [e] out of [node], which is being settled with score
    [node_score] and path [node_path]; [visited] are the nodes settled
    before.  An edge back to [node] itself has its weight asked for, and
    cannot lower the score of [node]. *)
Definition relax (cf : Rxn → Q) (visited : list nat) (node : nat)
    (node_score : Q) (node_path : list nat)
    (acc : result (list Label)) (e : nat * nat * EdgeObj)
  : result (list Label) :=
  frontier ← acc;
  let next := e.1.2 in
  if bool_decide (next ∈ visited) then Ok frontier
  else
    cost ← edge_cost cf e.2;
    if next =? node then Ok frontier
    else
      let next_score := (node_score + cost)%Q in
      match find (λ l : Label, l.1.1 =? next) frontier with
      | Some old =>
          if Qltb next_score old.1.2
          then Ok (map (λ l : Label,
                          if l.1.1 =? next
                          then (next, next_score, node_path ++ [next])
                          else l)
                       frontier)
          else Ok frontier
      | None => Ok (frontier ++ [(next, next_score, node_path ++ [next])])
      end.

Fixpoint dijkstra_loop (cf : Rxn → Q) (es : list (nat * nat * EdgeObj))
    (target : nat) (fuel : nat) (visited : list nat)
    (frontier : list Label) : result (option (list nat)) :=
  match fuel with
  | O => Ok None
  | S fuel' =>
      match min_label frontier with
      | None => Ok None
      | Some (node, node_score, node_path) =>
          if node =? target then Ok (Some node_path)
          else
            let frontier :=
              filter (λ l : Label, l.1.1 ≠ node) frontier in
            frontier ← foldl (relax cf visited node node_score node_path)
                             (Ok frontier)
                             (filter (λ e, e.1.1 = node) es);
            dijkstra_loop cf es target fuel' (node :: visited) frontier
      end
  end.

(** The number of rounds is bounded by the number of edges plus one, which
    bounds the number of nodes reachable from the source.

    [rx.dijkstra_shortest_paths(g, source, target, weight_fn)[target]], or
    [None] when the returned mapping is empty (the target is unreachable, or
    is the source itself). *)
Definition dijkstra_shortest_paths (g : PyDiGraph) (cf : Rxn → Q)
    (source target : nat) : result (option (list nat)) :=
  if source =? target then Ok None
  else dijkstra_loop cf (edge_list g) target (S (length (edge_list g)))
         [] [(source, 0%Q, [source])].

(** *** [yens_ksp] *)

(** The local function [path_cost]. *)
Fixpoint path_cost_from (g : PyDiGraph) (cf : Rxn → Q) (cost : Q)
    (nodes : list nat) : result Q :=
  match nodes with
  | u :: ((v :: _) as rest) =>
      match get_edge_data g u v with
      | None => Raise NoEdgeBetweenNodes
      | Some e => path_cost_from g cf (cost + get_edge_weight e cf)%Q rest
      end
  | _ => Ok cost
  end.

Definition path_cost (g : PyDiGraph) (cf : Rxn → Q) (nodes : list nat)
  : result Q :=
  path_cost_from g cf 0%Q nodes.

(** Body of [for path in a]: hide the edge that an accepted path sharing the
    root takes at position [i]. *)
Definition prune_step (i : nat) (root_path : list nat)
    (acc : PyDiGraph * list (nat * nat * EdgeObj)) (path : list nat)
  : PyDiGraph * list (nat * nat * EdgeObj) :=
  let '(g, removed_edges) := acc in
  if (i <? length path - 1) && bool_decide (root_path = take i path) then
    match path !! i, path !! (i + 1) with
    | Some u, Some v =>
        match get_edge_data g u v with
        | None => acc
        | Some e => (remove_edge g u v, removed_edges ++ [(u, v, e)])
        end
    | _, _ => acc
    end
  else acc.

(** Body of [for i in range(len(prev_path) - 1)]. *)
Definition spur_step (cf : Rxn → Q) (target_node : nat)
    (a : list (list nat)) (prev_path : list nat)
    (acc : result (PyDiGraph * list (Q * list nat))) (i : nat)
  : result (PyDiGraph * list (Q * list nat)) :=
  '(g, b) ← acc;
  match prev_path !! i with
  | None => Raise IndexError
  | Some spur_node =>
      let root_path := take i prev_path in
      let '(g, removed_edges) := foldl (prune_step i root_path) (g, []) a in
      spur_path ← dijkstra_shortest_paths g cf spur_node target_node;
      let g := add_edges_from g removed_edges in
      match spur_path with
      | Some sp =>
          let total_path := root_path ++ sp in
          total_path_cost ← path_cost g cf total_path;
          Ok (g, b_put b (total_path_cost, total_path))
      | None => Ok (g, b)
      end
  end.

(** The [while True] loop: pop until a path not yet accepted turns up or the
    queue is empty.  [fuel] bounds the number of pops. *)
Fixpoint drain (fuel : nat) (a : list (list nat)) (a_costs : list Q)
    (b : list (Q * list nat))
  : list (list nat) * list Q * list (Q * list nat) :=
  match fuel with
  | O => (a, a_costs, b)
  | S fuel' =>
      match b_get b with
      | None => (a, a_costs, b)
      | Some ((cost_, path_), b') =>
          if bool_decide (path_ ∈ a) then drain fuel' a a_costs b'
          else (a ++ [path_], a_costs ++ [cost_], b')
      end
  end.

(** [for k in range(1, num_k)], over the remaining values [ks] of [k]. *)
Fixpoint yens_loop (cf : Rxn → Q) (target_node : nat) (ks : list nat)
    (g : PyDiGraph) (a : list (list nat)) (a_costs : list Q)
    (b : list (Q * list nat)) : result (list (list nat)) :=
  match ks with
  | [] => Ok a
  | k :: ks' =>
      match a !! (k - 1) with
      | None => Ok a
      | Some prev_path =>
          '(g, b) ← foldl (spur_step cf target_node a prev_path)
                          (Ok (g, b)) (seq 0 (length prev_path - 1));
          let '(a, a_costs, b) := drain (length b) a a_costs b in
          yens_loop cf target_node ks' g a a_costs b
      end
  end.

Definition yens_ksp (g : PyDiGraph) (cf : Rxn → Q) (num_k : Z)
    (precursors_node target_node : nat) : result (list (list nat)) :=
  path ← dijkstra_shortest_paths g cf precursors_node target_node;
  match path with
  | None => Ok []
  | Some path =>
      cost ← path_cost g cf path;
      yens_loop cf target_node (seq 1 (Z.to_nat (num_k - 1)))
                g [path] [cost] []
  end.

(** *** Graph construction *)

(** [nodes.index(n)] if [n in nodes], else append. *)
Definition node_index (nodes : list NetworkEntry) (n : NetworkEntry)
  : list NetworkEntry * nat :=
  match list_find (λ x, x = n) nodes with
  | Some (i, _) => (nodes, i)
  | None => (nodes ++ [n], length nodes)
  end.

Definition get_rxn_nodes_and_edges (rxns : list Rxn)
  : list NetworkEntry * list (nat * nat * EdgeObj) :=
  foldl (λ acc rxn,
           let '(nodes, edges) := acc in
           let reactant_node :=
             mkNetworkEntry (list_to_set (reactant_entries rxn)) Reactants in
           let product_node :=
             mkNetworkEntry (list_to_set (product_entries rxn)) Products in
           let '(nodes, reactant_idx) := node_index nodes reactant_node in
           let '(nodes, product_idx) := node_index nodes product_node in
           (nodes, edges ++ [(reactant_idx, product_idx, ReactionEdge rxn)]))
        ([], []) rxns.

Definition get_loopback_edges (nodes : list NetworkEntry)
  : list (nat * nat * EdgeObj) :=
  '(idx1, p) ← imap pair nodes;
  if bool_decide (description p ≠ Products) then []
  else
    '(idx2, r) ← imap pair nodes;
    if bool_decide (description r ≠ Reactants) then []
    else if bool_decide (entries p = entries r)
         then [(idx1, idx2, loopback_edge)]
         else [].

(** *** Network state *)

Record ReactionNetwork : Type := mkReactionNetwork {
  rxns : list Rxn;
  (** [self.entries]: the entries of the reaction set *)
  net_entries : gset Entry;
  _g : option PyDiGraph;
  _precursors : option (gset Entry);
  _target : option Entry
}.

Definition build (self : ReactionNetwork) : ReactionNetwork :=
  let '(nodes, edges) := get_rxn_nodes_and_edges (rxns self) in
  let edges := edges ++ get_loopback_edges nodes in
  let g := add_nodes_from empty_graph nodes in
  let g := add_edges_from g edges in
  mkReactionNetwork (rxns self) (net_entries self) (Some g)
                    (_precursors self) (_target self).

(** An argument given either as an entry or as a formula string. *)
Inductive EntryOrStr : Type :=
| AsEntry (e : Entry)
| AsStr (formula : string).

Definition resolve (self : ReactionNetwork) (p : EntryOrStr) : result Entry :=
  match p with
  | AsEntry e => Ok e
  | AsStr formula => get_min_entry_by_formula (net_entries self) formula
  end.

Fixpoint resolve_all (self : ReactionNetwork) (ps : list EntryOrStr)
  : result (list Entry) :=
  match ps with
  | [] => Ok []
  | p :: ps' =>
      e ← resolve self p;
      es ← resolve_all self ps';
      Ok (e :: es)
  end.

(** Truth value of [self._g]: neither [None] nor a graph without nodes. *)
Definition graph_built (self : ReactionNetwork) : option PyDiGraph :=
  match _g self with
  | Some g => if num_nodes g =? 0 then None else Some g
  | None => None
  end.

(** Truth value of [self.precursors]: neither [None] nor the empty set. *)
Definition has_precursors (self : ReactionNetwork) : bool :=
  match _precursors self with
  | Some old => bool_decide (old ≠ ∅)
  | None => false
  end.

(** The [for ... else] search for the node carrying tag [t]. *)
Definition find_tagged (g : PyDiGraph) (t : NetworkEntryType) : option nat :=
  fst <$> list_find
    (λ node, description <$> get_node_data g node = Some t) (node_indices g).

(** The edges collected by the loop of [set_precursors]. *)
Definition precursor_links (g : PyDiGraph) (precursors : gset Entry)
    (precursors_node : nat) : list (nat * nat * EdgeObj) :=
  node ← node_indices g;
  match get_node_data g node with
  | None => []
  | Some entry =>
      match description entry with
      | Reactants =>
          if bool_decide (entries entry ⊆ precursors)
          then [(precursors_node, node, precursor_edge)] else []
      | Products =>
          node2 ← node_indices g;
          match get_node_data g node2 with
          | None => []
          | Some entry2 =>
              if bool_decide (description entry2 = Reactants) then
                if bool_decide (entries entry2 ⊆ precursors) then []
                else if bool_decide
                          (entries entry2 ⊆ precursors ∪ entries entry)
                     then [(node, node2, loopback_edge)] else []
              else []
          end
      | _ => []
      end
  end.

Definition set_precursors (self : ReactionNetwork)
    (precursors : list EntryOrStr) : result ReactionNetwork :=
  match graph_built self with
  | None => Raise ValueError
  | Some g =>
      ps ← resolve_all self precursors;
      let precursors : gset Entry := list_to_set ps in
      if bool_decide (Some precursors = _precursors self) then Ok self
      else if bool_decide (precursors ⊆ net_entries self) then
        let precursors_entry := mkNetworkEntry precursors Precursors in
        g ← (if has_precursors self
             then match find_tagged g Precursors with
                  | Some node => Ok (remove_node g node)
                  | None => Raise ValueError
                  end
             else Ok g);
        let '(g, precursors_node) := add_node g precursors_entry in
        let edges_to_add := precursor_links g precursors precursors_node in
        let g := add_edges_from g edges_to_add in
        Ok (mkReactionNetwork (rxns self) (net_entries self) (Some g)
                              (Some precursors) (_target self))
      else Raise ValueError
  end.

(** The edges collected by the loop of [set_target]. *)
Definition target_links (g : PyDiGraph) (target : Entry) (target_node : nat)
  : list (nat * nat * EdgeObj) :=
  node ← node_indices g;
  match get_node_data g node with
  | None => []
  | Some entry =>
      if bool_decide (description entry ≠ Products) then []
      else if bool_decide (target ∈ entries entry)
           then [(node, target_node, target_edge)] else []
  end.

Definition set_target (self : ReactionNetwork) (target : EntryOrStr)
  : result ReactionNetwork :=
  match graph_built self with
  | None => Raise ValueError
  | Some g =>
      target ← resolve self target;
      if bool_decide (Some target = _target self) then Ok self
      else if bool_decide (target ∈ net_entries self) then
        g ← (if bool_decide (is_Some (_target self))
             then match find_tagged g Target with
                  | Some node => Ok (remove_node g node)
                  | None => Raise ValueError
                  end
             else Ok g);
        let target_entry := mkNetworkEntry {[ target ]} Target in
        let '(g, target_node) := add_node g target_entry in
        let edges_to_add := target_links g target target_node in
        let g := add_edges_from g edges_to_add in
        Ok (mkReactionNetwork (rxns self) (net_entries self) (Some g)
                              (_precursors self) (Some target))
      else Raise ValueError
  end.

(** *** Pathways from paths *)

(** [g.find_node_by_weight(obj)]: the first index whose node equals
    [obj]. *)
Definition find_node_by_weight (g : PyDiGraph) (obj : NetworkEntry)
  : option nat :=
  snd <$> list_find (λ i, get_node_data g i = Some obj) (node_indices g).

(** Body of the loop of [_path_from_graph] at position [step] of [path].
    [path[step - 1]] is the last element of the path when [step] is [0];
    [get_node_data] raises on an index that holds no node. *)
Definition path_step (g : PyDiGraph) (cf : Rxn → Q) (path : list nat)
    (acc : result (list EdgeObj * list Q)) (sn : nat * nat)
  : result (list EdgeObj * list Q) :=
  '(rxns, costs) ← acc;
  match get_node_data g sn.2 with
  | None => Raise IndexError
  | Some entry =>
      if bool_decide (description entry = Products) then
        match (if sn.1 =? 0 then last path else path !! (sn.1 - 1)) with
        | None => Raise IndexError
        | Some prev =>
            match get_edge_data g prev sn.2 with
            | None => Raise NoEdgeBetweenNodes
            | Some e => Ok (rxns ++ [e], costs ++ [get_edge_weight e cf])
            end
        end
      else Ok (rxns, costs)
  end.

(** [_path_from_graph]: the arguments given to [BasicPathway]. *)
Definition _path_from_graph (g : PyDiGraph) (path : list nat) (cf : Rxn → Q)
  : result (list EdgeObj * list Q) :=
  foldl (path_step g cf path) (Ok ([], [])) (imap pair path).

(** [_k_shortest_paths].  The two node look-ups presuppose a precursor set
    and a target; a look-up that finds no node hands [None] to the path
    finder, which raises on it. *)
Definition _k_shortest_paths (self : ReactionNetwork) (cf : Rxn → Q) (k : Z)
  : result (list (list EdgeObj * list Q)) :=
  match _g self with
  | None => Raise AttributeError
  | Some g =>
      match _precursors self, _target self with
      | Some precursors, Some target =>
          match find_node_by_weight g (mkNetworkEntry precursors Precursors),
                find_node_by_weight g (mkNetworkEntry {[ target ]} Target)
          with
          | Some precursors_node, Some target_node =>
              paths ← yens_ksp g cf k precursors_node target_node;
              foldl (λ acc path,
                       paths ← acc;
                       p ← _path_from_graph g path cf;
                       Ok (paths ++ [p]))
                    (Ok []) paths
          | _, _ => Raise TypeError
          end
      | _, _ => Raise TypeError
      end
  end.

(** [find_pathways], up to the list handed to [PathwaySet.from_paths];
    the network is returned with it, since [set_target] changes it. *)
Definition find_pathways (self : ReactionNetwork) (cf : Rxn → Q)
    (targets : list EntryOrStr) (k : Z)
  : result (ReactionNetwork * list (list EdgeObj * list Q)) :=
  if has_precursors self then
    foldl (λ acc target,
             '(self, paths) ← acc;
             self ← set_target self target;
             pathways ← _k_shortest_paths self cf k;
             Ok (self, paths ++ pathways))
          (Ok (self, [])) targets
  else Raise AttributeError.

End WithEntries.

End Network.

(** ** Vocabulary of the properties *)

Module Props.
Import Py.

Section CoreGraph.
Context `{Countable Entry} `{Countable Composition}.

(** The weight stored on edge [u → v] of the network's graph. *)
Definition edge_weight (self : Core.ReactionNetwork (Composition:=Composition))
    (u v : Core.RxnEntries (Entry:=Entry)) : option Q :=
  g ← Core._rxn_network self;
  e ← Core.adj g !! (u, v);
  Some (Core.weight e).

End CoreGraph.

Section CoreBuilder.
Context `{Countable Entry} `{Countable Element} `{Countable Composition}.
Variable composition_elements : Entry → list Element.
Variable reduced_composition : Entry → Composition.
Variable ComputedReaction :
  gset Entry → gset Entry → option (Core.Reaction (Composition:=Composition)).
Variable np_exp : Q → Q.
Variable np_log : Q → Q.
Variable kb : Q.

Definition Rnode (reactants : gset Entry) : Core.RxnEntries :=
  Core.mkRxnEntries reactants Core.Reactants.
Definition Pnode (products : gset Entry) : Core.RxnEntries :=
  Core.mkRxnEntries products Core.Products.

(** Balancing succeeded with reaction [r], every coefficient has magnitude
    at least the tolerance, and the compositions on either side of [r] are
    those of the candidate pair. *)
Definition well_balanced (reactants products : gset Entry)
    (r : Core.Reaction (Composition:=Composition)) : Prop :=
  ComputedReaction reactants products = Some r
  ∧ Forall (λ c, (Core.TOLERANCE r <= Qabs c)%Q) (Core.coeffs r)
  ∧ Core.combo_comps reduced_composition reactants
      = list_to_set (Core.rxn_reactants r)
  ∧ Core.combo_comps reduced_composition products
      = list_to_set (Core.rxn_products r).

(** The candidate pair passes every filter of the builder. *)
Definition admissible (reactants products : gset Entry)
    (r : Core.Reaction (Composition:=Composition)) : Prop :=
  reactants ≠ products
  ∧ Core.combo_elems composition_elements reactants
      = Core.combo_elems composition_elements products
  ∧ well_balanced reactants products r.

(** The weight a strategy gives an energy before any shift. *)
Definition raw_weight (cost_function : string) (energy : Q) : Q :=
  (Core.determine_rxn_weight np_exp np_log kb None energy cost_function).1.

(** The strategies that record the running minimum. *)
Definition tracks_minimum (cost_function : string) : Prop :=
  cost_function = "bipartite" ∨ cost_function = "enthalpies_positive".

(** What the builder maintains while it adds edges: an edge that carries a
    reaction joins the Reactants node and the Products node of an admissible
    pair of combinations, weighs what the strategy gives its energy per
    atom, and (for a tracking strategy) that energy is bounded below by the
    running minimum; an edge without a reaction does not leave a Reactants
    node. *)
Definition edges_sound (cost_function : string)
    (all_combos : list (gset Entry))
    (a : gmap (Core.RxnEntries * Core.RxnEntries)
              (Core.EdgeAttr (Composition:=Composition)))
    (m : option Q) : Prop :=
  ∀ u v e, a !! (u, v) = Some e →
    match Core.rxn e with
    | Some r =>
        ∃ reactants products,
          u = Rnode reactants ∧ v = Pnode products
          ∧ reactants ∈ all_combos ∧ products ∈ all_combos
          ∧ admissible reactants products r
          ∧ Core.weight e = raw_weight cost_function (Core.dg_per_atom r)
          ∧ (tracks_minimum cost_function →
             ∃ lo, m = Some lo ∧ (lo <= Core.dg_per_atom r)%Q)
    | None => Core.description u ≠ Core.Reactants
    end.

(** The loopback invariant of the networkx graph: an edge from a Products
    node to a Reactants node leads, in complex mode, to a combination drawn
    from the source combination and the starters and, in simple mode, to the
    source combination itself. *)
Definition loopbacks_within (complex_loopback : bool) (starters : gset Entry)
    (a : gmap (Core.RxnEntries * Core.RxnEntries)
              (Core.EdgeAttr (Composition:=Composition))) : Prop :=
  ∀ u v e, a !! (u, v) = Some e →
    Core.description u = Core.Products →
    Core.description v = Core.Reactants →
    if complex_loopback
    then Core.entries v ⊆ Core.entries u ∪ starters
    else Core.entries v = Core.entries u.

(** How the builder produces loopback edges: in complex mode the source is
    a combination of the network and the destination one of the
    combinations generated from the source and the starters; in simple mode
    the destination is the source combination. *)
Definition loopbacks_generated (complex_loopback : bool)
    (max_num_components : Z) (all_combos : list (gset Entry))
    (starters : gset Entry)
    (a : gmap (Core.RxnEntries * Core.RxnEntries)
              (Core.EdgeAttr (Composition:=Composition))) : Prop :=
  ∀ u v e, a !! (u, v) = Some e →
    Core.description u = Core.Products →
    Core.description v = Core.Reactants →
    if complex_loopback
    then Core.entries u ∈ all_combos
         ∧ Core.entries v
             ∈ Core.generate_all_combos
                 (elements (Core.entries u ∪ starters)) max_num_components
    else Core.entries v = Core.entries u.

End CoreBuilder.

Section CoreLinks.
Context `{Countable Entry} `{Countable Composition}.
Variable np_exp : Q → Q.
Variable np_log : Q → Q.
Variable kb : Q.

Definition Snode (starters : gset Entry) : Core.RxnEntries :=
  Core.mkRxnEntries starters Core.Starters.
Definition Tnode (target : gset Entry) : Core.RxnEntries :=
  Core.mkRxnEntries target Core.Target.

(** The attributes of a structural edge: weight [0] and no reaction. *)
Definition plain_edge : Core.EdgeAttr (Composition:=Composition) :=
  Core.mkEdgeAttr 0 None.

(** What a pass of [set_cost_function] leaves on an edge: a reaction edge
    weighs what the strategy gives the energy per atom of its reaction, and
    any other edge is as it was. *)
Definition recost_edge (cost_function : string)
    (e : Core.EdgeAttr (Composition:=Composition))
  : Core.EdgeAttr (Composition:=Composition) :=
  match Core.rxn e with
  | Some r =>
      Core.mkEdgeAttr
        (raw_weight np_exp np_log kb cost_function (Core.dg_per_atom r))
        (Some r)
  | None => e
  end.

(** The combinations a Products node [P] loops back to. *)
Definition loopback_combos (complex_loopback : bool) (max_num_components : Z)
    (starters products : gset Entry) : list (gset Entry) :=
  if complex_loopback
  then Core.generate_all_combos (elements (products ∪ starters))
         max_num_components
  else [products].

(** [u → v] is a structural edge of the network with starters [S] and
    target set [T]: from the Starters node to the Reactants node of a
    combination within the starters, from the Products node of a
    combination that includes the target to the Target node, or a loopback
    edge. *)
Definition structural_link (complex_loopback : bool)
    (max_num_components : Z) (all_combos : list (gset Entry))
    (starters target : gset Entry) (u v : Core.RxnEntries (Entry:=Entry))
  : Prop :=
  (u = Snode starters
   ∧ ∃ R, v = Rnode R ∧ R ∈ all_combos ∧ R ⊆ starters)
  ∨ (∃ P, u = Pnode P ∧ P ∈ all_combos ∧ v = Tnode target ∧ target ⊆ P)
  ∨ (∃ P c, u = Pnode P ∧ P ∈ all_combos ∧ v = Rnode c
            ∧ c ∈ loopback_combos complex_loopback max_num_components
                    starters P).

(** Every edge is of a known kind: one that does not leave a Reactants node
    is a structural link and has weight [0] and no reaction; one that
    leaves a Reactants node carries a reaction and ends at a Products
    node. *)
Definition shaped (complex_loopback : bool) (max_num_components : Z)
    (all_combos : list (gset Entry)) (starters target : gset Entry)
    (a : gmap (Core.RxnEntries * Core.RxnEntries)
              (Core.EdgeAttr (Composition:=Composition))) : Prop :=
  (∀ u v e, a !! (u, v) = Some e →
     Core.description u ≠ Core.Reactants →
     e = plain_edge
     ∧ structural_link complex_loopback max_num_components all_combos
         starters target u v)
  ∧ (∀ u v e, a !! (u, v) = Some e →
       Core.description u = Core.Reactants →
       Core.description v = Core.Products ∧ is_Some (Core.rxn e)).

(** Every structural link is an edge. *)
Definition linked (complex_loopback : bool) (max_num_components : Z)
    (all_combos : list (gset Entry)) (starters target : gset Entry)
    (a : gmap (Core.RxnEntries * Core.RxnEntries)
              (Core.EdgeAttr (Composition:=Composition))) : Prop :=
  ∀ u v, structural_link complex_loopback max_num_components all_combos
           starters target u v → is_Some (a !! (u, v)).

(** The shape of the graph: the edges that do not leave a Reactants node
    are exactly the structural links. *)
Definition structured (complex_loopback : bool) (max_num_components : Z)
    (all_combos : list (gset Entry)) (starters target : gset Entry)
    (a : gmap (Core.RxnEntries * Core.RxnEntries)
              (Core.EdgeAttr (Composition:=Composition))) : Prop :=
  shaped complex_loopback max_num_components all_combos starters target a
  ∧ linked complex_loopback max_num_components all_combos starters target a.

(** A node tagged Starters or Target is the node of [S] or of [T]. *)
Definition tagged (starters target : gset Entry)
    (ns : list (Core.RxnEntries (Entry:=Entry))) : Prop :=
  ∀ n, n ∈ ns →
    (Core.description n = Core.Starters → n = Snode starters)
    ∧ (Core.description n = Core.Target → n = Tnode target).

(** The graph has the Starters node of [S], and no other node tagged
    Starters or Target than those of [S] and [T]. *)
Definition terminals (starters target : gset Entry)
    (ns : list (Core.RxnEntries (Entry:=Entry))) : Prop :=
  Snode starters ∈ ns ∧ tagged starters target ns.

(** The state of a network whose graph has the shape above for the
    loopback mode, the starters and the selected target it records. *)
Definition well_formed
    (st : Core.ReactionNetwork (Entry:=Entry) (Composition:=Composition))
    (complex_loopback : bool) (starters : gset Entry) (target : Entry)
    (g : Core.DiGraph) : Prop :=
  Core._rxn_network st = Some g
  ∧ Core._complex_loopback st = Some complex_loopback
  ∧ Core._starters st = Some starters
  ∧ Core._selected_target st = Some [target]
  ∧ structured complex_loopback (Core._max_num_components st)
      (Core._all_combos st) starters {[ target ]} (Core.adj g)
  ∧ terminals starters {[ target ]} (Core.nodes g).

End CoreLinks.

Section NetworkGraph.
Context `{Countable Entry}.
Variable Rxn : Type.

(** A loopback edge [src → dst] respects the complex-mode invariant when
    both ends hold nodes and the destination's entries are drawn from the
    source's entries and the precursors. *)
Definition loopback_within (g : Network.PyDiGraph Rxn)
    (precursors : gset Entry) (src dst : nat) : bool :=
  match Network.get_node_data Rxn g src, Network.get_node_data Rxn g dst with
  | Some p, Some r =>
      bool_decide (Network.entries r ⊆ Network.entries p ∪ precursors)
  | _, _ => false
  end.

(** The graph has a loopback edge [src → dst]. *)
Definition has_loopback (g : Network.PyDiGraph (Entry:=Entry) Rxn)
    (src dst : nat) : bool :=
  existsb (λ e, match e with
                | (u, v, Network.loopback_edge _) => (u =? src) && (v =? dst)
                | _ => false
                end)
          (Network.edge_list Rxn g).

(** Node [i] of [g] carries tag [t]. *)
Definition has_tag (g : Network.PyDiGraph (Entry:=Entry) Rxn) (i : nat)
    (t : Network.NetworkEntryType) : Prop :=
  Network.description <$> Network.get_node_data Rxn g i = Some t.

(** The ends of an edge hold nodes of the kinds its label calls for. *)
Definition edge_typed (g : Network.PyDiGraph (Entry:=Entry) Rxn)
    (e : nat * nat * Network.EdgeObj Rxn) : Prop :=
  match e.2 with
  | Network.ReactionEdge _ _ =>
      has_tag g e.1.1 Network.Reactants ∧ has_tag g e.1.2 Network.Products
  | Network.loopback_edge _ =>
      has_tag g e.1.1 Network.Products ∧ has_tag g e.1.2 Network.Reactants
  | Network.precursor_edge _ =>
      has_tag g e.1.1 Network.Precursors ∧ has_tag g e.1.2 Network.Reactants
  | Network.target_edge _ =>
      has_tag g e.1.1 Network.Products ∧ has_tag g e.1.2 Network.Target
  end.

(** A graph whose edges all join nodes of the right kinds and whose node
    slots are all taken: no index below the number of slots is vacant. *)
Definition graph_typed (g : Network.PyDiGraph (Entry:=Entry) Rxn) : Prop :=
  Forall (edge_typed g) (Network.edge_list Rxn g)
  ∧ Network.free_slots Rxn g = []
  ∧ ∀ i, Network.node_slots Rxn g !! i ≠ Some None.

(** The edges one call of [set_precursors] adds for the precursor set [P]
    held at node [pn]: a precursor edge from [pn] to every Reactants node
    within [P], and a loopback edge from a Products node to every Reactants
    node that is not within [P] but is within [P] and the products. *)
Definition precursor_link (g : Network.PyDiGraph (Entry:=Entry) Rxn)
    (P : gset Entry) (pn : nat) (e : nat * nat * Network.EdgeObj Rxn)
  : Prop :=
  (e.2 = Network.precursor_edge Rxn ∧ e.1.1 = pn
   ∧ ∃ r, Network.get_node_data Rxn g e.1.2 = Some r
          ∧ Network.description r = Network.Reactants
          ∧ Network.entries r ⊆ P)
  ∨ (e.2 = Network.loopback_edge Rxn
     ∧ ∃ p r, Network.get_node_data Rxn g e.1.1 = Some p
              ∧ Network.description p = Network.Products
              ∧ Network.get_node_data Rxn g e.1.2 = Some r
              ∧ Network.description r = Network.Reactants
              ∧ Network.entries r ⊈ P
              ∧ Network.entries r ⊆ P ∪ Network.entries p).

(** The edges one call of [set_target] adds for the target [t] held at
    node [tn]: a target edge from every Products node that contains [t]. *)
Definition target_link (g : Network.PyDiGraph (Entry:=Entry) Rxn)
    (t : Entry) (tn : nat) (e : nat * nat * Network.EdgeObj Rxn) : Prop :=
  e.2 = Network.target_edge Rxn ∧ e.1.2 = tn
  ∧ ∃ p, Network.get_node_data Rxn g e.1.1 = Some p
         ∧ Network.description p = Network.Products
         ∧ t ∈ Network.entries p.

(** Consecutive nodes of [path] are joined by an edge of [es]. *)
Fixpoint is_walk (es : list (nat * nat * Network.EdgeObj Rxn))
    (path : list nat) : Prop :=
  match path with
  | u :: ((v :: _) as rest) => (∃ e, (u, v, e) ∈ es) ∧ is_walk es rest
  | _ => True
  end.

(** The edge objects met along the path [u :: suf] on the way into its
    Products nodes: for every node of [suf] that holds a Products node, the
    object of the edge from the node before it. *)
Fixpoint reactions_along (g : Network.PyDiGraph (Entry:=Entry) Rxn)
    (u : nat) (suf : list nat) : list (Network.EdgeObj Rxn) :=
  match suf with
  | [] => []
  | v :: rest =>
      (if bool_decide (Network.description <$> Network.get_node_data Rxn g v
                       = Some Network.Products)
       then option_list (Network.get_edge_data Rxn g u v) else [])
      ++ reactions_along g v rest
  end.

(** No edge of [es] has a negative weight under [cf]. *)
Definition weights_nonneg (cf : Rxn → Q)
    (es : list (nat * nat * Network.EdgeObj Rxn)) : Prop :=
  Forall (λ e, (0 <= Network.get_edge_weight Rxn e.2 cf)%Q) es.

(** No node index occurs twice. *)
Definition loopless (path : list nat) : Prop := NoDup path.

(** Costs in non-decreasing order. *)
Definition cost_sorted (costs : list Q) : Prop := Sorted Qle costs.

End NetworkGraph.

End Props.

(** ** Concrete inputs used by the examples below

    Entries are numbered; formula strings are never looked up. *)

Module Examples.
Import Py.

(** A three-step pathway: [0 → 1], [2 → 3], [1 → 4]. *)
Definition three_steps : Pathways.Pathway (Entry:=nat) :=
  Pathways.mkPathway
    [ Pathways.mkReaction [0; 1] [0] [1] (-1)%Q (-1)%Q;
      Pathways.mkReaction [2; 3] [2] [3] (-2)%Q (-2)%Q;
      Pathways.mkReaction [1; 4] [1] [4] (-3)%Q (-3)%Q ].

(** *** A two-phase system for the graph builder

    Entries [0] and [1] are two phases of one element [0]; the balancer
    knows [0 → 1] with energy [-1] and [1 → 0] with energy [1], one atom
    each. *)
Definition phase_rxn (energy : Q) (r p : nat) : Core.Reaction (Composition:=nat) :=
  Core.mkReaction [(-1)%Q; 1%Q] (1 # 1000000) [r] [p] energy [1%Q].

Definition phase_balancer (reactants products : gset nat)
  : option (Core.Reaction (Composition:=nat)) :=
  if bool_decide (reactants = {[0]} ∧ products = {[1]})
  then Some (phase_rxn (-1) 0 1)
  else if bool_decide (reactants = {[1]} ∧ products = {[0]})
       then Some (phase_rxn 1 1 0)
       else None.

Definition phase_network : Core.ReactionNetwork (Entry:=nat) (Composition:=nat) :=
  Core.init [0; 1] 1.

Definition phase_generate (cost_function : string) (complex_loopback : bool)
  : result (Core.ReactionNetwork (Entry:=nat) (Composition:=nat)) :=
  Core.generate_rxn_network (Element:=nat) (λ _, [0]) id phase_balancer
    id id 1 phase_network [0] [1] cost_function complex_loopback.

Definition phase_recost (cost_function : string)
    (self : Core.ReactionNetwork (Entry:=nat) (Composition:=nat))
  : result (Core.ReactionNetwork (Entry:=nat) (Composition:=nat)) :=
  Core.set_cost_function id id 1 self cost_function.

(** The reaction edge [Reactants{0} → Products{1}]. *)
Definition phase_r0 : Core.RxnEntries (Entry:=nat) :=
  Core.mkRxnEntries {[0]} Core.Reactants.
Definition phase_p1 : Core.RxnEntries (Entry:=nat) :=
  Core.mkRxnEntries {[1]} Core.Products.

(** *** Reaction sets for the rustworkx network

    A reaction is its reactant entries, its product entries and its cost. *)
Definition Rx : Type := list nat * list nat * Q.
Definition rx_cost (r : Rx) : Q := r.2.
Definition no_formula (_ : gset nat) (_ : string) : result nat :=
  Raise ValueError.

Definition rx_network (rxns : list Rx) : Network.ReactionNetwork (Entry:=nat) Rx :=
  Network.build Rx (λ r, r.1.1) (λ r, r.1.2)
    (Network.mkReactionNetwork Rx rxns
       (list_to_set (rxns ≫= λ r, r.1.1 ++ r.1.2)) None None None).

(** Entries [A = 0], [B = 1], [C = 2], [D = 3]:
    [A + B → C] and [B + C → D]. *)
Definition stale_rxns : list Rx :=
  [ ([0; 1], [2], 1%Q); ([1; 2], [3], 1%Q) ].

(** [build(); set_precursors([A, B]); set_precursors([A])] *)
Definition stale_run : result (Network.ReactionNetwork (Entry:=nat) Rx) :=
  n ← Network.set_precursors Rx no_formula (rx_network stale_rxns)
        [Network.AsEntry 0; Network.AsEntry 1];
  Network.set_precursors Rx no_formula n [Network.AsEntry 0].

(** Entries [A = 0], [B = 1], [C = 2], [D = 3], [T = 4]:
    [A + B → T] (cost 1), [A + B → C] (cost 1), [C → T + D] (cost 10),
    [C → A + B] (cost 1/10). *)
Definition yen_rxns : list Rx :=
  [ ([0; 1], [4], 1%Q); ([0; 1], [2], 1%Q);
    ([2], [4; 3], 10%Q); ([2], [0; 1], (1 # 10)%Q) ].

(** [build(); set_precursors([A, B]); set_target(T)] *)
Definition yen_run : result (Network.ReactionNetwork (Entry:=nat) Rx) :=
  n ← Network.set_precursors Rx no_formula (rx_network yen_rxns)
        [Network.AsEntry 0; Network.AsEntry 1];
  Network.set_target Rx no_formula n (Network.AsEntry 4).

(** The graph that [yen_run] leaves in the network: node [6] is the
    precursors node and node [7] the target node. *)
Definition yen_graph : Network.PyDiGraph (Entry:=nat) Rx :=
  Network.mkPyDiGraph Rx
    [ Some (Network.mkNetworkEntry {[0; 1]} Network.Reactants);
      Some (Network.mkNetworkEntry {[4]} Network.Products);
      Some (Network.mkNetworkEntry {[2]} Network.Products);
      Some (Network.mkNetworkEntry {[2]} Network.Reactants);
      Some (Network.mkNetworkEntry {[4; 3]} Network.Products);
      Some (Network.mkNetworkEntry {[0; 1]} Network.Products);
      Some (Network.mkNetworkEntry {[0; 1]} Network.Precursors);
      Some (Network.mkNetworkEntry {[4]} Network.Target) ]
    []
    [ (4, 7, Network.target_edge Rx); (1, 7, Network.target_edge Rx);
      (2, 3, Network.loopback_edge Rx); (6, 0, Network.precursor_edge Rx);
      (5, 0, Network.loopback_edge Rx); (2, 3, Network.loopback_edge Rx);
      (3, 5, Network.ReactionEdge Rx ([2], [0; 1], (1 # 10)%Q));
      (3, 4, Network.ReactionEdge Rx ([2], [4; 3], 10%Q));
      (0, 2, Network.ReactionEdge Rx ([0; 1], [2], 1%Q));
      (0, 1, Network.ReactionEdge Rx ([0; 1], [4], 1%Q)) ].

(** Two routes from node [0] to node [3]: through node [1] (cost 2) and
    through node [2] (cost 4). *)
Definition two_route_graph : Network.PyDiGraph (Entry:=nat) Rx :=
  Network.mkPyDiGraph Rx
    [ Some (Network.mkNetworkEntry {[0]} Network.Precursors);
      Some (Network.mkNetworkEntry {[0]} Network.Reactants);
      Some (Network.mkNetworkEntry {[0; 1]} Network.Reactants);
      Some (Network.mkNetworkEntry {[2]} Network.Target) ]
    []
    [ (2, 3, Network.ReactionEdge Rx ([0; 1], [2], 2%Q));
      (0, 2, Network.ReactionEdge Rx ([0], [0; 1], 2%Q));
      (1, 3, Network.ReactionEdge Rx ([0], [2], 1%Q));
      (0, 1, Network.ReactionEdge Rx ([0], [0], 1%Q)) ].

(** The graphs that [build] makes of the two reaction sets. *)
Definition stale_built_graph : Network.PyDiGraph (Entry:=nat) Rx :=
  default (Network.empty_graph Rx) (Network._g Rx (rx_network stale_rxns)).
Definition yen_built_graph : Network.PyDiGraph (Entry:=nat) Rx :=
  default (Network.empty_graph Rx) (Network._g Rx (rx_network yen_rxns)).

(** The network after [yen_run]. *)
Definition yen_network : Network.ReactionNetwork (Entry:=nat) Rx :=
  Network.mkReactionNetwork Rx yen_rxns {[0; 1; 2; 3; 4]}
    (Some yen_graph) (Some {[0; 1]}) (Some 4).

(** The two-phase network after [generate_rxn_network([0], [1])] with the
    default arguments. *)
Definition phase_built : Core.ReactionNetwork (Entry:=nat) (Composition:=nat) :=
  match phase_generate "softplus" true with
  | Ok n => n
  | Raise _ => phase_network
  end.

Definition phase_built_graph : Core.DiGraph (Entry:=nat) (Composition:=nat) :=
  default Core.empty_graph (Core._rxn_network phase_built).

(** The same network after a switch to ["bipartite"]. *)
Definition phase_switched : Core.ReactionNetwork (Entry:=nat) (Composition:=nat) :=
  match phase_recost "bipartite" phase_built with
  | Ok n => n
  | Raise _ => phase_built
  end.

(** The two-phase network built with ["bipartite"], its graph, and the
    attributes of its edge [Reactants{0} → Products{1}]. *)
Definition phase_bipartite : Core.ReactionNetwork (Entry:=nat) (Composition:=nat) :=
  match phase_generate "bipartite" true with
  | Ok n => n
  | Raise _ => phase_network
  end.

Definition phase_bipartite_graph : Core.DiGraph (Entry:=nat) (Composition:=nat) :=
  default Core.empty_graph (Core._rxn_network phase_bipartite).

Definition phase_bipartite_edge : Core.EdgeAttr (Composition:=nat) :=
  default (Core.mkEdgeAttr 0 None)
          (Core.adj phase_bipartite_graph !! (phase_r0, phase_p1)).

End Examples.


(** * Part II: properties *)

(** ** Combination generator *)

Section CombinationFacts.
Context {A : Type}.
Implicit Types (l c : list A) (r : nat).

Lemma combinations_length l r :
  length (Itertools.combinations l r) = binom (length l) r.
Proof.
  revert r. induction l as [|x t IH]; intros [|r]; simpl; try reflexivity.
  rewrite length_app, length_map, !IH. reflexivity.
Qed.

Lemma combinations_elem_length l r c :
  c ∈ Itertools.combinations l r → length c = r.
Proof.
  revert r c. induction l as [|x t IH]; intros [|r] c; simpl.
  - intros ->%list_elem_of_singleton. reflexivity.
  - intros Hc. inversion Hc.
  - intros ->%list_elem_of_singleton. reflexivity.
  - rewrite elem_of_app, list_elem_of_fmap.
    intros [(c' & -> & Hc')|Hc]; simpl; [f_equal|]; eauto.
Qed.

Lemma combinations_sublist l r c :
  c ∈ Itertools.combinations l r → sublist c l.
Proof.
  revert r c. induction l as [|x t IH]; intros [|r] c; simpl.
  - intros ->%list_elem_of_singleton. constructor.
  - intros Hc. inversion Hc.
  - intros ->%list_elem_of_singleton. apply sublist_nil_l.
  - rewrite elem_of_app, list_elem_of_fmap.
    intros [(c' & -> & Hc')|Hc].
    + apply sublist_skip. eauto.
    + apply sublist_cons. eauto.
Qed.

Lemma combinations_complete l c :
  sublist c l → c ∈ Itertools.combinations l (length c).
Proof.
  induction 1 as [|x c t Hs IH|x c t Hs IH]; simpl.
  - apply list_elem_of_here.
  - apply elem_of_app. left. apply list_elem_of_fmap. eauto.
  - destruct c as [|y c]; simpl in *.
    + apply list_elem_of_here.
    + apply elem_of_app. right. exact IH.
Qed.

Lemma combinations_NoDup l r :
  NoDup l → NoDup (Itertools.combinations l r).
Proof.
  intros Hl. revert r. induction Hl as [|x t Hx Ht IH]; intros [|r]; simpl.
  - apply NoDup_singleton.
  - constructor.
  - apply NoDup_singleton.
  - apply NoDup_app. split; [|split].
    + apply NoDup_fmap_2; [|apply IH]. intros ?? [=]. assumption.
    + intros c (c' & -> & Hc')%list_elem_of_fmap Hc.
      apply combinations_sublist in Hc.
      apply Hx. eapply elem_of_sublist; [|exact Hc]. apply list_elem_of_here.
    + apply IH.
Qed.

(** All tuples produced for the sizes [rs]. *)
Lemma flat_combinations_length l (rs : list nat) :
  length (flat_map (Itertools.combinations l) rs)
  = sum_list (map (binom (length l)) rs).
Proof.
  induction rs as [|r rs IH]; simpl; [reflexivity|].
  rewrite length_app, combinations_length, IH. reflexivity.
Qed.

Lemma flat_combinations_elem l (rs : list nat) c :
  c ∈ flat_map (Itertools.combinations l) rs ↔
  length c ∈ rs ∧ sublist c l.
Proof.
  rewrite list_elem_of_In, in_flat_map. split.
  - intros (r & Hr & Hc). apply list_elem_of_In in Hr, Hc. split.
    + erewrite combinations_elem_length; eauto.
    + eapply combinations_sublist; eauto.
  - intros [Hr Hc]. exists (length c). split; apply list_elem_of_In;
      [assumption | by apply combinations_complete].
Qed.

Lemma flat_combinations_NoDup l (rs : list nat) :
  NoDup l → NoDup rs → NoDup (flat_map (Itertools.combinations l) rs).
Proof.
  intros Hl. induction 1 as [|r rs Hr Hrs IH]; simpl; [constructor|].
  apply NoDup_app. split; [|split].
  - by apply combinations_NoDup.
  - intros c Hc Hc'. apply flat_combinations_elem in Hc' as [Hc' _].
    apply combinations_elem_length in Hc. congruence.
  - exact IH.
Qed.

End CombinationFacts.

Section CombinationSets.
Context `{Countable Entry}.
Implicit Types (l c : list Entry).

Lemma filter_ext_elem (P Q : Entry → Prop) `{!∀ x, Decision (P x)}
    `{!∀ x, Decision (Q x)} l :
  (∀ x, x ∈ l → P x ↔ Q x) → filter P l = filter Q l.
Proof.
  induction l as [|x l IH]; intros HPQ; [reflexivity|].
  rewrite !filter_cons.
  destruct (decide (P x)) as [HP|HP], (decide (Q x)) as [HQ|HQ].
  - f_equal. apply IH. intros y Hy. apply HPQ. by right.
  - exfalso. apply HQ, HPQ; [left|assumption].
  - exfalso. apply HP, HPQ; [left|assumption].
  - apply IH. intros y Hy. apply HPQ. by right.
Qed.

(** A sublist of a duplicate-free list is determined by its element set. *)
Lemma sublist_filter c l :
  sublist c l → NoDup l →
  c = filter (λ x, x ∈ (list_to_set c : gset Entry)) l.
Proof.
  induction 1 as [|x c t Hs IH|x c t Hs IH]; intros Hl.
  - reflexivity.
  - apply NoDup_cons in Hl as [Hx Ht].
    rewrite filter_cons_True by set_solver. f_equal.
    rewrite (IH Ht) at 1. apply filter_ext_elem. intros y Hy.
    rewrite !elem_of_list_to_set. set_solver.
  - apply NoDup_cons in Hl as [Hx Ht].
    rewrite filter_cons_False; [by apply IH|].
    rewrite elem_of_list_to_set. intros Hc. apply Hx.
    eapply elem_of_sublist; eauto.
Qed.

Lemma sublist_set_inj c1 c2 l :
  NoDup l → sublist c1 l → sublist c2 l →
  (list_to_set c1 : gset Entry) = list_to_set c2 → c1 = c2.
Proof.
  intros Hl H1 H2 Heq.
  rewrite (sublist_filter c1 l), (sublist_filter c2 l) by assumption.
  rewrite Heq. reflexivity.
Qed.

End CombinationSets.

(** C7.  For pairwise-distinct [entries] of length [N] and a bound [M ≥ 1],
    [generate_all_combos entries M] has exactly [C(N,1) + ... + C(N,M)]
    members; each member has between [1] and [M] entries; each member is the
    set of a tuple without repeated entries (so its size is the tuple's
    length); the members are pairwise distinct.  The result is a function of
    the input list alone: its order is that of [itertools.combinations],
    size by size. *)
Theorem generate_all_combos_count_and_sizes `{Countable Entry}
    (entries : list Entry) (M : Z) :
  NoDup entries → (1 ≤ M)%Z →
  let combos := Core.generate_all_combos entries M in
  length combos = binom_sum (length entries) (Z.to_nat M)
  ∧ (∀ c, c ∈ combos → (1 ≤ Z.of_nat (size c) ≤ M)%Z)
  ∧ Forall2 (λ t c, NoDup t ∧ c = list_to_set t ∧ size c = length t)
            (Core.combo_tuples entries M) combos
  ∧ NoDup combos.
Proof.
  intros Hnd HM combos. subst combos.
  unfold Core.generate_all_combos, Core.combo_tuples, Itertools.range1.
  assert (Htup : ∀ t,
            t ∈ flat_map (Itertools.combinations entries)
                  (seq 1 (Z.to_nat M)) →
            sublist t entries ∧ NoDup t ∧ 1 ≤ length t ≤ Z.to_nat M).
  { intros t [Hlen Hsub]%flat_combinations_elem.
    apply elem_of_seq in Hlen. split; [assumption|]. split.
    - eapply sublist_NoDup; eauto.
    - lia. }
  split; [|split; [|split]].
  - rewrite length_map. apply flat_combinations_length.
  - intros c (t & -> & Ht)%list_elem_of_fmap.
    destruct (Htup t Ht) as (_ & Hndt & Hlen).
    rewrite size_list_to_set by assumption. lia.
  - apply Forall2_fmap_r, Forall_Forall2_diag, Forall_forall.
    intros t Ht. destruct (Htup t Ht) as (_ & Hndt & _).
    split; [assumption|]. split; [reflexivity|].
    by apply size_list_to_set.
  - apply NoDup_fmap_2_strong.
    + intros t1 t2 Ht1 Ht2 Heq.
      destruct (Htup t1 Ht1) as (Hs1 & _), (Htup t2 Ht2) as (Hs2 & _).
      eapply sublist_set_inj; eauto.
    + apply flat_combinations_NoDup; [assumption | apply NoDup_seq].
Qed.

(** The generator applied to three entries with bound two. *)
Lemma generate_all_combos_count_and_sizes_witness :
  let combos := Core.generate_all_combos [1; 2; 3] 2 in
  length combos = binom_sum 3 2
  ∧ (∀ c, c ∈ combos → (1 ≤ Z.of_nat (size c) ≤ 2)%Z)
  ∧ Forall2 (λ t c, NoDup t ∧ c = list_to_set t ∧ size c = length t)
            (Core.combo_tuples [1; 2; 3] 2) combos
  ∧ NoDup combos.
Proof.
  apply (generate_all_combos_count_and_sizes [1; 2; 3] 2).
  - repeat constructor; set_solver.
  - lia.
Defined.

(** Closed decidable facts are settled by evaluation. *)
Ltac by_compute :=
  match goal with
  | |- ?P => apply (bool_decide_unpack P); vm_compute; exact I
  end.

(** ** Rational helpers *)

Lemma Qltb_lt (x y : Q) : Py.Qltb x y = true ↔ (x < y)%Q.
Proof.
  unfold Py.Qltb. rewrite negb_true_iff, <- not_true_iff_false, Qle_bool_iff.
  split; [apply Qnot_le_lt | apply Qlt_not_le].
Qed.

Lemma Qltb_ge (x y : Q) : Py.Qltb x y = false ↔ (y <= x)%Q.
Proof.
  unfold Py.Qltb. rewrite negb_false_iff. apply Qle_bool_iff.
Qed.

Lemma Qleb_le (x y : Q) : Py.Qleb x y = true ↔ (x <= y)%Q.
Proof. apply Qle_bool_iff. Qed.

Lemma Qleb_gt (x y : Q) : Py.Qleb x y = false ↔ (y < x)%Q.
Proof.
  unfold Py.Qleb. rewrite <- not_true_iff_false, Qle_bool_iff.
  split; [apply Qnot_le_lt | apply Qlt_not_le].
Qed.

Lemma Qsum_from (xs : list Q) (c : Q) :
  (fold_left Qplus xs c == c + foldr Qplus 0 xs)%Q.
Proof.
  revert c. induction xs as [|x xs IH]; intros c; simpl.
  - ring.
  - rewrite IH. ring.
Qed.

Lemma Qsum_foldr (xs : list Q) : (Py.Qsum xs == foldr Qplus 0 xs)%Q.
Proof. unfold Py.Qsum. rewrite Qsum_from. ring. Qed.

(** ** Pathway aggregates *)

Section PathwayFacts.
Context `{Countable Entry}.
Implicit Types (p : Pathways.Pathway (Entry:=Entry)) (e : Entry).

Lemma elem_of_all_reactants p e :
  e ∈ Pathways.all_reactants p ↔
  ∃ r, r ∈ Pathways._reactions p ∧ e ∈ Pathways.rxn_reactants r.
Proof.
  unfold Pathways.all_reactants.
  rewrite elem_of_list_to_set, list_elem_of_bind. naive_solver.
Qed.

Lemma elem_of_all_products p e :
  e ∈ Pathways.all_products p ↔
  ∃ r, r ∈ Pathways._reactions p ∧ e ∈ Pathways.rxn_products r.
Proof.
  unfold Pathways.all_products.
  rewrite elem_of_list_to_set, list_elem_of_bind. naive_solver.
Qed.

Lemma consecutive_intermediates_elem (steps : list Pathways.Reaction) e :
  e ∈ Pathways.consecutive_intermediates steps ↔
  ∃ i r1 r2, steps !! i = Some r1 ∧ steps !! S i = Some r2 ∧
             e ∈ Pathways.rxn_products r1 ∧ e ∈ Pathways.rxn_reactants r2.
Proof.
  induction steps as [|r1 [|r2 rest] IH].
  - simpl. split; [set_solver|]. intros (i & ? & ? & Hi & _). by destruct i.
  - simpl. split; [set_solver|].
    intros (i & ? & ? & _ & Hi & _). by destruct i.
  - change (Pathways.consecutive_intermediates (r1 :: r2 :: rest))
      with ((list_to_set (Pathways.rxn_products r1)
             ∩ list_to_set (Pathways.rxn_reactants r2))
            ∪ Pathways.consecutive_intermediates (r2 :: rest)).
    rewrite elem_of_union, elem_of_intersection, !elem_of_list_to_set, IH.
    split.
    + intros [[H1 H2]|(i & s1 & s2 & Hi & HSi & H1 & H2)].
      * exists 0, r1, r2. auto.
      * exists (S i), s1, s2. auto.
    + intros (i & s1 & s2 & Hi & HSi & H1 & H2). destruct i as [|i].
      * left. simpl in Hi, HSi. by simplify_eq.
      * right. exists i, s1, s2. auto.
Qed.

End PathwayFacts.

(** C8, as amended.  The aggregate energy of a pathway is the sum of its
    steps' energies; its reactants are the entries consumed by some step and
    produced by none; its products are the entries produced by some step and
    consumed by none; its intermediates are the entries produced by some
    step and consumed by some step, whether or not the two steps are
    consecutive (entries handed from one step to the next are among them). *)
Theorem pathway_aggregates `{Countable Entry}
    (p : Pathways.Pathway (Entry:=Entry)) :
  let steps := Pathways._reactions p in
  (Pathways.energy p == foldr Qplus 0 (map Pathways.rxn_energy steps))%Q
  ∧ (∀ e, e ∈ Pathways.reactants p ↔
          (∃ r, r ∈ steps ∧ e ∈ Pathways.rxn_reactants r)
          ∧ ¬ (∃ r, r ∈ steps ∧ e ∈ Pathways.rxn_products r))
  ∧ (∀ e, e ∈ Pathways.products p ↔
          (∃ r, r ∈ steps ∧ e ∈ Pathways.rxn_products r)
          ∧ ¬ (∃ r, r ∈ steps ∧ e ∈ Pathways.rxn_reactants r))
  ∧ (∀ e, e ∈ Pathways.intermediates p ↔
          (∃ r, r ∈ steps ∧ e ∈ Pathways.rxn_products r)
          ∧ (∃ r, r ∈ steps ∧ e ∈ Pathways.rxn_reactants r))
  ∧ Pathways.consecutive_intermediates steps ⊆ Pathways.intermediates p.
Proof.
  intros steps. split; [|split; [|split; [|split]]].
  - apply Qsum_foldr.
  - intros e. unfold Pathways.reactants.
    rewrite elem_of_difference, elem_of_all_reactants, elem_of_all_products.
    reflexivity.
  - intros e. unfold Pathways.products.
    rewrite elem_of_difference, elem_of_all_reactants, elem_of_all_products.
    reflexivity.
  - intros e. unfold Pathways.intermediates.
    rewrite elem_of_intersection, elem_of_all_reactants,
      elem_of_all_products.
    reflexivity.
  - intros e (i & r1 & r2 & Hi & HSi & H1 & H2)%consecutive_intermediates_elem.
    unfold Pathways.intermediates.
    rewrite elem_of_intersection, elem_of_all_reactants,
      elem_of_all_products.
    split; [exists r1 | exists r2]; split; try assumption;
      eapply list_elem_of_lookup_2; eassumption.
Qed.

(** In the pathway [0 → 1], [2 → 3], [1 → 4] entry [1] is produced by the
    first step and consumed by the third: it is an intermediate, although no
    two consecutive steps hand it over. *)
Lemma intermediates_not_only_consecutive :
  Pathways.intermediates Examples.three_steps
  ≠ Pathways.consecutive_intermediates
      (Pathways._reactions Examples.three_steps).
Proof.
  intros Heq.
  assert (Hin : 1 ∈ Pathways.intermediates Examples.three_steps)
    by by_compute.
  assert (Hout : 1 ∉ Pathways.consecutive_intermediates
                       (Pathways._reactions Examples.three_steps))
    by by_compute.
  apply Hout. rewrite <- Heq. exact Hin.
Qed.

(** ** Cost model *)

Section CostModel.
Variables (np_exp np_log : Q → Q) (kb : Q).
Let determine_rxn_weight := Core.determine_rxn_weight np_exp np_log kb.

Lemma rectified_weight (m : option Q) (energy : Q) :
  determine_rxn_weight m energy "rectified" = (Qmax energy 0, m).
Proof.
  unfold determine_rxn_weight, Core.determine_rxn_weight. simpl. f_equal.
  unfold Qmax, GenericMinMax.gmax.
  destruct (Qcompare_spec energy 0) as [Heq|Hlt|Hgt].
  - replace (Py.Qltb energy 0) with false; [reflexivity|].
    symmetry. apply Qltb_ge. rewrite Heq. apply Qle_refl.
  - replace (Py.Qltb energy 0) with true; [reflexivity|].
    symmetry. by apply Qltb_lt.
  - replace (Py.Qltb energy 0) with false; [reflexivity|].
    symmetry. apply Qltb_ge. by apply Qlt_le_weak.
Qed.

Lemma unknown_weight (m : option Q) (energy : Q) (name : string) :
  name ∉ ["softplus"; "bipartite"; "rectified"; "arrhenius";
          "enthalpies_positive"] →
  determine_rxn_weight m energy name = (0%Q, m).
Proof.
  intros Hname. unfold determine_rxn_weight, Core.determine_rxn_weight.
  repeat match goal with
  | |- context [String.eqb name ?s] =>
      destruct (String.eqb_spec name s) as [->|_];
        [exfalso; apply Hname; set_solver|]
  end.
  reflexivity.
Qed.

End CostModel.

(** C9.  Under ["rectified"] the weight of an energy is [max(energy, 0)]
    and the running minimum is left alone; under a name that is none of the
    five strategies the weight is [0], and nothing is raised (the function
    is total). *)
Theorem determine_rxn_weight_rectified_and_unknown
    (np_exp np_log : Q → Q) (kb : Q) (m : option Q) (energy : Q) :
  Core.determine_rxn_weight np_exp np_log kb m energy "rectified"
    = (Qmax energy 0, m)
  ∧ ∀ name : string,
      name ∉ ["softplus"; "bipartite"; "rectified"; "arrhenius";
              "enthalpies_positive"] →
      Core.determine_rxn_weight np_exp np_log kb m energy name = (0%Q, m).
Proof.
  split; [apply rectified_weight | apply unknown_weight].
Qed.

(** The two cases at energy [-1/2]: ["rectified"], and the unknown name
    ["linear"]. *)
Lemma determine_rxn_weight_rectified_and_unknown_witness :
  Core.determine_rxn_weight id id 1 None (-1 # 2) "rectified"
    = (Qmax (-1 # 2) 0, None)
  ∧ Core.determine_rxn_weight id id 1 None (-1 # 2) "linear" = (0%Q, None).
Proof.
  destruct (determine_rxn_weight_rectified_and_unknown id id 1 None (-1 # 2))
    as [Hrect Hunknown].
  split; [exact Hrect|]. apply Hunknown. by_compute.
Defined.

(** ** Graph builder *)

Arguments Core.add_edge : simpl never.
Arguments Core.add_node : simpl never.
Arguments Core.add_loopbacks : simpl never.

Section FoldFacts.
Context {A B : Type}.

Lemma foldl_preserves (P : A → Prop) (f : A → B → A) (l : list B) (a : A) :
  P a → (∀ a b, b ∈ l → P a → P (f a b)) → P (foldl f a l).
Proof.
  revert a. induction l as [|b l IH]; intros a Ha Hf; simpl; [assumption|].
  apply IH.
  - apply Hf; [left | assumption].
  - intros a' b' Hb'. apply Hf. by right.
Qed.

Lemma foldl_establishes (Q : B → A → Prop) (f : A → B → A) (l : list B)
    (a : A) :
  (∀ a b, b ∈ l → Q b (f a b)) →
  (∀ a b b', b' ∈ l → Q b a → Q b (f a b')) →
  ∀ b, b ∈ l → Q b (foldl f a l).
Proof.
  revert a. induction l as [|x l IH]; intros a Hnew Hkeep b Hb;
    [inversion Hb|].
  simpl. apply elem_of_cons in Hb as [->|Hb].
  - apply (foldl_preserves (Q x)).
    + apply Hnew. left.
    + intros a' b' Hb' Ha'. apply Hkeep; [by right | assumption].
  - apply IH; [| |assumption].
    + intros a' b' Hb'. apply Hnew. by right.
    + intros a' b' b'' Hb''. apply Hkeep. by right.
Qed.

End FoldFacts.

Section Builder.
Context `{Countable Entry} `{Countable Element} `{Countable Composition}.
Variable composition_elements : Entry → list Element.
Variable reduced_composition : Entry → Composition.
Variable ComputedReaction :
  gset Entry → gset Entry → option (Core.Reaction (Composition:=Composition)).
Variable np_exp : Q → Q.
Variable np_log : Q → Q.
Variable kb : Q.

Implicit Types (g : Core.DiGraph (Entry:=Entry) (Composition:=Composition)).
Implicit Types (u v : Core.RxnEntries (Entry:=Entry)).
Implicit Types (r : Core.Reaction (Composition:=Composition)).
Implicit Types (m : option Q) (cf : string).
Implicit Types (R P : gset Entry) (combos : list (gset Entry)).

Let determine := Core.determine_rxn_weight np_exp np_log kb.
Let raw := Props.raw_weight np_exp np_log kb.
Let sound :=
  Props.edges_sound composition_elements reduced_composition ComputedReaction
    np_exp np_log kb.
Let admissible :=
  Props.admissible composition_elements reduced_composition ComputedReaction.

(** *** Graph primitives *)

Lemma adj_add_node g n : Core.adj (Core.add_node g n) = Core.adj g.
Proof. unfold Core.add_node. by destruct (decide _). Qed.

Lemma adj_add_edge g u v w (o : option Core.Reaction) :
  Core.adj (Core.add_edge g u v w o)
  = <[(u, v) := Core.mkEdgeAttr w
                  (match o with
                   | Some x => Some x
                   | None => Core.adj g !! (u, v) ≫= Core.rxn
                   end)]> (Core.adj g).
Proof. unfold Core.add_edge. simpl. by rewrite !adj_add_node. Qed.

(** *** The cost model, one call at a time *)

Lemma determine_weight m energy cf :
  (determine m energy cf).1 = raw cf energy.
Proof.
  unfold determine, raw, Props.raw_weight, Core.determine_rxn_weight.
  destruct (String.eqb cf "softplus"); [reflexivity|].
  destruct (String.eqb cf "bipartite"); [reflexivity|].
  destruct (String.eqb cf "rectified"); [reflexivity|].
  destruct (String.eqb cf "arrhenius"); [reflexivity|].
  destruct (String.eqb cf "enthalpies_positive"); reflexivity.
Qed.

Lemma below_minimum energy m :
  ∃ lo, (if Core.below energy m then Some energy else m) = Some lo
        ∧ (lo <= energy)%Q
        ∧ ∀ old, m = Some old → (lo <= old)%Q.
Proof.
  destruct m as [old|]; simpl.
  - destruct (Py.Qltb energy old) eqn:Hlt.
    + exists energy. split; [reflexivity|]. split; [apply Qle_refl|].
      intros ? [= <-]. apply Qlt_le_weak. by apply Qltb_lt.
    + exists old. split; [reflexivity|]. split; [by apply Qltb_ge|].
      intros ? [= <-]. apply Qle_refl.
  - exists energy. split; [reflexivity|]. split; [apply Qle_refl|].
    intros ? [=].
Qed.

Lemma determine_minimum_tracked m energy cf :
  Props.tracks_minimum cf →
  ∃ lo, (determine m energy cf).2 = Some lo ∧ (lo <= energy)%Q.
Proof.
  intros [-> | ->]; unfold determine, Core.determine_rxn_weight; simpl;
    destruct (below_minimum energy m) as (lo & -> & Hle & _); eauto.
Qed.

Lemma determine_minimum_decreases m energy cf old :
  m = Some old →
  ∃ lo, (determine m energy cf).2 = Some lo ∧ (lo <= old)%Q.
Proof.
  intros ->. unfold determine, Core.determine_rxn_weight.
  destruct (below_minimum energy (Some old)) as (lo & Hlo & _ & Hold).
  assert (Hsame : ∃ lo', Some old = Some lo' ∧ (lo' <= old)%Q)
    by (exists old; split; [reflexivity | apply Qle_refl]).
  destruct (String.eqb cf "softplus"); [exact Hsame|].
  destruct (String.eqb cf "bipartite"); [cbn [snd]; rewrite Hlo; eauto|].
  destruct (String.eqb cf "rectified"); [exact Hsame|].
  destruct (String.eqb cf "arrhenius"); [exact Hsame|].
  destruct (String.eqb cf "enthalpies_positive");
    [cbn [snd]; rewrite Hlo; eauto | exact Hsame].
Qed.

(** *** The guard of the [try] block *)

Lemma degenerate_false R P r :
  Core.degenerate reduced_composition R P r = false ↔
  Forall (λ c, (Core.TOLERANCE r <= Qabs c)%Q) (Core.coeffs r)
  ∧ Core.combo_comps reduced_composition R
      = list_to_set (Core.rxn_reactants r)
  ∧ Core.combo_comps reduced_composition P
      = list_to_set (Core.rxn_products r).
Proof.
  unfold Core.degenerate. rewrite !orb_false_iff, !bool_decide_eq_false.
  rewrite <- not_true_iff_false, existsb_exists, Forall_forall.
  split.
  - intros [[Hc Hr] Hp]. split; [|split].
    + intros c Hc'. apply Qltb_ge.
      destruct (Py.Qltb (Qabs c) (Core.TOLERANCE r)) eqn:Hlt; [|reflexivity].
      exfalso. apply Hc. exists c. split; [|assumption].
      by apply list_elem_of_In.
    + by apply dec_stable.
    + by apply dec_stable.
  - intros (Hc & Hr & Hp). split; [split|]; [|congruence|congruence].
    intros (c & Hin & Hlt). apply list_elem_of_In, Hc in Hin.
    apply Qltb_ge in Hin. congruence.
Qed.

Lemma try_reaction_Some R P r :
  Core.try_reaction reduced_composition ComputedReaction R P = Some r ↔
  Props.well_balanced reduced_composition ComputedReaction R P r.
Proof.
  unfold Core.try_reaction, Props.well_balanced.
  destruct (ComputedReaction R P) as [r'|]; [|naive_solver].
  destruct (Core.degenerate reduced_composition R P r') eqn:Hd.
  - split; [discriminate|]. intros ([= ->] & Hrest).
    apply degenerate_false in Hrest. congruence.
  - apply degenerate_false in Hd. naive_solver.
Qed.

(** *** Soundness of the edges *)

Lemma sound_empty cf combos m : sound cf combos ∅ m.
Proof. intros u v e He. by rewrite lookup_empty in He. Qed.

Lemma sound_structural cf combos g m u v w :
  sound cf combos (Core.adj g) m →
  Core.description u ≠ Core.Reactants →
  sound cf combos (Core.adj (Core.add_edge g u v w None)) m.
Proof.
  intros Hs Hu u' v' e. rewrite adj_add_edge, lookup_insert.
  destruct (decide ((u, v) = (u', v'))) as [[= <- <-]|_]; [|apply Hs].
  intros [= <-]. simpl.
  destruct (Core.adj g !! (u, v)) as [e0|] eqn:He0; simpl; [|assumption].
  destruct (Core.rxn e0) as [r0|] eqn:Hr0; [|assumption].
  specialize (Hs u v e0 He0). rewrite Hr0 in Hs.
  destruct Hs as (R & P & -> & _). by destruct Hu.
Qed.

Lemma sound_minimum cf combos a m m' :
  sound cf combos a m →
  (∀ old, m = Some old → ∃ lo, m' = Some lo ∧ (lo <= old)%Q) →
  sound cf combos a m'.
Proof.
  intros Hs Hm u v e He. specialize (Hs u v e He).
  destruct (Core.rxn e) as [r0|]; [|assumption].
  destruct Hs as (R & P & Hu & Hv & HR & HP & Hadm & Hw & Hlo).
  exists R, P. repeat (split; [assumption|]).
  intros Htr. destruct (Hlo Htr) as (old & Hold & Hle).
  destruct (Hm old Hold) as (lo & -> & Hlo'). exists lo.
  split; [reflexivity|]. by eapply Qle_trans.
Qed.

Lemma sound_reaction cf combos g m R P r :
  sound cf combos (Core.adj g) m →
  R ∈ combos → P ∈ combos → admissible R P r →
  sound cf combos
    (Core.adj (Core.add_edge g (Props.Rnode R) (Props.Pnode P)
                 (determine m (Core.dg_per_atom r) cf).1 (Some r)))
    (determine m (Core.dg_per_atom r) cf).2.
Proof.
  intros Hs HR HP Hadm u v e. rewrite adj_add_edge, lookup_insert.
  destruct (decide ((Props.Rnode R, Props.Pnode P) = (u, v)))
    as [[= <- <-]|_].
  - intros [= <-]. simpl. exists R, P. repeat (split; [done|]).
    split; [apply determine_weight|]. apply determine_minimum_tracked.
  - revert u v e. eapply sound_minimum; [exact Hs|].
    intros old ->. by apply determine_minimum_decreases.
Qed.

Lemma sound_link_reactant cf combos m add s starters g R :
  Core.description s = Core.Starters →
  sound cf combos (Core.adj g) m →
  sound cf combos (Core.adj (Core.link_reactant add s starters g R)) m.
Proof.
  intros Hs Hg. unfold Core.link_reactant.
  assert (Hg' : sound cf combos
                  (Core.adj (if add
                             then Core.add_node g
                                    (Core.mkRxnEntries R Core.Reactants)
                             else g)) m)
    by (destruct add; [by rewrite adj_add_node | assumption]).
  destruct (decide (R ⊆ starters)); [|assumption].
  apply sound_structural; [assumption | by rewrite Hs].
Qed.

Lemma sound_add_loopbacks cf combos m cl max starters g P :
  sound cf combos (Core.adj g) m →
  sound cf combos (Core.adj (Core.add_loopbacks cl max starters g P)) m.
Proof.
  intros Hg. unfold Core.add_loopbacks. destruct cl.
  - apply (foldl_preserves (λ g, sound cf combos (Core.adj g) m));
      [assumption|].
    intros g' c _ Hg'. by apply sound_structural.
  - by apply sound_structural.
Qed.

Lemma sound_reaction_step cf combos P acc R :
  R ∈ combos → P ∈ combos →
  sound cf combos (Core.adj acc.1) acc.2 →
  let acc' :=
    Core.reaction_step composition_elements reduced_composition
      ComputedReaction np_exp np_log kb cf P acc R in
  sound cf combos (Core.adj acc'.1) acc'.2.
Proof.
  intros HR HP Hacc. destruct acc as [g m]. simpl in Hacc.
  unfold Core.reaction_step. cbv zeta.
  destruct (decide (P = R)) as [_|Hne]; [assumption|].
  destruct (decide (_ ≠ _)) as [_|Hel%dec_stable]; [assumption|].
  destruct (Core.try_reaction _ _ R P) as [r|] eqn:Htry; [|assumption].
  pose proof (sound_reaction cf combos g m R P r Hacc HR HP) as Hnew.
  fold determine.
  destruct (determine m (Core.dg_per_atom r) cf) as [w m'] eqn:Hd.
  simpl in *. apply Hnew. split; [congruence|]. split; [assumption|].
  by apply try_reaction_Some.
Qed.

Lemma sound_product_step cf combos cl max starters target t acc P :
  Core.description t = Core.Target →
  P ∈ combos →
  sound cf combos (Core.adj acc.1) acc.2 →
  let acc' :=
    Core.product_step composition_elements reduced_composition
      ComputedReaction np_exp np_log kb cf cl max combos starters target t
      acc P in
  sound cf combos (Core.adj acc'.1) acc'.2.
Proof.
  intros Ht HP Hacc. destruct acc as [g m]. simpl in Hacc.
  unfold Core.product_step. cbv zeta.
  apply (foldl_preserves (λ acc, sound cf combos (Core.adj acc.1) acc.2)).
  - simpl. destruct (decide (target ⊆ P)).
    + apply sound_structural; [|done].
      apply sound_add_loopbacks. by rewrite adj_add_node.
    + apply sound_add_loopbacks. by rewrite adj_add_node.
  - intros acc' R HR Hacc'. by apply sound_reaction_step.
Qed.

(** *** Edges, once added, stay *)

Lemma present_add_edge g u v w o k :
  is_Some (Core.adj g !! k) →
  is_Some (Core.adj (Core.add_edge g u v w o) !! k).
Proof.
  intros Hk. rewrite adj_add_edge, lookup_insert_is_Some.
  destruct (decide ((u, v) = k)); auto.
Qed.

Lemma present_add_loopbacks cl max starters g P k :
  is_Some (Core.adj g !! k) →
  is_Some (Core.adj (Core.add_loopbacks cl max starters g P) !! k).
Proof.
  intros Hk. unfold Core.add_loopbacks. destruct cl.
  - apply (foldl_preserves (λ g, is_Some (Core.adj g !! k))); [assumption|].
    intros g' c _ Hg'. by apply present_add_edge.
  - by apply present_add_edge.
Qed.

Lemma present_reaction_step cf P acc R k :
  is_Some (Core.adj acc.1 !! k) →
  is_Some (Core.adj
             (Core.reaction_step composition_elements reduced_composition
                ComputedReaction np_exp np_log kb cf P acc R).1 !! k).
Proof.
  intros Hk. destruct acc as [g m]. unfold Core.reaction_step.
  destruct (decide (P = R)); [assumption|].
  destruct (decide (_ ≠ _)); [assumption|].
  destruct (Core.try_reaction _ _ R P) as [r|]; [|assumption].
  destruct (Core.determine_rxn_weight _ _ _ m _ cf) as [w m'].
  cbn [fst] in *. by apply present_add_edge.
Qed.

Lemma reaction_step_adds cf P acc R r :
  admissible R P r →
  is_Some (Core.adj
             (Core.reaction_step composition_elements reduced_composition
                ComputedReaction np_exp np_log kb cf P acc R).1
           !! (Props.Rnode R, Props.Pnode P)).
Proof.
  intros (Hne & Hel & Hwb). destruct acc as [g m].
  unfold Core.reaction_step.
  destruct (decide (P = R)); [congruence|].
  destruct (decide (_ ≠ _)); [contradiction|].
  apply try_reaction_Some in Hwb. rewrite Hwb.
  destruct (Core.determine_rxn_weight _ _ _ m _ cf) as [w m'].
  cbn [fst]. rewrite adj_add_edge, lookup_insert_eq. eauto.
Qed.

Lemma present_product_step cf combos cl max starters target t acc P k :
  is_Some (Core.adj acc.1 !! k) →
  is_Some (Core.adj
             (Core.product_step composition_elements reduced_composition
                ComputedReaction np_exp np_log kb cf cl max combos starters
                target t acc P).1 !! k).
Proof.
  intros Hk. destruct acc as [g m]. unfold Core.product_step.
  apply (foldl_preserves (λ acc, is_Some (Core.adj acc.1 !! k))).
  - cbn [fst] in *.
    assert (is_Some
              (Core.adj (Core.add_loopbacks cl max starters
                           (Core.add_node g
                              (Core.mkRxnEntries P Core.Products)) P) !! k))
      by (apply present_add_loopbacks; by rewrite adj_add_node).
    destruct (decide (target ⊆ P)); [by apply present_add_edge | assumption].
  - intros acc' R _. apply present_reaction_step.
Qed.

Lemma product_step_adds cf combos cl max starters target t acc P R r :
  R ∈ combos → admissible R P r →
  is_Some (Core.adj
             (Core.product_step composition_elements reduced_composition
                ComputedReaction np_exp np_log kb cf cl max combos starters
                target t acc P).1
           !! (Props.Rnode R, Props.Pnode P)).
Proof.
  intros HR Hadm. destruct acc as [g m]. unfold Core.product_step.
  revert Hadm.
  apply (foldl_establishes
           (λ R acc, admissible R P r →
                     is_Some (Core.adj acc.1
                              !! (Props.Rnode R, Props.Pnode P))));
    [| |assumption].
  - intros acc' R' _ Hadm. by eapply reaction_step_adds.
  - intros acc' R' R'' _ Hkeep Hadm. by apply present_reaction_step, Hkeep.
Qed.

(** *** The closing pass *)

Lemma shift_edge_rxn cf m (e : Core.EdgeAttr (Composition:=Composition)) :
  Core.rxn (Core.shift_edge cf m e) = Core.rxn e.
Proof.
  unfold Core.shift_edge. destruct (Core.rxn e) eqn:He, m; try assumption.
  destruct (String.eqb cf "enthalpies_positive"); [reflexivity|].
  destruct (String.eqb cf "bipartite"); [|assumption].
  destruct (Py.Qltb (Core.weight e) 0); [reflexivity | assumption].
Qed.

Lemma adj_shift_pass cf m g k :
  Core.adj (Core.shift_pass cf m g) !! k
  = Core.shift_edge cf m <$> Core.adj g !! k.
Proof. unfold Core.shift_pass. simpl. apply lookup_fmap. Qed.

(** *** The whole build *)

Lemma generate_rxn_network_inv self starters targets cf cl st :
  Core.generate_rxn_network composition_elements reduced_composition
    ComputedReaction np_exp np_log kb self starters targets cf cl = Py.Ok st →
  ∃ g0 m,
    Core._rxn_network st = Some (Core.shift_pass cf m g0)
    ∧ Core._all_combos st = Core._all_combos self
    ∧ Core._most_negative_rxn st = m
    ∧ sound cf (Core._all_combos self) (Core.adj g0) m
    ∧ ∀ R P r, R ∈ Core._all_combos self → P ∈ Core._all_combos self →
               admissible R P r →
               is_Some (Core.adj g0 !! (Props.Rnode R, Props.Pnode P)).
Proof.
  unfold Core.generate_rxn_network. destruct targets as [|t0 ts]; [discriminate|].
  cbv zeta.
  set (combos := Core._all_combos self).
  set (g1 := foldl (Core.link_reactant _ _ _) _ combos).
  destruct (foldl _ (g1, None) combos) as [g0 m] eqn:Hfold.
  intros [= <-]. exists g0, m. simpl.
  split; [reflexivity|]. split; [reflexivity|]. split; [reflexivity|].
  assert (Hg1 : sound cf combos (Core.adj g1) None).
  { subst g1.
    apply (foldl_preserves (λ g, sound cf combos (Core.adj g) None)).
    - rewrite !adj_add_node. apply sound_empty.
    - intros g R _ Hg. by apply sound_link_reactant. }
  split.
  - change (sound cf combos (Core.adj (g0, m).1) (g0, m).2).
    rewrite <- Hfold.
    apply (foldl_preserves (λ acc, sound cf combos (Core.adj acc.1) acc.2));
      [exact Hg1|].
    intros acc P HP Hacc. by apply sound_product_step.
  - intros R P r HR HP Hadm. change g0 with (g0, m).1. rewrite <- Hfold.
    revert R r HR Hadm.
    apply (foldl_establishes
             (λ P acc, ∀ R r, R ∈ combos → admissible R P r →
                is_Some (Core.adj acc.1 !! (Props.Rnode R, Props.Pnode P))));
      [| |assumption].
    + intros acc P' _ R r HR Hadm. by eapply product_step_adds.
    + intros acc P' P'' _ Hkeep R r HR Hadm.
      apply present_product_step. by eapply Hkeep.
Qed.

End Builder.

Lemma Qdiv_neg_le_1 (w lo : Q) : (lo <= w)%Q → (w < 0)%Q → (w / lo <= 1)%Q.
Proof.
  intros Hle Hneg.
  assert (Hlo : (lo < 0)%Q) by (eapply Qle_lt_trans; eassumption).
  assert (Hnz : ¬ (lo == 0)%Q) by (intros Hz; rewrite Hz in Hlo; lra).
  assert (Heq : (w / lo == (- w) / (- lo))%Q) by (field; lra).
  rewrite Heq. apply Qle_shift_div_r; lra.
Qed.

Lemma generate_rxn_network_ok
    `{Countable Entry} `{Countable Element} `{Countable Composition}
    (composition_elements : Entry → list Element)
    (reduced_composition : Entry → Composition)
    (ComputedReaction :
       gset Entry → gset Entry →
       option (Core.Reaction (Composition:=Composition)))
    (np_exp np_log : Q → Q) (kb : Q)
    (self : Core.ReactionNetwork) (starters targets : list Entry)
    (cost_function : string) (complex_loopback : bool) :
  targets ≠ [] →
  ∃ st,
    Core.generate_rxn_network composition_elements reduced_composition
      ComputedReaction np_exp np_log kb self starters targets cost_function
      complex_loopback = Py.Ok st.
Proof.
  intros Htargets. unfold Core.generate_rxn_network.
  destruct targets; [contradiction|].
  cbv zeta. destruct (foldl _ _ _). eauto.
Qed.

(** C5.  With a non-empty target list [generate_rxn_network] raises
    nothing, and in the graph it builds: for combinations [R], [P] of the
    network, an edge [Reactants(R) → Products(P)] is present exactly when
    [R ≠ P], the element sets of [R] and [P] agree and the balancer returns
    a reaction without a coefficient below tolerance whose two sides carry
    the compositions of [R] and of [P]; and every edge that carries a
    reaction is such an edge.  Every other candidate pair is skipped. *)
Theorem reaction_edges_exactly_admissible
    `{Countable Entry} `{Countable Element} `{Countable Composition}
    (composition_elements : Entry → list Element)
    (reduced_composition : Entry → Composition)
    (ComputedReaction :
       gset Entry → gset Entry →
       option (Core.Reaction (Composition:=Composition)))
    (np_exp np_log : Q → Q) (kb : Q)
    (self : Core.ReactionNetwork) (starters targets : list Entry)
    (cost_function : string) (complex_loopback : bool) :
  targets ≠ [] →
  ∃ st g,
    Core.generate_rxn_network composition_elements reduced_composition
      ComputedReaction np_exp np_log kb self starters targets cost_function
      complex_loopback = Py.Ok st
    ∧ Core._rxn_network st = Some g
    ∧ (∀ R P, R ∈ Core._all_combos self → P ∈ Core._all_combos self →
         (is_Some (Core.adj g !! (Props.Rnode R, Props.Pnode P))
          ↔ ∃ r, Props.admissible composition_elements reduced_composition
                   ComputedReaction R P r))
    ∧ (∀ u v e r, Core.adj g !! (u, v) = Some e → Core.rxn e = Some r →
         ∃ R P, u = Props.Rnode R ∧ v = Props.Pnode P
                ∧ R ∈ Core._all_combos self ∧ P ∈ Core._all_combos self
                ∧ Props.admissible composition_elements reduced_composition
                    ComputedReaction R P r).
Proof.
  intros Htargets.
  destruct (generate_rxn_network_ok composition_elements
              reduced_composition ComputedReaction np_exp np_log kb self
              starters targets cost_function complex_loopback Htargets)
    as [st Hgen].
  destruct (generate_rxn_network_inv _ _ _ _ _ _ _ _ _ _ _ _ Hgen)
    as (g0 & m & Hg & _ & _ & Hsound & Hall).
  exists st, (Core.shift_pass cost_function m g0).
  split; [exact Hgen|]. split; [assumption|].
  assert (Hedge : ∀ u v e r,
            Core.adj (Core.shift_pass cost_function m g0) !! (u, v) = Some e →
            Core.rxn e = Some r →
            ∃ R P, u = Props.Rnode R ∧ v = Props.Pnode P
                   ∧ R ∈ Core._all_combos self ∧ P ∈ Core._all_combos self
                   ∧ Props.admissible composition_elements
                       reduced_composition ComputedReaction R P r).
  { intros u v e r. rewrite adj_shift_pass.
    destruct (Core.adj g0 !! (u, v)) as [e0|] eqn:He0; [|discriminate].
    intros [= <-]. rewrite shift_edge_rxn. intros Hr.
    specialize (Hsound u v e0 He0). rewrite Hr in Hsound.
    destruct Hsound as (R & P & ? & ? & ? & ? & ? & _). eauto 10. }
  split; [|exact Hedge].
  intros R P HR HP. split.
  - intros [e He]. destruct (Core.rxn e) as [r|] eqn:Hr.
    + destruct (Hedge _ _ _ _ He Hr) as (R' & P' & [= ->] & [= ->] & _ & _ & ?).
      eauto.
    + rewrite adj_shift_pass in He.
      destruct (Core.adj g0 !! (Props.Rnode R, Props.Pnode P)) as [e0|] eqn:He0;
        [|discriminate].
      injection He as <-. rewrite shift_edge_rxn in Hr.
      specialize (Hsound _ _ e0 He0). rewrite Hr in Hsound. by destruct Hsound.
  - intros [r Hadm]. rewrite adj_shift_pass, fmap_is_Some. eauto.
Qed.

(** The two-phase system, built with the default strategy. *)
Lemma reaction_edges_exactly_admissible_witness :
  ∃ st g,
    Examples.phase_generate "softplus" true = Py.Ok st
    ∧ Core._rxn_network st = Some g
    ∧ (∀ R P, R ∈ Core._all_combos Examples.phase_network →
              P ∈ Core._all_combos Examples.phase_network →
         (is_Some (Core.adj g !! (Props.Rnode R, Props.Pnode P))
          ↔ ∃ r, Props.admissible (λ _, [0]) id Examples.phase_balancer
                   R P r))
    ∧ (∀ u v e r, Core.adj g !! (u, v) = Some e → Core.rxn e = Some r →
         ∃ R P, u = Props.Rnode R ∧ v = Props.Pnode P
                ∧ R ∈ Core._all_combos Examples.phase_network
                ∧ P ∈ Core._all_combos Examples.phase_network
                ∧ Props.admissible (λ _, [0]) id Examples.phase_balancer
                    R P r).
Proof.
  apply (reaction_edges_exactly_admissible (λ _, [0]) id
           Examples.phase_balancer id id 1 Examples.phase_network [0] [1]
           "softplus" true).
  discriminate.
Defined.

(** C4.  After [generate_rxn_network] with ["enthalpies_positive"] or
    ["bipartite"], every edge of the graph that carries a reaction has a
    weight of at least [0]. *)
Theorem shifted_weights_nonnegative
    `{Countable Entry} `{Countable Element} `{Countable Composition}
    (composition_elements : Entry → list Element)
    (reduced_composition : Entry → Composition)
    (ComputedReaction :
       gset Entry → gset Entry →
       option (Core.Reaction (Composition:=Composition)))
    (np_exp np_log : Q → Q) (kb : Q)
    (self : Core.ReactionNetwork) (starters targets : list Entry)
    (cost_function : string) (complex_loopback : bool)
    (st : Core.ReactionNetwork) (g : Core.DiGraph) :
  cost_function = "enthalpies_positive" ∨ cost_function = "bipartite" →
  Core.generate_rxn_network composition_elements reduced_composition
    ComputedReaction np_exp np_log kb self starters targets cost_function
    complex_loopback = Py.Ok st →
  Core._rxn_network st = Some g →
  ∀ u v e, Core.adj g !! (u, v) = Some e → is_Some (Core.rxn e) →
           (0 <= Core.weight e)%Q.
Proof.
  intros Hcf Hgen Hg u v e He [r Hr].
  destruct (generate_rxn_network_inv _ _ _ _ _ _ _ _ _ _ _ _ Hgen)
    as (g0 & m & Hg0 & _ & _ & Hsound & _).
  rewrite Hg in Hg0. injection Hg0 as ->.
  rewrite adj_shift_pass in He.
  destruct (Core.adj g0 !! (u, v)) as [e0|] eqn:He0; [|discriminate].
  injection He as <-. rewrite shift_edge_rxn in Hr.
  specialize (Hsound u v e0 He0). rewrite Hr in Hsound.
  destruct Hsound as (R & P & _ & _ & _ & _ & _ & Hw & Hlo).
  destruct Hlo as (lo & -> & Hle).
  { unfold Props.tracks_minimum. tauto. }
  unfold Core.shift_edge. rewrite Hr.
  unfold Props.raw_weight, Core.determine_rxn_weight in Hw.
  destruct Hcf as [-> | ->]; simpl in *.
  - rewrite Hw. lra.
  - destruct (Py.Qltb (Core.weight e0) 0) eqn:Hneg.
    + simpl. apply Qltb_lt in Hneg.
      destruct (Py.Qleb 0 (Core.dg_per_atom r)) eqn:Hpos.
      * apply Qleb_le in Hpos. rewrite Hw in Hneg. lra.
      * pose proof (Qdiv_neg_le_1 (Core.weight e0) lo) as Hdiv.
        rewrite Hw in Hdiv, Hneg. specialize (Hdiv Hle Hneg).
        rewrite Hw. lra.
    + by apply Qltb_ge.
Qed.

(** The two-phase system under ["bipartite"]: the edge
    [Reactants{0} → Products{1}]. *)
Lemma shifted_weights_nonnegative_witness :
  Examples.phase_generate "bipartite" true = Py.Ok Examples.phase_bipartite
  ∧ Core._rxn_network Examples.phase_bipartite
      = Some Examples.phase_bipartite_graph
  ∧ Core.adj Examples.phase_bipartite_graph
      !! (Examples.phase_r0, Examples.phase_p1)
      = Some Examples.phase_bipartite_edge
  ∧ is_Some (Core.rxn Examples.phase_bipartite_edge)
  ∧ (0 <= Core.weight Examples.phase_bipartite_edge)%Q.
Proof.
  assert (Hgen : Examples.phase_generate "bipartite" true
                 = Py.Ok Examples.phase_bipartite).
  { unfold Examples.phase_bipartite.
    destruct (generate_rxn_network_ok (λ _, [0]) id Examples.phase_balancer
                id id 1 Examples.phase_network [0] [1] "bipartite" true)
      as [st Hst]; [discriminate|].
    unfold Examples.phase_generate. rewrite Hst. reflexivity. }
  assert (Hg : Core._rxn_network Examples.phase_bipartite
               = Some Examples.phase_bipartite_graph).
  { unfold Examples.phase_bipartite_graph.
    destruct (generate_rxn_network_inv _ _ _ _ _ _ _ _ _ _ _ _ Hgen)
      as (g0 & m & -> & _). reflexivity. }
  assert (He : Core.adj Examples.phase_bipartite_graph
                 !! (Examples.phase_r0, Examples.phase_p1)
               = Some Examples.phase_bipartite_edge).
  { unfold Examples.phase_bipartite_edge.
    assert (Hsome : is_Some (Core.adj Examples.phase_bipartite_graph
                             !! (Examples.phase_r0, Examples.phase_p1)))
      by by_compute.
    destruct Hsome as [e ->]. reflexivity. }
  assert (Hr : is_Some (Core.rxn Examples.phase_bipartite_edge))
    by by_compute.
  repeat (split; [assumption|]).
  exact (shifted_weights_nonnegative (λ _, [0]) id Examples.phase_balancer
           id id 1 Examples.phase_network [0] [1] "bipartite" true
           Examples.phase_bipartite Examples.phase_bipartite_graph
           (or_intror eq_refl) Hgen Hg
           Examples.phase_r0 Examples.phase_p1 Examples.phase_bipartite_edge
           He Hr).
Defined.

(** ** Re-applying a strategy without a shift pass *)

Section PureStrategies.
Context `{Countable Entry} `{Countable Element} `{Countable Composition}.
Variable composition_elements : Entry → list Element.
Variable reduced_composition : Entry → Composition.
Variable ComputedReaction :
  gset Entry → gset Entry → option (Core.Reaction (Composition:=Composition)).
Variable np_exp : Q → Q.
Variable np_log : Q → Q.
Variable kb : Q.

Implicit Types (cf : string) (m : option Q).
Implicit Types
  (a : gmap (Core.RxnEntries (Entry:=Entry) * Core.RxnEntries (Entry:=Entry))
            (Core.EdgeAttr (Composition:=Composition))).

Lemma untracked_minimum cf m energy :
  ¬ Props.tracks_minimum cf →
  (Core.determine_rxn_weight np_exp np_log kb m energy cf).2 = m.
Proof.
  intros Hcf. unfold Core.determine_rxn_weight.
  destruct (String.eqb cf "softplus"); [reflexivity|].
  destruct (String.eqb_spec cf "bipartite") as [->|_];
    [exfalso; apply Hcf; by left|].
  destruct (String.eqb cf "rectified"); [reflexivity|].
  destruct (String.eqb cf "arrhenius"); [reflexivity|].
  destruct (String.eqb_spec cf "enthalpies_positive") as [->|_];
    [exfalso; apply Hcf; by right | reflexivity].
Qed.

Lemma untracked_shift_edge cf m (e : Core.EdgeAttr (Composition:=Composition)) :
  ¬ Props.tracks_minimum cf → Core.shift_edge cf m e = e.
Proof.
  intros Hcf. unfold Core.shift_edge.
  destruct (Core.rxn e), m; try reflexivity.
  destruct (String.eqb_spec cf "enthalpies_positive") as [->|_];
    [exfalso; apply Hcf; by right|].
  destruct (String.eqb_spec cf "bipartite") as [->|_];
    [exfalso; apply Hcf; by left | reflexivity].
Qed.

Lemma recost_fixed cf combos a m (kvs : list _) :
  ¬ Props.tracks_minimum cf →
  Props.edges_sound composition_elements reduced_composition
    ComputedReaction np_exp np_log kb cf combos a m →
  (∀ kv, kv ∈ kvs → a !! kv.1 = Some kv.2) →
  foldl (Core.recost_step np_exp np_log kb cf) (a, m) kvs = (a, m).
Proof.
  intros Hcf Hsound Hkvs.
  apply (foldl_preserves (λ acc, acc = (a, m))); [reflexivity|].
  intros acc [[u v] e] Hin ->. specialize (Hkvs _ Hin). simpl in Hkvs.
  unfold Core.recost_step. simpl.
  specialize (Hsound u v e Hkvs).
  destruct (Core.rxn e) as [r|] eqn:Hr; [|reflexivity].
  destruct Hsound as (R & P & _ & _ & _ & _ & _ & Hw & _).
  pose proof (untracked_minimum cf m (Core.dg_per_atom r) Hcf) as Hm.
  pose proof (determine_weight np_exp np_log kb m (Core.dg_per_atom r) cf)
    as Hw'.
  destruct (Core.determine_rxn_weight np_exp np_log kb m
              (Core.dg_per_atom r) cf) as [w m'].
  simpl in Hm, Hw'. subst m'. f_equal.
  apply insert_id. rewrite Hkvs. f_equal.
  destruct e as [we re]. simpl in *. congruence.
Qed.

(** For a strategy that records no minimum (["softplus"], ["rectified"],
    ["arrhenius"], or an unknown name), re-applying the strategy a network
    was built with changes nothing at all. *)
Lemma set_cost_function_same_untracked self starters targets cf cl st :
  ¬ Props.tracks_minimum cf →
  Core.generate_rxn_network composition_elements reduced_composition
    ComputedReaction np_exp np_log kb self starters targets cf cl = Py.Ok st →
  Core.set_cost_function np_exp np_log kb st cf = Py.Ok st.
Proof.
  intros Hcf Hgen.
  destruct (generate_rxn_network_inv _ _ _ _ _ _ _ _ _ _ _ _ Hgen)
    as (g0 & m & Hg & _ & Hm & Hsound & _).
  unfold Core.set_cost_function. rewrite Hg, Hm.
  assert (Hshift : Core.shift_pass cf m g0 = g0).
  { unfold Core.shift_pass. destruct g0 as [ns a]. simpl. f_equal.
    rewrite <- (map_fmap_id a) at 2. apply map_fmap_ext.
    intros k e _. by apply untracked_shift_edge. }
  rewrite Hshift.
  rewrite (recost_fixed cf (Core._all_combos self) (Core.adj g0) m);
    [|assumption|assumption|].
  - f_equal. destruct st, g0. simpl in *. rewrite Hshift in Hg.
    unfold Core.with_graph. simpl. by rewrite Hg, Hm.
  - intros [k e] Hin. by apply elem_of_map_to_list in Hin.
Qed.

End PureStrategies.

(** ** Re-applying a cost function *)

(** C3 at the two-phase system (entries [0], [1]; [0 → 1] has energy [-1]
    per atom), for the two strategies with a closing shift pass.  After
    [generate_rxn_network] the edge [Reactants{0} → Products{1}] weighs [0];
    after [set_cost_function] with the same strategy it weighs [-1]: the
    shift pass of the build is not repeated. *)
Theorem set_cost_function_loses_shift :
  ∀ cost_function : string,
    cost_function ∈ ["enthalpies_positive"; "bipartite"] →
    (built ← Examples.phase_generate cost_function true;
     Py.Ok (Props.edge_weight built Examples.phase_r0 Examples.phase_p1))
      = Py.Ok (Some 0%Q)
    ∧ (built ← Examples.phase_generate cost_function true;
       again ← Examples.phase_recost cost_function built;
       Py.Ok (Props.edge_weight again Examples.phase_r0 Examples.phase_p1))
      = Py.Ok (Some (-1)%Q).
Proof.
  intros cost_function Hcf.
  repeat (apply elem_of_cons in Hcf as [->|Hcf];
          [split; vm_compute; reflexivity|]).
  by apply elem_of_nil in Hcf.
Qed.

Lemma set_cost_function_loses_shift_witness :
  (built ← Examples.phase_generate "bipartite" true;
   Py.Ok (Props.edge_weight built Examples.phase_r0 Examples.phase_p1))
    = Py.Ok (Some 0%Q)
  ∧ (built ← Examples.phase_generate "bipartite" true;
     again ← Examples.phase_recost "bipartite" built;
     Py.Ok (Props.edge_weight again Examples.phase_r0 Examples.phase_p1))
    = Py.Ok (Some (-1)%Q).
Proof.
  apply (set_cost_function_loses_shift "bipartite"). by_compute.
Defined.


(** ** Loopback edges of the networkx graph *)

Section Loopbacks.
Context `{Countable Entry} `{Countable Element} `{Countable Composition}.
Variable composition_elements : Entry → list Element.
Variable reduced_composition : Entry → Composition.
Variable ComputedReaction :
  gset Entry → gset Entry → option (Core.Reaction (Composition:=Composition)).
Variable np_exp : Q → Q.
Variable np_log : Q → Q.
Variable kb : Q.

Implicit Types (g : Core.DiGraph (Entry:=Entry) (Composition:=Composition)).
Implicit Types (u v : Core.RxnEntries (Entry:=Entry)).
Implicit Types (cl : bool) (S R P : gset Entry).

Let within := Props.loopbacks_within (Entry:=Entry) (Composition:=Composition).
Let generated :=
  Props.loopbacks_generated (Entry:=Entry) (Composition:=Composition).

Lemma generate_all_combos_subset (l : list Entry) (max : Z) (c : gset Entry) :
  c ∈ Core.generate_all_combos l max → ∀ x, x ∈ c → x ∈ l.
Proof.
  unfold Core.generate_all_combos, Core.combo_tuples.
  intros (t & -> & [_ Hsub]%flat_combinations_elem)%list_elem_of_fmap x.
  rewrite elem_of_list_to_set. intros Hx. by eapply elem_of_sublist.
Qed.

Lemma generated_within cl max combos S a :
  generated cl max combos S a → within cl S a.
Proof.
  intros Hgen u v e He Hu Hv. specialize (Hgen u v e He Hu Hv).
  destruct cl; [|assumption]. destruct Hgen as [_ Hc].
  intros x Hx. apply (generate_all_combos_subset _ _ _ Hc) in Hx.
  by apply elem_of_elements in Hx.
Qed.

Lemma generated_add_edge cl max combos S g u v w o :
  generated cl max combos S (Core.adj g) →
  (Core.description u = Core.Products →
   Core.description v = Core.Reactants →
   if cl
   then Core.entries u ∈ combos
        ∧ Core.entries v
            ∈ Core.generate_all_combos (elements (Core.entries u ∪ S)) max
   else Core.entries v = Core.entries u) →
  generated cl max combos S (Core.adj (Core.add_edge g u v w o)).
Proof.
  intros Hg Hnew u' v' e. rewrite adj_add_edge, lookup_insert.
  destruct (decide ((u, v) = (u', v'))) as [[= <- <-]|_]; [|apply Hg].
  intros _. exact Hnew.
Qed.

Lemma generated_add_loopbacks cl max combos S g P :
  P ∈ combos →
  generated cl max combos S (Core.adj g) →
  generated cl max combos S (Core.adj (Core.add_loopbacks cl max S g P)).
Proof.
  intros HP Hg. unfold Core.add_loopbacks. destruct cl.
  - apply (foldl_preserves (λ g, generated true max combos S (Core.adj g)));
      [assumption|].
    intros g' c Hc Hg'. apply generated_add_edge; [assumption|].
    intros _ _. by split.
  - apply generated_add_edge; [assumption|]. reflexivity.
Qed.

Lemma generated_reaction_step cl max combos S cf P acc R :
  generated cl max combos S (Core.adj acc.1) →
  generated cl max combos S
    (Core.adj (Core.reaction_step composition_elements reduced_composition
                 ComputedReaction np_exp np_log kb cf P acc R).1).
Proof.
  intros Hacc. destruct acc as [g m]. unfold Core.reaction_step.
  destruct (decide (P = R)); [assumption|].
  destruct (decide (_ ≠ _)); [assumption|].
  destruct (Core.try_reaction _ _ R P) as [r|]; [|assumption].
  destruct (Core.determine_rxn_weight _ _ _ m _ cf) as [w m'].
  cbn [fst] in *. apply generated_add_edge; [assumption|]. discriminate.
Qed.

Lemma generated_product_step cl max combos' combos S cf target t acc P :
  Core.description t = Core.Target →
  P ∈ combos →
  generated cl max combos S (Core.adj acc.1) →
  generated cl max combos S
    (Core.adj (Core.product_step composition_elements reduced_composition
                 ComputedReaction np_exp np_log kb cf cl max combos' S target
                 t acc P).1).
Proof.
  intros Ht HP Hacc. destruct acc as [g m]. unfold Core.product_step.
  apply (foldl_preserves (λ acc, generated cl max combos S (Core.adj acc.1))).
  - cbn [fst] in *.
    assert (generated cl max combos S
              (Core.adj (Core.add_loopbacks cl max S
                           (Core.add_node g
                              (Core.mkRxnEntries P Core.Products)) P)))
      by (apply generated_add_loopbacks; [done | by rewrite adj_add_node]).
    destruct (decide (target ⊆ P)); [|assumption].
    apply generated_add_edge; [assumption|]. intros _. by rewrite Ht.
  - intros acc' R _. apply generated_reaction_step.
Qed.

(** After the build, every loopback edge is one the mode of the build
    generates; in particular it obeys the loopback invariant. *)
Lemma generate_rxn_network_loopbacks self starters targets cf cl st g :
  Core.generate_rxn_network composition_elements reduced_composition
    ComputedReaction np_exp np_log kb self starters targets cf cl = Py.Ok st →
  Core._rxn_network st = Some g →
  generated cl (Core._max_num_components st) (Core._all_combos st)
    (list_to_set starters) (Core.adj g)
  ∧ within cl (list_to_set starters) (Core.adj g)
  ∧ Core._starters st = Some (list_to_set starters)
  ∧ Core._complex_loopback st = Some cl.
Proof.
  unfold Core.generate_rxn_network. destruct targets as [|t0 ts]; [discriminate|].
  cbv zeta.
  set (combos := Core._all_combos self).
  set (max := Core._max_num_components self).
  set (g1 := foldl (Core.link_reactant _ _ _) _ combos).
  destruct (foldl _ (g1, None) combos) as [g0 m] eqn:Hfold.
  intros [= <-]. simpl. intros [= <-].
  assert (Hgen : generated cl max combos (list_to_set starters)
                   (Core.adj (Core.shift_pass cf m g0))).
  { intros u v e. rewrite adj_shift_pass.
    destruct (Core.adj g0 !! (u, v)) as [e0|] eqn:He0; [|discriminate].
    intros _. revert u v e0 He0.
    change (generated cl max combos (list_to_set starters)
              (Core.adj (g0, m).1)).
    rewrite <- Hfold.
    apply (foldl_preserves
             (λ acc, generated cl max combos (list_to_set starters)
                       (Core.adj acc.1))).
    - subst g1. cbn [fst].
      apply (foldl_preserves
               (λ g, generated cl max combos (list_to_set starters)
                       (Core.adj g))).
      + rewrite !adj_add_node. intros u' v' e' He'.
        unfold Core.empty_graph in He'. simpl in He'.
        by rewrite lookup_empty in He'.
      + intros g R _ Hg. unfold Core.link_reactant.
        destruct (decide (R ⊆ _)); [|by rewrite adj_add_node].
        apply generated_add_edge; [by rewrite adj_add_node|]. discriminate.
    - intros acc P HP. by apply generated_product_step. }
  split; [exact Hgen|]. split; [|split; reflexivity].
  by eapply generated_within.
Qed.

(** *** Re-pointing the starters *)

Lemma generated_remove_node cl max combos S g n :
  generated cl max combos S (Core.adj g) →
  generated cl max combos S (Core.adj (Core.remove_node g n)).
Proof.
  intros Hg u v e He. unfold Core.remove_node in He. simpl in He.
  apply map_lookup_filter_Some in He as [He _]. by eapply Hg.
Qed.

Lemma generated_relink_starters cl max combos S self g S' :
  generated cl max combos S (Core.adj g) →
  generated cl max combos S (Core.adj (Core.relink_starters self g S')).
Proof.
  intros Hg. unfold Core.relink_starters.
  destruct (list_find _ _) as [[i node]|]; [|assumption].
  apply (foldl_preserves (λ g, generated cl max combos S (Core.adj g))).
  - rewrite adj_add_node. by apply generated_remove_node.
  - intros g' R _ Hg'. unfold Core.link_reactant.
    destruct (decide (R ⊆ S')); [|assumption].
    apply generated_add_edge; [assumption|]. discriminate.
Qed.

Lemma foldl_raise {A B : Type} (f : A → B → Py.result A) (l : list B) err :
  foldl (λ acc b, a ← acc; f a b) (Py.Raise err) l = Py.Raise err.
Proof. induction l as [|b l IH]; simpl; [reflexivity | exact IH]. Qed.

Lemma remove_loopbacks_ok g u (l : list (gset Entry)) g1 :
  foldl (λ acc c, g ← acc; Core.remove_edge g u (Props.Rnode c))
        (Py.Ok g) l = Py.Ok g1 →
  ∀ k e, Core.adj g1 !! k = Some e →
         Core.adj g !! k = Some e ∧ ∀ c, c ∈ l → k ≠ (u, Props.Rnode c).
Proof.
  revert g. induction l as [|c l IH]; intros g; simpl.
  - intros [= <-] k e He. split; [assumption|]. intros c Hc. inversion Hc.
  - unfold Core.remove_edge at 2.
    destruct (Core.adj g !! (u, Props.Rnode c)) as [e0|] eqn:He0.
    2:{ rewrite foldl_raise. discriminate. }
    intros Hfold k e He. destruct (IH _ Hfold k e He) as [Hk Hl].
    simpl in Hk. apply lookup_delete_Some in Hk as [Hne Hk].
    split; [assumption|].
    intros c' [->|Hc']%elem_of_cons; [congruence | by apply Hl].
Qed.

(** While the loop of [set_starters] runs: a loopback edge is either one
    generated for the new starters, or one generated for the old starters
    whose source has not been visited yet ([visited] lists the sources
    visited so far). *)
Let swapping (max : Z) (combos : list (gset Entry))
    (S_old S_new : gset Entry)
    (visited : list (gset Entry))
    (a : gmap (Core.RxnEntries (Entry:=Entry) * Core.RxnEntries (Entry:=Entry))
              (Core.EdgeAttr (Composition:=Composition))) : Prop :=
  ∀ u v e, a !! (u, v) = Some e →
    Core.description u = Core.Products →
    Core.description v = Core.Reactants →
    Core.entries u ∈ combos
    ∧ (Core.entries v
         ∈ Core.generate_all_combos (elements (Core.entries u ∪ S_new)) max
       ∨ (Core.entries u ∉ visited
          ∧ Core.entries v
              ∈ Core.generate_all_combos
                  (elements (Core.entries u ∪ S_old)) max)).

Lemma swap_loopbacks_ok max combos S_old S_new visited g P g2 :
  P ∈ combos →
  swapping max combos S_old S_new visited (Core.adj g) →
  Core.swap_loopbacks max S_old S_new g P = Py.Ok g2 →
  swapping max combos S_old S_new (P :: visited) (Core.adj g2).
Proof.
  intros HP Hg. unfold Core.swap_loopbacks.
  destruct (foldl _ (Py.Ok g) _) as [g1|err] eqn:Hrem; [|discriminate].
  simpl. intros [= <-].
  pose proof (remove_loopbacks_ok _ _ _ _ Hrem) as Hg1.
  apply (foldl_preserves
           (λ g, swapping max combos S_old S_new (P :: visited) (Core.adj g))).
  - intros u v e He Hu Hv. destruct (Hg1 _ _ He) as [He' Hkept].
    destruct (Hg u v e He' Hu Hv) as [Hin [Hnew|[Hvis Hold]]].
    + split; [assumption|]. by left.
    + split; [assumption|]. right. split; [|assumption].
      intros [Heq|Hin']%elem_of_cons; [|contradiction].
      apply (Hkept (Core.entries v)); [by rewrite <- Heq|].
      destruct u as [eu du], v as [ev dv]. simpl in *. by subst.
  - intros g' c Hc Hg' u v e. rewrite adj_add_edge, lookup_insert.
    destruct (decide (_ = (u, v))) as [[= <- <-]|_]; [|apply Hg'].
    intros _ _ _. simpl. split; [assumption|]. by left.
Qed.

Lemma swap_fold_ok max combos S_old S_new (l : list (gset Entry)) visited g g' :
  (∀ P, P ∈ l → P ∈ combos) →
  swapping max combos S_old S_new visited (Core.adj g) →
  foldl (λ acc P, g ← acc; Core.swap_loopbacks max S_old S_new g P)
        (Py.Ok g) l = Py.Ok g' →
  swapping max combos S_old S_new (rev l ++ visited) (Core.adj g').
Proof.
  revert visited g. induction l as [|P l IH]; intros visited g Hl Hg; simpl.
  - by intros [= <-].
  - destruct (Core.swap_loopbacks max S_old S_new g P) as [g2|err] eqn:Hswap.
    2:{ rewrite foldl_raise. discriminate. }
    intros Hfold. rewrite <- app_assoc. simpl.
    eapply IH; [| |exact Hfold].
    + intros P' HP'. apply Hl. by right.
    + eapply swap_loopbacks_ok; [|exact Hg|exact Hswap]. apply Hl. left.
Qed.

(** [set_starters] keeps the loopback edges in step with the starters. *)
Lemma set_starters_loopbacks self starters st' g g' cl S_old :
  Core._rxn_network self = Some g →
  Core._complex_loopback self = Some cl →
  Core._starters self = Some S_old →
  generated cl (Core._max_num_components self) (Core._all_combos self)
    S_old (Core.adj g) →
  Core.set_starters self starters = Py.Ok st' →
  Core._rxn_network st' = Some g' →
  generated cl (Core._max_num_components st') (Core._all_combos st')
    (list_to_set starters) (Core.adj g')
  ∧ within cl (list_to_set starters) (Core.adj g')
  ∧ Core._starters st' = Some (list_to_set starters)
  ∧ Core._complex_loopback st' = Some cl.
Proof.
  intros Hg Hcl Hold Hinv. unfold Core.set_starters.
  rewrite Hg, Hcl, Hold.
  set (S_new := list_to_set starters : gset Entry).
  pose proof (generated_relink_starters cl _ _ S_old self g S_new Hinv)
    as Hrelinked.
  assert (Hfinish : ∀ g2,
            generated cl (Core._max_num_components self)
              (Core._all_combos self) S_new (Core.adj g2) →
            Core._rxn_network (Core.with_starters self g2 S_new) = Some g' →
            generated cl
              (Core._max_num_components (Core.with_starters self g2 S_new))
              (Core._all_combos (Core.with_starters self g2 S_new))
              S_new (Core.adj g')
            ∧ within cl S_new (Core.adj g')
            ∧ Core._starters (Core.with_starters self g2 S_new) = Some S_new
            ∧ Core._complex_loopback (Core.with_starters self g2 S_new)
              = Some cl).
  { intros g2 Hg2 [= <-]. simpl. split; [assumption|].
    split; [by eapply generated_within|]. by split. }
  destruct cl.
  - destruct (foldl _ (Py.Ok _) _) as [g2|err] eqn:Hfold; [|discriminate].
    simpl. intros [= <-]. apply Hfinish.
    apply swap_fold_ok
      with (combos := Core._all_combos self) (visited := []) in Hfold.
    + intros u v e He Hu Hv.
      destruct (Hfold u v e He Hu Hv) as [Hin [Hnew|[Hvis _]]];
        [by split|].
      exfalso. apply Hvis. rewrite app_nil_r.
      apply list_elem_of_In. rewrite <- in_rev. by apply list_elem_of_In.
    + auto.
    + intros u v e He Hu Hv.
      destruct (Hrelinked u v e He Hu Hv) as [Hin Hc].
      split; [assumption|]. right. split; [|assumption]. inversion 1.
  - intros [= <-]. apply Hfinish.
    intros u v e He Hu Hv. exact (Hrelinked u v e He Hu Hv).
Qed.

End Loopbacks.

(** ** Loopback edges of the rustworkx graph *)

Section NetworkLoopbacks.
Context `{Countable Entry}.
Variable Rxn : Type.

Implicit Types (g : Network.PyDiGraph (Entry:=Entry) Rxn).
Implicit Types (nodes : list (Network.NetworkEntry (Entry:=Entry))).

(** [get_loopback_edges] joins a Products node to the Reactants nodes with
    the same entries, and to nothing else. *)
Lemma get_loopback_edges_same nodes i j (e : Network.EdgeObj Rxn) :
  (i, j, e) ∈ Network.get_loopback_edges Rxn nodes →
  ∃ p r, nodes !! i = Some p ∧ nodes !! j = Some r
         ∧ Network.description p = Network.Products
         ∧ Network.description r = Network.Reactants
         ∧ Network.entries r = Network.entries p.
Proof.
  unfold Network.get_loopback_edges.
  intros ([idx1 p] & Hin & Hp)%list_elem_of_bind.
  apply elem_of_lookup_imap in Hp as (i1 & p' & [= -> ->] & Hp).
  destruct (bool_decide (Network.description p' ≠ Network.Products)) eqn:Hdp;
    [inversion Hin|].
  apply bool_decide_eq_false, dec_stable in Hdp.
  apply list_elem_of_bind in Hin as ([idx2 r] & Hin & Hr).
  apply elem_of_lookup_imap in Hr as (i2 & r' & [= -> ->] & Hr).
  destruct (bool_decide (Network.description r' ≠ Network.Reactants)) eqn:Hdr;
    [inversion Hin|].
  apply bool_decide_eq_false, dec_stable in Hdr.
  destruct (bool_decide (Network.entries p' = Network.entries r')) eqn:Heq;
    [|inversion Hin].
  apply bool_decide_eq_true in Heq.
  apply list_elem_of_singleton in Hin as [= -> -> ->]. eauto 10.
Qed.

(** The loopback edges that one call of [set_precursors] adds are drawn
    from their source and the precursors of that call. *)
Lemma precursor_links_within g (precursors : gset Entry) pn i j :
  (i, j, Network.loopback_edge Rxn)
    ∈ Network.precursor_links Rxn g precursors pn →
  Props.loopback_within Rxn g precursors i j = true.
Proof.
  unfold Network.precursor_links, Props.loopback_within.
  intros (node & Hin & _)%list_elem_of_bind.
  destruct (Network.get_node_data Rxn g node) as [entry|] eqn:Hnode;
    [|inversion Hin].
  destruct (Network.description entry).
  - inversion Hin.
  - destruct (bool_decide _); [|inversion Hin].
    apply list_elem_of_singleton in Hin. discriminate.
  - apply list_elem_of_bind in Hin as (node2 & Hin & _).
    destruct (Network.get_node_data Rxn g node2) as [entry2|] eqn:Hnode2;
      [|inversion Hin].
    destruct (bool_decide (_ = Network.Reactants)); [|inversion Hin].
    destruct (bool_decide (_ ⊆ precursors)); [inversion Hin|].
    destruct (bool_decide (_ ⊆ precursors ∪ _)) eqn:Hsub; [|inversion Hin].
    apply list_elem_of_singleton in Hin as [= -> ->].
    rewrite Hnode, Hnode2. apply bool_decide_eq_true in Hsub.
    apply bool_decide_eq_true. set_solver.
  - inversion Hin.
Qed.

End NetworkLoopbacks.

(** ** Loopback edges after re-pointing the precursors *)

(** The graph left by [build(); set_precursors([A, B]); set_precursors([A])]
    on the reactions [A + B → C], [B + C → D]. *)
Lemma stale_run_graph :
  ∃ n g, Examples.stale_run = Py.Ok n
         ∧ Network._g Examples.Rx n = Some g
         ∧ Network._precursors Examples.Rx n = Some {[0]}
         ∧ Network.get_node_data Examples.Rx g 1
             = Some (Network.mkNetworkEntry {[2]} Network.Products)
         ∧ Network.get_node_data Examples.Rx g 2
             = Some (Network.mkNetworkEntry {[1; 2]} Network.Reactants)
         ∧ Network.edge_list Examples.Rx g
             = [ (1, 2, Network.loopback_edge Examples.Rx);
                 (2, 3, Network.ReactionEdge Examples.Rx ([1; 2], [3], 1%Q));
                 (0, 1, Network.ReactionEdge Examples.Rx ([0; 1], [2], 1%Q)) ].
Proof.
  eexists _, _. split; [vm_compute; reflexivity|].
  repeat split; vm_compute; reflexivity.
Qed.

(** C6 at [build(); set_precursors([A, B]); set_precursors([A])] on the
    reactions [A + B → C], [B + C → D].  The first call adds the loopback
    edge [Products{C} → Reactants{B, C}]; the second call keeps it, although
    [{B, C}] is not drawn from [{C}] and the current precursors [{A}]. *)
Theorem set_precursors_keeps_stale_loopback :
  (n ← Examples.stale_run;
   match Network._g Examples.Rx n, Network._precursors Examples.Rx n with
   | Some g, Some precursors =>
       Py.Ok (elements precursors,
              Props.has_loopback Examples.Rx g 1 2,
              Props.loopback_within Examples.Rx g precursors 1 2)
   | _, _ => Py.Raise Py.ValueError
   end) = Py.Ok ([0], true, false).
Proof. vm_compute. reflexivity. Qed.


(** ** Path finder *)

Section PathFinder.
Context `{Countable Entry}.
Variable Rxn : Type.

Let Edge : Type := (nat * nat * Network.EdgeObj Rxn)%type.
Implicit Types (g : Network.PyDiGraph (Entry:=Entry) Rxn).
Implicit Types (es : list Edge) (p q : list nat) (cf : Rxn → Q).
Implicit Types (a : list (list nat)) (b : list (Q * list nat)).

Let is_walk := Props.is_walk Rxn.

(** *** Walks *)

Lemma walk_mono es es' p :
  (∀ x, x ∈ es → x ∈ es') → is_walk es p → is_walk es' p.
Proof.
  intros Hsub. induction p as [|u [|v rest] IH]; simpl; try done.
  intros [[e He] Hrest]. split; [eauto | by apply IH].
Qed.

Lemma walk_snoc es p u v e :
  is_walk es p → last p = Some u → (u, v, e) ∈ es → is_walk es (p ++ [v]).
Proof.
  induction p as [|x [|y rest] IH]; simpl; intros Hp Hlast He.
  - done.
  - injection Hlast as ->. eauto.
  - destruct Hp as [Hxy Hrest]. split; [assumption|]. by apply IH.
Qed.

Lemma walk_splice es p i x q :
  is_walk es p → p !! i = Some x → is_walk es (x :: q) →
  is_walk es (take i p ++ x :: q).
Proof.
  revert i. induction p as [|u [|v rest] IH]; intros i Hp Hi Hq.
  - done.
  - destruct i as [|i]; [|by destruct i]. by injection Hi as ->.
  - destruct i as [|i].
    + by injection Hi as ->.
    + destruct Hp as [Huv Hrest]. specialize (IH i Hrest Hi Hq).
      destruct i as [|i].
      * simpl in Hi. injection Hi as ->. simpl. split; assumption.
      * simpl in *. split; assumption.
Qed.

(** *** Edge lookup *)

Lemma connects_true u v (x : Edge) :
  Network.connects Rxn u v x = true ↔ x.1.1 = u ∧ x.1.2 = v.
Proof.
  unfold Network.connects. rewrite andb_true_iff, !Nat.eqb_eq. reflexivity.
Qed.

Lemma get_edge_data_Some g u v e :
  Network.get_edge_data Rxn g u v = Some e →
  (u, v, e) ∈ Network.edge_list Rxn g.
Proof.
  unfold Network.get_edge_data.
  destruct (find _ _) as [[[u' v'] e']|] eqn:Hfind; [|discriminate].
  intros [= <-]. apply find_some in Hfind as [Hin [Hu Hv]%connects_true].
  simpl in *. subst. by apply list_elem_of_In.
Qed.

Lemma get_edge_data_is_Some g u v e :
  (u, v, e) ∈ Network.edge_list Rxn g →
  is_Some (Network.get_edge_data Rxn g u v).
Proof.
  intros Hin. unfold Network.get_edge_data.
  destruct (find _ _) as [x|] eqn:Hfind; [by eexists|].
  apply list_elem_of_In in Hin.
  pose proof (find_none _ _ Hfind _ Hin) as Hno.
  assert (Network.connects Rxn u v (u, v, e) = true)
    by by apply connects_true.
  congruence.
Qed.

Lemma path_cost_from_walk g cf p c :
  is_walk (Network.edge_list Rxn g) p →
  ∃ c', Network.path_cost_from Rxn g cf c p = Py.Ok c'.
Proof.
  revert c. induction p as [|u [|v rest] IH]; intros c Hp; simpl; eauto.
  destruct Hp as [[e He] Hrest].
  destruct (get_edge_data_is_Some g u v e He) as [e' ->]. by apply IH.
Qed.

(** *** The shortest-path routine returns walks of the graph *)

(** A frontier label of a search from [source]: its path is a walk from
    [source] to the labelled node. *)
Let label_ok es (source : nat) (l : Network.Label) : Prop :=
  is_walk es l.2 ∧ last l.2 = Some l.1.1 ∧ head l.2 = Some source.

Lemma min_label_elem (frontier : list Network.Label) l :
  Network.min_label frontier = Some l → l ∈ frontier.
Proof.
  revert l. induction frontier as [|x rest IH]; intros l; simpl; [done|].
  destruct (Network.min_label rest) as [y|].
  - destruct (Py.Qltb y.1.2 x.1.2); intros [= <-]; [right; by apply IH|left].
  - intros [= <-]. left.
Qed.

Lemma edge_cost_nonneg cf (o : Network.EdgeObj Rxn) :
  (0 <= Network.get_edge_weight Rxn o cf)%Q →
  Network.edge_cost Rxn cf o = Py.Ok (Network.get_edge_weight Rxn o cf).
Proof.
  intros Hw. unfold Network.edge_cost. simpl.
  by rewrite (proj2 (Qltb_ge _ _) Hw).
Qed.

Lemma weights_nonneg_sub cf es es' :
  (∀ x, x ∈ es' → x ∈ es) →
  Props.weights_nonneg Rxn cf es → Props.weights_nonneg Rxn cf es'.
Proof.
  intros Hsub Hes. apply Forall_forall. intros x Hx.
  exact (proj1 (Forall_forall _ _) Hes x (Hsub x Hx)).
Qed.

Lemma relax_ok es source cf visited score path frontier (e : Edge) node :
  Forall (label_ok es source) frontier →
  label_ok es source (node, score, path) →
  e ∈ es → e.1.1 = node →
  (0 <= Network.get_edge_weight Rxn e.2 cf)%Q →
  ∃ fr,
    Network.relax Rxn cf visited node score path (Py.Ok frontier) e
    = Py.Ok fr
    ∧ Forall (label_ok es source) fr.
Proof.
  intros Hfr (Hwalk & Hlast & Hhead) He Hsrc Hw. unfold Network.relax.
  cbn [mbind Py.result_bind].
  destruct e as [[u v] obj]. simpl in *. subst u.
  assert (Hnew : label_ok es source
                   (v, (score + Network.get_edge_weight Rxn obj cf)%Q,
                    path ++ [v])).
  { split; [|split]; simpl.
    - eapply walk_snoc; eauto.
    - apply last_snoc.
    - rewrite head_app, Hhead. reflexivity. }
  destruct (bool_decide (v ∈ visited)); [by eauto|].
  rewrite (edge_cost_nonneg cf obj Hw). cbn [mbind Py.result_bind].
  destruct (v =? node); [by eauto|].
  destruct (find _ frontier) as [old|].
  - destruct (Py.Qltb _ _); [|by eauto].
    eexists. split; [reflexivity|].
    apply Forall_fmap, Forall_forall. intros l Hl. simpl.
    destruct (l.1.1 =? v); [assumption|].
    by eapply Forall_forall in Hfr.
  - eexists. split; [reflexivity|].
    apply Forall_app. split; [assumption|]. by apply Forall_singleton.
Qed.

Lemma relax_fold_ok es source cf visited score path node
    (out : list Edge) :
  Props.weights_nonneg Rxn cf es →
  label_ok es source (node, score, path) →
  Forall (λ e, e ∈ es ∧ e.1.1 = node) out →
  ∀ frontier,
    Forall (label_ok es source) frontier →
    ∃ fr,
      foldl (Network.relax Rxn cf visited node score path)
            (Py.Ok frontier) out = Py.Ok fr
      ∧ Forall (label_ok es source) fr.
Proof.
  intros Hnn Hl. induction 1 as [|e out [He Hsrc] _ IH]; intros frontier Hfr.
  { by exists frontier. }
  cbn [foldl].
  destruct (relax_ok es source cf visited score path frontier e node
              Hfr Hl He Hsrc) as (fr & -> & Hfr').
  { exact (proj1 (Forall_forall _ _) Hnn e He). }
  by apply IH.
Qed.

Lemma dijkstra_loop_ok es source cf target fuel visited frontier :
  Props.weights_nonneg Rxn cf es →
  Forall (label_ok es source) frontier →
  ∃ r,
    Network.dijkstra_loop Rxn cf es target fuel visited frontier = Py.Ok r
    ∧ ∀ p, r = Some p →
           is_walk es p ∧ last p = Some target ∧ head p = Some source.
Proof.
  intros Hnn. revert visited frontier.
  induction fuel as [|fuel IH]; intros visited frontier Hfr;
    cbn [Network.dijkstra_loop].
  { by exists None. }
  destruct (Network.min_label frontier) as [[[node score] path]|] eqn:Hmin.
  2:{ by exists None. }
  apply min_label_elem in Hmin.
  assert (Hl : label_ok es source (node, score, path))
    by by eapply Forall_forall in Hfr.
  destruct (node =? target) eqn:Hnode.
  { apply Nat.eqb_eq in Hnode as ->. exists (Some path).
    split; [reflexivity|]. by intros p [= <-]. }
  match goal with
  | |- context [foldl _ (Py.Ok ?fr0) ?out] =>
      destruct (relax_fold_ok es source cf visited score path node out
                  Hnn Hl) with (frontier := fr0) as (fr & Hfold & Hfr')
  end.
  - apply Forall_forall. by intros e [Hsrc Hin]%list_elem_of_filter.
  - apply Forall_forall. intros l [_ Hl']%list_elem_of_filter.
    by eapply Forall_forall in Hfr.
  - rewrite Hfold. cbn [mbind Py.result_bind]. by apply IH.
Qed.

Lemma dijkstra_shortest_paths_ok g cf source target :
  Props.weights_nonneg Rxn cf (Network.edge_list Rxn g) →
  ∃ r,
    Network.dijkstra_shortest_paths Rxn g cf source target = Py.Ok r
    ∧ ∀ p, r = Some p →
           is_walk (Network.edge_list Rxn g) p
           ∧ last p = Some target ∧ head p = Some source.
Proof.
  intros Hnn. unfold Network.dijkstra_shortest_paths.
  destruct (source =? target); [by exists None|].
  apply dijkstra_loop_ok; [exact Hnn|].
  apply Forall_singleton. by repeat split.
Qed.

(** *** Hiding edges and putting them back *)

Lemma remove_first_perm u v es (x : Edge) :
  find (Network.connects Rxn u v) es = Some x →
  es ≡ₚ x :: Network.remove_first Rxn u v es.
Proof.
  induction es as [|y es IH]; simpl; [done|].
  destruct (Network.connects Rxn u v y).
  - by intros [= ->].
  - intros Hx. rewrite (IH Hx) at 1. apply Permutation_swap.
Qed.

Lemma prune_step_perm i root es0 path
    (acc : Network.PyDiGraph (Entry:=Entry) Rxn * list Edge) :
  Network.edge_list Rxn acc.1 ++ acc.2 ≡ₚ es0 →
  Network.edge_list Rxn (Network.prune_step Rxn i root acc path).1
    ++ (Network.prune_step Rxn i root acc path).2 ≡ₚ es0.
Proof.
  destruct acc as [g removed]. unfold Network.prune_step. simpl.
  intros Hperm.
  destruct (_ && _); [|assumption].
  destruct (path !! i) as [u|]; [|assumption].
  destruct (path !! (i + 1)) as [v|]; [|assumption].
  unfold Network.get_edge_data.
  destruct (find _ _) as [[[u' v'] e]|] eqn:Hfind; [|assumption].
  simpl. rewrite <- Hperm.
  pose proof (find_some _ _ Hfind) as [_ [Hu Hv]%connects_true].
  simpl in Hu, Hv. subst u' v'.
  rewrite (remove_first_perm u v _ _ Hfind) at 2.
  rewrite app_assoc, <- Permutation_cons_append. reflexivity.
Qed.

Lemma add_edges_from_edge_list g (l : list Edge) :
  Network.edge_list Rxn (Network.add_edges_from Rxn g l)
  = rev l ++ Network.edge_list Rxn g.
Proof.
  unfold Network.add_edges_from. revert g.
  induction l as [|x l IH]; intros g; simpl; [reflexivity|].
  rewrite IH. simpl. by rewrite <- app_assoc.
Qed.

Lemma prune_restore a i root g :
  let pruned := foldl (Network.prune_step Rxn i root) (g, []) a in
  Network.edge_list Rxn (Network.add_edges_from Rxn pruned.1 pruned.2)
    ≡ₚ Network.edge_list Rxn g
  ∧ ∀ x, x ∈ Network.edge_list Rxn pruned.1 → x ∈ Network.edge_list Rxn g.
Proof.
  intros pruned.
  assert (Hperm : Network.edge_list Rxn pruned.1 ++ pruned.2
                  ≡ₚ Network.edge_list Rxn g).
  { subst pruned.
    apply (foldl_preserves
             (λ acc, Network.edge_list Rxn acc.1 ++ acc.2
                     ≡ₚ Network.edge_list Rxn g)).
    - simpl. by rewrite app_nil_r.
    - intros acc path _. apply prune_step_perm. }
  split.
  - rewrite add_edges_from_edge_list, <- Hperm, Permutation_app_comm.
    by rewrite <- Permutation_rev.
  - intros x Hx. rewrite <- Hperm. apply elem_of_app. by left.
Qed.

(** *** The candidate queue *)

Lemma b_get_None b : Network.b_get b = None → b = [].
Proof.
  destruct b as [|y b]; simpl; [done|].
  destruct (Network.b_get b) as [[z rest]|]; [|done].
  by destruct (Network.item_ltb z y).
Qed.

Lemma b_get_perm b x b' : Network.b_get b = Some (x, b') → b ≡ₚ x :: b'.
Proof.
  revert x b'. induction b as [|y b IH]; intros x b'; simpl; [done|].
  destruct (Network.b_get b) as [[z rest]|] eqn:Hget.
  - destruct (Network.item_ltb z y); intros [= <- <-]; [|done].
    rewrite (IH z rest eq_refl). apply Permutation_swap.
  - intros [= <- <-]. by rewrite (b_get_None b Hget).
Qed.

(** *** Invariants of the main loop *)

(** A walk of the original graph from the precursors node to the target. *)
Let good es (s t : nat) p : Prop :=
  is_walk es p ∧ head p = Some s ∧ last p = Some t.

Lemma good_splice es s t prev i x q :
  good es s t prev → prev !! i = Some x →
  is_walk es (x :: q) → last (x :: q) = Some t →
  good es s t (take i prev ++ x :: q).
Proof.
  intros (Hwalk & Hhead & Hlast) Hi Hq Hqt. split; [|split].
  - by apply walk_splice.
  - destruct prev as [|y rest]; [done|]. destruct i as [|i].
    + simpl in *. congruence.
    + exact Hhead.
  - by rewrite last_app_cons.
Qed.

Lemma good_perm es es' s t p : es ≡ₚ es' → good es s t p → good es' s t p.
Proof.
  intros Hperm (Hwalk & Hrest). split; [|assumption].
  eapply walk_mono; [|exact Hwalk]. intros x. by rewrite Hperm.
Qed.

Lemma spur_step_ok es s t cf a prev g b i :
  Props.weights_nonneg Rxn cf es →
  Network.edge_list Rxn g ≡ₚ es →
  good es s t prev →
  Forall (λ item, good es s t item.2) b →
  i < length prev →
  ∃ g' b',
    Network.spur_step Rxn cf t a prev (Py.Ok (g, b)) i = Py.Ok (g', b')
    ∧ Network.edge_list Rxn g' ≡ₚ es
    ∧ Forall (λ item, good es s t item.2) b'.
Proof.
  intros Hnn Hg Hprev Hb Hi. unfold Network.spur_step. simpl.
  destruct (lookup_lt_is_Some_2 prev i Hi) as [spur Hspur]. rewrite Hspur.
  pose proof (prune_restore a i (take i prev) g) as Hpr.
  destruct (foldl _ (g, []) a) as [g1 removed]. simpl in Hpr.
  destruct Hpr as [Hrestored Hsub].
  assert (Hg' : Network.edge_list Rxn (Network.add_edges_from Rxn g1 removed)
                ≡ₚ es) by by rewrite Hrestored.
  destruct (dijkstra_shortest_paths_ok g1 cf spur t) as (r & -> & Hr).
  { eapply weights_nonneg_sub; [|exact Hnn]. intros e He.
    rewrite <- Hg. by apply Hsub. }
  simpl. destruct r as [sp|]; [|by eauto].
  destruct (Hr sp eq_refl) as (Hwalk & Hlast & Hhead).
  destruct sp as [|x q]; [done|]. injection Hhead as ->.
  assert (Htotal : good es s t (take i prev ++ spur :: q)).
  { apply good_splice; try assumption.
    eapply walk_mono; [|exact Hwalk]. intros e He.
    rewrite <- Hg. by apply Hsub. }
  destruct (path_cost_from_walk (Network.add_edges_from Rxn g1 removed) cf
              (take i prev ++ spur :: q) 0%Q) as [c Hc].
  { eapply walk_mono; [|exact (proj1 Htotal)]. intros e. by rewrite Hg'. }
  unfold Network.path_cost. rewrite Hc. simpl.
  eexists _, _. split; [reflexivity|]. split; [assumption|].
  unfold Network.b_put. apply Forall_app. split; [assumption|].
  by apply Forall_singleton.
Qed.

Lemma spur_fold_ok es s t cf a prev g b (idxs : list nat) :
  Props.weights_nonneg Rxn cf es →
  Network.edge_list Rxn g ≡ₚ es →
  good es s t prev →
  Forall (λ item, good es s t item.2) b →
  Forall (λ i, i < length prev) idxs →
  ∃ g' b',
    foldl (Network.spur_step Rxn cf t a prev) (Py.Ok (g, b)) idxs
      = Py.Ok (g', b')
    ∧ Network.edge_list Rxn g' ≡ₚ es
    ∧ Forall (λ item, good es s t item.2) b'.
Proof.
  intros Hnn Hg Hprev Hb His. revert g b Hg Hb.
  induction His as [|i idxs Hi His IH]; intros g b Hg Hb; cbn [foldl];
    [by eauto|].
  destruct (spur_step_ok es s t cf a prev g b i Hnn Hg Hprev Hb Hi)
    as (g' & b' & -> & Hg' & Hb').
  by apply IH.
Qed.

Lemma drain_ok es s t fuel a costs b :
  NoDup a → Forall (good es s t) a →
  Forall (λ item, good es s t item.2) b →
  ∃ a' costs' b',
    Network.drain fuel a costs b = (a', costs', b')
    ∧ NoDup a' ∧ Forall (good es s t) a'
    ∧ Forall (λ item, good es s t item.2) b'
    ∧ length a' ≤ S (length a).
Proof.
  revert b. induction fuel as [|fuel IH]; intros b Hnd Ha Hb; simpl.
  { eexists _, _, _. split; [reflexivity|]. repeat split; auto. }
  destruct (Network.b_get b) as [[[cost_ path_] b']|] eqn:Hget.
  2:{ eexists _, _, _. split; [reflexivity|]. repeat split; auto. }
  apply b_get_perm in Hget. rewrite Hget in Hb.
  apply Forall_cons in Hb as [Hpath Hb']. simpl in Hpath.
  destruct (bool_decide (path_ ∈ a)) eqn:Hin.
  - by apply IH.
  - apply bool_decide_eq_false in Hin.
    eexists _, _, _. split; [reflexivity|]. split; [|split; [|split]].
    + apply NoDup_app. split; [assumption|]. split; [|apply NoDup_singleton].
      intros p Hp ->%list_elem_of_singleton. contradiction.
    + apply Forall_app. split; [assumption|]. by apply Forall_singleton.
    + assumption.
    + rewrite length_app. simpl. lia.
Qed.

Lemma yens_loop_ok es s t cf ks g a costs b :
  Props.weights_nonneg Rxn cf es →
  Network.edge_list Rxn g ≡ₚ es →
  NoDup a → Forall (good es s t) a →
  Forall (λ item, good es s t item.2) b →
  ∃ a',
    Network.yens_loop Rxn cf t ks g a costs b = Py.Ok a'
    ∧ NoDup a' ∧ Forall (good es s t) a'
    ∧ length a' ≤ length a + length ks.
Proof.
  intros Hnn. revert g a costs b.
  induction ks as [|k ks IH]; intros g a costs b Hg Hnd Ha Hb; simpl.
  { exists a. repeat split; auto. lia. }
  destruct (a !! (k - 1)) as [prev|] eqn:Hprev.
  2:{ exists a. repeat split; auto. lia. }
  assert (Hgood : good es s t prev).
  { eapply Forall_forall in Ha; [exact Ha|].
    by eapply list_elem_of_lookup_2. }
  destruct (spur_fold_ok es s t cf a prev g b (seq 0 (length prev - 1))
              Hnn Hg Hgood Hb) as (g' & b' & -> & Hg' & Hb').
  { apply Forall_forall. intros i Hi%elem_of_seq. lia. }
  simpl.
  destruct (drain_ok es s t (length b') a costs b' Hnd Ha Hb')
    as (a1 & costs1 & b1 & -> & Hnd1 & Ha1 & Hb1 & Hlen).
  destruct (IH g' a1 costs1 b1 Hg' Hnd1 Ha1 Hb1)
    as (a' & -> & Hnd' & Ha' & Hlen').
  exists a'. repeat split; auto. lia.
Qed.

(** The pop budget of [drain] is never the reason it stops: when nothing was
    accepted, the queue is empty. *)
Lemma drain_exhausts fuel a costs b a' costs' b' :
  length b ≤ fuel →
  Network.drain fuel a costs b = (a', costs', b') →
  a' = a → b' = [].
Proof.
  revert b. induction fuel as [|fuel IH]; intros b Hlen; simpl.
  - intros [= <- <- <-] _. destruct b; [done | simpl in Hlen; lia].
  - destruct (Network.b_get b) as [[[cost_ path_] b1]|] eqn:Hget.
    + pose proof (b_get_perm _ _ _ Hget) as Hperm.
      apply Permutation_length in Hperm. simpl in Hperm.
      destruct (bool_decide (path_ ∈ a)).
      * apply IH. lia.
      * intros [= <- <- <-] Heq. apply (f_equal length) in Heq.
        rewrite length_app in Heq. simpl in Heq. lia.
    + intros [= <- <- <-] _. by apply b_get_None.
Qed.

End PathFinder.

(** C2.  For every graph, every cost function that gives no edge of the
    graph a negative weight, every two node indices of the graph and every
    [num_k], [yens_ksp] raises nothing and returns at most [max 1 num_k]
    paths, no two of them the same node sequence; when fewer than [num_k]
    are found the shorter list is what it returns.  Each returned path is a
    walk of the graph from the precursors node to the target node. *)
Theorem yens_ksp_at_most_k_distinct `{Countable Entry} (Rxn : Type)
    (g : Network.PyDiGraph (Entry:=Entry) Rxn) (cf : Rxn → Q) (num_k : Z)
    (precursors_node target_node : nat) :
  Props.weights_nonneg Rxn cf (Network.edge_list Rxn g) →
  is_Some (Network.get_node_data Rxn g precursors_node) →
  is_Some (Network.get_node_data Rxn g target_node) →
  ∃ a,
    Network.yens_ksp Rxn g cf num_k precursors_node target_node = Py.Ok a
    ∧ (Z.of_nat (length a) ≤ Z.max 1 num_k)%Z
    ∧ NoDup a
    ∧ Forall (λ p, Props.is_walk Rxn (Network.edge_list Rxn g) p
                   ∧ head p = Some precursors_node
                   ∧ last p = Some target_node) a.
Proof.
  intros Hnn _ _. unfold Network.yens_ksp.
  destruct (dijkstra_shortest_paths_ok Rxn g cf precursors_node target_node
              Hnn) as (r & -> & Hr).
  cbn [mbind Py.result_bind]. destruct r as [path|].
  2:{ exists []. split; [reflexivity|]. split; [simpl; lia|].
      split; constructor. }
  destruct (Hr path eq_refl) as (Hwalk & Hlast & Hhead).
  destruct (path_cost_from_walk Rxn g cf path 0%Q Hwalk) as [c Hc].
  unfold Network.path_cost. rewrite Hc. simpl.
  destruct (yens_loop_ok Rxn (Network.edge_list Rxn g) precursors_node
              target_node cf (seq 1 (Z.to_nat (num_k - 1))) g [path] [c] []
              Hnn)
    as (a & -> & Hnd & Hgood & Hlen).
  - reflexivity.
  - apply NoDup_singleton.
  - apply Forall_singleton. by repeat split.
  - constructor.
  - exists a. split; [reflexivity|]. split; [|split; assumption].
    rewrite length_seq in Hlen. simpl in Hlen. lia.
Qed.

Lemma yen_graph_nonneg :
  Props.weights_nonneg Examples.Rx Examples.rx_cost
    (Network.edge_list Examples.Rx Examples.yen_graph).
Proof.
  unfold Props.weights_nonneg, Examples.yen_graph. simpl.
  repeat (constructor; [by vm_compute|]). constructor.
Qed.

(** Three paths requested on the network of the Yen example. *)
Lemma yens_ksp_at_most_k_distinct_witness :
  ∃ a,
    Network.yens_ksp Examples.Rx Examples.yen_graph Examples.rx_cost 3 6 7
      = Py.Ok a
    ∧ (Z.of_nat (length a) ≤ Z.max 1 3)%Z
    ∧ NoDup a
    ∧ Forall (λ p, Props.is_walk Examples.Rx
                     (Network.edge_list Examples.Rx Examples.yen_graph) p
                   ∧ head p = Some 6
                   ∧ last p = Some 7) a.
Proof.
  apply (yens_ksp_at_most_k_distinct Examples.Rx Examples.yen_graph
           Examples.rx_cost 3 6 7).
  - exact yen_graph_nonneg.
  - vm_compute. by eexists.
  - vm_compute. by eexists.
Defined.

(** With [num_k = 0] the shortest path is still returned: on the network of
    the Yen example, where a path from the precursors node to the target
    node exists, the call returns one path, which is more than [num_k]. *)
Lemma yens_ksp_zero_requested :
  Props.is_walk Examples.Rx
    (Network.edge_list Examples.Rx Examples.yen_graph) [6; 0; 1; 7]
  ∧ Network.yens_ksp Examples.Rx Examples.yen_graph Examples.rx_cost 0 6 7
    = Py.Ok [ [6; 0; 1; 7] ]
  ∧ ¬ (Z.of_nat (length [ [6; 0; 1; 7] ]) ≤ 0)%Z.
Proof.
  split; [|split].
  - simpl. repeat split; eexists; unfold Examples.yen_graph; simpl;
      repeat constructor.
  - vm_compute. reflexivity.
  - simpl. lia.
Qed.

(** Five paths requested where only two routes exist: both are returned,
    cheapest first, and nothing is raised. *)
Example yens_ksp_shortfall :
  Network.yens_ksp Examples.Rx Examples.two_route_graph Examples.rx_cost
    5 0 3 = Py.Ok [ [0; 1; 3]; [0; 2; 3] ].
Proof. vm_compute. reflexivity. Qed.

(** A reaction of negative cost on an edge that the search scans: the
    shortest-path routine refuses it, and so does [yens_ksp]. *)
Example yens_ksp_negative_cost :
  Network.yens_ksp Examples.Rx Examples.two_route_graph (λ _, (-5)%Q)
    5 0 3 = Py.Raise Py.ValueError.
Proof. vm_compute. reflexivity. Qed.

(** ** Yen's algorithm on a network with a reversible step *)

Lemma yen_run_network : Examples.yen_run = Py.Ok Examples.yen_network.
Proof. vm_compute. reflexivity. Qed.

(** C1 at the network built from [A + B → T] (cost 1), [A + B → C] (cost 1),
    [C → T + D] (cost 10), [C → A + B] (cost 1/10) with precursors [{A, B}]
    and target [T], asking for three paths.  The third path returned passes
    twice through node [0] (Reactants{A, B}), and its cost [21/10] is below
    the cost [11] of the second. *)
Theorem yens_ksp_loops_and_misorders :
  Network.yens_ksp Examples.Rx Examples.yen_graph Examples.rx_cost 3 6 7
    = Py.Ok [ [6; 0; 1; 7]; [6; 0; 2; 3; 4; 7]; [6; 0; 2; 3; 5; 0; 1; 7] ]
  ∧ Network.path_cost Examples.Rx Examples.yen_graph Examples.rx_cost
      [6; 0; 1; 7] = Py.Ok 1%Q
  ∧ Network.path_cost Examples.Rx Examples.yen_graph Examples.rx_cost
      [6; 0; 2; 3; 4; 7] = Py.Ok 11%Q
  ∧ Network.path_cost Examples.Rx Examples.yen_graph Examples.rx_cost
      [6; 0; 2; 3; 5; 0; 1; 7] = Py.Ok (21 # 10)%Q
  ∧ ¬ Props.loopless [6; 0; 2; 3; 5; 0; 1; 7]
  ∧ ¬ Props.cost_sorted [1%Q; 11%Q; (21 # 10)%Q].
Proof.
  split; [vm_compute; reflexivity|].
  split; [vm_compute; reflexivity|].
  split; [vm_compute; reflexivity|].
  split; [vm_compute; reflexivity|].
  split.
  - unfold Props.loopless. by_compute.
  - unfold Props.cost_sorted. intros Hs.
    apply Sorted_inv in Hs as [Hs _]. apply Sorted_inv in Hs as [_ Hle].
    apply HdRel_inv in Hle. revert Hle. apply Qlt_not_le. reflexivity.
Qed.


(** ** Re-selecting the current target or precursors *)

Section SameSelection.
Context `{Countable Entry}.
Variable Rxn : Type.
Variable get_min_entry_by_formula : gset Entry → string → Py.result Entry.
Implicit Types (self : Network.ReactionNetwork (Entry:=Entry) Rxn).



End SameSelection.



(** * Part III: further properties of the code *)

(** ** Pathway aggregates, continued *)

(** X1.  The reactants, the products and the intermediates of a pathway are
    pairwise disjoint and together make up every entry that is consumed or
    produced by some step; [compositions] lists exactly these entries, each
    once. *)
Theorem pathway_roles_partition `{Countable Entry}
    (p : Pathways.Pathway (Entry:=Entry)) :
  Pathways.reactants p ## Pathways.products p
  ∧ Pathways.reactants p ## Pathways.intermediates p
  ∧ Pathways.products p ## Pathways.intermediates p
  ∧ Pathways.reactants p ∪ Pathways.products p ∪ Pathways.intermediates p
    = Pathways.all_reactants p ∪ Pathways.all_products p
  ∧ NoDup (Pathways.compositions p)
  ∧ ∀ e, e ∈ Pathways.compositions p ↔
         e ∈ Pathways.reactants p ∨ e ∈ Pathways.products p
         ∨ e ∈ Pathways.intermediates p.
Proof.
  unfold Pathways.reactants, Pathways.products, Pathways.intermediates,
    Pathways.compositions.
  set (R := Pathways.all_reactants p). set (P := Pathways.all_products p).
  repeat split.
  - set_solver.
  - set_solver.
  - set_solver.
  - apply set_eq. intros e.
    destruct (decide (e ∈ R)), (decide (e ∈ P)); set_solver.
  - apply NoDup_elements.
  - rewrite elem_of_elements.
    destruct (decide (e ∈ R)), (decide (e ∈ P)); set_solver.
  - rewrite elem_of_elements. set_solver.
Qed.

(** X2.  The entry sets of a pathway depend only on which reactions it
    holds: two step lists with the same members, such as a reordering of
    the steps or a list that repeats a step, give the same [entries], the
    same [all_reactants] and [all_products], and the same reactants,
    products and intermediates. *)
Theorem pathway_roles_order_free `{Countable Entry}
    (steps1 steps2 : list (Pathways.Reaction (Entry:=Entry))) :
  (∀ r, r ∈ steps1 ↔ r ∈ steps2) →
  Pathways.entries (Pathways.mkPathway steps1)
  = Pathways.entries (Pathways.mkPathway steps2)
  ∧ Pathways.all_reactants (Pathways.mkPathway steps1)
    = Pathways.all_reactants (Pathways.mkPathway steps2)
  ∧ Pathways.all_products (Pathways.mkPathway steps1)
    = Pathways.all_products (Pathways.mkPathway steps2)
  ∧ Pathways.reactants (Pathways.mkPathway steps1)
    = Pathways.reactants (Pathways.mkPathway steps2)
  ∧ Pathways.products (Pathways.mkPathway steps1)
    = Pathways.products (Pathways.mkPathway steps2)
  ∧ Pathways.intermediates (Pathways.mkPathway steps1)
    = Pathways.intermediates (Pathways.mkPathway steps2).
Proof.
  intros Hsame.
  assert (HE : Pathways.entries (Pathways.mkPathway steps1)
               = Pathways.entries (Pathways.mkPathway steps2)).
  { apply set_eq. intros e. unfold Pathways.entries. simpl.
    rewrite !elem_of_list_to_set, !list_elem_of_bind.
    by setoid_rewrite Hsame. }
  assert (HR : Pathways.all_reactants (Pathways.mkPathway steps1)
               = Pathways.all_reactants (Pathways.mkPathway steps2)).
  { apply set_eq. intros e. rewrite !elem_of_all_reactants. simpl.
    by setoid_rewrite Hsame. }
  assert (HP : Pathways.all_products (Pathways.mkPathway steps1)
               = Pathways.all_products (Pathways.mkPathway steps2)).
  { apply set_eq. intros e. rewrite !elem_of_all_products. simpl.
    by setoid_rewrite Hsame. }
  unfold Pathways.reactants, Pathways.products, Pathways.intermediates.
  by rewrite HE, HR, HP.
Qed.

(** The three-step pathway and its reversal. *)
Lemma pathway_roles_order_free_witness :
  Pathways.entries
    (Pathways.mkPathway (Pathways._reactions Examples.three_steps))
  = Pathways.entries
      (Pathways.mkPathway (rev (Pathways._reactions Examples.three_steps)))
  ∧ Pathways.all_reactants
      (Pathways.mkPathway (Pathways._reactions Examples.three_steps))
    = Pathways.all_reactants
        (Pathways.mkPathway (rev (Pathways._reactions Examples.three_steps)))
  ∧ Pathways.all_products
      (Pathways.mkPathway (Pathways._reactions Examples.three_steps))
    = Pathways.all_products
        (Pathways.mkPathway (rev (Pathways._reactions Examples.three_steps)))
  ∧ Pathways.reactants
      (Pathways.mkPathway (Pathways._reactions Examples.three_steps))
    = Pathways.reactants
        (Pathways.mkPathway (rev (Pathways._reactions Examples.three_steps)))
  ∧ Pathways.products
      (Pathways.mkPathway (Pathways._reactions Examples.three_steps))
    = Pathways.products
        (Pathways.mkPathway (rev (Pathways._reactions Examples.three_steps)))
  ∧ Pathways.intermediates
      (Pathways.mkPathway (Pathways._reactions Examples.three_steps))
    = Pathways.intermediates
        (Pathways.mkPathway (rev (Pathways._reactions Examples.three_steps))).
Proof.
  apply (pathway_roles_order_free
           (Pathways._reactions Examples.three_steps)
           (rev (Pathways._reactions Examples.three_steps))).
  intros r. simpl. set_solver.
Defined.

(** ** The reaction pool of a solver *)

Section SolverFacts.
Context {Rxn : Type} `{EqDecision Rxn}.
Implicit Types (rxns : list Rxn) (costs : list Q) (l : list (Rxn * Q)).

(** What the pool looks like after the pairs [l] have been offered to a
    pool [(rxns, costs)]. *)
Lemma solver_fold_spec l rxns costs :
  NoDup rxns → length rxns = length costs →
  ∃ rxns' costs',
    foldl Pathways.solver_step (rxns, costs) l = (rxns', costs')
    ∧ NoDup rxns' ∧ length rxns' = length costs'
    ∧ (∀ r, r ∈ rxns' ↔ r ∈ rxns ∨ r ∈ l.*1)
    ∧ ∀ i r c, rxns' !! i = Some r → costs' !! i = Some c →
        (rxns !! i = Some r ∧ costs !! i = Some c)
        ∨ (r ∉ rxns
           ∧ ∃ j, l !! j = Some (r, c)
                  ∧ ∀ j' rc, j' < j → l !! j' = Some rc → rc.1 ≠ r).
Proof.
  revert rxns costs. induction l as [|[r0 c0] l IH]; intros rxns costs Hnd Hlen.
  - exists rxns, costs. simpl. repeat split; auto.
    + intros [?|Hin]; [done | inversion Hin].
  - simpl. destruct (decide (r0 ∈ rxns)) as [Hin|Hnin].
    + destruct (IH rxns costs Hnd Hlen)
        as (rxns' & costs' & -> & Hnd' & Hlen' & Hmem & Hfirst).
      exists rxns', costs'. repeat split; auto.
      * rewrite Hmem. intros [?|?]; [by left | right; by right].
      * rewrite Hmem. intros [? | [-> | ?]%elem_of_cons]; auto.
      * intros i r c Hr Hc.
        destruct (Hfirst i r c Hr Hc) as [?|(Hr' & j & Hj & Hbefore)];
          [by left|right].
        split; [assumption|]. exists (S j). split; [assumption|].
        intros [|j'] rc Hlt Hrc; simpl in Hrc.
        -- injection Hrc as <-. simpl. congruence.
        -- eapply Hbefore; [|eassumption]. lia.
    + destruct (IH (rxns ++ [r0]) (costs ++ [c0]))
        as (rxns' & costs' & -> & Hnd' & Hlen' & Hmem & Hfirst).
      { apply NoDup_app. split; [assumption|].
        split; [|apply NoDup_singleton].
        intros x Hx ->%list_elem_of_singleton. contradiction. }
      { rewrite !length_app. simpl. lia. }
      exists rxns', costs'. repeat split; auto.
      * rewrite Hmem, elem_of_app, list_elem_of_singleton.
        intros [[? | ->] | ?]; [by left| |]; right; [left|by right].
      * rewrite Hmem, elem_of_app, list_elem_of_singleton.
        intros [? | [-> | ?]%elem_of_cons]; auto.
      * intros i r c Hr Hc.
        destruct (Hfirst i r c Hr Hc) as [[Hr' Hc']|(Hr' & j & Hj & Hbefore)].
        -- destruct (decide (i < length rxns)) as [Hi|Hi].
           ++ left. rewrite lookup_app_l in Hr' by assumption.
              rewrite lookup_app_l in Hc' by lia. by split.
           ++ right.
              rewrite lookup_app_r in Hr' by lia.
              rewrite lookup_app_r in Hc' by lia.
              rewrite Hlen in Hr'.
              destruct (i - length costs) as [|k]; [|by destruct k].
              simpl in Hr', Hc'. injection Hr' as <-. injection Hc' as <-.
              split; [assumption|]. exists 0. split; [reflexivity|].
              intros j' rc Hlt. lia.
        -- right. rewrite elem_of_app, list_elem_of_singleton in Hr'.
           split; [tauto|]. exists (S j). split; [assumption|].
           intros [|j'] rc Hlt Hrc; simpl in Hrc.
           ++ injection Hrc as <-. simpl. intros ->. tauto.
           ++ eapply Hbefore; [|eassumption]. lia.
Qed.

Lemma solver_fold_paths (paths : list (Pathways.CostedPath (Rxn:=Rxn)))
    (acc : list Rxn * list Q) :
  foldl (λ acc path,
           foldl Pathways.solver_step acc
                 (zip (Pathways.path_reactions path)
                      (Pathways.path_costs path)))
        acc paths
  = foldl Pathways.solver_step acc
          (paths ≫= λ path,
             zip (Pathways.path_reactions path) (Pathways.path_costs path)).
Proof.
  revert acc. induction paths as [|path paths IH]; intros acc; simpl;
    [reflexivity|].
  rewrite IH, foldl_app. reflexivity.
Qed.

End SolverFacts.

(** X3.  The reaction pool built by [Solver.__init__] holds every reaction
    that is paired with a cost in some pathway, each once, and as many costs
    as reactions; the cost kept for a reaction is the one it carries where
    it first occurs, reading the pathways in order. *)
Theorem solver_pool_first_occurrence {Rxn : Type} `{EqDecision Rxn}
    (pathways : list (Pathways.CostedPath (Rxn:=Rxn))) :
  let self := Pathways.solver_init pathways in
  let offered :=
    pathways ≫= λ path,
      zip (Pathways.path_reactions path) (Pathways.path_costs path) in
  NoDup (Pathways.solver_reactions self)
  ∧ length (Pathways.solver_costs self) = Pathways.num_rxns self
  ∧ (∀ r, r ∈ Pathways.solver_reactions self ↔ r ∈ offered.*1)
  ∧ ∀ i r c,
      Pathways.solver_reactions self !! i = Some r →
      Pathways.solver_costs self !! i = Some c →
      ∃ j, offered !! j = Some (r, c)
           ∧ ∀ j' rc, j' < j → offered !! j' = Some rc → rc.1 ≠ r.
Proof.
  intros self offered. subst self. unfold Pathways.solver_init.
  rewrite solver_fold_paths. fold offered.
  destruct (solver_fold_spec offered [] [])
    as (rxns & costs & -> & Hnd & Hlen & Hmem & Hfirst);
    [constructor | reflexivity |].
  unfold Pathways.num_rxns, Pathways.solver_reactions, Pathways.solver_costs.
  simpl. repeat split; auto.
  - rewrite Hmem. intros [Hin|?]; [inversion Hin | assumption].
  - rewrite Hmem. by right.
  - intros i r c Hr Hc.
    destruct (Hfirst i r c Hr Hc) as [[Hnil _]|(_ & Hj)]; [|exact Hj].
    by rewrite lookup_nil in Hnil.
Qed.

(** ** Combination generator, continued *)

Section BinomialFacts.

Lemma binom_zero n : binom n 0 = 1.
Proof. by destruct n. Qed.

Lemma binom_beyond n k : n < k → binom n k = 0.
Proof.
  revert k. induction n as [|n IH]; intros [|k] Hlt; simpl; try lia.
  rewrite !IH by lia. reflexivity.
Qed.

Lemma sum_binom_pascal n m :
  sum_list (map (binom (S n)) (seq 0 (S m)))
  = sum_list (map (binom n) (seq 0 (S m)))
    + sum_list (map (binom n) (seq 0 m)).
Proof.
  induction m as [|m IH].
  - simpl. rewrite !binom_zero. reflexivity.
  - rewrite (seq_S (S m)), !map_app, !sum_list_with_app, IH.
    rewrite (seq_S m), map_app, sum_list_with_app. simpl. lia.
Qed.

Lemma sum_binom_saturated n m :
  n < m → sum_list (map (binom n) (seq 0 m)) = 2 ^ n.
Proof.
  revert m. induction n as [|n IH]; intros m Hlt.
  - destruct m as [|m]; [lia|]. clear Hlt.
    induction m as [|m IHm]; [reflexivity|].
    rewrite seq_S, map_app, sum_list_with_app, IHm. reflexivity.
  - destruct m as [|m]; [lia|].
    rewrite sum_binom_pascal, (IH (S m)), (IH m) by lia.
    rewrite Nat.pow_succ_r'. lia.
Qed.

Lemma binom_sum_saturated n m : n ≤ m → binom_sum n m = 2 ^ n - 1.
Proof.
  intros Hle. unfold binom_sum.
  pose proof (sum_binom_saturated n (S m) ltac:(lia)) as Hsum.
  change (seq 0 (S m)) with (0 :: seq 1 m) in Hsum.
  rewrite map_cons, binom_zero in Hsum.
  change (sum_list (1 :: ?l)) with (1 + sum_list l) in Hsum. lia.
Qed.

End BinomialFacts.

Lemma filter_sublist_of {A} (P : A → Prop) `{!∀ x, Decision (P x)} (l : list A) :
  sublist (filter P l) l.
Proof.
  induction l as [|x l IH]; [constructor|]. rewrite filter_cons.
  destruct (decide (P x)); by constructor.
Qed.

(** X4.  For pairwise-distinct entries, [generate_all_combos entries M]
    holds exactly the sets of entries of the list that have between [1] and
    [M] members: nothing is missing and nothing else is there. *)
Theorem generate_all_combos_membership `{Countable Entry}
    (entries : list Entry) (M : Z) (c : gset Entry) :
  NoDup entries →
  c ∈ Core.generate_all_combos entries M ↔
  c ⊆ list_to_set entries ∧ (1 ≤ Z.of_nat (size c) ≤ M)%Z.
Proof.
  intros Hnd. unfold Core.generate_all_combos, Core.combo_tuples,
    Itertools.range1.
  rewrite list_elem_of_fmap. split.
  - intros (t & -> & [Hlen Hsub]%flat_combinations_elem).
    apply elem_of_seq in Hlen.
    assert (NoDup t) by (eapply sublist_NoDup; eauto).
    rewrite size_list_to_set by assumption. split; [|lia].
    intros x Hx%elem_of_list_to_set. apply elem_of_list_to_set.
    by eapply elem_of_sublist.
  - intros [Hsub Hsize].
    set (t := filter (λ x, x ∈ c) entries).
    assert (Hset : (list_to_set t : gset Entry) = c).
    { apply set_eq. intros x. subst t.
      rewrite elem_of_list_to_set, list_elem_of_filter.
      split; [tauto|]. intros Hx. split; [assumption|].
      apply (elem_of_list_to_set (C:=gset Entry)). by apply Hsub. }
    assert (Hndt : NoDup t) by by apply NoDup_filter.
    exists t. split; [by symmetry|].
    apply flat_combinations_elem. split; [|apply filter_sublist_of].
    apply elem_of_seq. rewrite <- (size_list_to_set (C:=gset Entry)), Hset
      by assumption.
    lia.
Qed.

(** Among the combinations of [[1; 2; 3]] of size at most two: [{1, 3}]. *)
Lemma generate_all_combos_membership_witness :
  ({[1; 3]} : gset nat) ∈ Core.generate_all_combos [1; 2; 3] 2.
Proof.
  apply (generate_all_combos_membership [1; 2; 3] 2 {[1; 3]}).
  - by_compute.
  - split; [by_compute|]. vm_compute. split; discriminate.
Defined.

(** X5.  A bound of zero or less yields no combination at all, and a bound
    of at least the number of entries yields [2^N - 1] combinations, as many
    as the bound [N] itself does. *)
Theorem generate_all_combos_bounds `{Countable Entry}
    (entries : list Entry) (M : Z) :
  ((M ≤ 0)%Z → Core.generate_all_combos entries M = [])
  ∧ ((Z.of_nat (length entries) ≤ M)%Z →
     length (Core.generate_all_combos entries M) = 2 ^ length entries - 1).
Proof.
  unfold Core.generate_all_combos, Core.combo_tuples, Itertools.range1.
  split.
  - intros HM. replace (Z.to_nat M) with 0 by lia. reflexivity.
  - intros HM. rewrite length_map, flat_combinations_length.
    apply binom_sum_saturated. lia.
Qed.

(** Three entries: bound [0] gives nothing, bound [5] gives [7]
    combinations. *)
Lemma generate_all_combos_bounds_witness :
  Core.generate_all_combos [1; 2; 3] 0 = []
  ∧ length (Core.generate_all_combos [1; 2; 3] 5) = 2 ^ 3 - 1.
Proof.
  split.
  - apply (generate_all_combos_bounds [1; 2; 3] 0). lia.
  - apply (generate_all_combos_bounds [1; 2; 3] 5). simpl. lia.
Defined.

(** ** Swapping the cost function *)

Section Recost.
Context `{Countable Entry} `{Countable Composition}.
Variable np_exp : Q → Q.
Variable np_log : Q → Q.
Variable kb : Q.

Implicit Types (cf : string) (m : option Q).
Implicit Types
  (a : gmap (Core.RxnEntries (Entry:=Entry) * Core.RxnEntries (Entry:=Entry))
            (Core.EdgeAttr (Composition:=Composition))).

Let recost := Props.recost_edge (Composition:=Composition) np_exp np_log kb.

Lemma recost_step_fst cf a m k e :
  (Core.recost_step np_exp np_log kb cf (a, m) (k, e)).1
  = match Core.rxn e with
    | Some _ => <[k := recost cf e]> a
    | None => a
    end.
Proof.
  unfold Core.recost_step, recost, Props.recost_edge. simpl.
  destruct (Core.rxn e) as [r|]; [|reflexivity].
  pose proof (determine_weight np_exp np_log kb m (Core.dg_per_atom r) cf)
    as Hw.
  destruct (Core.determine_rxn_weight np_exp np_log kb m _ cf) as [w m'].
  simpl in *. by rewrite Hw.
Qed.

Lemma recost_edge_plain cf (e : Core.EdgeAttr (Composition:=Composition)) :
  Core.rxn e = None → recost cf e = e.
Proof. unfold recost, Props.recost_edge. by intros ->. Qed.

Lemma recost_edge_rxn cf (e : Core.EdgeAttr (Composition:=Composition)) :
  Core.rxn (recost cf e) = Core.rxn e.
Proof.
  unfold recost, Props.recost_edge.
  destruct (Core.rxn e) eqn:He; simpl; [reflexivity | by rewrite He].
Qed.

Lemma recost_edge_twice cf1 cf2
    (e : Core.EdgeAttr (Composition:=Composition)) :
  recost cf2 (recost cf1 e) = recost cf2 e.
Proof.
  unfold recost, Props.recost_edge.
  destruct (Core.rxn e) eqn:He; simpl; [reflexivity | by rewrite He].
Qed.

(** The loop of [set_cost_function], over distinct keys that hold the
    listed attributes. *)
Lemma recost_fold cf (kvs : list _) a m k :
  NoDup kvs.*1 →
  (∀ kv, kv ∈ kvs → a !! kv.1 = Some kv.2) →
  (foldl (Core.recost_step np_exp np_log kb cf) (a, m) kvs).1 !! k
  = if decide (k ∈ kvs.*1) then recost cf <$> a !! k else a !! k.
Proof.
  revert a m. induction kvs as [|[k0 e0] kvs IH]; intros a m Hnd Hin.
  - cbn [foldl fst]. destruct (decide _) as [Hk|]; [|reflexivity].
    by apply elem_of_nil in Hk.
  - rewrite fmap_cons in Hnd. apply NoDup_cons in Hnd as [Hk0 Hnd].
    cbn [foldl].
    pose proof (recost_step_fst cf a m k0 e0) as Hstep.
    destruct (Core.recost_step np_exp np_log kb cf (a, m) (k0, e0))
      as [a1 m1]. simpl in Hstep.
    assert (Ha0 : a !! k0 = Some e0) by (apply (Hin (k0, e0)); left).
    assert (Ha1 : a1 = <[k0 := recost cf e0]> a).
    { subst a1. destruct (Core.rxn e0) eqn:Hr; [reflexivity|].
      rewrite recost_edge_plain by assumption.
      symmetry. by apply insert_id. }
    rewrite IH; [|assumption|].
    2:{ intros kv Hkv. rewrite Ha1, lookup_insert_ne.
        - apply Hin. by right.
        - intros ->. apply Hk0. apply list_elem_of_fmap. by exists kv. }
    rewrite fmap_cons. cbn [fst]. rewrite Ha1.
    destruct (decide (k = k0)) as [->|Hne].
    + rewrite decide_False by assumption.
      rewrite decide_True by left.
      by rewrite lookup_insert_eq, Ha0.
    + rewrite lookup_insert_ne by congruence.
      destruct (decide (k ∈ kvs.*1)).
      * rewrite decide_True; [reflexivity | by right].
      * rewrite decide_False; [reflexivity|].
        intros [?|?]%elem_of_cons; congruence.
Qed.

Lemma recost_map cf a m k :
  (foldl (Core.recost_step np_exp np_log kb cf) (a, m) (map_to_list a)).1
    !! k
  = recost cf <$> a !! k.
Proof.
  rewrite recost_fold.
  - destruct (decide _) as [|Hk]; [reflexivity|].
    destruct (a !! k) as [e|] eqn:He; [|reflexivity].
    exfalso. apply Hk. apply list_elem_of_fmap. exists (k, e).
    split; [reflexivity|]. by apply elem_of_map_to_list.
  - apply NoDup_fst_map_to_list.
  - intros [k' e'] Hin. by apply elem_of_map_to_list.
Qed.

(** The running minimum can only go down during the loop, and under a
    tracking strategy it ends at or below the energy of every reaction the
    loop visits. *)
Lemma recost_fold_minimum cf (kvs : list _) a m :
  let m' := (foldl (Core.recost_step np_exp np_log kb cf) (a, m) kvs).2 in
  (∀ old, m = Some old → ∃ lo, m' = Some lo ∧ (lo <= old)%Q)
  ∧ (Props.tracks_minimum cf →
     ∀ kv r, kv ∈ kvs → Core.rxn kv.2 = Some r →
       ∃ lo, m' = Some lo ∧ (lo <= Core.dg_per_atom r)%Q).
Proof.
  revert a m. induction kvs as [|[k0 e0] kvs IH]; intros a m; cbn zeta.
  - split.
    + intros old ->. exists old. split; [reflexivity | apply Qle_refl].
    + intros _ kv r Hin. inversion Hin.
  - cbn [foldl].
    destruct (Core.recost_step np_exp np_log kb cf (a, m) (k0, e0))
      as [a1 m1] eqn:Hstep.
    destruct (IH a1 m1) as [Hdown Htrack]. cbn zeta in Hdown, Htrack.
    assert (Hm1 : ∀ old, m = Some old → ∃ lo, m1 = Some lo ∧ (lo <= old)%Q).
    { intros old Hold. unfold Core.recost_step in Hstep. simpl in Hstep.
      destruct (Core.rxn e0) as [r|].
      - pose proof (determine_minimum_decreases np_exp np_log kb m
                      (Core.dg_per_atom r) cf old Hold) as Hd.
        destruct (Core.determine_rxn_weight np_exp np_log kb m _ cf)
          as [w m2]. injection Hstep as _ <-. exact Hd.
      - injection Hstep as _ <-. exists old.
        split; [assumption | apply Qle_refl]. }
    split.
    + intros old Hold. destruct (Hm1 old Hold) as (lo1 & Hlo1 & Hle1).
      destruct (Hdown lo1 Hlo1) as (lo & Hlo & Hle). exists lo.
      split; [assumption|]. by eapply Qle_trans.
    + intros Hcf kv r [->|Hin]%elem_of_cons Hr.
      * simpl in Hr. unfold Core.recost_step in Hstep. simpl in Hstep.
        rewrite Hr in Hstep.
        pose proof (determine_minimum_tracked np_exp np_log kb m
                      (Core.dg_per_atom r) cf Hcf) as Hd.
        destruct (Core.determine_rxn_weight np_exp np_log kb m _ cf)
          as [w m2]. injection Hstep as _ <-.
        destruct Hd as (lo1 & Hlo1 & Hle1).
        destruct (Hdown lo1 Hlo1) as (lo & Hlo & Hle). exists lo.
        split; [assumption|]. by eapply Qle_trans.
      * by eapply Htrack.
Qed.

Lemma set_cost_function_graph
    (self : Core.ReactionNetwork (Entry:=Entry) (Composition:=Composition))
    cf (g : Core.DiGraph) :
  Core._rxn_network self = Some g →
  ∃ g' m',
    Core.set_cost_function np_exp np_log kb self cf
    = Py.Ok (Core.with_graph self g' m')
    ∧ Core.nodes g' = Core.nodes g
    ∧ (∀ k, Core.adj g' !! k = recost cf <$> Core.adj g !! k)
    ∧ m' = (foldl (Core.recost_step np_exp np_log kb cf)
                  (Core.adj g, Core._most_negative_rxn self)
                  (map_to_list (Core.adj g))).2.
Proof.
  intros Hg. unfold Core.set_cost_function. rewrite Hg.
  pose proof (recost_map cf (Core.adj g) (Core._most_negative_rxn self))
    as Hmap.
  destruct (foldl _ (Core.adj g, _) _) as [a' m'].
  exists (Core.mkDiGraph (Core.nodes g) a'), m'. simpl in *. done.
Qed.

End Recost.

(** X6.  On a network with a graph, [set_cost_function] raises nothing and
    rewrites weights only: the nodes and the set of edges stay, an edge
    without a reaction keeps its attributes, and an edge with reaction [r]
    keeps [r] and weighs what the named strategy gives the energy per atom
    of [r], with no closing shift.  The name of the strategy is not
    recorded: [_cost_function] is what it was, as is every field other than
    the graph and the running minimum. *)
Theorem set_cost_function_reweights
    `{Countable Entry} `{Countable Composition}
    (np_exp np_log : Q → Q) (kb : Q)
    (self : Core.ReactionNetwork (Entry:=Entry) (Composition:=Composition))
    (cost_function : string) (g : Core.DiGraph) :
  Core._rxn_network self = Some g →
  ∃ st g',
    Core.set_cost_function np_exp np_log kb self cost_function = Py.Ok st
    ∧ Core._rxn_network st = Some g'
    ∧ Core.nodes g' = Core.nodes g
    ∧ (∀ k, Core.adj g' !! k
            = Props.recost_edge np_exp np_log kb cost_function
                <$> Core.adj g !! k)
    ∧ Core._cost_function st = Core._cost_function self
    ∧ Core._starters st = Core._starters self
    ∧ Core._selected_target st = Core._selected_target self
    ∧ Core._complex_loopback st = Core._complex_loopback self
    ∧ Core._all_combos st = Core._all_combos self
    ∧ Core._filtered_entries st = Core._filtered_entries self
    ∧ Core._max_num_components st = Core._max_num_components self
    ∧ Core._all_targets st = Core._all_targets self.
Proof.
  intros Hg.
  destruct (set_cost_function_graph np_exp np_log kb self cost_function g Hg)
    as (g' & m' & Hset & Hnodes & Hadj & _).
  exists (Core.with_graph self g' m'), g'. by repeat split.
Qed.

Lemma phase_built_generated :
  Examples.phase_generate "softplus" true = Py.Ok Examples.phase_built.
Proof.
  unfold Examples.phase_built.
  destruct (generate_rxn_network_ok (λ _, [0]) id Examples.phase_balancer
              id id 1 Examples.phase_network [0] [1] "softplus" true)
    as [st Hst]; [discriminate|].
  unfold Examples.phase_generate. by rewrite Hst.
Qed.

Lemma phase_built_has_graph :
  Core._rxn_network Examples.phase_built = Some Examples.phase_built_graph.
Proof.
  unfold Examples.phase_built_graph.
  destruct (generate_rxn_network_inv _ _ _ _ _ _ _ _ _ _ _ _
              phase_built_generated) as (g0 & m & -> & _).
  reflexivity.
Qed.

(** The two-phase network, switched from ["softplus"] to ["rectified"]. *)
Lemma set_cost_function_reweights_witness :
  ∃ st g',
    Core.set_cost_function id id 1 Examples.phase_built "rectified"
    = Py.Ok st
    ∧ Core._rxn_network st = Some g'
    ∧ Core.nodes g' = Core.nodes Examples.phase_built_graph
    ∧ (∀ k, Core.adj g' !! k
            = Props.recost_edge id id 1 "rectified"
                <$> Core.adj Examples.phase_built_graph !! k)
    ∧ Core._cost_function st = Core._cost_function Examples.phase_built
    ∧ Core._starters st = Core._starters Examples.phase_built
    ∧ Core._selected_target st = Core._selected_target Examples.phase_built
    ∧ Core._complex_loopback st = Core._complex_loopback Examples.phase_built
    ∧ Core._all_combos st = Core._all_combos Examples.phase_built
    ∧ Core._filtered_entries st
      = Core._filtered_entries Examples.phase_built
    ∧ Core._max_num_components st
      = Core._max_num_components Examples.phase_built
    ∧ Core._all_targets st = Core._all_targets Examples.phase_built.
Proof.
  apply (set_cost_function_reweights id id 1 Examples.phase_built
           "rectified" Examples.phase_built_graph).
  exact phase_built_has_graph.
Defined.

(** X7.  The last strategy wins: the graph after [set_cost_function] with
    one name and then with another is the graph after [set_cost_function]
    with the second name alone.  In particular a second call with the same
    name leaves the graph as the first call left it. *)
Theorem set_cost_function_last_wins
    `{Countable Entry} `{Countable Composition}
    (np_exp np_log : Q → Q) (kb : Q)
    (self : Core.ReactionNetwork (Entry:=Entry) (Composition:=Composition))
    (first second : string) :
  (st ← Core.set_cost_function np_exp np_log kb self first;
   st ← Core.set_cost_function np_exp np_log kb st second;
   Py.Ok (Core._rxn_network st))
  = (st ← Core.set_cost_function np_exp np_log kb self second;
     Py.Ok (Core._rxn_network st)).
Proof.
  destruct (Core._rxn_network self) as [g|] eqn:Hg.
  2:{ unfold Core.set_cost_function. by rewrite Hg. }
  destruct (set_cost_function_graph np_exp np_log kb self first g Hg)
    as (g1 & m1 & Hset1 & Hn1 & Ha1 & _).
  destruct (set_cost_function_graph np_exp np_log kb self second g Hg)
    as (g2 & m2 & Hset2 & Hn2 & Ha2 & _).
  destruct (set_cost_function_graph np_exp np_log kb
              (Core.with_graph self g1 m1) second g1 eq_refl)
    as (g12 & m12 & Hset12 & Hn12 & Ha12 & _).
  rewrite Hset1, Hset2. unfold mbind, Py.result_bind. cbv beta iota.
  rewrite Hset12.
  simpl. do 2 f_equal.
  destruct g12 as [n12 a12], g2 as [n2 a2]. simpl in *. f_equal.
  - congruence.
  - apply map_eq. intros k. rewrite Ha12, Ha1, Ha2, <- option_fmap_compose.
    destruct (Core.adj g !! k) as [e|]; [|reflexivity]. simpl.
    f_equal. apply recost_edge_twice.
Qed.

(** X8.  [set_cost_function] does not start the running minimum afresh: the
    value after the call is at or below the value before it, and under
    ["bipartite"] or ["enthalpies_positive"] it is also at or below the
    energy per atom of every reaction in the graph. *)
Theorem set_cost_function_minimum
    `{Countable Entry} `{Countable Composition}
    (np_exp np_log : Q → Q) (kb : Q)
    (self st : Core.ReactionNetwork (Entry:=Entry) (Composition:=Composition))
    (cost_function : string) (g : Core.DiGraph) :
  Core._rxn_network self = Some g →
  Core.set_cost_function np_exp np_log kb self cost_function = Py.Ok st →
  (∀ old, Core._most_negative_rxn self = Some old →
     ∃ lo, Core._most_negative_rxn st = Some lo ∧ (lo <= old)%Q)
  ∧ (Props.tracks_minimum cost_function →
     ∀ k e r, Core.adj g !! k = Some e → Core.rxn e = Some r →
       ∃ lo, Core._most_negative_rxn st = Some lo
             ∧ (lo <= Core.dg_per_atom r)%Q).
Proof.
  intros Hg Hset.
  destruct (set_cost_function_graph np_exp np_log kb self cost_function g Hg)
    as (g' & m' & Hset' & _ & _ & Hm).
  rewrite Hset' in Hset. injection Hset as <-. simpl.
  destruct (recost_fold_minimum np_exp np_log kb cost_function
              (map_to_list (Core.adj g)) (Core.adj g)
              (Core._most_negative_rxn self)) as [Hdown Htrack].
  cbn zeta in Hdown, Htrack. rewrite <- Hm in Hdown, Htrack.
  split; [exact Hdown|].
  intros Hcf k e r He Hr. apply (Htrack Hcf (k, e) r); [|assumption].
  by apply elem_of_map_to_list.
Qed.

(** The two-phase network, switched from ["softplus"] to ["bipartite"]. *)
Lemma set_cost_function_minimum_witness :
  Core._rxn_network Examples.phase_built = Some Examples.phase_built_graph
  ∧ Examples.phase_recost "bipartite" Examples.phase_built
    = Py.Ok Examples.phase_switched
  ∧ (∀ old, Core._most_negative_rxn Examples.phase_built = Some old →
       ∃ lo, Core._most_negative_rxn Examples.phase_switched = Some lo
             ∧ (lo <= old)%Q)
  ∧ (Props.tracks_minimum "bipartite" →
     ∀ k e r, Core.adj Examples.phase_built_graph !! k = Some e →
       Core.rxn e = Some r →
       ∃ lo, Core._most_negative_rxn Examples.phase_switched = Some lo
             ∧ (lo <= Core.dg_per_atom r)%Q).
Proof.
  assert (Hset : Examples.phase_recost "bipartite" Examples.phase_built
                 = Py.Ok Examples.phase_switched).
  { unfold Examples.phase_switched, Examples.phase_recost.
    destruct (set_cost_function_graph id id 1 Examples.phase_built
                "bipartite" Examples.phase_built_graph phase_built_has_graph)
      as (g' & m' & -> & _).
    reflexivity. }
  split; [exact phase_built_has_graph|]. split; [exact Hset|].
  exact (set_cost_function_minimum id id 1 Examples.phase_built
           Examples.phase_switched "bipartite" Examples.phase_built_graph
           phase_built_has_graph Hset).
Defined.

(** ** Shape of the graph *)

Section ShapeGraph.
Context `{Countable Entry} `{Countable Composition}.

Implicit Types (g : Core.DiGraph (Entry:=Entry) (Composition:=Composition)).
Implicit Types (u v n : Core.RxnEntries (Entry:=Entry)).
Implicit Types (cl : bool) (max : Z) (S T R P : gset Entry).
Implicit Types (combos : list (gset Entry)).

(** *** Nodes *)

Lemma nodes_add_node g n x :
  x ∈ Core.nodes (Core.add_node g n) ↔ x ∈ Core.nodes g ∨ x = n.
Proof.
  unfold Core.add_node. destruct (decide (n ∈ Core.nodes g)); simpl.
  - split; [by left|]. by intros [?| ->].
  - rewrite elem_of_app, list_elem_of_singleton. tauto.
Qed.

Lemma nodes_add_edge g u v w (o : option Core.Reaction) x :
  x ∈ Core.nodes (Core.add_edge g u v w o)
  ↔ x ∈ Core.nodes g ∨ x = u ∨ x = v.
Proof.
  unfold Core.add_edge. simpl. rewrite !nodes_add_node. tauto.
Qed.

(** *** Every structural link is made *)

Lemma present_link_reactant add s S g R k :
  is_Some (Core.adj g !! k) →
  is_Some (Core.adj (Core.link_reactant add s S g R) !! k).
Proof.
  intros Hk. unfold Core.link_reactant.
  assert (is_Some (Core.adj (if add
                             then Core.add_node g
                                    (Core.mkRxnEntries R Core.Reactants)
                             else g) !! k))
    by (destruct add; [by rewrite adj_add_node | assumption]).
  destruct (decide (R ⊆ S)); [by apply present_add_edge | assumption].
Qed.

Lemma link_reactant_adds add S g R :
  R ⊆ S →
  is_Some (Core.adj (Core.link_reactant add (Props.Snode S) S g R)
           !! (Props.Snode S, Props.Rnode R)).
Proof.
  intros HR. unfold Core.link_reactant. rewrite decide_True by assumption.
  rewrite adj_add_edge, lookup_insert_eq. eauto.
Qed.

Lemma link_fold_adds add S g combos R :
  R ∈ combos → R ⊆ S →
  is_Some (Core.adj (foldl (Core.link_reactant add (Props.Snode S) S) g
                       combos)
           !! (Props.Snode S, Props.Rnode R)).
Proof.
  intros HR HS. revert HS.
  apply (foldl_establishes
           (λ R g, R ⊆ S →
                   is_Some (Core.adj g !! (Props.Snode S, Props.Rnode R))));
    [| |assumption].
  - intros g' R' _. apply link_reactant_adds.
  - intros g' R' R'' _ Hkeep HS. by apply present_link_reactant, Hkeep.
Qed.

Lemma add_loopbacks_adds cl max S g P c :
  c ∈ Props.loopback_combos cl max S P →
  is_Some (Core.adj (Core.add_loopbacks cl max S g P)
           !! (Props.Pnode P, Props.Rnode c)).
Proof.
  unfold Props.loopback_combos, Core.add_loopbacks. destruct cl.
  - intros Hc.
    apply (foldl_establishes
             (λ c g, is_Some (Core.adj g
                              !! (Props.Pnode P, Props.Rnode c))));
      [| |assumption].
    + intros g' c' _. rewrite adj_add_edge, lookup_insert_eq. eauto.
    + intros g' c' c'' _ Hkeep. by apply present_add_edge.
  - intros ->%list_elem_of_singleton.
    rewrite adj_add_edge, lookup_insert_eq. eauto.
Qed.

End ShapeGraph.

Section Shape.
Context `{Countable Entry} `{Countable Element} `{Countable Composition}.
Variable composition_elements : Entry → list Element.
Variable reduced_composition : Entry → Composition.
Variable ComputedReaction :
  gset Entry → gset Entry → option (Core.Reaction (Composition:=Composition)).
Variable np_exp : Q → Q.
Variable np_log : Q → Q.
Variable kb : Q.

Implicit Types (g : Core.DiGraph (Entry:=Entry) (Composition:=Composition)).
Implicit Types (u v n : Core.RxnEntries (Entry:=Entry)).
Implicit Types (cl : bool) (max : Z) (S T R P : gset Entry).
Implicit Types (combos : list (gset Entry)) (cf : string) (m : option Q).

(** The invariant of the graph while it is built or re-pointed: every edge
    is of a known kind, every node tagged Starters or Target is that of [S]
    or [T], and the nodes in [req] are present. *)
Let inv cl max combos S T (req : list Core.RxnEntries) g : Prop :=
  Props.shaped cl max combos S T (Core.adj g)
  ∧ Props.tagged S T (Core.nodes g)
  ∧ ∀ n, n ∈ req → n ∈ Core.nodes g.

Lemma link_tagged cl max combos S T u v :
  Props.structural_link cl max combos S T u v →
  Core.description u ≠ Core.Reactants
  ∧ Props.tagged S T [u; v].
Proof.
  intros [[-> (R & -> & _)]|[(P & -> & _ & -> & _)|(P & c & -> & _ & -> & _)]];
    (split; [discriminate|]);
    intros n [->|[->|[]%elem_of_nil]%elem_of_cons]%elem_of_cons;
    split; (discriminate || reflexivity).
Qed.

(** *** The three ways the graph grows *)

Lemma inv_add_node cl max combos S T req g n :
  inv cl max combos S T req g →
  Core.description n ≠ Core.Starters → Core.description n ≠ Core.Target →
  inv cl max combos S T req (Core.add_node g n).
Proof.
  intros (Hs & Ht & Hr) Hn1 Hn2. split; [by rewrite adj_add_node|]. split.
  - intros x [Hx| ->]%nodes_add_node; [by apply Ht|]. by split.
  - intros x Hx. apply nodes_add_node. left. by apply Hr.
Qed.

Lemma inv_add_link cl max combos S T req g u v :
  inv cl max combos S T req g →
  Props.structural_link cl max combos S T u v →
  inv cl max combos S T req (Core.add_edge g u v 0 None).
Proof.
  intros ([Hp Hty] & Ht & Hr) Hl.
  destruct (link_tagged _ _ _ _ _ _ _ Hl) as [Hu Huv].
  split; [split|split].
  - intros u' v' e. rewrite adj_add_edge, lookup_insert.
    destruct (decide ((u, v) = (u', v'))) as [[= <- <-]|_]; [|apply Hp].
    intros [= <-] _. split; [|assumption].
    destruct (Core.adj g !! (u, v)) as [e0|] eqn:He0; [|reflexivity].
    by destruct (Hp u v e0 He0 Hu) as [-> _].
  - intros u' v' e. rewrite adj_add_edge, lookup_insert.
    destruct (decide ((u, v) = (u', v'))) as [[= <- <-]|_]; [|apply Hty].
    intros _ Hu'. contradiction.
  - intros x [Hx|Hx]%nodes_add_edge; [by apply Ht|].
    apply Huv. destruct Hx as [-> | ->]; [left | right; left].
  - intros x Hx. apply nodes_add_edge. left. by apply Hr.
Qed.

Lemma inv_add_reaction cl max combos S T req g R P w
    (r : Core.Reaction (Composition:=Composition)) :
  inv cl max combos S T req g →
  inv cl max combos S T req
    (Core.add_edge g (Props.Rnode R) (Props.Pnode P) w (Some r)).
Proof.
  intros ([Hp Hty] & Ht & Hr). split; [split|split].
  - intros u' v' e. rewrite adj_add_edge, lookup_insert.
    destruct (decide (_ = (u', v'))) as [[= <- <-]|_]; [|apply Hp].
    intros _ Hu'. by destruct Hu'.
  - intros u' v' e. rewrite adj_add_edge, lookup_insert.
    destruct (decide (_ = (u', v'))) as [[= <- <-]|_]; [|apply Hty].
    intros [= <-] _. simpl. eauto.
  - intros x [Hx|[-> | ->]]%nodes_add_edge; [by apply Ht| |];
      split; discriminate.
  - intros x Hx. apply nodes_add_edge. left. by apply Hr.
Qed.

(** *** The loops of the builder *)

Lemma inv_link_reactant cl max combos S T req add g R :
  R ∈ combos →
  inv cl max combos S T req g →
  inv cl max combos S T req (Core.link_reactant add (Props.Snode S) S g R).
Proof.
  intros HR Hg. unfold Core.link_reactant.
  assert (Hg' : inv cl max combos S T req
                  (if add
                   then Core.add_node g (Core.mkRxnEntries R Core.Reactants)
                   else g))
    by (destruct add; [by apply inv_add_node | assumption]).
  destruct (decide (R ⊆ S)); [|assumption].
  apply inv_add_link; [assumption|]. left. split; [reflexivity|].
  by exists R.
Qed.

Lemma inv_add_loopbacks cl max combos S T req g P :
  P ∈ combos →
  inv cl max combos S T req g →
  inv cl max combos S T req (Core.add_loopbacks cl max S g P).
Proof.
  intros HP Hg. unfold Core.add_loopbacks. destruct cl.
  - apply (foldl_preserves (inv true max combos S T req));
      [assumption|].
    intros g' c Hc Hg'. apply inv_add_link; [assumption|].
    right. right. by exists P, c.
  - apply inv_add_link; [assumption|]. right. right. exists P, P.
    repeat split; [assumption|]. left.
Qed.

Lemma inv_reaction_step cl max combos S T req cf P acc R :
  inv cl max combos S T req acc.1 →
  inv cl max combos S T req
    (Core.reaction_step composition_elements reduced_composition
       ComputedReaction np_exp np_log kb cf P acc R).1.
Proof.
  intros Hacc. destruct acc as [g m]. unfold Core.reaction_step.
  destruct (decide (P = R)); [assumption|].
  destruct (decide (_ ≠ _)); [assumption|].
  destruct (Core.try_reaction _ _ R P) as [r|]; [|assumption].
  destruct (Core.determine_rxn_weight _ _ _ m _ cf) as [w m'].
  cbn [fst] in *. by apply inv_add_reaction.
Qed.

Lemma inv_product_step cl max combos' combos S T req cf acc P :
  P ∈ combos →
  inv cl max combos S T req acc.1 →
  inv cl max combos S T req
    (Core.product_step composition_elements reduced_composition
       ComputedReaction np_exp np_log kb cf cl max combos' S T
       (Props.Tnode T) acc P).1.
Proof.
  intros HP Hacc. destruct acc as [g m]. unfold Core.product_step.
  apply (foldl_preserves (λ acc, inv cl max combos S T req acc.1)).
  - cbn [fst] in *.
    assert (inv cl max combos S T req
              (Core.add_loopbacks cl max S
                 (Core.add_node g (Core.mkRxnEntries P Core.Products)) P))
      by (apply inv_add_loopbacks; [done|]; by apply inv_add_node).
    destruct (decide (T ⊆ P)); [|assumption].
    apply inv_add_link; [assumption|]. right. left. by exists P.
  - intros acc' R _. apply inv_reaction_step.
Qed.

Lemma shift_edge_plain cf m :
  Core.shift_edge cf m (Props.plain_edge (Composition:=Composition))
  = Props.plain_edge.
Proof. unfold Core.shift_edge. simpl. by destruct m. Qed.

Lemma inv_shift_pass cl max combos S T req cf m g :
  inv cl max combos S T req g →
  inv cl max combos S T req (Core.shift_pass cf m g).
Proof.
  intros ([Hp Hty] & Ht & Hr). split; [split|split; assumption].
  - intros u v e. rewrite adj_shift_pass.
    destruct (Core.adj g !! (u, v)) as [e0|] eqn:He0; [|discriminate].
    intros [= <-] Hu. destruct (Hp u v e0 He0 Hu) as [-> Hl].
    split; [apply shift_edge_plain | assumption].
  - intros u v e. rewrite adj_shift_pass.
    destruct (Core.adj g !! (u, v)) as [e0|] eqn:He0; [|discriminate].
    intros [= <-] Hu. rewrite shift_edge_rxn. by eapply Hty.
Qed.

Lemma product_step_links cf combos cl max S T acc P v :
  (v = Props.Tnode T ∧ T ⊆ P)
  ∨ (∃ c, v = Props.Rnode c ∧ c ∈ Props.loopback_combos cl max S P) →
  is_Some (Core.adj
             (Core.product_step composition_elements reduced_composition
                ComputedReaction np_exp np_log kb cf cl max combos S T
                (Props.Tnode T) acc P).1
           !! (Props.Pnode P, v)).
Proof.
  intros Hv. destruct acc as [g m]. unfold Core.product_step.
  apply (foldl_preserves
           (λ acc, is_Some (Core.adj acc.1 !! (Props.Pnode P, v)))).
  - cbn [fst]. destruct Hv as [[-> HT]|(c & -> & Hc)].
    + rewrite decide_True by assumption.
      rewrite adj_add_edge, lookup_insert_eq. eauto.
    + assert (is_Some
                (Core.adj (Core.add_loopbacks cl max S
                             (Core.add_node g
                                (Core.mkRxnEntries P Core.Products)) P)
                 !! (Props.Pnode P, Props.Rnode c)))
        by by apply add_loopbacks_adds.
      destruct (decide (T ⊆ P)); [by apply present_add_edge | assumption].
  - intros acc' R _. apply present_reaction_step.
Qed.

(** *** The whole build *)

Lemma generate_rxn_network_shape self starters t0 ts cf cl :
  ∃ st g,
    Core.generate_rxn_network composition_elements reduced_composition
      ComputedReaction np_exp np_log kb self starters (t0 :: ts) cf cl
    = Py.Ok st
    ∧ Core._max_num_components st = Core._max_num_components self
    ∧ Core._all_combos st = Core._all_combos self
    ∧ Props.well_formed st cl (list_to_set starters) t0 g
    ∧ Props.Tnode {[t0]} ∈ Core.nodes g.
Proof.
  unfold Core.generate_rxn_network. cbv zeta.
  set (combos := Core._all_combos self).
  set (max := Core._max_num_components self).
  set (S := list_to_set starters : gset Entry).
  set (T := {[t0]} : gset Entry).
  set (g1 := foldl (Core.link_reactant _ _ _) _ combos).
  destruct (foldl _ (g1, None) combos) as [g0 m] eqn:Hfold.
  eexists _, (Core.shift_pass cf m g0). split; [reflexivity|].
  split; [reflexivity|]. split; [reflexivity|].
  pose (req := [Props.Snode S; Props.Tnode T]).
  assert (Hg1 : inv cl max combos S T req g1).
  { subst g1. apply (foldl_preserves (inv cl max combos S T req)).
    - split; [|split].
      + rewrite !adj_add_node. unfold Core.empty_graph. simpl.
        split; intros u v e He; by rewrite lookup_empty in He.
      + intros n [[Hn| ->]%nodes_add_node| ->]%nodes_add_node;
          [by apply elem_of_nil in Hn | |]; split;
          (discriminate || reflexivity).
      + intros n [->|[->|[]%elem_of_nil]%elem_of_cons]%elem_of_cons;
          rewrite !nodes_add_node; auto.
    - intros g R HR Hg. by apply inv_link_reactant. }
  assert (Hg0 : inv cl max combos S T req g0).
  { change g0 with (g0, m).1. rewrite <- Hfold.
    apply (foldl_preserves (λ acc, inv cl max combos S T req acc.1));
      [exact Hg1|].
    intros acc P HP Hacc. by apply inv_product_step. }
  destruct (inv_shift_pass _ _ _ _ _ _ cf m _ Hg0) as (Hshaped & Htag & Hreq).
  assert (Hlinked : Props.linked cl max combos S T
                      (Core.adj (Core.shift_pass cf m g0))).
  { intros u v Hl. rewrite adj_shift_pass, fmap_is_Some.
    change g0 with (g0, m).1. rewrite <- Hfold.
    destruct Hl as [[-> (R & -> & HR & HS)]|Hl].
    - apply (foldl_preserves
               (λ acc, is_Some (Core.adj acc.1
                                !! (Props.Snode S, Props.Rnode R)))).
      + subst g1. by apply link_fold_adds.
      + intros acc P _. apply present_product_step.
    - assert (∃ P, P ∈ combos ∧ u = Props.Pnode P
                   ∧ ((v = Props.Tnode T ∧ T ⊆ P)
                      ∨ (∃ c, v = Props.Rnode c
                              ∧ c ∈ Props.loopback_combos cl max S P)))
        as (P & HP & -> & Hv).
      { destruct Hl as [(P & -> & HP & -> & HT)|(P & c & -> & HP & -> & Hc)];
          exists P; eauto 10. }
      revert Hv.
      apply (foldl_establishes
               (λ P acc,
                  (v = Props.Tnode T ∧ T ⊆ P)
                  ∨ (∃ c, v = Props.Rnode c
                          ∧ c ∈ Props.loopback_combos cl max S P) →
                  is_Some (Core.adj acc.1 !! (Props.Pnode P, v))));
        [| |assumption].
      + intros acc P' _ Hv. by apply product_step_links.
      + intros acc P' P'' _ Hkeep Hv. by apply present_product_step, Hkeep. }
  split.
  - do 4 (split; [reflexivity|]).
    split; [exact (conj Hshaped Hlinked)|].
    split; [apply Hreq; left | exact Htag].
  - apply Hreq. right. left.
Qed.

End Shape.

(** X9.  With a non-empty target list [generate_rxn_network] returns a
    graph in which the edges that do not leave a Reactants node are exactly
    these, each with weight [0] and no reaction: from the Starters node to
    [Reactants(R)] for every combination [R] within the starters, from
    [Products(P)] to the Target node for every combination [P] that
    contains the first target, and the loopback edges from [Products(P)] (in
    complex mode to every combination generated from [P] and the starters,
    in simple mode to [Reactants(P)]).  Every edge that leaves a Reactants
    node carries a reaction and ends at a Products node; the graph has one
    node tagged Starters and one tagged Target. *)
Theorem generate_rxn_network_structure
    `{Countable Entry} `{Countable Element} `{Countable Composition}
    (composition_elements : Entry → list Element)
    (reduced_composition : Entry → Composition)
    (ComputedReaction :
       gset Entry → gset Entry →
       option (Core.Reaction (Composition:=Composition)))
    (np_exp np_log : Q → Q) (kb : Q)
    (self : Core.ReactionNetwork) (starters : list Entry)
    (target : Entry) (more_targets : list Entry)
    (cost_function : string) (complex_loopback : bool) :
  ∃ st g,
    Core.generate_rxn_network composition_elements reduced_composition
      ComputedReaction np_exp np_log kb self starters
      (target :: more_targets) cost_function complex_loopback = Py.Ok st
    ∧ Core._rxn_network st = Some g
    ∧ Props.structured complex_loopback (Core._max_num_components self)
        (Core._all_combos self) (list_to_set starters) {[ target ]}
        (Core.adj g)
    ∧ Props.terminals (list_to_set starters) {[ target ]} (Core.nodes g)
    ∧ Props.Tnode {[ target ]} ∈ Core.nodes g.
Proof.
  destruct (generate_rxn_network_shape composition_elements
              reduced_composition ComputedReaction np_exp np_log kb self
              starters target more_targets cost_function complex_loopback)
    as (st & g & Hgen & Hmax & Hcombos & Hwf & HT).
  destruct Hwf as (Hg & _ & _ & _ & Hs & Ht).
  rewrite Hmax, Hcombos in Hs. by exists st, g.
Qed.

(** ** Re-pointing the starters *)

Lemma generate_all_combos_NoDup `{Countable Entry} (l : list Entry) (max : Z) :
  NoDup l → NoDup (Core.generate_all_combos l max).
Proof.
  intros Hl. unfold Core.generate_all_combos, Core.combo_tuples,
    Itertools.range1.
  apply NoDup_fmap_2_strong.
  - intros t1 t2 [_ H1]%flat_combinations_elem [_ H2]%flat_combinations_elem.
    by apply sublist_set_inj with l.
  - apply flat_combinations_NoDup; [assumption | apply NoDup_seq].
Qed.

Section Restart.
Context `{Countable Entry} `{Countable Composition}.

Implicit Types (g : Core.DiGraph (Entry:=Entry) (Composition:=Composition)).
Implicit Types (u v n x : Core.RxnEntries (Entry:=Entry)).
Implicit Types (cl : bool) (max : Z) (S T R P : gset Entry).
Implicit Types (combos visited : list (gset Entry)).
Implicit Types
  (a : gmap (Core.RxnEntries (Entry:=Entry) * Core.RxnEntries (Entry:=Entry))
            (Core.EdgeAttr (Composition:=Composition))).
Implicit Types
  (L : Core.RxnEntries (Entry:=Entry) → Core.RxnEntries (Entry:=Entry) → Prop).

(** The three kinds of structural link, with the starters that govern the
    loopbacks of a Products node given per node. *)
Let slink combos S u v : Prop :=
  u = Props.Snode S ∧ ∃ R, v = Props.Rnode R ∧ R ∈ combos ∧ R ⊆ S.
Let tlink combos T u v : Prop :=
  ∃ P, u = Props.Pnode P ∧ P ∈ combos ∧ v = Props.Tnode T ∧ T ⊆ P.
Let llink cl max combos (loopS : gset Entry → gset Entry) u v : Prop :=
  ∃ P c, u = Props.Pnode P ∧ P ∈ combos ∧ v = Props.Rnode c
         ∧ c ∈ Props.loopback_combos cl max (loopS P) P.
Let links cl max combos S T loopS u v : Prop :=
  slink combos S u v ∨ tlink combos T u v ∨ llink cl max combos loopS u v.

Let shaped_by L a : Prop :=
  (∀ u v e, a !! (u, v) = Some e →
     Core.description u ≠ Core.Reactants → e = Props.plain_edge ∧ L u v)
  ∧ (∀ u v e, a !! (u, v) = Some e →
       Core.description u = Core.Reactants →
       Core.description v = Core.Products ∧ is_Some (Core.rxn e)).
Let linked_by L a : Prop := ∀ u v, L u v → is_Some (a !! (u, v)).

(** *** Graph primitives *)

Lemma lookup_remove_node g n u v e :
  Core.adj (Core.remove_node g n) !! (u, v) = Some e
  ↔ Core.adj g !! (u, v) = Some e ∧ u ≠ n ∧ v ≠ n.
Proof.
  unfold Core.remove_node. simpl. by rewrite map_lookup_filter_Some.
Qed.

Lemma nodes_remove_node g n x :
  x ∈ Core.nodes (Core.remove_node g n) ↔ x ∈ Core.nodes g ∧ x ≠ n.
Proof.
  unfold Core.remove_node. simpl. rewrite list_elem_of_filter. tauto.
Qed.

Lemma find_tagged_node (tag : Core.Description)
    (ns : list (Core.RxnEntries (Entry:=Entry))) n0 :
  n0 ∈ ns → Core.description n0 = tag →
  (∀ n, n ∈ ns → Core.description n = tag → n = n0) →
  ∃ i, list_find (λ n, Core.description n = tag) ns = Some (i, n0).
Proof.
  intros Hin Htag Huniq.
  destruct (list_find_elem_of (λ n, Core.description n = tag) ns n0 Hin Htag)
    as [[i x] Hfind].
  exists i. rewrite Hfind. do 2 f_equal.
  apply list_find_Some in Hfind as (Hx & Hdx & _).
  apply Huniq; [|assumption]. by eapply list_elem_of_lookup_2.
Qed.

Lemma find_no_tagged_node (tag : Core.Description)
    (ns : list (Core.RxnEntries (Entry:=Entry))) :
  (∀ n, n ∈ ns → Core.description n ≠ tag) →
  list_find (λ n, Core.description n = tag) ns = None.
Proof. intros Hnone. apply list_find_None, Forall_forall. exact Hnone. Qed.

Lemma link_ends cl max combos S T loopS u v :
  links cl max combos S T loopS u v →
  Core.description u ≠ Core.Reactants
  ∧ Core.description v ≠ Core.Starters
  ∧ Core.description v ≠ Core.Products
  ∧ Props.tagged S T [u; v].
Proof.
  intros [[-> (R & -> & _)]|[(P & -> & _ & -> & _)|(P & c & -> & _ & -> & _)]];
    (do 3 (split; [discriminate|]));
    intros n [->|[->|[]%elem_of_nil]%elem_of_cons]%elem_of_cons;
    split; (discriminate || reflexivity).
Qed.

Lemma shaped_by_weaken L L' a :
  (∀ u v e, a !! (u, v) = Some e → L u v → L' u v) →
  shaped_by L a → shaped_by L' a.
Proof.
  intros HL [Hp Hty]. split; [|exact Hty].
  intros u v e He Hu. destruct (Hp u v e He Hu). eauto.
Qed.

Lemma shaped_by_add_edge L g u v :
  shaped_by L (Core.adj g) → L u v →
  Core.description u ≠ Core.Reactants →
  shaped_by L (Core.adj (Core.add_edge g u v 0 None)).
Proof.
  intros [Hp Hty] Hl Hu. split.
  - intros u' v' e. rewrite adj_add_edge, lookup_insert.
    destruct (decide ((u, v) = (u', v'))) as [[= <- <-]|_]; [|apply Hp].
    intros [= <-] _. split; [|assumption].
    destruct (Core.adj g !! (u, v)) as [e0|] eqn:He0; [|reflexivity].
    by destruct (Hp u v e0 He0 Hu) as [-> _].
  - intros u' v' e. rewrite adj_add_edge, lookup_insert.
    destruct (decide ((u, v) = (u', v'))) as [[= <- <-]|_]; [|apply Hty].
    intros _ Hu'. contradiction.
Qed.

Lemma linked_by_add_edge L g u v w (o : option Core.Reaction) :
  linked_by L (Core.adj g) →
  linked_by L (Core.adj (Core.add_edge g u v w o)).
Proof. intros Hl u' v' Huv. by apply present_add_edge, Hl. Qed.

Lemma tagged_add_edge S T g u v w (o : option Core.Reaction) :
  Props.tagged S T (Core.nodes g) → Props.tagged S T [u; v] →
  Props.tagged S T (Core.nodes (Core.add_edge g u v w o)).
Proof.
  intros Hg Huv x [Hx|Hx]%nodes_add_edge; [by apply Hg|].
  apply Huv. destruct Hx as [-> | ->]; [left | right; left].
Qed.

(** *** The Starters node and its edges *)

Lemma relink_starters_spec self g cl max S S' T loopS :
  let combos := Core._all_combos self in
  shaped_by (links cl max combos S T loopS) (Core.adj g) →
  linked_by (links cl max combos S T loopS) (Core.adj g) →
  Props.terminals S T (Core.nodes g) →
  let g' := Core.relink_starters self g S' in
  shaped_by (links cl max combos S' T loopS) (Core.adj g')
  ∧ linked_by (links cl max combos S' T loopS) (Core.adj g')
  ∧ Props.terminals S' T (Core.nodes g')
  ∧ (∀ x, x ∈ Core.nodes g → Core.description x ≠ Core.Starters →
          x ∈ Core.nodes g')
  ∧ (∀ u v, Core.description u ≠ Core.Starters →
            Core.adj g' !! (u, v) = Core.adj g !! (u, v)).
Proof.
  intros combos Hs Hl [HS Htag] g'. subst g'. unfold Core.relink_starters.
  destruct (find_tagged_node Core.Starters (Core.nodes g) (Props.Snode S))
    as [i ->]; [assumption | reflexivity | intros n Hn; by apply Htag|].
  set (g1 := Core.remove_node g (Props.Snode S)).
  set (L' := links cl max combos S' T loopS).
  set (Lp := λ u v, tlink combos T u v ∨ llink cl max combos loopS u v).
  pose (I := λ g2 : Core.DiGraph (Entry:=Entry) (Composition:=Composition),
          shaped_by L' (Core.adj g2)
          ∧ linked_by Lp (Core.adj g2)
          ∧ Props.tagged S' T (Core.nodes g2)
          ∧ Props.Snode S' ∈ Core.nodes g2
          ∧ (∀ x, x ∈ Core.nodes g → Core.description x ≠ Core.Starters →
                  x ∈ Core.nodes g2)
          ∧ (∀ u v, Core.description u ≠ Core.Starters →
                    Core.adj g2 !! (u, v) = Core.adj g !! (u, v))).
  assert (Hkeep : ∀ u v e, Core.adj g !! (u, v) = Some e →
            Core.description u ≠ Core.Starters →
            Core.adj g1 !! (u, v) = Some e).
  { intros u v e He Hu. apply lookup_remove_node. split; [assumption|].
    split; [by intros ->|]. intros ->.
    destruct (decide (Core.description u = Core.Reactants)) as [Hr|Hr].
    - by destruct (proj2 Hs u _ e He Hr) as [? _].
    - destruct (proj1 Hs u _ e He Hr) as [_ Hlk].
      by destruct (link_ends _ _ _ _ _ _ _ _ Hlk) as (_ & ? & _). }
  assert (Hfold : I (foldl (Core.link_reactant false (Props.Snode S') S')
                       (Core.add_node g1 (Props.Snode S')) combos)).
  { apply (foldl_preserves I).
    - unfold I. rewrite adj_add_node. split; [|split; [|split; [|split; [|split]]]].
      + destruct Hs as [Hp Hty]. split.
        * intros u v e [He [Hu Hv]]%lookup_remove_node Hr.
          destruct (Hp u v e He Hr) as [-> Hlk]. split; [reflexivity|].
          destruct Hlk as [[-> _]|Hlk]; [contradiction|]. by right.
        * intros u v e [He _]%lookup_remove_node. by apply Hty.
      + intros u v Huv.
        assert (Hlk : links cl max combos S T loopS u v) by by right.
        destruct (Hl u v Hlk) as [e He]. exists e. apply Hkeep; [assumption|].
        destruct Huv as [(P & -> & _)|(P & c & -> & _)]; discriminate.
      + intros x [[Hx Hne]%nodes_remove_node| ->]%nodes_add_node.
        * destruct (Htag x Hx) as [Hst Htg]. split; [|assumption].
          intros Hd. by destruct Hne; apply Hst.
        * split; [reflexivity | discriminate].
      + apply nodes_add_node. by right.
      + intros x Hx Hd. apply nodes_add_node. left.
        apply nodes_remove_node. split; [assumption|]. by intros ->.
      + intros u v Hu.
        destruct (Core.adj g !! (u, v)) as [e|] eqn:He; [by apply Hkeep|].
        apply eq_None_not_Some. intros [e [He' _]%lookup_remove_node].
        congruence.
    - intros g2 R HR (Hs2 & Hl2 & Ht2 & HS2 & Hn2 & Hf2).
      unfold Core.link_reactant.
      destruct (decide (R ⊆ S')); [|done].
      assert (Hlk : L' (Props.Snode S') (Props.Rnode R)).
      { left. split; [reflexivity|]. by exists R. }
      split; [|split; [|split; [|split; [|split]]]].
      + apply shaped_by_add_edge; [assumption..|discriminate].
      + by apply linked_by_add_edge.
      + apply tagged_add_edge; [assumption|].
        apply (link_ends _ _ _ _ _ _ _ _ Hlk).
      + apply nodes_add_edge. by left.
      + intros x Hx Hd. apply nodes_add_edge. left. by apply Hn2.
      + intros u v Hu. rewrite adj_add_edge, lookup_insert_ne; [by apply Hf2|].
        intros [= <- _]. by apply Hu. }
  destruct Hfold as (Hs' & Hl' & Ht' & HS' & Hn' & Hf').
  split; [exact Hs'|].
  split; [|exact (conj (conj HS' Ht') (conj Hn' Hf'))].
  intros u v [[-> (R & -> & HR & HRS)]|Hlk].
  - by apply link_fold_adds.
  - by apply Hl'.
Qed.

(** *** The loopback edges of one Products node *)

Lemma remove_loopbacks_total g u (l : list (gset Entry)) :
  NoDup l →
  (∀ c, c ∈ l → is_Some (Core.adj g !! (u, Props.Rnode c))) →
  ∃ g1,
    foldl (λ acc c, g ← acc; Core.remove_edge g u (Props.Rnode c))
          (Py.Ok g) l = Py.Ok g1
    ∧ Core.nodes g1 = Core.nodes g
    ∧ (∀ c, c ∈ l → Core.adj g1 !! (u, Props.Rnode c) = None)
    ∧ (∀ k, (∀ c, c ∈ l → k ≠ (u, Props.Rnode c)) →
            Core.adj g1 !! k = Core.adj g !! k).
Proof.
  revert g. induction l as [|c l IH]; intros g Hnd Hin.
  - exists g. split; [reflexivity|]. split; [reflexivity|].
    split; [|done]. intros c Hc. inversion Hc.
  - apply NoDup_cons in Hnd as [Hc Hnd]. cbn [foldl].
    unfold Core.remove_edge at 2. cbn [mbind Py.result_bind].
    destruct (Hin c) as [e0 He0]; [left|]. rewrite He0.
    set (g' := Core.mkDiGraph (Core.nodes g)
                 (delete (u, Props.Rnode c) (Core.adj g))).
    destruct (IH g' Hnd) as (g1 & Hfold & Hn1 & Hgone & Hrest).
    { intros c' Hc'. subst g'. simpl. rewrite lookup_delete_ne.
      - apply Hin. by right.
      - intros [= ->]. contradiction. }
    exists g1. split; [exact Hfold|]. split; [exact Hn1|]. split.
    + intros c' [->|Hc']%elem_of_cons; [|by apply Hgone].
      rewrite Hrest.
      * subst g'. simpl. apply lookup_delete_eq.
      * intros c' Hc' [= ->]. contradiction.
    + intros k Hk. rewrite Hrest.
      * subst g'. simpl. apply lookup_delete_ne. intros <-.
        by apply (Hk c); [left|].
      * intros c' Hc'. apply Hk. by right.
Qed.

Lemma add_loopbacks_fold_rest g u (l : list (gset Entry)) k :
  (∀ c, c ∈ l → k ≠ (u, Props.Rnode c)) →
  Core.adj (foldl (λ g c, Core.add_edge g u (Props.Rnode c) 0 None) g l)
    !! k
  = Core.adj g !! k.
Proof.
  revert g. induction l as [|c l IH]; intros g Hk; [reflexivity|].
  cbn [foldl]. rewrite IH by (intros c' Hc'; apply Hk; by right).
  rewrite adj_add_edge, lookup_insert_ne; [reflexivity|].
  intros <-. by apply (Hk c); [left|].
Qed.

Lemma add_loopbacks_fold_made g u (l : list (gset Entry)) c :
  c ∈ l →
  is_Some (Core.adj (foldl (λ g c, Core.add_edge g u (Props.Rnode c) 0 None)
                       g l)
           !! (u, Props.Rnode c)).
Proof.
  intros Hc.
  apply (foldl_establishes
           (λ c g, is_Some (Core.adj g !! (u, Props.Rnode c))));
    [| |assumption].
  - intros g' c' _. rewrite adj_add_edge, lookup_insert_eq. eauto.
  - intros g' c' c'' _ Hkeep. by apply present_add_edge.
Qed.

(** The loop of [set_starters], with [visited] the Products combinations
    whose loopbacks are already those of the new starters. *)
Let loopS S_old S' visited P : gset Entry :=
  if decide (P ∈ visited) then S' else S_old.

Let swapped max combos S_old S' T visited g : Prop :=
  shaped_by (links true max combos S' T (loopS S_old S' visited))
            (Core.adj g)
  ∧ linked_by (links true max combos S' T (loopS S_old S' visited))
              (Core.adj g)
  ∧ Props.tagged S' T (Core.nodes g).

Lemma swap_loopbacks_total max combos S_old S' T visited g P :
  P ∈ combos → P ∉ visited →
  swapped max combos S_old S' T visited g →
  ∃ g2,
    Core.swap_loopbacks max S_old S' g P = Py.Ok g2
    ∧ swapped max combos S_old S' T (P :: visited) g2
    ∧ (∀ x, x ∈ Core.nodes g → x ∈ Core.nodes g2)
    ∧ (∀ u v, ¬ (Core.description u = Core.Products
                 ∧ Core.description v = Core.Reactants) →
              Core.adj g2 !! (u, v) = Core.adj g !! (u, v)).
Proof.
  intros HP Hvis (Hs & Hl & Ht). unfold Core.swap_loopbacks.
  set (old := Core.generate_all_combos (elements (P ∪ S_old)) max).
  set (new := Core.generate_all_combos (elements (P ∪ S')) max).
  assert (HoldS : loopS S_old S' visited P = S_old)
    by (unfold loopS; by rewrite decide_False).
  assert (HnewS : loopS S_old S' (P :: visited) P = S')
    by (unfold loopS; rewrite decide_True; [reflexivity | left]).
  assert (Hother : ∀ P', P' ≠ P →
            loopS S_old S' (P :: visited) P' = loopS S_old S' visited P').
  { intros P' Hne. unfold loopS.
    destruct (decide (P' ∈ visited)) as [Hin|Hin].
    - rewrite decide_True; [reflexivity | by right].
    - rewrite decide_False; [reflexivity|].
      intros [?|?]%elem_of_cons; contradiction. }
  destruct (remove_loopbacks_total g (Props.Pnode P) old)
    as (g1 & Hrem & Hn1 & Hgone & Hrest).
  { apply generate_all_combos_NoDup, NoDup_elements. }
  { intros c Hc. apply Hl. right. right. exists P, c.
    repeat split; [assumption|]. by rewrite HoldS. }
  change (Core.mkRxnEntries P Core.Products) with (Props.Pnode P).
  change (λ (acc : Py.result (Core.DiGraph (Composition:=Composition)))
            (combo : gset Entry),
            acc ≫= λ g0, Core.remove_edge g0 (Props.Pnode P)
                           (Core.mkRxnEntries combo Core.Reactants))
    with (λ (acc : Py.result (Core.DiGraph (Composition:=Composition)))
            (c : gset Entry),
            acc ≫= λ g0, Core.remove_edge g0 (Props.Pnode P)
                           (Props.Rnode c)).
  rewrite Hrem. cbn [mbind Py.result_bind].
  eexists. split; [reflexivity|].
  change (λ (g0 : Core.DiGraph (Composition:=Composition))
            (combo : gset Entry),
            Core.add_edge g0 (Props.Pnode P)
              (Core.mkRxnEntries combo Core.Reactants) 0 None)
    with (λ (g0 : Core.DiGraph (Composition:=Composition))
            (c : gset Entry),
            Core.add_edge g0 (Props.Pnode P) (Props.Rnode c) 0 None).
  set (Lnew := links true max combos S' T (loopS S_old S' (P :: visited))).
  assert (Hs1 : shaped_by Lnew (Core.adj g1)).
  { destruct Hs as [Hp Hty]. split.
    - intros u v e He Hu.
      assert (He' : Core.adj g !! (u, v) = Some e).
      { rewrite <- Hrest; [assumption|].
        intros c Hc [= -> ->]. by rewrite Hgone in He. }
      destruct (Hp u v e He' Hu) as [-> Hlk]. split; [reflexivity|].
      destruct Hlk as [Hlk|[Hlk|(P' & c & -> & HP' & -> & Hc)]];
        [by left | by right; left |].
      right. right. exists P', c. repeat split; [assumption|].
      destruct (decide (P' = P)) as [->|Hne]; [|by rewrite Hother].
      rewrite HoldS in Hc. by rewrite Hgone in He.
    - intros u v e He Hu. apply (Hty u v e); [|assumption].
      rewrite <- Hrest; [assumption|]. intros c Hc [= -> _]. discriminate. }
  split; [split; [|split]|split].
  - apply (foldl_preserves (λ g, shaped_by Lnew (Core.adj g)));
      [assumption|].
    intros g' c Hc Hg'. apply shaped_by_add_edge; [assumption| |discriminate].
    right. right. exists P, c. repeat split; [assumption|]. by rewrite HnewS.
  - intros u v Hlk.
    assert (Hold : links true max combos S' T (loopS S_old S' visited) u v
                   ∧ (∀ c, c ∈ old → (u, v) ≠ (Props.Pnode P, Props.Rnode c))
                   ∨ ∃ c, c ∈ new ∧ (u, v) = (Props.Pnode P, Props.Rnode c)).
    { destruct Hlk as [Hlk|[Hlk|(P' & c & -> & HP' & -> & Hc)]].
      - left. split; [by left|]. destruct Hlk as [-> _]. discriminate.
      - left. split; [by right; left|].
        destruct Hlk as (P' & -> & _ & -> & _). discriminate.
      - destruct (decide (P' = P)) as [->|Hne].
        + right. exists c. rewrite HnewS in Hc. by split.
        + left. split.
          * right. right. exists P', c. repeat split; [assumption|].
            by rewrite <- Hother.
          * intros c' _ [= ? _]. contradiction. }
    destruct Hold as [[Hlk' Hne]|(c & Hc & [= -> ->])].
    + apply (foldl_preserves (λ g, is_Some (Core.adj g !! (u, v)))).
      * rewrite Hrest by assumption. by apply Hl.
      * intros g' c _. apply present_add_edge.
    + by apply add_loopbacks_fold_made.
  - apply (foldl_preserves (λ g, Props.tagged S' T (Core.nodes g))).
    + by rewrite Hn1.
    + intros g' c _ Hg'. apply tagged_add_edge; [assumption|].
      intros n [->|[->|[]%elem_of_nil]%elem_of_cons]%elem_of_cons;
        split; discriminate.
  - intros x Hx.
    apply (foldl_preserves (λ g, x ∈ Core.nodes g)); [by rewrite Hn1|].
    intros g' c _ Hg'. apply nodes_add_edge. by left.
  - intros u v Huv. rewrite add_loopbacks_fold_rest.
    + apply Hrest. intros c _ [= -> ->]. by apply Huv.
    + intros c _ [= -> ->]. by apply Huv.
Qed.

Lemma swap_fold_total max combos S_old S' T (l : list (gset Entry))
    visited g :
  NoDup l → (∀ P, P ∈ l → P ∈ combos ∧ P ∉ visited) →
  swapped max combos S_old S' T visited g →
  ∃ g',
    foldl (λ acc P, g ← acc; Core.swap_loopbacks max S_old S' g P)
          (Py.Ok g) l = Py.Ok g'
    ∧ swapped max combos S_old S' T (rev l ++ visited) g'
    ∧ (∀ x, x ∈ Core.nodes g → x ∈ Core.nodes g')
    ∧ (∀ u v, ¬ (Core.description u = Core.Products
                 ∧ Core.description v = Core.Reactants) →
              Core.adj g' !! (u, v) = Core.adj g !! (u, v)).
Proof.
  revert visited g. induction l as [|P l IH]; intros visited g Hnd Hl Hg.
  - exists g. split; [reflexivity|]. split; [exact Hg|]. by split.
  - apply NoDup_cons in Hnd as [HP Hnd].
    destruct (Hl P) as [HPc HPv]; [left|].
    destruct (swap_loopbacks_total max combos S_old S' T visited g P
                HPc HPv Hg) as (g2 & Hswap & Hg2 & Hn2 & Hf2).
    destruct (IH (P :: visited) g2 Hnd) as (g' & Hfold & Hg' & Hn' & Hf');
      [|assumption|].
    { intros P' HP'. destruct (Hl P') as [? ?]; [by right|].
      split; [assumption|]. intros [->|?]%elem_of_cons; contradiction. }
    exists g'. cbn [foldl mbind Py.result_bind]. rewrite Hswap.
    split; [exact Hfold|]. split; [|split].
    + simpl. by rewrite <- app_assoc.
    + auto.
    + intros u v Huv. rewrite Hf', Hf2; done.
Qed.

(** *** The whole call *)

Lemma set_starters_well_formed
    (self : Core.ReactionNetwork (Entry:=Entry) (Composition:=Composition))
    cl S t g (starters : list Entry) :
  Props.well_formed self cl S t g →
  NoDup (Core._all_combos self) →
  ∃ st' g',
    Core.set_starters self starters = Py.Ok st'
    ∧ Props.well_formed st' cl (list_to_set starters) t g'
    ∧ Core._all_combos st' = Core._all_combos self
    ∧ Core._max_num_components st' = Core._max_num_components self
    ∧ Core._cost_function st' = Core._cost_function self
    ∧ Core._most_negative_rxn st' = Core._most_negative_rxn self
    ∧ (∀ x, x ∈ Core.nodes g → Core.description x ≠ Core.Starters →
            x ∈ Core.nodes g')
    ∧ (∀ u v, Core.description u ≠ Core.Starters →
              ¬ (cl = true ∧ Core.description u = Core.Products
                 ∧ Core.description v = Core.Reactants) →
              Core.adj g' !! (u, v) = Core.adj g !! (u, v)).
Proof.
  intros (Hg & Hcl & HS & Hsel & [Hs Hl] & Hterm) Hnd.
  set (combos := Core._all_combos self) in *.
  set (max := Core._max_num_components self) in *.
  set (S' := list_to_set starters : gset Entry).
  destruct (relink_starters_spec self g cl max S S' {[t]} (λ _, S))
    as (Hs3 & Hl3 & Hterm3 & Hn3 & Hf3); [exact Hs | exact Hl | exact Hterm|].
  fold combos in Hs3, Hl3. cbv zeta in Hs3, Hl3, Hterm3, Hn3, Hf3.
  set (g3 := Core.relink_starters self g S') in *.
  unfold Core.set_starters. rewrite Hg, Hcl. fold S' g3.
  destruct cl.
  - rewrite HS.
    destruct (swap_fold_total max combos S S' {[t]} combos [] g3)
      as (g' & Hfold & (Hs' & Hl' & Ht') & Hn' & Hf'); [assumption| | |].
    { intros P HP. split; [assumption | apply not_elem_of_nil]. }
    { split; [|split; [|apply Hterm3]].
      - eapply shaped_by_weaken; [|exact Hs3].
        intros u v e _ [?|[?|(P & c & ? & ? & ? & Hc)]];
          [by left | by right; left |].
        right. right. by exists P, c.
      - intros u v [?|[?|(P & c & ? & ? & ? & Hc)]]; apply Hl3;
          [by left | by right; left |].
        right. right. by exists P, c. }
    fold max combos. rewrite Hfold. cbn [mbind Py.result_bind].
    exists (Core.with_starters self g' S'), g'. split; [reflexivity|].
    assert (Hall : ∀ P, P ∈ combos →
              loopS S S' (rev combos ++ []) P = S').
    { intros P HP. unfold loopS. rewrite decide_True; [reflexivity|].
      rewrite app_nil_r. apply list_elem_of_In. rewrite <- in_rev.
      by apply list_elem_of_In. }
    split; [|split; [reflexivity|split; [reflexivity|split; [reflexivity|
             split; [reflexivity|split]]]]].
    + do 4 (split; [done|]). split; [split|].
      * eapply shaped_by_weaken; [|exact Hs'].
        intros u v e _ [?|[?|(P & c & ? & HP & ? & Hc)]];
          [by left | by right; left |].
        right. right. exists P, c. repeat split; try assumption.
        by rewrite Hall in Hc.
      * intros u v [?|[?|(P & c & ? & HP & ? & Hc)]]; apply Hl';
          [by left | by right; left |].
        right. right. exists P, c. repeat split; try assumption.
        by rewrite Hall.
      * split; [|assumption]. apply Hn'. apply Hterm3.
    + intros x Hx Hd. apply Hn'. by apply Hn3.
    + intros u v Hu Huv. rewrite Hf', Hf3; [reflexivity|assumption|].
      intros [? ?]. apply Huv. done.
  - exists (Core.with_starters self g3 S'), g3. split; [reflexivity|].
    split; [|split; [reflexivity|split; [reflexivity|split; [reflexivity|
             split; [reflexivity|split]]]]].
    + do 4 (split; [done|]). split; [split|]; [exact Hs3|exact Hl3|exact Hterm3].
    + exact Hn3.
    + intros u v Hu _. by apply Hf3.
Qed.

(** *** The Target node and its edges *)

Lemma edge_source_untagged L a u v e T' :
  shaped_by L a →
  (∀ u v, L u v → Core.description u ≠ Core.Target) →
  a !! (u, v) = Some e → u ≠ Props.Tnode T'.
Proof.
  intros [Hp Hty] HL He ->.
  destruct (Hp _ _ _ He) as [_ Hlk]; [discriminate|]. by apply HL in Hlk.
Qed.

Lemma relink_target_spec self g cl max S T T' lS :
  let combos := Core._all_combos self in
  shaped_by (links cl max combos S T lS) (Core.adj g) →
  linked_by (links cl max combos S T lS) (Core.adj g) →
  Props.tagged S T (Core.nodes g) →
  Props.Tnode T ∈ Core.nodes g →
  let g' := Core.relink_target self g T' in
  shaped_by (links cl max combos S T' lS) (Core.adj g')
  ∧ linked_by (links cl max combos S T' lS) (Core.adj g')
  ∧ Props.tagged S T' (Core.nodes g')
  ∧ (Props.Tnode T' ∈ Core.nodes g' ↔ ∃ P, P ∈ combos ∧ T' ⊆ P)
  ∧ (∀ x, x ∈ Core.nodes g → Core.description x ≠ Core.Target →
          x ∈ Core.nodes g')
  ∧ (∀ u v, Core.description v ≠ Core.Target →
            Core.adj g' !! (u, v) = Core.adj g !! (u, v)).
Proof.
  intros combos Hs Hl Htag HT g'. subst g'. unfold Core.relink_target.
  destruct (find_tagged_node Core.Target (Core.nodes g) (Props.Tnode T))
    as [i ->]; [assumption | reflexivity | intros n Hn; by apply Htag|].
  set (g1 := Core.remove_node g (Props.Tnode T)).
  set (L' := links cl max combos S T' lS).
  set (Lp := λ u v, slink combos S u v ∨ llink cl max combos lS u v).
  set (step := λ (g2 : Core.DiGraph (Entry:=Entry) (Composition:=Composition))
                 (products : gset Entry),
         if decide (T' ⊆ products)
         then Core.add_edge g2 (Core.mkRxnEntries products Core.Products)
                (Core.mkRxnEntries T' Core.Target) 0 None
         else g2).
  pose (I := λ g2 : Core.DiGraph (Entry:=Entry) (Composition:=Composition),
          shaped_by L' (Core.adj g2)
          ∧ linked_by Lp (Core.adj g2)
          ∧ Props.tagged S T' (Core.nodes g2)
          ∧ (Props.Tnode T' ∈ Core.nodes g2 → ∃ P, P ∈ combos ∧ T' ⊆ P)
          ∧ (∀ x, x ∈ Core.nodes g → Core.description x ≠ Core.Target →
                  x ∈ Core.nodes g2)
          ∧ (∀ u v, Core.description v ≠ Core.Target →
                    Core.adj g2 !! (u, v) = Core.adj g !! (u, v))).
  assert (Hsrc : ∀ u v, links cl max combos S T lS u v →
            Core.description u ≠ Core.Target).
  { intros u v [[-> _]|[(P & -> & _)|(P & c & -> & _)]]; discriminate. }
  assert (Hkeep : ∀ u v e, Core.adj g !! (u, v) = Some e →
            Core.description v ≠ Core.Target →
            Core.adj g1 !! (u, v) = Some e).
  { intros u v e He Hv. apply lookup_remove_node. split; [assumption|].
    split; [|by intros ->].
    destruct (decide (Core.description u = Core.Reactants)) as [Hr|Hr].
    - intros ->. discriminate.
    - by eapply edge_source_untagged. }
  assert (Hfold : I (foldl step g1 combos)).
  { apply (foldl_preserves I).
    - split; [|split; [|split; [|split; [|split]]]].
      + destruct Hs as [Hp Hty]. split.
        * intros u v e [He [Hu Hv]]%lookup_remove_node Hr.
          destruct (Hp u v e He Hr) as [-> Hlk]. split; [reflexivity|].
          destruct Hlk as [Hlk|[(P & _ & _ & -> & _)|Hlk]];
            [by left | contradiction | by right; right].
        * intros u v e [He _]%lookup_remove_node. by apply Hty.
      + intros u v Huv.
        assert (Hlk : links cl max combos S T lS u v)
          by (destruct Huv; [by left | by right; right]).
        destruct (Hl u v Hlk) as [e He]. exists e. apply Hkeep; [assumption|].
        destruct Huv as [(-> & R & -> & _)|(P & c & -> & _ & -> & _)];
          discriminate.
      + intros x [Hx Hne]%nodes_remove_node.
        destruct (Htag x Hx) as [Hst Htg]. split; [assumption|].
        intros Hd. by destruct Hne; apply Htg.
      + intros [Hx Hne]%nodes_remove_node. exfalso.
        destruct (Htag _ Hx) as [_ Htg]. apply Hne, Htg. reflexivity.
      + intros x Hx Hd. apply nodes_remove_node. split; [assumption|].
        by intros ->.
      + intros u v Hv.
        destruct (Core.adj g !! (u, v)) as [e|] eqn:He; [by apply Hkeep|].
        apply eq_None_not_Some. intros [e [He' _]%lookup_remove_node].
        congruence.
    - intros g2 P HP (Hs2 & Hl2 & Ht2 & HT2 & Hn2 & Hf2). unfold step.
      destruct (decide (T' ⊆ P)); [|done].
      assert (Hlk : L' (Props.Pnode P) (Props.Tnode T')).
      { right. left. by exists P. }
      split; [|split; [|split; [|split; [|split]]]].
      + apply shaped_by_add_edge; [assumption..|discriminate].
      + by apply linked_by_add_edge.
      + apply tagged_add_edge; [assumption|].
        apply (link_ends _ _ _ _ _ _ _ _ Hlk).
      + intros _. by exists P.
      + intros x Hx Hd. apply nodes_add_edge. left. by apply Hn2.
      + intros u v Hv. rewrite adj_add_edge, lookup_insert_ne; [by apply Hf2|].
        intros [= _ <-]. by apply Hv. }
  destruct Hfold as (Hs' & Hl' & Ht' & HT' & Hn' & Hf').
  split; [exact Hs'|].
  split; [|split; [exact Ht'|split; [|exact (conj Hn' Hf')]]].
  - intros u v [Hlk|[(P & -> & HP & -> & HPT)|Hlk]];
      [apply Hl'; by left | | apply Hl'; by right].
    revert HPT.
    apply (foldl_establishes
             (λ P g2, T' ⊆ P →
                is_Some (Core.adj g2 !! (Props.Pnode P, Props.Tnode T'))));
      [| |assumption].
    + intros g2 P' _ HPT. unfold step. rewrite decide_True by assumption.
      rewrite adj_add_edge, lookup_insert_eq. eauto.
    + intros g2 P' P'' _ Hkeep' HPT. unfold step.
      destruct (decide (T' ⊆ P'')); [|by apply Hkeep'].
      by apply present_add_edge, Hkeep'.
  - split; [exact HT'|]. intros (P & HP & HPT). revert HPT.
    apply (foldl_establishes
             (λ P g2, T' ⊆ P → Props.Tnode T' ∈ Core.nodes g2));
      [| |assumption].
    + intros g2 P' _ HPT. unfold step. rewrite decide_True by assumption.
      apply nodes_add_edge. right. by right.
    + intros g2 P' P'' _ Hkeep' HPT. unfold step.
      destruct (decide (T' ⊆ P'')); [|by apply Hkeep'].
      apply nodes_add_edge. left. by apply Hkeep'.
Qed.

Lemma relink_target_without_node self g S T T' :
  Props.tagged S T (Core.nodes g) →
  Props.Tnode T ∉ Core.nodes g →
  Core.relink_target self g T' = g.
Proof.
  intros Htag HT. unfold Core.relink_target.
  rewrite find_no_tagged_node; [reflexivity|].
  intros n Hn Hd. apply HT. destruct (Htag n Hn) as [_ Htg].
  by rewrite <- Htg.
Qed.

Lemma set_target_well_formed
    (self : Core.ReactionNetwork (Entry:=Entry) (Composition:=Composition))
    cl S t g (target : Entry) :
  Props.well_formed self cl S t g →
  Props.Tnode {[t]} ∈ Core.nodes g →
  target ≠ t →
  ∃ st' g',
    Core.set_target self target = Py.Ok st'
    ∧ Props.well_formed st' cl S target g'
    ∧ Core._all_combos st' = Core._all_combos self
    ∧ Core._max_num_components st' = Core._max_num_components self
    ∧ Core._cost_function st' = Core._cost_function self
    ∧ Core._most_negative_rxn st' = Core._most_negative_rxn self
    ∧ (Props.Tnode {[target]} ∈ Core.nodes g'
       ↔ ∃ P, P ∈ Core._all_combos self ∧ target ∈ P)
    ∧ (∀ x, x ∈ Core.nodes g → Core.description x ≠ Core.Target →
            x ∈ Core.nodes g')
    ∧ (∀ u v, Core.description v ≠ Core.Target →
              Core.adj g' !! (u, v) = Core.adj g !! (u, v)).
Proof.
  intros (Hg & Hcl & HS & Hsel & [Hs Hl] & [HSn Htag]) HT Hne.
  destruct (relink_target_spec self g cl (Core._max_num_components self)
              S {[t]} {[target]} (λ _, S))
    as (Hs' & Hl' & Ht' & HT' & Hn' & Hf');
    [exact Hs | exact Hl | exact Htag | exact HT|].
  cbv zeta in Hs', Hl', Ht', HT', Hn', Hf'.
  unfold Core.set_target. rewrite Hsel, Hg.
  rewrite decide_False by (intros ?%list_elem_of_singleton; contradiction).
  eexists _, _. split; [reflexivity|].
  split; [|split; [reflexivity|split; [reflexivity|split; [reflexivity|
           split; [reflexivity|split; [|exact (conj Hn' Hf')]]]]]].
  - do 4 (split; [done|]). split; [exact (conj Hs' Hl')|].
    split; [|exact Ht']. apply Hn'; [assumption | discriminate].
  - rewrite HT'. split; intros (P & HP & HPT); exists P;
      (split; [assumption|]); set_solver.
Qed.

Lemma set_target_without_node
    (self : Core.ReactionNetwork (Entry:=Entry) (Composition:=Composition))
    cl S t g (target : Entry) :
  Props.well_formed self cl S t g →
  Props.Tnode {[t]} ∉ Core.nodes g →
  ∃ st',
    Core.set_target self target = Py.Ok st'
    ∧ Core._rxn_network st' = Some g
    ∧ Core._selected_target st' = Some [target].
Proof.
  intros (Hg & Hcl & HS & Hsel & _ & [_ Htag]) HT.
  unfold Core.set_target. rewrite Hsel, Hg.
  destruct (decide (target ∈ [t])) as [->%list_elem_of_singleton|_].
  - by exists self.
  - eexists. split; [reflexivity|]. simpl. split; [|reflexivity].
    f_equal. by eapply relink_target_without_node.
Qed.

End Restart.

(** X10.  On a network whose graph has the shape the builder gives it, and
    whose combinations are pairwise distinct, [set_starters] raises nothing,
    and the graph it leaves has that shape for the new starters: the
    Starters node is that of the new starters and is linked to exactly the
    Reactants nodes of the combinations within them, and in complex mode
    the loopback edges are exactly those generated from the new starters.
    Nothing else changes: every edge that leaves a Reactants node, every
    edge into the Target node and (in simple mode) every loopback edge is as
    it was, no node other than the old Starters node is removed, and the
    strategy and the running minimum stay. *)
Theorem set_starters_repoints
    `{Countable Entry} `{Countable Composition}
    (self : Core.ReactionNetwork (Entry:=Entry) (Composition:=Composition))
    (complex_loopback : bool) (old_starters : gset Entry) (target : Entry)
    (g : Core.DiGraph) (starters : list Entry) :
  Props.well_formed self complex_loopback old_starters target g →
  NoDup (Core._all_combos self) →
  ∃ st' g',
    Core.set_starters self starters = Py.Ok st'
    ∧ Props.well_formed st' complex_loopback (list_to_set starters) target g'
    ∧ Core._all_combos st' = Core._all_combos self
    ∧ Core._max_num_components st' = Core._max_num_components self
    ∧ Core._cost_function st' = Core._cost_function self
    ∧ Core._most_negative_rxn st' = Core._most_negative_rxn self
    ∧ (∀ x, x ∈ Core.nodes g → Core.description x ≠ Core.Starters →
            x ∈ Core.nodes g')
    ∧ (∀ u v, Core.description u ≠ Core.Starters →
              ¬ (complex_loopback = true
                 ∧ Core.description u = Core.Products
                 ∧ Core.description v = Core.Reactants) →
              Core.adj g' !! (u, v) = Core.adj g !! (u, v)).
Proof. apply set_starters_well_formed. Qed.

Lemma phase_built_well_formed :
  Props.well_formed Examples.phase_built true {[0]} 1
    Examples.phase_built_graph
  ∧ Props.Tnode {[1]} ∈ Core.nodes Examples.phase_built_graph
  ∧ Core._all_combos Examples.phase_built
    = Core.generate_all_combos [0; 1] 1.
Proof.
  destruct (generate_rxn_network_shape (λ _, [0]) id Examples.phase_balancer
              id id 1 Examples.phase_network [0] 1 [] "softplus" true)
    as (st & g & Hgen & _ & Hcombos & Hwf & HT).
  change (Examples.phase_generate "softplus" true = Py.Ok st) in Hgen.
  rewrite phase_built_generated in Hgen. injection Hgen as <-.
  assert (g = Examples.phase_built_graph) as ->.
  { destruct Hwf as (Hg & _). rewrite phase_built_has_graph in Hg.
    congruence. }
  split; [|split; [assumption|exact Hcombos]].
  replace ({[0]} : gset nat) with (list_to_set [0] : gset nat)
    by set_solver.
  exact Hwf.
Qed.

Lemma phase_built_combos_NoDup : NoDup (Core._all_combos Examples.phase_built).
Proof.
  destruct phase_built_well_formed as (_ & _ & ->).
  apply generate_all_combos_NoDup. by_compute.
Qed.

(** The two-phase network, re-pointed from starter [0] to starter [1]. *)
Lemma set_starters_repoints_witness :
  ∃ st' g',
    Core.set_starters Examples.phase_built [1] = Py.Ok st'
    ∧ Props.well_formed st' true (list_to_set [1]) 1 g'
    ∧ Core._all_combos st' = Core._all_combos Examples.phase_built
    ∧ Core._max_num_components st'
      = Core._max_num_components Examples.phase_built
    ∧ Core._cost_function st' = Core._cost_function Examples.phase_built
    ∧ Core._most_negative_rxn st'
      = Core._most_negative_rxn Examples.phase_built
    ∧ (∀ x, x ∈ Core.nodes Examples.phase_built_graph →
            Core.description x ≠ Core.Starters → x ∈ Core.nodes g')
    ∧ (∀ u v, Core.description u ≠ Core.Starters →
              ¬ (true = true ∧ Core.description u = Core.Products
                 ∧ Core.description v = Core.Reactants) →
              Core.adj g' !! (u, v)
              = Core.adj Examples.phase_built_graph !! (u, v)).
Proof.
  apply (set_starters_repoints Examples.phase_built true {[0]} 1
           Examples.phase_built_graph [1]).
  - exact (proj1 phase_built_well_formed).
  - exact phase_built_combos_NoDup.
Defined.

(** X11.  After [generate_rxn_network] on a network with pairwise-distinct
    combinations, any number of [set_starters] calls in a row return
    without an error, and the graph then has the builder's shape for the
    starters of the last call. *)
Theorem set_starters_always_returns
    `{Countable Entry} `{Countable Element} `{Countable Composition}
    (composition_elements : Entry → list Element)
    (reduced_composition : Entry → Composition)
    (ComputedReaction :
       gset Entry → gset Entry →
       option (Core.Reaction (Composition:=Composition)))
    (np_exp np_log : Q → Q) (kb : Q)
    (self : Core.ReactionNetwork) (starters : list Entry)
    (target : Entry) (more_targets : list Entry)
    (cost_function : string) (complex_loopback : bool)
    (calls : list (list Entry)) :
  NoDup (Core._all_combos self) →
  ∃ st g,
    foldl (λ acc starters', st ← acc; Core.set_starters st starters')
      (Core.generate_rxn_network composition_elements reduced_composition
         ComputedReaction np_exp np_log kb self starters
         (target :: more_targets) cost_function complex_loopback)
      calls = Py.Ok st
    ∧ Props.well_formed st complex_loopback
        (list_to_set (default starters (last calls))) target g
    ∧ Core._all_combos st = Core._all_combos self.
Proof.
  intros Hnd.
  destruct (generate_rxn_network_shape composition_elements
              reduced_composition ComputedReaction np_exp np_log kb self
              starters target more_targets cost_function complex_loopback)
    as (st0 & g0 & -> & _ & Hcombos & Hwf & _).
  rewrite <- Hcombos in Hnd. rewrite <- Hcombos. clear Hcombos.
  revert starters st0 g0 Hwf Hnd.
  induction calls as [|s calls IH]; intros starters st0 g0 Hwf Hnd.
  - exists st0, g0. split; [reflexivity|]. split; [exact Hwf|reflexivity].
  - destruct (set_starters_well_formed st0 complex_loopback _ target g0 s
                Hwf Hnd) as (st1 & g1 & Hset & Hwf1 & Hc1 & _).
    cbn [foldl mbind Py.result_bind]. rewrite Hset.
    destruct (IH s st1 g1 Hwf1) as (st & g & Hfold & Hwf' & Hc');
      [by rewrite Hc1|].
    exists st, g. split; [exact Hfold|]. split; [|congruence].
    rewrite last_cons. by destruct (last calls).
Qed.

Lemma phase_network_combos_NoDup :
  NoDup (Core._all_combos Examples.phase_network).
Proof. apply generate_all_combos_NoDup. by_compute. Qed.

(** The two-phase system: a build and two changes of starters. *)
Lemma set_starters_always_returns_witness :
  ∃ st g,
    foldl (λ acc starters', st ← acc; Core.set_starters st starters')
      (Examples.phase_generate "softplus" true) [[1]; [0; 1]] = Py.Ok st
    ∧ Props.well_formed st true
        (list_to_set (default [0] (last [[1]; [0; 1]]))) 1 g
    ∧ Core._all_combos st = Core._all_combos Examples.phase_network.
Proof.
  apply (set_starters_always_returns (λ _, [0]) id Examples.phase_balancer
           id id 1 Examples.phase_network [0] 1 [] "softplus" true
           [[1]; [0; 1]]).
  exact phase_network_combos_NoDup.
Defined.

(** ** Re-pointing the target *)

(** X12.  On a network whose graph has the builder's shape and holds the
    node of the selected target, [set_target] with another entry raises
    nothing and leaves a graph of that shape for the new target: the edges
    into the new Target node come from exactly the Products nodes of the
    combinations that contain the new target.  Every edge that does not end
    at a Target node is as it was, and no node but the old Target node is
    removed.  The new Target node is in the graph only if some combination
    contains the new target: the node is never added on its own. *)
Theorem set_target_repoints
    `{Countable Entry} `{Countable Composition}
    (self : Core.ReactionNetwork (Entry:=Entry) (Composition:=Composition))
    (complex_loopback : bool) (starters : gset Entry) (old_target : Entry)
    (g : Core.DiGraph) (target : Entry) :
  Props.well_formed self complex_loopback starters old_target g →
  Props.Tnode {[ old_target ]} ∈ Core.nodes g →
  target ≠ old_target →
  ∃ st' g',
    Core.set_target self target = Py.Ok st'
    ∧ Props.well_formed st' complex_loopback starters target g'
    ∧ Core._all_combos st' = Core._all_combos self
    ∧ Core._max_num_components st' = Core._max_num_components self
    ∧ Core._cost_function st' = Core._cost_function self
    ∧ Core._most_negative_rxn st' = Core._most_negative_rxn self
    ∧ (Props.Tnode {[ target ]} ∈ Core.nodes g'
       ↔ ∃ P, P ∈ Core._all_combos self ∧ target ∈ P)
    ∧ (∀ x, x ∈ Core.nodes g → Core.description x ≠ Core.Target →
            x ∈ Core.nodes g')
    ∧ (∀ u v, Core.description v ≠ Core.Target →
              Core.adj g' !! (u, v) = Core.adj g !! (u, v)).
Proof. apply set_target_well_formed. Qed.

(** The two-phase network, re-pointed from target [1] to target [0]. *)
Lemma set_target_repoints_witness :
  ∃ st' g',
    Core.set_target Examples.phase_built 0 = Py.Ok st'
    ∧ Props.well_formed st' true {[0]} 0 g'
    ∧ Core._all_combos st' = Core._all_combos Examples.phase_built
    ∧ Core._max_num_components st'
      = Core._max_num_components Examples.phase_built
    ∧ Core._cost_function st' = Core._cost_function Examples.phase_built
    ∧ Core._most_negative_rxn st'
      = Core._most_negative_rxn Examples.phase_built
    ∧ (Props.Tnode {[0]} ∈ Core.nodes g'
       ↔ ∃ P, P ∈ Core._all_combos Examples.phase_built ∧ 0 ∈ P)
    ∧ (∀ x, x ∈ Core.nodes Examples.phase_built_graph →
            Core.description x ≠ Core.Target → x ∈ Core.nodes g')
    ∧ (∀ u v, Core.description v ≠ Core.Target →
              Core.adj g' !! (u, v)
              = Core.adj Examples.phase_built_graph !! (u, v)).
Proof.
  apply (set_target_repoints Examples.phase_built true {[0]} 1
           Examples.phase_built_graph 0).
  - exact (proj1 phase_built_well_formed).
  - exact (proj1 (proj2 phase_built_well_formed)).
  - discriminate.
Defined.

(** X13.  On a network whose graph has the builder's shape and holds the
    node of the selected target, [set_target] with another entry, one that
    no combination contains, leaves the graph without any node tagged
    Target and without any edge into one; and the next [set_target] only
    records its argument: whatever entry it is called with, the graph stays
    as it is, still without a Target node. *)
Theorem set_target_unreachable_loses_node
    `{Countable Entry} `{Countable Composition}
    (self : Core.ReactionNetwork (Entry:=Entry) (Composition:=Composition))
    (complex_loopback : bool) (starters : gset Entry) (old_target : Entry)
    (g : Core.DiGraph) (lost next : Entry) :
  Props.well_formed self complex_loopback starters old_target g →
  Props.Tnode {[ old_target ]} ∈ Core.nodes g →
  lost ≠ old_target →
  (∀ P, P ∈ Core._all_combos self → lost ∉ P) →
  ∃ st1 st2 g',
    Core.set_target self lost = Py.Ok st1
    ∧ Core.set_target st1 next = Py.Ok st2
    ∧ Core._rxn_network st1 = Some g'
    ∧ Core._rxn_network st2 = Some g'
    ∧ Core._selected_target st2 = Some [next]
    ∧ (∀ n, n ∈ Core.nodes g' → Core.description n ≠ Core.Target)
    ∧ (∀ u v, Core.description v = Core.Target →
              Core.adj g' !! (u, v) = None).
Proof.
  intros Hwf HT Hne Hlost.
  destruct (set_target_well_formed self complex_loopback starters old_target
              g lost Hwf HT Hne)
    as (st1 & g1 & Hset1 & Hwf1 & Hc1 & _ & _ & _ & Hnode & _).
  assert (HT1 : Props.Tnode {[lost]} ∉ Core.nodes g1).
  { intros (P & HP & HPl)%Hnode. by apply (Hlost P). }
  destruct (set_target_without_node st1 complex_loopback starters lost g1
              next Hwf1 HT1) as (st2 & Hset2 & Hg2 & Hsel2).
  exists st1, st2, g1. split; [exact Hset1|]. split; [exact Hset2|].
  destruct Hwf1 as (Hg1 & _ & _ & _ & [[Hp Hty] _] & [_ Htag]).
  split; [exact Hg1|]. split; [exact Hg2|]. split; [exact Hsel2|]. split.
  - intros n Hn Hd. apply HT1. destruct (Htag n Hn) as [_ Htg].
    by rewrite <- Htg.
  - intros u v Hv. apply eq_None_not_Some. intros [e He].
    destruct (decide (Core.description u = Core.Reactants)) as [Hu|Hu].
    + destruct (Hty u v e He Hu) as [Hv' _]. congruence.
    + destruct (Hp u v e He Hu) as [_ Hlk].
      destruct Hlk as [(_ & R & -> & _)|[(P & _ & HP & _ & HPl)
                                         |(P & c & _ & _ & -> & _)]];
        [discriminate | | discriminate].
      rewrite Hc1 in HP. apply (Hlost P HP). set_solver.
Qed.

(** The two-phase network: entry [5] is in no combination. *)
Lemma set_target_unreachable_loses_node_witness :
  ∃ st1 st2 g',
    Core.set_target Examples.phase_built 5 = Py.Ok st1
    ∧ Core.set_target st1 0 = Py.Ok st2
    ∧ Core._rxn_network st1 = Some g'
    ∧ Core._rxn_network st2 = Some g'
    ∧ Core._selected_target st2 = Some [0]
    ∧ (∀ n, n ∈ Core.nodes g' → Core.description n ≠ Core.Target)
    ∧ (∀ u v, Core.description v = Core.Target →
              Core.adj g' !! (u, v) = None).
Proof.
  apply (set_target_unreachable_loses_node Examples.phase_built true {[0]} 1
           Examples.phase_built_graph 5 0).
  - exact (proj1 phase_built_well_formed).
  - exact (proj1 (proj2 phase_built_well_formed)).
  - discriminate.
  - destruct phase_built_well_formed as (_ & _ & ->).
    intros P HP H5.
    apply (generate_all_combos_subset [0; 1] 1 P HP) in H5.
    set_solver.
Defined.

(** ** Construction of the rustworkx graph *)

Section NetNodes.
Context `{Countable Entry}.
Variable Rxn : Type.

Implicit Types (g : Network.PyDiGraph (Entry:=Entry) Rxn).
Implicit Types (nodes : list (Network.NetworkEntry (Entry:=Entry))).
Implicit Types (n : Network.NetworkEntry (Entry:=Entry)).
Implicit Types (edges : list (nat * nat * Network.EdgeObj Rxn)).

Lemma node_index_spec nodes n :
  NoDup nodes →
  ∃ extra,
    (Network.node_index nodes n).1 = nodes ++ extra
    ∧ (extra = [] ∨ (extra = [n] ∧ n ∉ nodes))
    ∧ NoDup (nodes ++ extra)
    ∧ (nodes ++ extra) !! (Network.node_index nodes n).2 = Some n.
Proof.
  intros Hnd. unfold Network.node_index.
  destruct (list_find (λ x, x = n) nodes) as [[i x]|] eqn:Hfind.
  - apply list_find_Some in Hfind as (Hi & -> & _).
    exists []. rewrite app_nil_r. simpl. by repeat split; [left|..].
  - apply list_find_None in Hfind.
    assert (Hn : n ∉ nodes).
    { intros Hin. eapply Forall_forall in Hfind; [|exact Hin]. by apply Hfind. }
    exists [n]. simpl. split; [reflexivity|]. split; [by right|]. split.
    + apply NoDup_app. split; [assumption|]. split; [|apply NoDup_singleton].
      intros x Hx ->%list_elem_of_singleton. contradiction.
    + rewrite lookup_app_r by lia. by rewrite Nat.sub_diag.
Qed.

(** [get_loopback_edges] joins the Products node of an entry set to the
    Reactants node of the same set, and joins nothing else. *)
Lemma get_loopback_edges_elem nodes i j (e : Network.EdgeObj Rxn) :
  (i, j, e) ∈ Network.get_loopback_edges Rxn nodes ↔
  e = Network.loopback_edge Rxn
  ∧ ∃ X, nodes !! i = Some (Network.mkNetworkEntry X Network.Products)
         ∧ nodes !! j = Some (Network.mkNetworkEntry X Network.Reactants).
Proof.
  unfold Network.get_loopback_edges. rewrite list_elem_of_bind. split.
  - intros ([idx1 p] & Hin & Hp).
    apply elem_of_lookup_imap in Hp as (i1 & p' & [= -> ->] & Hp).
    destruct (bool_decide (Network.description p' ≠ Network.Products))
      eqn:Hdp; [inversion Hin|].
    apply bool_decide_eq_false, dec_stable in Hdp.
    apply list_elem_of_bind in Hin as ([idx2 r] & Hin & Hr).
    apply elem_of_lookup_imap in Hr as (i2 & r' & [= -> ->] & Hr).
    destruct (bool_decide (Network.description r' ≠ Network.Reactants))
      eqn:Hdr; [inversion Hin|].
    apply bool_decide_eq_false, dec_stable in Hdr.
    destruct (bool_decide (Network.entries p' = Network.entries r')) eqn:Heq;
      [|inversion Hin].
    apply bool_decide_eq_true in Heq.
    apply list_elem_of_singleton in Hin as [= -> -> ->].
    split; [reflexivity|]. exists (Network.entries p').
    destruct p' as [ep dp], r' as [er dr]. simpl in *. by subst.
  - intros (-> & X & Hp & Hr).
    exists (i, Network.mkNetworkEntry X Network.Products). split.
    + simpl. apply list_elem_of_bind.
      exists (j, Network.mkNetworkEntry X Network.Reactants). split.
      * simpl. rewrite bool_decide_eq_true_2 by reflexivity. left.
      * apply elem_of_lookup_imap. eauto.
    + apply elem_of_lookup_imap. eauto.
Qed.

Lemma add_nodes_from_slots g nodes :
  Network.free_slots Rxn g = [] →
  Network.node_slots Rxn (Network.add_nodes_from Rxn g nodes)
  = Network.node_slots Rxn g ++ (Some <$> nodes)
  ∧ Network.free_slots Rxn (Network.add_nodes_from Rxn g nodes) = []
  ∧ Network.edge_list Rxn (Network.add_nodes_from Rxn g nodes)
    = Network.edge_list Rxn g.
Proof.
  unfold Network.add_nodes_from. revert g.
  induction nodes as [|n nodes IH]; intros g Hfree; simpl.
  - by rewrite app_nil_r.
  - unfold Network.add_node at 2 4 6. rewrite Hfree. simpl.
    destruct (IH (Network.mkPyDiGraph Rxn
                    (Network.node_slots Rxn g ++ [Some n]) []
                    (Network.edge_list Rxn g)) eq_refl) as (-> & -> & ->).
    simpl. by rewrite <- app_assoc.
Qed.

Lemma add_edges_from_slots g edges :
  Network.node_slots Rxn (Network.add_edges_from Rxn g edges)
  = Network.node_slots Rxn g
  ∧ Network.free_slots Rxn (Network.add_edges_from Rxn g edges)
    = Network.free_slots Rxn g.
Proof.
  unfold Network.add_edges_from. revert g.
  induction edges as [|x l IH]; intros g; simpl; [done|].
  destruct (IH (Network.add_edge Rxn g x)) as [-> ->]. done.
Qed.

End NetNodes.

Section NetBuild.
Context `{Countable Entry}.
Variable Rxn : Type.
Variable reactant_entries : Rxn → list Entry.
Variable product_entries : Rxn → list Entry.

Implicit Types (nodes : list (Network.NetworkEntry (Entry:=Entry))).
Implicit Types (edges : list (nat * nat * Network.EdgeObj Rxn)).

Let Rn (rxn : Rxn) : Network.NetworkEntry (Entry:=Entry) :=
  Network.mkNetworkEntry (list_to_set (reactant_entries rxn))
    Network.Reactants.
Let Pn (rxn : Rxn) : Network.NetworkEntry (Entry:=Entry) :=
  Network.mkNetworkEntry (list_to_set (product_entries rxn))
    Network.Products.

(** What [get_rxn_nodes_and_edges] has collected after the reactions
    [done]. *)
Let collected (done : list Rxn) nodes edges : Prop :=
  NoDup nodes
  ∧ (∀ n, n ∈ nodes ↔ ∃ rxn, rxn ∈ done ∧ (n = Rn rxn ∨ n = Pn rxn))
  ∧ Forall2 (λ rxn e, e.2 = Network.ReactionEdge Rxn rxn
                      ∧ nodes !! e.1.1 = Some (Rn rxn)
                      ∧ nodes !! e.1.2 = Some (Pn rxn)) done edges.

Lemma collected_step done nodes edges rxn :
  collected done nodes edges →
  let '(nodes1, ri) := Network.node_index nodes (Rn rxn) in
  let '(nodes2, pi) := Network.node_index nodes1 (Pn rxn) in
  collected (done ++ [rxn]) nodes2
    (edges ++ [(ri, pi, Network.ReactionEdge Rxn rxn)]).
Proof.
  intros (Hnd & Hmem & Hedges).
  destruct (node_index_spec nodes (Rn rxn) Hnd)
    as (x1 & Hn1 & Hx1 & Hnd1 & Hri).
  destruct (Network.node_index nodes (Rn rxn)) as [nodes1 ri].
  simpl in Hn1, Hri. subst nodes1.
  destruct (node_index_spec (nodes ++ x1) (Pn rxn) Hnd1)
    as (x2 & Hn2 & Hx2 & Hnd2 & Hpi).
  destruct (Network.node_index (nodes ++ x1) (Pn rxn)) as [nodes2 pi].
  simpl in Hn2, Hpi. subst nodes2.
  split; [assumption|]. split.
  - intros n. rewrite !elem_of_app, Hmem. split.
    + intros [[(r & Hr & Hn)|Hn]|Hn].
      * exists r. split; [apply elem_of_app; by left | assumption].
      * destruct Hx1 as [->|[-> _]]; [by apply elem_of_nil in Hn|].
        apply list_elem_of_singleton in Hn as ->. exists rxn.
        split; [apply elem_of_app; right; left | by left].
      * destruct Hx2 as [->|[-> _]]; [by apply elem_of_nil in Hn|].
        apply list_elem_of_singleton in Hn as ->. exists rxn.
        split; [apply elem_of_app; right; left | by right].
    + intros (r & [Hr| ->%list_elem_of_singleton]%elem_of_app & Hn);
        [left; left; eauto|].
      assert (Hin : ∀ i (l : list (Network.NetworkEntry (Entry:=Entry))) x,
                l !! i = Some x → x ∈ l)
        by (intros; by eapply list_elem_of_lookup_2).
      destruct Hn as [-> | ->].
      * apply Hin in Hri. apply elem_of_app in Hri as [?|?]; auto.
        left. left. by apply Hmem.
      * apply Hin in Hpi. rewrite !elem_of_app in Hpi.
        destruct Hpi as [[?|?]|?]; auto. left. left. by apply Hmem.
  - apply Forall2_app.
    + eapply Forall2_impl; [exact Hedges|].
      intros r e (He & Hu & Hv). split; [assumption|].
      split; rewrite <- app_assoc; by apply lookup_app_l_Some.
    + constructor; [|constructor]. simpl. split; [reflexivity|].
      split; [by apply lookup_app_l_Some | assumption].
Qed.

Lemma collected_fold done nodes edges (rxns : list Rxn) :
  collected done nodes edges →
  let '(nodes', edges') :=
    foldl (λ acc rxn,
             let '(nodes, edges) := acc in
             let '(nodes, reactant_idx) :=
               Network.node_index nodes (Rn rxn) in
             let '(nodes, product_idx) :=
               Network.node_index nodes (Pn rxn) in
             (nodes,
              edges ++ [(reactant_idx, product_idx,
                         Network.ReactionEdge Rxn rxn)]))
          (nodes, edges) rxns in
  collected (done ++ rxns) nodes' edges'.
Proof.
  revert done nodes edges.
  induction rxns as [|rxn rxns IH]; intros done nodes edges Hc.
  - simpl. by rewrite app_nil_r.
  - cbn [foldl]. pose proof (collected_step done nodes edges rxn Hc) as Hs.
    destruct (Network.node_index nodes (Rn rxn)) as [nodes1 ri].
    destruct (Network.node_index nodes1 (Pn rxn)) as [nodes2 pi].
    specialize (IH _ _ _ Hs). by rewrite <- app_assoc in IH.
Qed.

Lemma get_rxn_nodes_and_edges_collected (rxns : list Rxn) :
  let '(nodes, edges) :=
    Network.get_rxn_nodes_and_edges Rxn reactant_entries product_entries
      rxns in
  collected rxns nodes edges.
Proof.
  unfold Network.get_rxn_nodes_and_edges.
  apply (collected_fold [] [] [] rxns).
  split; [constructor|]. split; [|constructor].
  intros n. split; [by intros ?%elem_of_nil|].
  by intros (r & ?%elem_of_nil & _).
Qed.

Lemma build_spec (self : Network.ReactionNetwork (Entry:=Entry) Rxn) :
  ∃ g nodes,
    Network.build Rxn reactant_entries product_entries self
    = Network.mkReactionNetwork Rxn (Network.rxns Rxn self)
        (Network.net_entries Rxn self) (Some g)
        (Network._precursors Rxn self) (Network._target Rxn self)
    ∧ NoDup nodes
    ∧ Network.node_slots Rxn g = Some <$> nodes
    ∧ (∀ i, Network.get_node_data Rxn g i = nodes !! i)
    ∧ Network.free_slots Rxn g = []
    ∧ (∀ n, n ∈ nodes
            ↔ ∃ rxn, rxn ∈ Network.rxns Rxn self ∧ (n = Rn rxn ∨ n = Pn rxn))
    ∧ (∀ u v rxn,
         (u, v, Network.ReactionEdge Rxn rxn) ∈ Network.edge_list Rxn g
         ↔ rxn ∈ Network.rxns Rxn self
           ∧ nodes !! u = Some (Rn rxn) ∧ nodes !! v = Some (Pn rxn))
    ∧ (∀ u v,
         (u, v, Network.loopback_edge Rxn) ∈ Network.edge_list Rxn g
         ↔ ∃ X, nodes !! u
                = Some (Network.mkNetworkEntry X Network.Products)
                ∧ nodes !! v
                  = Some (Network.mkNetworkEntry X Network.Reactants))
    ∧ (∀ u v, (u, v, Network.precursor_edge Rxn) ∉ Network.edge_list Rxn g
              ∧ (u, v, Network.target_edge Rxn) ∉ Network.edge_list Rxn g).
Proof.
  unfold Network.build.
  pose proof (get_rxn_nodes_and_edges_collected (Network.rxns Rxn self))
    as Hc.
  destruct (Network.get_rxn_nodes_and_edges Rxn reactant_entries
              product_entries (Network.rxns Rxn self)) as [nodes edges].
  destruct Hc as (Hnd & Hmem & Hedges).
  destruct (add_nodes_from_slots Rxn (Network.empty_graph Rxn) nodes eq_refl)
    as (Hslots & Hfree & Hel).
  set (g0 := Network.add_nodes_from Rxn (Network.empty_graph Rxn) nodes) in *.
  eexists _, nodes. split; [reflexivity|].
  assert (Hin : ∀ x,
            x ∈ Network.edge_list Rxn
                  (Network.add_edges_from Rxn g0
                     (edges ++ Network.get_loopback_edges Rxn nodes))
            ↔ x ∈ edges ∨ x ∈ Network.get_loopback_edges Rxn nodes).
  { intros x. rewrite add_edges_from_edge_list, Hel. simpl.
    rewrite app_nil_r, <- elem_of_app.
    split; intros Hx; apply list_elem_of_In; apply list_elem_of_In in Hx;
      [by apply in_rev | by apply in_rev in Hx]. }
  assert (Hrx : ∀ u v (e : Network.EdgeObj Rxn), (u, v, e) ∈ edges →
            ∃ rxn, rxn ∈ Network.rxns Rxn self
                   ∧ e = Network.ReactionEdge Rxn rxn
                   ∧ nodes !! u = Some (Rn rxn) ∧ nodes !! v = Some (Pn rxn)).
  { intros u v e He. apply list_elem_of_lookup in He as [k Hk].
    destruct (Forall2_lookup_r _ _ _ _ _ Hedges Hk)
      as (rxn & Hrxn & He2 & Hu & Hv).
    simpl in *. exists rxn. split; [by eapply list_elem_of_lookup_2|done]. }
  split; [assumption|]. split.
  { by rewrite (proj1 (add_edges_from_slots Rxn g0 _)), Hslots. }
  split.
  { intros i. unfold Network.get_node_data.
    rewrite (proj1 (add_edges_from_slots Rxn g0 _)), Hslots. simpl.
    rewrite list_lookup_fmap. by destruct (nodes !! i). }
  split.
  { by rewrite (proj2 (add_edges_from_slots Rxn g0 _)). }
  split; [exact Hmem|]. split; [|split].
  - intros u v rxn. rewrite Hin. split.
    + intros [He|He].
      * destruct (Hrx u v _ He) as (rxn' & Hr & [= <-] & Hu & Hv). done.
      * apply get_loopback_edges_elem in He as [[=] _].
    + intros (Hr & Hu & Hv). left.
      apply list_elem_of_lookup in Hr as [k Hk].
      destruct (Forall2_lookup_l _ _ _ _ _ Hedges Hk)
        as ([[u' v'] e] & He & He2 & Hu' & Hv').
      simpl in *. subst e.
      rewrite (NoDup_lookup _ _ _ _ Hnd Hu Hu').
      rewrite (NoDup_lookup _ _ _ _ Hnd Hv Hv').
      by eapply list_elem_of_lookup_2.
  - intros u v. rewrite Hin, get_loopback_edges_elem. split.
    + intros [He|[_ HX]]; [|exact HX].
      by destruct (Hrx u v _ He) as (rxn' & _ & [=] & _).
    + intros HX. right. by split.
  - intros u v. rewrite !Hin, !get_loopback_edges_elem. split.
    + intros [He|[[=] _]]. by destruct (Hrx u v _ He) as (rxn' & _ & [=] & _).
    + intros [He|[[=] _]]. by destruct (Hrx u v _ He) as (rxn' & _ & [=] & _).
Qed.

Lemma build_typed (self : Network.ReactionNetwork (Entry:=Entry) Rxn) :
  Network.rxns Rxn self ≠ [] →
  ∃ g,
    Network.build Rxn reactant_entries product_entries self
    = Network.mkReactionNetwork Rxn (Network.rxns Rxn self)
        (Network.net_entries Rxn self) (Some g)
        (Network._precursors Rxn self) (Network._target Rxn self)
    ∧ Network.graph_built Rxn
        (Network.build Rxn reactant_entries product_entries self) = Some g
    ∧ Props.graph_typed Rxn g
    ∧ (∀ i n, Network.get_node_data Rxn g i = Some n →
              Network.description n = Network.Reactants
              ∨ Network.description n = Network.Products).
Proof.
  intros Hrxns.
  destruct (build_spec self)
    as (g & nodes & Hbuild & Hnd & Hslots & Hdata & Hfree & Hmem & Hrx
        & Hloop & Hnone).
  exists g. split; [exact Hbuild|].
  assert (Htag : ∀ i x t, nodes !! i = Some x → Network.description x = t →
            Props.has_tag Rxn g i t).
  { intros i x t Hi Ht. unfold Props.has_tag. by rewrite Hdata, Hi, <- Ht. }
  split; [|split].
  - rewrite Hbuild. unfold Network.graph_built, Network.num_nodes. simpl.
    destruct (Network.rxns Rxn self) as [|rxn rest] eqn:Hr; [done|].
    assert (Hin : Rn rxn ∈ nodes).
    { apply Hmem. exists rxn. split; [left | by left]. }
    apply list_elem_of_lookup in Hin as [i Hi].
    assert (Hidx : i ∈ Network.node_indices Rxn g).
    { unfold Network.node_indices, Network.get_node_data.
      apply list_elem_of_filter. split.
      - rewrite Hslots, list_lookup_fmap, Hi. simpl. eauto.
      - apply elem_of_seq. split; [lia|]. simpl.
        rewrite Hslots, length_fmap. apply lookup_lt_is_Some. eauto. }
    destruct (Network.node_indices Rxn g); [by apply elem_of_nil in Hidx|].
    reflexivity.
  - split; [|split; [exact Hfree|]].
    + apply Forall_forall. intros [[u v] o] He. unfold Props.edge_typed.
      destruct o as [| | |r]; simpl.
      * apply Hloop in He as (X & Hu & Hv). split; by eapply Htag.
      * by apply Hnone in He.
      * by apply Hnone in He.
      * apply Hrx in He as (_ & Hu & Hv). split; by eapply Htag.
    + intros i. rewrite Hslots, list_lookup_fmap.
      by destruct (nodes !! i).
  - intros i n. rewrite Hdata. intros Hi.
    assert (Hin : n ∈ nodes) by by eapply list_elem_of_lookup_2.
    apply Hmem in Hin as (rxn & _ & [-> | ->]); [by left | by right].
Qed.

End NetBuild.

(** X14.  [build] lays the reaction set out as a graph: the nodes are the
    pairwise-distinct Reactants and Products entry sets of the reactions,
    held at consecutive indices with no slot left vacant; every reaction
    has its edge from the node of its reactant set to the node of its
    product set, and no other reaction edge exists; a loopback edge joins
    the Products node of an entry set to the Reactants node of the same set
    whenever both exist, and nothing else; there are no precursor or target
    edges yet, and precursors and target are as they were. *)
Theorem build_graph `{Countable Entry} (Rxn : Type)
    (reactant_entries product_entries : Rxn → list Entry)
    (self : Network.ReactionNetwork (Entry:=Entry) Rxn) :
  let Rn rxn := Network.mkNetworkEntry (list_to_set (reactant_entries rxn))
                  Network.Reactants in
  let Pn rxn := Network.mkNetworkEntry (list_to_set (product_entries rxn))
                  Network.Products in
  ∃ g nodes,
    Network.build Rxn reactant_entries product_entries self
    = Network.mkReactionNetwork Rxn (Network.rxns Rxn self)
        (Network.net_entries Rxn self) (Some g)
        (Network._precursors Rxn self) (Network._target Rxn self)
    ∧ NoDup nodes
    ∧ Network.node_slots Rxn g = Some <$> nodes
    ∧ (∀ i, Network.get_node_data Rxn g i = nodes !! i)
    ∧ Network.free_slots Rxn g = []
    ∧ (∀ n, n ∈ nodes
            ↔ ∃ rxn, rxn ∈ Network.rxns Rxn self ∧ (n = Rn rxn ∨ n = Pn rxn))
    ∧ (∀ u v rxn,
         (u, v, Network.ReactionEdge Rxn rxn) ∈ Network.edge_list Rxn g
         ↔ rxn ∈ Network.rxns Rxn self
           ∧ nodes !! u = Some (Rn rxn) ∧ nodes !! v = Some (Pn rxn))
    ∧ (∀ u v,
         (u, v, Network.loopback_edge Rxn) ∈ Network.edge_list Rxn g
         ↔ ∃ X, nodes !! u
                = Some (Network.mkNetworkEntry X Network.Products)
                ∧ nodes !! v
                  = Some (Network.mkNetworkEntry X Network.Reactants))
    ∧ (∀ u v, (u, v, Network.precursor_edge Rxn) ∉ Network.edge_list Rxn g
              ∧ (u, v, Network.target_edge Rxn) ∉ Network.edge_list Rxn g).
Proof. intros Rn Pn. apply build_spec. Qed.

(** ** Re-pointing the rustworkx graph *)

Section NetOps.
Context `{Countable Entry}.
Variable Rxn : Type.

Implicit Types (g : Network.PyDiGraph (Entry:=Entry) Rxn).
Implicit Types (n : Network.NetworkEntry (Entry:=Entry)).
Implicit Types (es : list (nat * nat * Network.EdgeObj Rxn)) (e : (nat * nat * Network.EdgeObj Rxn)) (P : gset Entry).
Implicit Types (t : Network.NetworkEntryType).

(** The free list names the vacant slots, each once. *)
Let slots_ok g : Prop :=
  NoDup (Network.free_slots Rxn g)
  ∧ ∀ i, Network.node_slots Rxn g !! i = Some None
         ↔ i ∈ Network.free_slots Rxn g.

(** *** Nodes *)

Lemma elem_of_node_indices g i :
  i ∈ Network.node_indices Rxn g ↔ is_Some (Network.get_node_data Rxn g i).
Proof.
  unfold Network.node_indices, Network.get_node_data.
  rewrite list_elem_of_filter, elem_of_seq. split; [by intros [? _]|].
  intros Hi. split; [assumption|]. split; [lia|]. simpl.
  apply lookup_lt_is_Some.
  destruct (Network.node_slots Rxn g !! i); [eauto | by destruct Hi].
Qed.

Lemma add_node_spec g n :
  slots_ok g →
  let g' := (Network.add_node Rxn g n).1 in
  let i := (Network.add_node Rxn g n).2 in
  Network.get_node_data Rxn g i = None
  ∧ Network.get_node_data Rxn g' i = Some n
  ∧ (∀ j, j ≠ i →
          Network.get_node_data Rxn g' j = Network.get_node_data Rxn g j)
  ∧ Network.edge_list Rxn g' = Network.edge_list Rxn g
  ∧ slots_ok g'
  ∧ Network.free_slots Rxn g' = tail (Network.free_slots Rxn g)
  ∧ (∀ k rest, Network.free_slots Rxn g = k :: rest → i = k).
Proof.
  intros [Hnd Hvac]. unfold Network.add_node, Network.get_node_data.
  destruct (Network.free_slots Rxn g) as [|i rest] eqn:Hfree; simpl.
  - split; [by rewrite lookup_ge_None_2|].
    split; [by rewrite lookup_app_r, Nat.sub_diag|].
    split.
    { intros j Hj.
      destruct (decide (j < length (Network.node_slots Rxn g))).
      - by rewrite lookup_app_l.
      - rewrite !lookup_ge_None_2; [done|lia|rewrite length_app; simpl; lia]. }
    split; [reflexivity|]. split; [|done]. split; [constructor|].
    intros j. split; [|by intros ?%elem_of_nil].
    intros [Hj|[_ Hj]]%lookup_app_Some; [by apply Hvac in Hj|].
    destruct (j - length (Network.node_slots Rxn g)); discriminate.
  - apply NoDup_cons in Hnd as [Hin Hnd].
    assert (Hi : Network.node_slots Rxn g !! i = Some None)
      by (apply Hvac; left).
    split; [by rewrite Hi|].
    split.
    { rewrite list_lookup_insert_eq; [done|].
      apply lookup_lt_is_Some. eauto. }
    split; [intros j Hj; by rewrite list_lookup_insert_ne|].
    split; [reflexivity|].
    split; [|split; [reflexivity | by intros k rest' [= -> _]]].
    split; [assumption|]. intros j. simpl.
    destruct (decide (j = i)) as [->|Hne].
    + rewrite list_lookup_insert_eq by (apply lookup_lt_is_Some; eauto).
      split; [discriminate | contradiction].
    + rewrite list_lookup_insert_ne by congruence. rewrite Hvac.
      split; [by intros [->|?]%elem_of_cons | by right].
Qed.

Lemma remove_node_spec g i n :
  slots_ok g →
  Network.get_node_data Rxn g i = Some n →
  let g' := Network.remove_node Rxn g i in
  Network.get_node_data Rxn g' i = None
  ∧ (∀ j, j ≠ i →
          Network.get_node_data Rxn g' j = Network.get_node_data Rxn g j)
  ∧ Network.edge_list Rxn g'
    = filter (λ e : nat * nat * Network.EdgeObj Rxn, e.1.1 ≠ i ∧ e.1.2 ≠ i)
        (Network.edge_list Rxn g)
  ∧ slots_ok g'
  ∧ Network.free_slots Rxn g' = i :: Network.free_slots Rxn g.
Proof.
  intros [Hnd Hvac] Hi. unfold Network.remove_node. rewrite Hi.
  unfold Network.get_node_data in *. simpl.
  assert (Hlt : i < length (Network.node_slots Rxn g)).
  { apply lookup_lt_is_Some.
    destruct (Network.node_slots Rxn g !! i); [eauto | discriminate]. }
  split; [by rewrite list_lookup_insert_eq|].
  split; [intros j Hj; by rewrite list_lookup_insert_ne|].
  split; [reflexivity|]. split; [|reflexivity].
  assert (Hfresh : i ∉ Network.free_slots Rxn g).
  { intros Hin%Hvac. by rewrite Hin in Hi. }
  split; [by apply NoDup_cons|]. intros j. simpl.
  destruct (decide (j = i)) as [->|Hne].
  - rewrite list_lookup_insert_eq by assumption. split; [left | done].
  - rewrite list_lookup_insert_ne by congruence. rewrite Hvac.
    split; [by right | by intros [->|?]%elem_of_cons].
Qed.

Lemma typed_slots_ok g : Props.graph_typed Rxn g → slots_ok g.
Proof.
  intros (_ & Hfree & Hfull). split; rewrite Hfree; [constructor|].
  intros i. split; [by intros ?%Hfull | by intros ?%elem_of_nil].
Qed.

Lemma node_indices_full g :
  Props.graph_typed Rxn g →
  Network.node_indices Rxn g = seq 0 (length (Network.node_slots Rxn g)).
Proof.
  intros (_ & _ & Hfull). unfold Network.node_indices.
  assert (Hall : Forall (λ i, is_Some (mjoin (Network.node_slots Rxn g !! i)))
                   (seq 0 (length (Network.node_slots Rxn g)))).
  { apply Forall_forall. intros i [_ Hi]%elem_of_seq.
    destruct (lookup_lt_is_Some_2 _ i Hi) as [[x|] Hx]; rewrite Hx;
      [by eauto | by apply Hfull in Hx]. }
  induction Hall as [|x l Hx _ IH]; [reflexivity|].
  rewrite filter_cons_True by assumption. by rewrite IH.
Qed.

Lemma add_edges_from_data g es i :
  Network.get_node_data Rxn (Network.add_edges_from Rxn g es) i
  = Network.get_node_data Rxn g i.
Proof.
  unfold Network.get_node_data.
  by rewrite (proj1 (add_edges_from_slots Rxn g es)).
Qed.

Lemma elem_of_add_edges_from g es e :
  e ∈ Network.edge_list Rxn (Network.add_edges_from Rxn g es)
  ↔ e ∈ Network.edge_list Rxn g ∨ e ∈ es.
Proof.
  rewrite add_edges_from_edge_list, elem_of_app.
  assert (e ∈ rev es ↔ e ∈ es) as ->; [|tauto].
  split; intros Hx; apply list_elem_of_In; apply list_elem_of_In in Hx;
    [by apply in_rev | by apply in_rev in Hx].
Qed.

(** *** Tags *)

Lemma has_tag_data g i t :
  Props.has_tag Rxn g i t
  ↔ ∃ n, Network.get_node_data Rxn g i = Some n ∧ Network.description n = t.
Proof.
  unfold Props.has_tag.
  destruct (Network.get_node_data Rxn g i) as [n|]; simpl.
  - split; [intros [= <-]; eauto | by intros (n' & [= <-] & ->)].
  - split; [discriminate | by intros (n' & [=] & _)].
Qed.

Lemma has_tag_ext g g' i t :
  (∀ n, Network.get_node_data Rxn g i = Some n →
        Network.get_node_data Rxn g' i = Some n) →
  Props.has_tag Rxn g i t → Props.has_tag Rxn g' i t.
Proof.
  intros Hext (n & Hn & Ht)%has_tag_data. apply has_tag_data. eauto.
Qed.

Lemma edge_typed_ext g g' e :
  (∀ i n, Network.get_node_data Rxn g i = Some n →
          Network.get_node_data Rxn g' i = Some n) →
  Props.edge_typed Rxn g e → Props.edge_typed Rxn g' e.
Proof.
  intros Hext. unfold Props.edge_typed.
  destruct e.2; intros [H1 H2]; split;
    (eapply has_tag_ext; [apply Hext | assumption]).
Qed.

Lemma edge_typed_ends g e :
  Props.edge_typed Rxn g e →
  is_Some (Network.get_node_data Rxn g e.1.1)
  ∧ is_Some (Network.get_node_data Rxn g e.1.2).
Proof.
  unfold Props.edge_typed.
  destruct e.2; intros [(n1 & -> & _)%has_tag_data (n2 & -> & _)%has_tag_data];
    eauto.
Qed.

Lemma find_tagged_Some g t i :
  Props.graph_typed Rxn g →
  Network.find_tagged Rxn g t = Some i → Props.has_tag Rxn g i t.
Proof.
  intros Hg. unfold Network.find_tagged. rewrite (node_indices_full g Hg).
  destruct (list_find _ _) as [[j x]|] eqn:Hfind; [|discriminate].
  intros [= <-]. apply list_find_Some in Hfind as (Hj & Hx & _).
  apply lookup_seq in Hj as [-> _]. exact Hx.
Qed.

Lemma find_tagged_is_Some g t i :
  Props.has_tag Rxn g i t → is_Some (Network.find_tagged Rxn g t).
Proof.
  intros Hi. unfold Network.find_tagged.
  destruct (list_find_elem_of
              (λ node, Network.description
                         <$> Network.get_node_data Rxn g node = Some t)
              (Network.node_indices Rxn g) i) as [[j x] ->]; [|exact Hi|by eauto].
  apply elem_of_node_indices. apply has_tag_data in Hi as (n & -> & _). eauto.
Qed.

(** *** The links collected by the two loops *)

Lemma precursor_links_elem g P pn u v (o : Network.EdgeObj Rxn) :
  (u, v, o) ∈ Network.precursor_links Rxn g P pn ↔
  (o = Network.precursor_edge Rxn ∧ u = pn
   ∧ ∃ r, Network.get_node_data Rxn g v = Some r
          ∧ Network.description r = Network.Reactants
          ∧ Network.entries r ⊆ P)
  ∨ (o = Network.loopback_edge Rxn
     ∧ ∃ p r, Network.get_node_data Rxn g u = Some p
              ∧ Network.description p = Network.Products
              ∧ Network.get_node_data Rxn g v = Some r
              ∧ Network.description r = Network.Reactants
              ∧ Network.entries r ⊈ P
              ∧ Network.entries r ⊆ P ∪ Network.entries p).
Proof.
  unfold Network.precursor_links. rewrite list_elem_of_bind. split.
  - intros (node & Hin & Hnode).
    destruct (Network.get_node_data Rxn g node) as [entry|] eqn:Hentry;
      [|by apply elem_of_nil in Hin].
    destruct (Network.description entry) eqn:Hd;
      try (by apply elem_of_nil in Hin).
    + destruct (bool_decide (Network.entries entry ⊆ P)) eqn:Hsub;
        [|by apply elem_of_nil in Hin].
      apply bool_decide_eq_true in Hsub.
      apply list_elem_of_singleton in Hin as [= -> -> ->]. left.
      repeat split. by exists entry.
    + apply list_elem_of_bind in Hin as (node2 & Hin & Hnode2).
      destruct (Network.get_node_data Rxn g node2) as [entry2|] eqn:Hentry2;
        [|by apply elem_of_nil in Hin].
      destruct (bool_decide (Network.description entry2 = Network.Reactants))
        eqn:Hd2; [|by apply elem_of_nil in Hin].
      apply bool_decide_eq_true in Hd2.
      destruct (bool_decide (Network.entries entry2 ⊆ P)) eqn:Hsub;
        [by apply elem_of_nil in Hin|].
      apply bool_decide_eq_false in Hsub.
      destruct (bool_decide (Network.entries entry2
                             ⊆ P ∪ Network.entries entry)) eqn:Hsub2;
        [|by apply elem_of_nil in Hin].
      apply bool_decide_eq_true in Hsub2.
      apply list_elem_of_singleton in Hin as [= -> -> ->]. right.
      split; [reflexivity|]. by exists entry, entry2.
  - intros [(-> & -> & r & Hr & Hd & Hsub)
           |(-> & p & r & Hp & Hdp & Hr & Hdr & Hsub & Hsub2)].
    + exists v. split; [|apply elem_of_node_indices; by rewrite Hr].
      rewrite Hr, Hd. rewrite bool_decide_eq_true_2 by assumption. left.
    + exists u. split; [|apply elem_of_node_indices; by rewrite Hp].
      rewrite Hp, Hdp. apply list_elem_of_bind. exists v.
      split; [|apply elem_of_node_indices; by rewrite Hr].
      rewrite Hr. rewrite (bool_decide_eq_true_2 _ Hdr).
      rewrite (bool_decide_eq_false_2 _ Hsub).
      rewrite (bool_decide_eq_true_2 _ Hsub2). left.
Qed.

Lemma target_links_elem g (target : Entry) tn u v (o : Network.EdgeObj Rxn) :
  (u, v, o) ∈ Network.target_links Rxn g target tn ↔
  o = Network.target_edge Rxn ∧ v = tn
  ∧ ∃ p, Network.get_node_data Rxn g u = Some p
         ∧ Network.description p = Network.Products
         ∧ target ∈ Network.entries p.
Proof.
  unfold Network.target_links. rewrite list_elem_of_bind. split.
  - intros (node & Hin & Hnode).
    destruct (Network.get_node_data Rxn g node) as [entry|] eqn:Hentry;
      [|by apply elem_of_nil in Hin].
    destruct (bool_decide (Network.description entry ≠ Network.Products))
      eqn:Hd; [by apply elem_of_nil in Hin|].
    apply bool_decide_eq_false, dec_stable in Hd.
    destruct (bool_decide (target ∈ Network.entries entry)) eqn:Ht;
      [|by apply elem_of_nil in Hin].
    apply bool_decide_eq_true in Ht.
    apply list_elem_of_singleton in Hin as [= -> -> ->].
    repeat split. by exists entry.
  - intros (-> & -> & p & Hp & Hd & Ht).
    exists u. split; [|apply elem_of_node_indices; by rewrite Hp].
    rewrite Hp. rewrite bool_decide_eq_false_2 by (rewrite Hd; by intros ?).
    rewrite (bool_decide_eq_true_2 _ Ht). left.
Qed.

(** *** Attaching a node and its links *)

Lemma attach_node g n
    (links : Network.PyDiGraph Rxn → nat
             → list (nat * nat * Network.EdgeObj Rxn)) :
  slots_ok g →
  tail (Network.free_slots Rxn g) = [] →
  Forall (Props.edge_typed Rxn g) (Network.edge_list Rxn g) →
  (∀ ga pn e, Network.get_node_data Rxn ga pn = Some n →
              e ∈ links ga pn → Props.edge_typed Rxn ga e) →
  let ga := (Network.add_node Rxn g n).1 in
  let pn := (Network.add_node Rxn g n).2 in
  let g' := Network.add_edges_from Rxn ga (links ga pn) in
  Network.get_node_data Rxn g pn = None
  ∧ Network.get_node_data Rxn g' pn = Some n
  ∧ (∀ j, j ≠ pn →
          Network.get_node_data Rxn g' j = Network.get_node_data Rxn g j)
  ∧ (∀ j, Network.get_node_data Rxn ga j = Network.get_node_data Rxn g' j)
  ∧ (∀ e, e ∈ Network.edge_list Rxn g'
          ↔ e ∈ Network.edge_list Rxn g ∨ e ∈ links ga pn)
  ∧ Props.graph_typed Rxn g'
  ∧ (∀ k rest, Network.free_slots Rxn g = k :: rest → pn = k).
Proof.
  intros Hok Htail Htyped Hlinks ga pn g'.
  destruct (add_node_spec g n Hok)
    as (Hvac & Hnew & Hother & Hedges & Hok' & Hfree' & Hpick).
  fold ga pn in Hvac, Hnew, Hother, Hedges, Hok', Hfree', Hpick.
  assert (Hext : ∀ i x, Network.get_node_data Rxn g i = Some x →
            Network.get_node_data Rxn ga i = Some x).
  { intros i x Hi. rewrite Hother; [assumption|]. intros ->. congruence. }
  split; [assumption|].
  split; [subst g'; by rewrite add_edges_from_data|].
  split; [intros j Hj; subst g'; rewrite add_edges_from_data; by apply Hother|].
  split; [intros j; subst g'; by rewrite add_edges_from_data|].
  split; [intros e; subst g'; by rewrite elem_of_add_edges_from, Hedges|].
  split; [|exact Hpick].
  destruct (add_edges_from_slots Rxn ga (links ga pn)) as [Hs Hf].
  fold g' in Hs, Hf.
  split; [|split].
  - apply Forall_forall. intros e He. subst g'.
    apply elem_of_add_edges_from in He.
    apply (edge_typed_ext ga); [intros i x; by rewrite add_edges_from_data|].
    destruct He as [He|He].
    + rewrite Hedges in He. eapply Forall_forall in Htyped; [|exact He].
      by apply (edge_typed_ext g).
    + by eapply Hlinks.
  - by rewrite Hf, Hfree'.
  - intros i Hi. rewrite Hs in Hi. apply (proj2 Hok') in Hi.
    rewrite Hfree', Htail in Hi. by apply elem_of_nil in Hi.
Qed.

Lemma typed_not_vacant g e i :
  Props.edge_typed Rxn g e → Network.get_node_data Rxn g i = None →
  e.1.1 ≠ i ∧ e.1.2 ≠ i.
Proof.
  intros [[x Hx] [y Hy]]%edge_typed_ends Hi. split; intros <-; congruence.
Qed.

(** Taking out the node that carries tag [t], when there is one to take
    out. *)
Lemma detach_tagged g t (drop : bool) :
  Props.graph_typed Rxn g →
  (drop = true → ∃ i, Props.has_tag Rxn g i t) →
  ∃ g1,
    (if drop
     then match Network.find_tagged Rxn g t with
          | Some node => Py.Ok (Network.remove_node Rxn g node)
          | None => Py.Raise Py.ValueError
          end
     else Py.Ok g) = Py.Ok g1
    ∧ slots_ok g1
    ∧ tail (Network.free_slots Rxn g1) = []
    ∧ Forall (Props.edge_typed Rxn g1) (Network.edge_list Rxn g1)
    ∧ (∀ pn, Network.get_node_data Rxn g1 pn = None →
         (∀ k rest, Network.free_slots Rxn g1 = k :: rest → pn = k) →
         (if drop then Props.has_tag Rxn g pn t
          else Network.get_node_data Rxn g pn = None)
         ∧ (∀ j, j ≠ pn →
              Network.get_node_data Rxn g1 j = Network.get_node_data Rxn g j)
         ∧ (∀ e, e ∈ Network.edge_list Rxn g1
                 ↔ e ∈ Network.edge_list Rxn g ∧ e.1.1 ≠ pn ∧ e.1.2 ≠ pn)).
Proof.
  intros Hg Hdrop. pose proof (typed_slots_ok g Hg) as Hok.
  pose proof Hg as (Htyped & Hfree0 & _). destruct drop.
  - destruct Hdrop as [i0 Hi0]; [reflexivity|].
    destruct (find_tagged_is_Some g t i0 Hi0) as [i Hfind]. rewrite Hfind.
    apply find_tagged_Some in Hfind; [|assumption].
    pose proof Hfind as (n & Hn & Hd)%has_tag_data.
    destruct (remove_node_spec g i n Hok Hn)
      as (Hgone & Hother & Hedges & Hok1 & Hfree).
    eexists. split; [reflexivity|]. split; [assumption|].
    split; [by rewrite Hfree, Hfree0|]. split.
    + apply Forall_forall. intros e He. rewrite Hedges in He.
      apply list_elem_of_filter in He as [[Hu Hv] He].
      eapply Forall_forall in Htyped; [|exact He].
      revert Htyped. unfold Props.edge_typed.
      destruct e.2; intros [H1 H2]; split;
        (eapply has_tag_ext; [|eassumption]); intros x Hx;
        by rewrite Hother.
    + intros pn _ Hpick. rewrite (Hpick i _ Hfree).
      split; [assumption|]. split; [exact Hother|].
      intros e. rewrite Hedges, list_elem_of_filter. tauto.
  - exists g. split; [reflexivity|]. split; [assumption|].
    split; [by rewrite Hfree0|]. split; [assumption|].
    intros pn Hpn _. split; [assumption|]. split; [done|].
    intros e. split; [|tauto]. intros He. split; [assumption|].
    eapply Forall_forall in Htyped; [|exact He].
    by apply (typed_not_vacant g).
Qed.

End NetOps.

Section NetRepoint.
Context `{Countable Entry}.
Variable Rxn : Type.
Variable get_min_entry_by_formula : gset Entry → string → Py.result Entry.

Implicit Types (g : Network.PyDiGraph (Entry:=Entry) Rxn).
Implicit Types (self : Network.ReactionNetwork (Entry:=Entry) Rxn).
Implicit Types (e : nat * nat * Network.EdgeObj Rxn) (P : gset Entry).

Lemma graph_built_Some self g :
  Network.graph_built Rxn self = Some g
  ↔ Network._g Rxn self = Some g
    ∧ ∃ i, is_Some (Network.get_node_data Rxn g i).
Proof.
  unfold Network.graph_built, Network.num_nodes.
  destruct (Network._g Rxn self) as [g0|]; [|by split; [|intros [? _]]].
  destruct (Network.node_indices Rxn g0) as [|i l] eqn:Hl; simpl.
  - split; [discriminate|]. intros [[= ->] [i Hi]].
    apply elem_of_node_indices in Hi. rewrite Hl in Hi.
    by apply elem_of_nil in Hi.
  - split; [|by intros [? _]]. intros [= ->]. split; [reflexivity|].
    exists i. apply elem_of_node_indices. rewrite Hl. left.
Qed.

Lemma precursor_links_typed (P : gset Entry) ga pn e :
  Network.get_node_data Rxn ga pn
  = Some (Network.mkNetworkEntry P Network.Precursors) →
  e ∈ Network.precursor_links Rxn ga P pn → Props.edge_typed Rxn ga e.
Proof.
  intros Hpn. destruct e as [[u v] o].
  intros [(-> & -> & r & Hr & Hd & _)
         |(-> & p & r & Hp & Hdp & Hr & Hdr & _)]%precursor_links_elem;
    split; apply has_tag_data; eauto.
Qed.

Lemma target_links_typed (t : Entry) ga tn e :
  Network.get_node_data Rxn ga tn
  = Some (Network.mkNetworkEntry {[t]} Network.Target) →
  e ∈ Network.target_links Rxn ga t tn → Props.edge_typed Rxn ga e.
Proof.
  intros Htn. destruct e as [[u v] o].
  intros (-> & -> & p & Hp & Hd & _)%target_links_elem.
  split; apply has_tag_data; eauto.
Qed.

Lemma set_precursors_spec self g precursors ps :
  Network.graph_built Rxn self = Some g →
  Props.graph_typed Rxn g →
  Network.resolve_all Rxn get_min_entry_by_formula self precursors
  = Py.Ok ps →
  Some (list_to_set ps) ≠ Network._precursors Rxn self →
  list_to_set ps ⊆ Network.net_entries Rxn self →
  (Network.has_precursors Rxn self = true →
   ∃ i, Props.has_tag Rxn g i Network.Precursors) →
  ∃ st g' pn,
    Network.set_precursors Rxn get_min_entry_by_formula self precursors
    = Py.Ok st
    ∧ st = Network.mkReactionNetwork Rxn (Network.rxns Rxn self)
             (Network.net_entries Rxn self) (Some g')
             (Some (list_to_set ps)) (Network._target Rxn self)
    ∧ Network.graph_built Rxn st = Some g'
    ∧ Props.graph_typed Rxn g'
    ∧ Network.get_node_data Rxn g' pn
      = Some (Network.mkNetworkEntry (list_to_set ps) Network.Precursors)
    ∧ (if Network.has_precursors Rxn self
       then Props.has_tag Rxn g pn Network.Precursors
       else Network.get_node_data Rxn g pn = None)
    ∧ (∀ j, j ≠ pn →
            Network.get_node_data Rxn g' j = Network.get_node_data Rxn g j)
    ∧ (∀ e, e ∈ Network.edge_list Rxn g'
            ↔ (e ∈ Network.edge_list Rxn g ∧ e.1.1 ≠ pn ∧ e.1.2 ≠ pn)
              ∨ Props.precursor_link Rxn g' (list_to_set ps) pn e).
Proof.
  intros Hgb Hg Hres Hne Hsub Hold. unfold Network.set_precursors.
  rewrite Hgb, Hres. cbn [mbind Py.result_bind].
  set (P := list_to_set ps : gset Entry) in *.
  rewrite bool_decide_eq_false_2 by assumption.
  rewrite bool_decide_eq_true_2 by assumption.
  destruct (detach_tagged Rxn g Network.Precursors
              (Network.has_precursors Rxn self) Hg Hold)
    as (g1 & -> & Hok1 & Htail & Hty1 & Hrel).
  cbn [mbind Py.result_bind].
  pose proof (attach_node Rxn g1
                (Network.mkNetworkEntry P Network.Precursors)
                (λ ga pn, Network.precursor_links Rxn ga P pn)
                Hok1 Htail Hty1 (precursor_links_typed P)) as Hatt.
  destruct (Network.add_node Rxn g1
              (Network.mkNetworkEntry P Network.Precursors)) as [ga pn].
  cbn [fst snd] in Hatt. cbv zeta in Hatt.
  set (g' := Network.add_edges_from Rxn ga
               (Network.precursor_links Rxn ga P pn)) in *.
  destruct Hatt as (Hvac & Hnew & Hother & Hga & Hedges & Hg' & Hpick).
  destruct (Hrel pn Hvac Hpick) as (Hwas & Hother1 & Hedges1).
  eexists _, g', pn. split; [reflexivity|]. split; [reflexivity|].
  split; [apply graph_built_Some; split; [reflexivity|]; exists pn;
          by rewrite Hnew|].
  split; [assumption|]. split; [assumption|]. split; [assumption|].
  split; [intros j Hj; by rewrite Hother, Hother1|].
  intros [[u v] o]. rewrite Hedges, Hedges1, precursor_links_elem.
  unfold Props.precursor_link. simpl. by setoid_rewrite Hga.
Qed.

Lemma set_target_spec self g target (t : Entry) :
  Network.graph_built Rxn self = Some g →
  Props.graph_typed Rxn g →
  Network.resolve Rxn get_min_entry_by_formula self target = Py.Ok t →
  Some t ≠ Network._target Rxn self →
  t ∈ Network.net_entries Rxn self →
  (is_Some (Network._target Rxn self) →
   ∃ i, Props.has_tag Rxn g i Network.Target) →
  ∃ st g' tn,
    Network.set_target Rxn get_min_entry_by_formula self target = Py.Ok st
    ∧ st = Network.mkReactionNetwork Rxn (Network.rxns Rxn self)
             (Network.net_entries Rxn self) (Some g')
             (Network._precursors Rxn self) (Some t)
    ∧ Network.graph_built Rxn st = Some g'
    ∧ Props.graph_typed Rxn g'
    ∧ Network.get_node_data Rxn g' tn
      = Some (Network.mkNetworkEntry {[t]} Network.Target)
    ∧ match Network._target Rxn self with
      | Some _ => Props.has_tag Rxn g tn Network.Target
      | None => Network.get_node_data Rxn g tn = None
      end
    ∧ (∀ j, j ≠ tn →
            Network.get_node_data Rxn g' j = Network.get_node_data Rxn g j)
    ∧ (∀ e, e ∈ Network.edge_list Rxn g'
            ↔ (e ∈ Network.edge_list Rxn g ∧ e.1.1 ≠ tn ∧ e.1.2 ≠ tn)
              ∨ Props.target_link Rxn g' t tn e).
Proof.
  intros Hgb Hg Hres Hne Hin Hold. unfold Network.set_target.
  rewrite Hgb, Hres. cbn [mbind Py.result_bind].
  rewrite bool_decide_eq_false_2 by assumption.
  rewrite bool_decide_eq_true_2 by assumption.
  destruct (detach_tagged Rxn g Network.Target
              (bool_decide (is_Some (Network._target Rxn self))) Hg)
    as (g1 & -> & Hok1 & Htail & Hty1 & Hrel).
  { intros Hb%bool_decide_eq_true. by apply Hold. }
  cbn [mbind Py.result_bind].
  pose proof (attach_node Rxn g1
                (Network.mkNetworkEntry {[t]} Network.Target)
                (λ ga tn, Network.target_links Rxn ga t tn)
                Hok1 Htail Hty1 (target_links_typed t)) as Hatt.
  destruct (Network.add_node Rxn g1
              (Network.mkNetworkEntry {[t]} Network.Target)) as [ga tn].
  cbn [fst snd] in Hatt. cbv zeta in Hatt.
  set (g' := Network.add_edges_from Rxn ga
               (Network.target_links Rxn ga t tn)) in *.
  destruct Hatt as (Hvac & Hnew & Hother & Hga & Hedges & Hg' & Hpick).
  destruct (Hrel tn Hvac Hpick) as (Hwas & Hother1 & Hedges1).
  eexists _, g', tn. split; [reflexivity|]. split; [reflexivity|].
  split; [apply graph_built_Some; split; [reflexivity|]; exists tn;
          by rewrite Hnew|].
  split; [assumption|]. split; [assumption|]. split.
  { destruct (Network._target Rxn self) as [t0|].
    - by rewrite bool_decide_eq_true_2 in Hwas by by eexists.
    - rewrite bool_decide_eq_false_2 in Hwas; [assumption|].
      by intros [? ?]. }
  split; [intros j Hj; by rewrite Hother, Hother1|].
  intros [[u v] o]. rewrite Hedges, Hedges1, target_links_elem.
  unfold Props.target_link. simpl. by setoid_rewrite Hga.
Qed.

End NetRepoint.

(** X15.  Take a built network whose graph is well typed and, whenever
    the recorded precursor set is non-empty, holds a node tagged
    Precursors.  [set_precursors] with arguments that resolve to a set [P]
    of entries of the network other than the recorded precursors raises
    nothing.  The graph it leaves is well typed and holds the node of [P]
    at an index [pn]: the index of the Precursors node just removed when
    the old precursor set is non-empty, and an index that held no node
    otherwise; every other node is as it was.  Its edges are the old edges not
    incident to [pn] together with the new links: a precursor edge from
    [pn] to exactly the Reactants nodes within [P], and a loopback edge
    from a Products node to every Reactants node that is not within [P] but
    is within [P] and the products. *)
Theorem set_precursors_links `{Countable Entry} (Rxn : Type)
    (get_min_entry_by_formula : gset Entry → string → Py.result Entry)
    (self : Network.ReactionNetwork (Entry:=Entry) Rxn)
    (g : Network.PyDiGraph Rxn)
    (precursors : list (Network.EntryOrStr (Entry:=Entry)))
    (ps : list Entry) :
  Network.graph_built Rxn self = Some g →
  Props.graph_typed Rxn g →
  Network.resolve_all Rxn get_min_entry_by_formula self precursors
  = Py.Ok ps →
  Some (list_to_set ps) ≠ Network._precursors Rxn self →
  list_to_set ps ⊆ Network.net_entries Rxn self →
  (Network.has_precursors Rxn self = true →
   ∃ i, Props.has_tag Rxn g i Network.Precursors) →
  ∃ st g' pn,
    Network.set_precursors Rxn get_min_entry_by_formula self precursors
    = Py.Ok st
    ∧ st = Network.mkReactionNetwork Rxn (Network.rxns Rxn self)
             (Network.net_entries Rxn self) (Some g')
             (Some (list_to_set ps)) (Network._target Rxn self)
    ∧ Network.graph_built Rxn st = Some g'
    ∧ Props.graph_typed Rxn g'
    ∧ Network.get_node_data Rxn g' pn
      = Some (Network.mkNetworkEntry (list_to_set ps) Network.Precursors)
    ∧ (if Network.has_precursors Rxn self
       then Props.has_tag Rxn g pn Network.Precursors
       else Network.get_node_data Rxn g pn = None)
    ∧ (∀ j, j ≠ pn →
            Network.get_node_data Rxn g' j = Network.get_node_data Rxn g j)
    ∧ (∀ e, e ∈ Network.edge_list Rxn g'
            ↔ (e ∈ Network.edge_list Rxn g ∧ e.1.1 ≠ pn ∧ e.1.2 ≠ pn)
              ∨ Props.precursor_link Rxn g' (list_to_set ps) pn e).
Proof. apply set_precursors_spec. Qed.

Lemma rx_network_built (rxns : list Examples.Rx) :
  rxns ≠ [] →
  Network.graph_built Examples.Rx (Examples.rx_network rxns)
  = Some (default (Network.empty_graph Examples.Rx)
            (Network._g Examples.Rx (Examples.rx_network rxns)))
  ∧ Props.graph_typed Examples.Rx
      (default (Network.empty_graph Examples.Rx)
         (Network._g Examples.Rx (Examples.rx_network rxns))).
Proof.
  intros Hrxns. unfold Examples.rx_network.
  destruct (build_typed Examples.Rx (λ r, r.1.1) (λ r, r.1.2)
              (Network.mkReactionNetwork Examples.Rx rxns
                 (list_to_set (rxns ≫= λ r, r.1.1 ++ r.1.2)) None None None))
    as (g & Hbuild & Hgb & Hg & _); [assumption|].
  rewrite Hgb, Hbuild. simpl. by split.
Qed.

(** The reactions [A + B → C], [B + C → D], pointed at [{A, B}]. *)
Lemma set_precursors_links_witness :
  ∃ st g' pn,
    Network.set_precursors Examples.Rx Examples.no_formula
      (Examples.rx_network Examples.stale_rxns)
      [Network.AsEntry 0; Network.AsEntry 1] = Py.Ok st
    ∧ st = Network.mkReactionNetwork Examples.Rx
             (Network.rxns Examples.Rx
                (Examples.rx_network Examples.stale_rxns))
             (Network.net_entries Examples.Rx
                (Examples.rx_network Examples.stale_rxns))
             (Some g') (Some (list_to_set [0; 1]))
             (Network._target Examples.Rx
                (Examples.rx_network Examples.stale_rxns))
    ∧ Network.graph_built Examples.Rx st = Some g'
    ∧ Props.graph_typed Examples.Rx g'
    ∧ Network.get_node_data Examples.Rx g' pn
      = Some (Network.mkNetworkEntry (list_to_set [0; 1])
                Network.Precursors)
    ∧ (if Network.has_precursors Examples.Rx
            (Examples.rx_network Examples.stale_rxns)
       then Props.has_tag Examples.Rx Examples.stale_built_graph pn
              Network.Precursors
       else Network.get_node_data Examples.Rx Examples.stale_built_graph pn
            = None)
    ∧ (∀ j, j ≠ pn →
            Network.get_node_data Examples.Rx g' j
            = Network.get_node_data Examples.Rx
                Examples.stale_built_graph j)
    ∧ (∀ e, e ∈ Network.edge_list Examples.Rx g'
            ↔ (e ∈ Network.edge_list Examples.Rx
                     Examples.stale_built_graph
               ∧ e.1.1 ≠ pn ∧ e.1.2 ≠ pn)
              ∨ Props.precursor_link Examples.Rx g' (list_to_set [0; 1])
                  pn e).
Proof.
  apply (set_precursors_links Examples.Rx Examples.no_formula
           (Examples.rx_network Examples.stale_rxns)
           Examples.stale_built_graph
           [Network.AsEntry 0; Network.AsEntry 1] [0; 1]).
  - apply (rx_network_built Examples.stale_rxns). discriminate.
  - apply (rx_network_built Examples.stale_rxns). discriminate.
  - reflexivity.
  - discriminate.
  - by_compute.
  - intros Hp. vm_compute in Hp. discriminate.
Defined.

(** X16.  Take a built network whose graph is well typed and, whenever a
    target is recorded, holds a node tagged Target.  [set_target] with an
    argument that resolves to an entry [t] of the network other than the
    recorded target raises nothing.  The graph it leaves is well typed and
    holds the Target node of [t] at an index [tn]: the index of the Target
    node just removed when a target was recorded, and an index that held no
    node otherwise; every other node is as it was.  Its edges
    are the old edges not incident to [tn] together with a target edge
    from exactly the Products nodes that contain [t]. *)
Theorem set_target_links `{Countable Entry} (Rxn : Type)
    (get_min_entry_by_formula : gset Entry → string → Py.result Entry)
    (self : Network.ReactionNetwork (Entry:=Entry) Rxn)
    (g : Network.PyDiGraph Rxn)
    (target : Network.EntryOrStr (Entry:=Entry)) (t : Entry) :
  Network.graph_built Rxn self = Some g →
  Props.graph_typed Rxn g →
  Network.resolve Rxn get_min_entry_by_formula self target = Py.Ok t →
  Some t ≠ Network._target Rxn self →
  t ∈ Network.net_entries Rxn self →
  (is_Some (Network._target Rxn self) →
   ∃ i, Props.has_tag Rxn g i Network.Target) →
  ∃ st g' tn,
    Network.set_target Rxn get_min_entry_by_formula self target = Py.Ok st
    ∧ st = Network.mkReactionNetwork Rxn (Network.rxns Rxn self)
             (Network.net_entries Rxn self) (Some g')
             (Network._precursors Rxn self) (Some t)
    ∧ Network.graph_built Rxn st = Some g'
    ∧ Props.graph_typed Rxn g'
    ∧ Network.get_node_data Rxn g' tn
      = Some (Network.mkNetworkEntry {[t]} Network.Target)
    ∧ match Network._target Rxn self with
      | Some _ => Props.has_tag Rxn g tn Network.Target
      | None => Network.get_node_data Rxn g tn = None
      end
    ∧ (∀ j, j ≠ tn →
            Network.get_node_data Rxn g' j = Network.get_node_data Rxn g j)
    ∧ (∀ e, e ∈ Network.edge_list Rxn g'
            ↔ (e ∈ Network.edge_list Rxn g ∧ e.1.1 ≠ tn ∧ e.1.2 ≠ tn)
              ∨ Props.target_link Rxn g' t tn e).
Proof. apply set_target_spec. Qed.

(** The reaction set of the Yen example, pointed at target [T]. *)
Lemma set_target_links_witness :
  ∃ st g' tn,
    Network.set_target Examples.Rx Examples.no_formula
      (Examples.rx_network Examples.yen_rxns) (Network.AsEntry 4)
    = Py.Ok st
    ∧ st = Network.mkReactionNetwork Examples.Rx
             (Network.rxns Examples.Rx
                (Examples.rx_network Examples.yen_rxns))
             (Network.net_entries Examples.Rx
                (Examples.rx_network Examples.yen_rxns))
             (Some g')
             (Network._precursors Examples.Rx
                (Examples.rx_network Examples.yen_rxns))
             (Some 4)
    ∧ Network.graph_built Examples.Rx st = Some g'
    ∧ Props.graph_typed Examples.Rx g'
    ∧ Network.get_node_data Examples.Rx g' tn
      = Some (Network.mkNetworkEntry {[4]} Network.Target)
    ∧ match Network._target Examples.Rx
              (Examples.rx_network Examples.yen_rxns) with
      | Some _ => Props.has_tag Examples.Rx Examples.yen_built_graph tn
                    Network.Target
      | None => Network.get_node_data Examples.Rx Examples.yen_built_graph
                  tn = None
      end
    ∧ (∀ j, j ≠ tn →
            Network.get_node_data Examples.Rx g' j
            = Network.get_node_data Examples.Rx Examples.yen_built_graph j)
    ∧ (∀ e, e ∈ Network.edge_list Examples.Rx g'
            ↔ (e ∈ Network.edge_list Examples.Rx Examples.yen_built_graph
               ∧ e.1.1 ≠ tn ∧ e.1.2 ≠ tn)
              ∨ Props.target_link Examples.Rx g' 4 tn e).
Proof.
  apply (set_target_links Examples.Rx Examples.no_formula
           (Examples.rx_network Examples.yen_rxns)
           Examples.yen_built_graph (Network.AsEntry 4) 4).
  - apply (rx_network_built Examples.yen_rxns). discriminate.
  - apply (rx_network_built Examples.yen_rxns). discriminate.
  - reflexivity.
  - discriminate.
  - by_compute.
  - intros [x Hx]. vm_compute in Hx. discriminate.
Defined.

(** ** Pathways read off paths *)

Section NetPaths.
Context `{Countable Entry}.
Variable Rxn : Type.

Implicit Types (g : Network.PyDiGraph (Entry:=Entry) Rxn) (cf : Rxn → Q).
Implicit Types (path pre suf : list nat).

Let weight cf (o : Network.EdgeObj Rxn) : Q := Network.get_edge_weight Rxn o cf.
Let is_reaction (o : Network.EdgeObj Rxn) : Prop :=
  ∃ r, o = Network.ReactionEdge Rxn r.
Local Notation holds_products g :=
  (λ n : nat, Network.description <$> Network.get_node_data Rxn g n
              = Some Network.Products).

(** In a typed graph the edges into a Products node carry reactions, and
    the edges into any other node weigh nothing. *)
Lemma edge_into_node g cf u v (o : Network.EdgeObj Rxn) n :
  Props.graph_typed Rxn g →
  (u, v, o) ∈ Network.edge_list Rxn g →
  Network.get_node_data Rxn g v = Some n →
  (Network.description n = Network.Products → is_reaction o)
  ∧ (Network.description n ≠ Network.Products → weight cf o = 0%Q).
Proof.
  intros [Hty _] Ho Hn.
  pose proof (proj1 (Forall_forall _ _) Hty _ Ho) as He.
  unfold Props.edge_typed, Props.has_tag in He. simpl in He.
  rewrite Hn in He. simpl in He.
  destruct o as [| | |r]; destruct He as [_ [= Hd]]; split;
    try (intros Hp; congruence); try (intros _; reflexivity).
  intros _. by exists r.
Qed.

Lemma previous_node path pre suf u :
  path = pre ++ suf → last pre = Some u →
  (if length pre + 0 =? 0 then last path
   else path !! (length pre + 0 - 1)) = Some u.
Proof.
  intros -> [pre' ->]%last_Some. rewrite length_app. simpl.
  replace (length pre' + 1 + 0 =? 0) with false
    by (symmetry; apply Nat.eqb_neq; lia).
  replace (length pre' + 1 + 0 - 1) with (length pre') by lia.
  rewrite <- !app_assoc. simpl. by apply list_lookup_middle.
Qed.

Lemma path_steps g cf path :
  Props.graph_typed Rxn g →
  ∀ suf pre u rx cs c0,
    path = pre ++ suf → last pre = Some u →
    Props.is_walk Rxn (Network.edge_list Rxn g) (u :: suf) →
    ∃ rx' c',
      foldl (Network.path_step Rxn g cf path) (Py.Ok (rx, cs))
            (imap (λ i x, (length pre + i, x)) suf)
      = Py.Ok (rx ++ rx', cs ++ map (weight cf) rx')
      ∧ rx' = Props.reactions_along Rxn g u suf
      ∧ Forall is_reaction rx'
      ∧ length rx' = length (filter (holds_products g) suf)
      ∧ Network.path_cost_from Rxn g cf c0 (u :: suf) = Py.Ok c'
      ∧ (c' == c0 + foldr Qplus 0 (map (weight cf) rx'))%Q.
Proof.
  intros Hg. induction suf as [|v suf IH]; intros pre u rx cs c0 Hpath Hu Hw.
  { exists [], c0. simpl. rewrite !app_nil_r.
    split; [reflexivity|]. split; [reflexivity|]. split; [constructor|].
    split; [reflexivity|]. split; [reflexivity | ring]. }
  destruct Hw as [[e He] Hw].
  destruct (get_edge_data_is_Some Rxn g u v e He) as [o Ho].
  pose proof (get_edge_data_Some Rxn g u v o Ho) as Hin.
  destruct Hg as [Hty Hrest].
  pose proof (proj1 (Forall_forall _ _) Hty _ Hin) as Het.
  destruct (edge_typed_ends Rxn g _ Het) as [_ [n Hn]]. simpl in Hn.
  destruct (edge_into_node g cf u v o n (conj Hty Hrest) Hin Hn)
    as [Hprod Hother].
  rewrite imap_cons. cbn [foldl].
  assert (Hext : imap ((λ i x, (length pre + i, x)) ∘ S) suf
                 = imap (λ i x, (length (pre ++ [v]) + i, x)) suf).
  { apply imap_ext. intros i x _. simpl. rewrite length_app. simpl.
    f_equal. lia. }
  rewrite Hext. clear Hext.
  assert (Hpath' : path = (pre ++ [v]) ++ suf)
    by (by rewrite <- app_assoc).
  assert (Hv : last (pre ++ [v]) = Some v) by apply last_snoc.
  destruct (decide (Network.description n = Network.Products)) as [Hd|Hd].
  - assert (Hstep : Network.path_step Rxn g cf path (Py.Ok (rx, cs))
                      (length pre + 0, v)
                    = Py.Ok (rx ++ [o], cs ++ [weight cf o])).
    { unfold Network.path_step. simpl. rewrite Hn.
      rewrite (bool_decide_eq_true_2 _ Hd).
      rewrite (previous_node path pre (v :: suf) u Hpath Hu).
      by rewrite Ho. }
    rewrite Hstep.
    destruct (IH (pre ++ [v]) v (rx ++ [o]) (cs ++ [weight cf o])
                 (c0 + weight cf o)%Q Hpath' Hv Hw)
      as (rx' & c' & Hfold & Halong & Hrx & Hlen & Hcost & Hc).
    exists (o :: rx'), c'. split.
    { etrans; [exact Hfold|]. by rewrite <- !app_assoc. }
    split.
    { cbn [Props.reactions_along]. rewrite Hn. simpl.
      rewrite (bool_decide_eq_true_2 _ (f_equal Some Hd)), Ho.
      simpl. by rewrite Halong. }
    split; [by constructor; [apply Hprod|]|]. split.
    { rewrite filter_cons_True; [simpl; by rewrite Hlen|].
      simpl. by rewrite Hn, <- Hd. }
    split.
    { cbn [Network.path_cost_from]. rewrite Ho. exact Hcost. }
    rewrite Hc. simpl. ring.
  - assert (Hstep : Network.path_step Rxn g cf path (Py.Ok (rx, cs))
                      (length pre + 0, v)
                    = Py.Ok (rx, cs)).
    { unfold Network.path_step. simpl. rewrite Hn.
      by rewrite (bool_decide_eq_false_2 _ Hd). }
    rewrite Hstep.
    destruct (IH (pre ++ [v]) v rx cs (c0 + weight cf o)%Q Hpath' Hv Hw)
      as (rx' & c' & Hfold & Halong & Hrx & Hlen & Hcost & Hc).
    exists rx', c'. split; [exact Hfold|]. split.
    { cbn [Props.reactions_along]. rewrite Hn. simpl.
      rewrite bool_decide_eq_false_2 by congruence. exact Halong. }
    split; [exact Hrx|]. split.
    { rewrite filter_cons_False; [exact Hlen|].
      simpl. rewrite Hn. simpl. congruence. }
    split.
    { cbn [Network.path_cost_from]. rewrite Ho. exact Hcost. }
    rewrite Hc, (Hother Hd). ring.
Qed.

Lemma path_from_graph_spec g cf path :
  Props.graph_typed Rxn g →
  Props.is_walk Rxn (Network.edge_list Rxn g) path →
  (∀ n, head path = Some n →
        ∃ x, Network.get_node_data Rxn g n = Some x
             ∧ Network.description x ≠ Network.Products) →
  ∃ rxns c,
    Network._path_from_graph Rxn g path cf
    = Py.Ok (rxns, map (weight cf) rxns)
    ∧ rxns = match path with
             | [] => []
             | n :: suf => Props.reactions_along Rxn g n suf
             end
    ∧ Forall is_reaction rxns
    ∧ length rxns = length (filter (holds_products g) path)
    ∧ Network.path_cost Rxn g cf path = Py.Ok c
    ∧ (c == Py.Qsum (map (weight cf) rxns))%Q.
Proof.
  intros Hg Hw Hhead. destruct path as [|n suf].
  { exists [], 0%Q. split; [reflexivity|]. split; [reflexivity|].
    split; [constructor|]. split; [reflexivity|]. split; reflexivity. }
  destruct (Hhead n eq_refl) as (x & Hx & Hd).
  destruct (path_steps g cf (n :: suf) Hg suf [n] n [] [] 0%Q
              eq_refl eq_refl Hw)
    as (rx' & c' & Hfold & Halong & Hrx & Hlen & Hc & Hs).
  exists rx', c'. split; [|split; [exact Halong|]].
  { unfold Network._path_from_graph. rewrite imap_cons. cbn [foldl].
    assert (Hstep : Network.path_step Rxn g cf (n :: suf) (Py.Ok ([], []))
                      (0, n) = Py.Ok ([], [])).
    { unfold Network.path_step. simpl. rewrite Hx.
      by rewrite (bool_decide_eq_false_2 _ Hd). }
    rewrite Hstep. exact Hfold. }
  split; [exact Hrx|]. split.
  { rewrite filter_cons_False; [exact Hlen|].
    simpl. rewrite Hx. simpl. congruence. }
  split; [exact Hc|]. rewrite Qsum_foldr, Hs. ring.
Qed.

(** The last reaction collected along a path that ends [...; p; z], with
    [p] a Products node and [z] none, is the one on the edge into [p]. *)
Lemma reactions_along_last g (mid : list nat) :
  ∀ u p z (o : Network.EdgeObj Rxn),
    Network.description <$> Network.get_node_data Rxn g p
    = Some Network.Products →
    Network.description <$> Network.get_node_data Rxn g z
    ≠ Some Network.Products →
    Network.get_edge_data Rxn g (default u (last mid)) p = Some o →
    last (Props.reactions_along Rxn g u (mid ++ [p; z])) = Some o.
Proof.
  induction mid as [|m mid IH]; intros u p z o Hp Hz Ho.
  - simpl in *. rewrite (bool_decide_eq_true_2 _ Hp), Ho.
    by rewrite (bool_decide_eq_false_2 _ Hz).
  - cbn [app Props.reactions_along]. rewrite last_app.
    rewrite (IH m p z o Hp Hz); [reflexivity|].
    destruct mid as [|m' mid']; [exact Ho|].
    rewrite last_cons_cons in Ho.
    destruct (last (m' :: mid')) as [y|] eqn:Hlast; [exact Ho|].
    by apply last_None in Hlast.
Qed.

End NetPaths.

(** X17.  On a typed graph, for a walk whose first node is not a Products
    node, [_path_from_graph] raises nothing.  The pathway it makes holds
    one reaction for each Products node on the walk and nothing but
    reactions; its costs are the weights of these reactions, in the same
    order; and they add up to the cost that [yens_ksp] computes for the
    walk. *)
Theorem path_from_graph_reactions `{Countable Entry} (Rxn : Type)
    (g : Network.PyDiGraph (Entry:=Entry) Rxn) (cf : Rxn → Q)
    (path : list nat) :
  Props.graph_typed Rxn g →
  Props.is_walk Rxn (Network.edge_list Rxn g) path →
  (∀ n, head path = Some n →
        ∃ x, Network.get_node_data Rxn g n = Some x
             ∧ Network.description x ≠ Network.Products) →
  ∃ rxns c,
    Network._path_from_graph Rxn g path cf
    = Py.Ok (rxns, map (λ o, Network.get_edge_weight Rxn o cf) rxns)
    ∧ Forall (λ o, ∃ r, o = Network.ReactionEdge Rxn r) rxns
    ∧ length rxns
      = length (filter (λ n, Network.description
                               <$> Network.get_node_data Rxn g n
                             = Some Network.Products) path)
    ∧ Network.path_cost Rxn g cf path = Py.Ok c
    ∧ (c == Py.Qsum (map (λ o, Network.get_edge_weight Rxn o cf) rxns))%Q.
Proof.
  intros Hg Hw Hhead.
  destruct (path_from_graph_spec Rxn g cf path Hg Hw Hhead)
    as (rxns & c & Hpath & _ & Hrest).
  by exists rxns, c.
Qed.

Lemma yen_graph_typed : Props.graph_typed Examples.Rx Examples.yen_graph.
Proof.
  split; [|split; [reflexivity|]].
  - unfold Examples.yen_graph. simpl.
    repeat (constructor; [by vm_compute|]). constructor.
  - intros i. unfold Examples.yen_graph. simpl.
    do 8 (destruct i as [|i]; [discriminate|]). discriminate.
Qed.

(** The walk Precursors → Reactants → Products → Target of the Yen
    example. *)
Lemma path_from_graph_reactions_witness :
  ∃ rxns c,
    Network._path_from_graph Examples.Rx Examples.yen_graph [6; 0; 1; 7]
      Examples.rx_cost
    = Py.Ok (rxns, map (λ o, Network.get_edge_weight Examples.Rx o
                               Examples.rx_cost) rxns)
    ∧ Forall (λ o, ∃ r, o = Network.ReactionEdge Examples.Rx r) rxns
    ∧ length rxns
      = length (filter (λ n, Network.description
                               <$> Network.get_node_data Examples.Rx
                                     Examples.yen_graph n
                             = Some Network.Products) [6; 0; 1; 7])
    ∧ Network.path_cost Examples.Rx Examples.yen_graph Examples.rx_cost
        [6; 0; 1; 7] = Py.Ok c
    ∧ (c == Py.Qsum (map (λ o, Network.get_edge_weight Examples.Rx o
                                 Examples.rx_cost) rxns))%Q.
Proof.
  apply (path_from_graph_reactions Examples.Rx Examples.yen_graph
           Examples.rx_cost [6; 0; 1; 7]).
  - exact yen_graph_typed.
  - simpl. repeat split; eexists; unfold Examples.yen_graph; simpl;
      repeat constructor.
  - intros n [= <-]. eexists. split; [reflexivity|]. discriminate.
Defined.

(** ** Path finding on a prepared network *)

Section NetFind.
Context `{Countable Entry}.
Variable Rxn : Type.
Variable get_min_entry_by_formula : gset Entry → string → Py.result Entry.

Implicit Types (g : Network.PyDiGraph (Entry:=Entry) Rxn).
Implicit Types (self : Network.ReactionNetwork (Entry:=Entry) Rxn).
Implicit Types (cf : Rxn → Q) (P : gset Entry).
Implicit Types (product_entries : Rxn → list Entry).

(** A pathway made of reactions only, each with its weight as cost, whose
    last reaction produces [t]. *)
Let pathway_to product_entries cf (t : Entry)
    (p : list (Network.EdgeObj Rxn) * list Q) : Prop :=
  Forall (λ o, ∃ r, o = Network.ReactionEdge Rxn r) p.1
  ∧ p.2 = map (λ o, Network.get_edge_weight Rxn o cf) p.1
  ∧ ∃ r, last p.1 = Some (Network.ReactionEdge Rxn r)
         ∧ t ∈ product_entries r.

(** A network with a typed graph, without an edge of negative weight, that
    holds the node of its non-empty precursor set; every reaction edge ends
    at the node of the reaction's products; the only node tagged Target is
    that of the recorded target, and the edges into it come from nodes that
    contain the target. *)
Let ready product_entries cf self g P : Prop :=
  Network.graph_built Rxn self = Some g
  ∧ Props.graph_typed Rxn g
  ∧ Props.weights_nonneg Rxn cf (Network.edge_list Rxn g)
  ∧ Network._precursors Rxn self = Some P ∧ P ≠ ∅
  ∧ (∃ pn, Network.get_node_data Rxn g pn
           = Some (Network.mkNetworkEntry P Network.Precursors))
  ∧ (∀ u v r,
       (u, v, Network.ReactionEdge Rxn r) ∈ Network.edge_list Rxn g →
       Network.get_node_data Rxn g v
       = Some (Network.mkNetworkEntry (list_to_set (product_entries r))
                 Network.Products))
  ∧ match Network._target Rxn self with
    | None => ∀ i, ¬ Props.has_tag Rxn g i Network.Target
    | Some t =>
        ∃ tn, Network.get_node_data Rxn g tn
              = Some (Network.mkNetworkEntry {[t]} Network.Target)
              ∧ (∀ i, Props.has_tag Rxn g i Network.Target → i = tn)
              ∧ ∀ u (o : Network.EdgeObj Rxn),
                  (u, tn, o) ∈ Network.edge_list Rxn g →
                  ∃ p, Network.get_node_data Rxn g u = Some p
                       ∧ t ∈ Network.entries p
    end.

Lemma find_node_by_weight_Some g (obj : Network.NetworkEntry) i :
  Network.get_node_data Rxn g i = Some obj →
  ∃ j, Network.find_node_by_weight Rxn g obj = Some j
       ∧ Network.get_node_data Rxn g j = Some obj.
Proof.
  intros Hi. unfold Network.find_node_by_weight.
  destruct (list_find_elem_of
              (λ i, Network.get_node_data Rxn g i = Some obj)
              (Network.node_indices Rxn g) i) as [[j x] Hfind].
  - apply elem_of_node_indices. rewrite Hi. by eexists.
  - exact Hi.
  - rewrite Hfind. simpl. exists x. split; [reflexivity|].
    by apply list_find_Some in Hfind as (_ & Hx & _).
Qed.

Lemma yens_ksp_walks g cf (k : Z) (s t : nat) :
  Props.weights_nonneg Rxn cf (Network.edge_list Rxn g) →
  ∃ a,
    Network.yens_ksp Rxn g cf k s t = Py.Ok a
    ∧ (Z.of_nat (length a) ≤ Z.max 1 k)%Z
    ∧ Forall (λ p, Props.is_walk Rxn (Network.edge_list Rxn g) p
                   ∧ head p = Some s ∧ last p = Some t) a.
Proof.
  intros Hnn. unfold Network.yens_ksp.
  destruct (dijkstra_shortest_paths_ok Rxn g cf s t Hnn) as (r & -> & Hr).
  cbn [mbind Py.result_bind]. destruct r as [path|].
  2:{ exists []. split; [reflexivity|]. split; [simpl; lia | constructor]. }
  destruct (Hr path eq_refl) as (Hwalk & Hlast & Hhead).
  destruct (path_cost_from_walk Rxn g cf path 0%Q Hwalk) as [c Hc].
  unfold Network.path_cost. rewrite Hc. simpl.
  destruct (yens_loop_ok Rxn (Network.edge_list Rxn g) s t cf
              (seq 1 (Z.to_nat (k - 1))) g [path] [c] [] Hnn)
    as (a & -> & Hnd & Hgood & Hlen).
  - reflexivity.
  - apply NoDup_singleton.
  - apply Forall_singleton. by repeat split.
  - constructor.
  - exists a. split; [reflexivity|]. split; [|assumption].
    rewrite length_seq in Hlen. simpl in Hlen. lia.
Qed.

Lemma pathways_fold g cf
    (ok : list (Network.EdgeObj Rxn) * list Q → Prop)
    (a : list (list nat)) :
  Forall (λ path, ∃ p, Network._path_from_graph Rxn g path cf = Py.Ok p
                       ∧ ok p) a →
  ∀ acc,
    ∃ ps,
      foldl (λ acc path,
               paths ← acc;
               p ← Network._path_from_graph Rxn g path cf;
               Py.Ok (paths ++ [p]))
            (Py.Ok acc) a
      = Py.Ok (acc ++ ps)
      ∧ length ps = length a ∧ Forall ok ps.
Proof.
  induction 1 as [|path a (p & Hp & Hok) _ IH]; intros acc.
  { exists []. rewrite app_nil_r. by repeat split. }
  cbn [foldl]. unfold mbind at 2 3, Py.result_bind. rewrite Hp.
  destruct (IH (acc ++ [p])) as (ps & Hfold & Hlen & Hps).
  exists (p :: ps). split.
  { etrans; [exact Hfold|]. by rewrite <- app_assoc. }
  split; [simpl; by rewrite Hlen | by constructor].
Qed.

(** *** The shape of a path from the precursors to the target *)

Lemma walk_edge_at (es : list (nat * nat * Network.EdgeObj Rxn))
    (l1 l2 : list nat) (a b : nat) :
  Props.is_walk Rxn es (l1 ++ a :: b :: l2) → ∃ e, (a, b, e) ∈ es.
Proof.
  induction l1 as [|y l1 IH]; simpl.
  { by intros [He _]. }
  destruct l1 as [|y' l1']; simpl in *; intros [_ Hw]; by apply IH.
Qed.

Lemma snoc_last (u : nat) (mid : list nat) :
  ∃ l1, u :: mid = l1 ++ [default u (last mid)].
Proof.
  destruct (last mid) as [q|] eqn:Hlast.
  - apply last_Some in Hlast as [l' ->]. by exists (u :: l').
  - apply last_None in Hlast as ->. by exists [].
Qed.

(** On a prepared graph, a walk from the precursors node to the target
    node ends [...; q; p; tn]: [p] is a Products node that contains the
    target, and the pathway read off the walk ends with the reaction on the
    edge from [q] to [p], which produces the target. *)
Lemma path_to_target product_entries g cf P (t : Entry) (pn tn : nat)
    (path : list nat) :
  Props.graph_typed Rxn g →
  Network.get_node_data Rxn g pn
  = Some (Network.mkNetworkEntry P Network.Precursors) →
  Network.get_node_data Rxn g tn
  = Some (Network.mkNetworkEntry {[t]} Network.Target) →
  (∀ u v r,
     (u, v, Network.ReactionEdge Rxn r) ∈ Network.edge_list Rxn g →
     Network.get_node_data Rxn g v
     = Some (Network.mkNetworkEntry (list_to_set (product_entries r))
               Network.Products)) →
  (∀ u (o : Network.EdgeObj Rxn),
     (u, tn, o) ∈ Network.edge_list Rxn g →
     ∃ p, Network.get_node_data Rxn g u = Some p ∧ t ∈ Network.entries p) →
  Props.is_walk Rxn (Network.edge_list Rxn g) path →
  head path = Some pn → last path = Some tn →
  ∃ p, Network._path_from_graph Rxn g path cf = Py.Ok p
       ∧ pathway_to product_entries cf t p.
Proof.
  intros Hg Hpn Htn Hrx Hfed Hw Hhead Hlast.
  destruct (path_from_graph_spec Rxn g cf path Hg Hw)
    as (rxns & c & Hpath & Halong & Hreact & _).
  { intros n Hn. rewrite Hhead in Hn. injection Hn as <-.
    eexists. split; [exact Hpn | discriminate]. }
  eexists. split; [exact Hpath|]. split; [exact Hreact|].
  split; [reflexivity|]. simpl.
  pose proof Hg as (Hty & _).
  (* the path ends [...; x; tn] *)
  apply last_Some in Hlast as [front ->].
  destruct front as [|x front _] using rev_ind.
  { simpl in Hhead. injection Hhead as ->. congruence. }
  rewrite <- app_assoc in Hw, Hhead, Halong. simpl in Hw, Hhead, Halong.
  destruct (walk_edge_at _ front [] x tn Hw) as [e He].
  destruct (Hfed x e He) as (p & Hx & Htp).
  pose proof (proj1 (Forall_forall _ _) Hty _ He) as Het.
  assert (Hxp : Network.description p = Network.Products).
  { unfold Props.edge_typed, Props.has_tag in Het. simpl in Het.
    rewrite Hx, Htn in Het. simpl in Het.
    destruct e; destruct Het as [H1 H2]; try discriminate H2.
    by injection H1. }
  (* the path starts at [pn], which is not [x] *)
  destruct front as [|n mid].
  { simpl in Hhead. injection Hhead as ->. rewrite Hpn in Hx.
    injection Hx as <-. discriminate. }
  simpl in Hhead. injection Hhead as ->.
  cbn [app] in Halong, Hw.
  (* the edge into [x] *)
  destruct (snoc_last pn mid) as [l1 Hl1].
  assert (Hw' : Props.is_walk Rxn (Network.edge_list Rxn g)
                  (l1 ++ default pn (last mid) :: x :: [tn])).
  { replace (l1 ++ default pn (last mid) :: x :: [tn])
      with ((l1 ++ [default pn (last mid)]) ++ [x; tn])
      by (by rewrite <- app_assoc).
    rewrite <- Hl1. exact Hw. }
  destruct (walk_edge_at _ l1 [tn] _ x Hw') as [e' He'].
  destruct (get_edge_data_is_Some Rxn g _ x e' He') as [o Ho].
  pose proof (get_edge_data_Some Rxn g _ x o Ho) as Hin.
  destruct (edge_into_node Rxn g cf _ x o p Hg Hin Hx) as [Hprod _].
  destruct (Hprod Hxp) as [r ->].
  exists r. split.
  - rewrite Halong. apply reactions_along_last; [| |exact Ho].
    + by rewrite Hx, <- Hxp.
    + rewrite Htn. discriminate.
  - pose proof (Hrx _ _ _ Hin) as Hx'. rewrite Hx in Hx'.
    injection Hx' as ->. simpl in Htp.
    by apply elem_of_list_to_set in Htp.
Qed.

Lemma k_shortest_paths_ready product_entries self g P (t : Entry) cf
    (k : Z) :
  ready product_entries cf self g P → Network._target Rxn self = Some t →
  ∃ paths,
    Network._k_shortest_paths Rxn self cf k = Py.Ok paths
    ∧ (Z.of_nat (length paths) ≤ Z.max 1 k)%Z
    ∧ Forall (pathway_to product_entries cf t) paths.
Proof.
  intros (Hgb & Hg & Hnn & HP & _ & [pn0 Hpn0] & Hrx & Htgt) Ht.
  rewrite Ht in Htgt. destruct Htgt as (tn0 & Htn0 & Huniq & Hfed).
  apply graph_built_Some in Hgb as [Hself _].
  destruct (find_node_by_weight_Some g _ pn0 Hpn0) as (pn & Hfp & Hpn).
  destruct (find_node_by_weight_Some g _ tn0 Htn0) as (tn & Hft & Htn).
  assert (tn = tn0) as ->.
  { apply Huniq. unfold Props.has_tag. by rewrite Htn. }
  unfold Network._k_shortest_paths. rewrite Hself, HP, Ht, Hfp, Hft.
  destruct (yens_ksp_walks g cf k pn tn0 Hnn) as (a & -> & Hlen & Ha).
  cbn [mbind Py.result_bind].
  destruct (pathways_fold g cf (pathway_to product_entries cf t) a)
    with (acc := @nil (list (Network.EdgeObj Rxn) * list Q))
    as (ps & Hfold & Hl & Hps).
  { eapply Forall_impl; [exact Ha|]. intros path (Hw & Hhead & Hlast).
    by eapply path_to_target. }
  exists ps. split; [exact Hfold|]. split; [|exact Hps].
  by rewrite Hl.
Qed.

Lemma set_target_ready product_entries cf self g P target (t : Entry) :
  ready product_entries cf self g P →
  Network.resolve Rxn get_min_entry_by_formula self target = Py.Ok t →
  t ∈ Network.net_entries Rxn self →
  ∃ st g',
    Network.set_target Rxn get_min_entry_by_formula self target = Py.Ok st
    ∧ ready product_entries cf st g' P
    ∧ Network._target Rxn st = Some t
    ∧ Network.net_entries Rxn st = Network.net_entries Rxn self.
Proof.
  intros Hready Hres Hin.
  destruct (decide (Some t = Network._target Rxn self)) as [Heq|Hne].
  { exists self, g. split; [|by split].
    destruct Hready as (Hgb & _). unfold Network.set_target.
    rewrite Hgb, Hres. cbn [mbind Py.result_bind].
    by rewrite bool_decide_eq_true_2. }
  destruct Hready as (Hgb & Hg & Hnn & HP & HPne & [pn Hpn] & Hrx & Htgt).
  destruct (set_target_spec Rxn get_min_entry_by_formula self g target t
              Hgb Hg Hres Hne Hin)
    as (st & g' & tn & Hset & Hst & Hgb' & Hg' & Hdata & Hwas & Hkeep
        & Hedges).
  { intros [t0 Ht0]. rewrite Ht0 in Htgt.
    destruct Htgt as (i & Hi & _). exists i.
    unfold Props.has_tag. by rewrite Hi. }
  assert (Hpn' : pn ≠ tn).
  { intros ->. destruct (Network._target Rxn self).
    - unfold Props.has_tag in Hwas. rewrite Hpn in Hwas. discriminate.
    - congruence. }
  exists st, g'. split; [exact Hset|]. subst st. simpl.
  split; [|by split]. split; [exact Hgb'|]. split; [exact Hg'|].
  split.
  { apply Forall_forall. intros e [[He _]|(Hlabel & _)]%Hedges.
    - exact (proj1 (Forall_forall _ _) Hnn e He).
    - rewrite Hlabel. simpl. apply Qle_refl. }
  split; [exact HP|]. split; [exact HPne|].
  split; [exists pn; by rewrite Hkeep|].
  split.
  { intros u v r [(He & _ & Hv)|(Hlabel & _)]%Hedges; [|discriminate].
    simpl in Hv. rewrite Hkeep by exact Hv. by eapply Hrx. }
  simpl. exists tn. split; [exact Hdata|]. split.
  - intros i Hi. destruct (decide (i = tn)) as [|Hne']; [assumption|].
    exfalso. unfold Props.has_tag in Hi. rewrite Hkeep in Hi by exact Hne'.
    destruct (Network._target Rxn self) as [t0|].
    + destruct Htgt as (tn0 & _ & Huniq & _).
      rewrite (Huniq i Hi), (Huniq tn Hwas) in Hne'. by apply Hne'.
    + by apply (Htgt i).
  - intros u o [(_ & _ & Hv)|(_ & _ & p & Hp & _ & Htp)]%Hedges.
    + by simpl in Hv.
    + simpl in Hp. by exists p.
Qed.

Lemma resolve_same_entries self st target :
  Network.net_entries Rxn st = Network.net_entries Rxn self →
  Network.resolve Rxn get_min_entry_by_formula st target
  = Network.resolve Rxn get_min_entry_by_formula self target.
Proof. intros Hent. destruct target; simpl; by rewrite ?Hent. Qed.

Lemma find_pathways_fold product_entries cf (k : Z) targets :
  ∀ self g P acc,
    ready product_entries cf self g P →
    Forall (λ target,
              ∃ t : Entry,
                Network.resolve Rxn get_min_entry_by_formula self target
                = Py.Ok t
                ∧ t ∈ Network.net_entries Rxn self) targets →
    ∃ st groups,
      foldl (λ acc target,
               '(self, paths) ← acc;
               self ← Network.set_target Rxn get_min_entry_by_formula
                        self target;
               pathways ← Network._k_shortest_paths Rxn self cf k;
               Py.Ok (self, paths ++ pathways))
            (Py.Ok (self, acc)) targets
      = Py.Ok (st, acc ++ concat groups)
      ∧ Forall2 (λ target grp,
                   (Z.of_nat (length grp) ≤ Z.max 1 k)%Z
                   ∧ ∃ t : Entry,
                       Network.resolve Rxn get_min_entry_by_formula self
                         target = Py.Ok t
                       ∧ Forall (pathway_to product_entries cf t) grp)
                targets groups.
Proof.
  induction targets as [|target targets IH]; intros self g P acc Hready Hts.
  { exists self, []. simpl. rewrite app_nil_r. split; [reflexivity|].
    constructor. }
  apply Forall_cons in Hts as [(t & Hres & Hin) Hts].
  destruct (set_target_ready product_entries cf self g P target t Hready
              Hres Hin) as (st1 & g1 & Hset & Hready1 & Ht1 & Hent).
  destruct (k_shortest_paths_ready product_entries st1 g1 P t cf k Hready1
              Ht1) as (pathways & Hksp & Hlen & Hok).
  match goal with |- context [foldl ?f _ _] => set (F := f) end.
  cbn [foldl].
  assert (Hstep : F (Py.Ok (self, acc)) target
                  = Py.Ok (st1, acc ++ pathways)).
  { unfold F, mbind, Py.result_bind. cbv beta iota.
    rewrite Hset. by rewrite Hksp. }
  rewrite Hstep.
  destruct (IH st1 g1 P (acc ++ pathways) Hready1)
    as (st & groups & Hfold & Hgroups).
  { eapply Forall_impl; [exact Hts|]. intros x (t' & Hx & Hx').
    exists t'. rewrite Hent. split; [|exact Hx'].
    by rewrite (resolve_same_entries self st1 x Hent). }
  exists st, (pathways :: groups). split.
  { etrans; [exact Hfold|]. simpl. by rewrite <- app_assoc. }
  constructor.
  - split; [exact Hlen|]. by exists t.
  - eapply Forall2_impl; [exact Hgroups|].
    intros x grp (Hl & t' & Hx & Hgrp). split; [exact Hl|].
    exists t'. split; [|exact Hgrp].
    by rewrite <- (resolve_same_entries self st1 x Hent).
Qed.

Lemma resolve_all_build reactant_entries product_entries self ps :
  Network.resolve_all Rxn get_min_entry_by_formula
    (Network.build Rxn reactant_entries product_entries self) ps
  = Network.resolve_all Rxn get_min_entry_by_formula self ps.
Proof.
  unfold Network.build.
  destruct (Network.get_rxn_nodes_and_edges _ _ _ _) as [nodes edges].
  induction ps as [|p ps IH]; [reflexivity|]. simpl. rewrite IH.
  by destruct p.
Qed.

(** What [build] leaves, as far as path finding needs it. *)
Lemma build_prepared reactant_entries product_entries self cf :
  Network.rxns Rxn self ≠ [] →
  (∀ r, r ∈ Network.rxns Rxn self → (0 <= cf r)%Q) →
  ∃ g,
    Network.build Rxn reactant_entries product_entries self
    = Network.mkReactionNetwork Rxn (Network.rxns Rxn self)
        (Network.net_entries Rxn self) (Some g)
        (Network._precursors Rxn self) (Network._target Rxn self)
    ∧ Network.graph_built Rxn
        (Network.build Rxn reactant_entries product_entries self) = Some g
    ∧ Props.graph_typed Rxn g
    ∧ (∀ i n, Network.get_node_data Rxn g i = Some n →
              Network.description n = Network.Reactants
              ∨ Network.description n = Network.Products)
    ∧ Props.weights_nonneg Rxn cf (Network.edge_list Rxn g)
    ∧ (∀ u v r,
         (u, v, Network.ReactionEdge Rxn r) ∈ Network.edge_list Rxn g →
         Network.get_node_data Rxn g v
         = Some (Network.mkNetworkEntry (list_to_set (product_entries r))
                   Network.Products)).
Proof.
  intros Hrxns Hcf.
  destruct (build_typed Rxn reactant_entries product_entries self Hrxns)
    as (g & Hbuild & Hgb & Hg & Hkinds).
  destruct (build_spec Rxn reactant_entries product_entries self)
    as (g0 & nodes & Hbuild0 & _ & _ & Hdata & _ & _ & Hrx & _).
  assert (g0 = g) as ->.
  { rewrite Hbuild in Hbuild0. by injection Hbuild0 as <-. }
  exists g. split; [exact Hbuild|]. split; [exact Hgb|].
  split; [exact Hg|]. split; [exact Hkinds|]. split.
  - apply Forall_forall. intros [[u v] o] He. simpl.
    destruct o as [| | |r]; try apply Qle_refl.
    apply Hcf. by apply Hrx in He as [Hr _].
  - intros u v r (_ & _ & Hv)%Hrx. by rewrite Hdata.
Qed.

Lemma find_pathways_spec reactant_entries product_entries self
    precursors (ps : list Entry) targets cf (k : Z) :
  Network.rxns Rxn self ≠ [] →
  Network._precursors Rxn self = None →
  Network._target Rxn self = None →
  Network.resolve_all Rxn get_min_entry_by_formula self precursors
  = Py.Ok ps →
  ps ≠ [] →
  list_to_set ps ⊆ Network.net_entries Rxn self →
  Forall (λ target,
            ∃ t : Entry,
              Network.resolve Rxn get_min_entry_by_formula self target
              = Py.Ok t
              ∧ t ∈ Network.net_entries Rxn self) targets →
  (∀ r, r ∈ Network.rxns Rxn self → (0 <= cf r)%Q) →
  ∃ st st' groups,
    Network.set_precursors Rxn get_min_entry_by_formula
      (Network.build Rxn reactant_entries product_entries self) precursors
    = Py.Ok st
    ∧ Network.find_pathways Rxn get_min_entry_by_formula st cf targets k
      = Py.Ok (st', concat groups)
    ∧ Forall2 (λ target grp,
                 (Z.of_nat (length grp) ≤ Z.max 1 k)%Z
                 ∧ ∃ t : Entry,
                     Network.resolve Rxn get_min_entry_by_formula self
                       target = Py.Ok t
                     ∧ Forall (pathway_to product_entries cf t) grp)
              targets groups.
Proof.
  intros Hrxns HnoP HnoT Hres Hps Hsub Hts Hcf.
  destruct (build_prepared reactant_entries product_entries self cf Hrxns
              Hcf) as (g & Hbuild & Hgb & Hg & Hkinds & Hnn & Hrx).
  pose proof (resolve_all_build reactant_entries product_entries self
                precursors) as Hres'.
  rewrite Hres in Hres'.
  destruct (set_precursors_spec Rxn get_min_entry_by_formula
              (Network.build Rxn reactant_entries product_entries self)
              g precursors ps Hgb Hg Hres')
    as (st & g' & pn & Hset & Hst & Hgb' & Hg' & Hdata & _ & Hkeep
        & Hedges).
  { rewrite Hbuild. simpl. by rewrite HnoP. }
  { rewrite Hbuild. simpl. exact Hsub. }
  { rewrite Hbuild. unfold Network.has_precursors. simpl.
    rewrite HnoP. discriminate. }
  assert (HP : list_to_set ps ≠@{gset Entry} ∅).
  { destruct ps as [|p ps']; [done|]. set_solver. }
  assert (Hready : ready product_entries cf st g' (list_to_set ps)).
  { split; [exact Hgb'|]. split; [exact Hg'|]. split.
    { apply Forall_forall.
      intros e [[He _]|[(Hlabel & _)|(Hlabel & _)]]%Hedges.
      - exact (proj1 (Forall_forall _ _) Hnn e He).
      - rewrite Hlabel. simpl. apply Qle_refl.
      - rewrite Hlabel. simpl. apply Qle_refl. }
    subst st. simpl.
    split; [reflexivity|]. split; [exact HP|]. split; [by exists pn|].
    split.
    { intros u v r [(He & _ & Hv)|[(Hlabel & _)|(Hlabel & _)]]%Hedges;
        [|discriminate|discriminate].
      simpl in Hv. rewrite Hkeep by exact Hv. by eapply Hrx. }
    rewrite Hbuild. simpl. rewrite HnoT. intros i Hi.
    unfold Props.has_tag in Hi.
    destruct (decide (i = pn)) as [->|Hne].
    - rewrite Hdata in Hi. discriminate.
    - rewrite Hkeep in Hi by exact Hne.
      destruct (Network.get_node_data Rxn g i) as [n|] eqn:Hn;
        [|discriminate].
      injection Hi as Hi. destruct (Hkinds i n Hn); congruence. }
  assert (Hent : Network.net_entries Rxn st = Network.net_entries Rxn self).
  { subst st. simpl. by rewrite Hbuild. }
  destruct (find_pathways_fold product_entries cf k targets st g'
              (list_to_set ps) [] Hready)
    as (st' & groups & Hfold & Hgroups).
  { eapply Forall_impl; [exact Hts|]. intros x (t' & Hx & Hx').
    exists t'. rewrite Hent. split; [|exact Hx'].
    by rewrite (resolve_same_entries self st x Hent). }
  exists st, st', groups. split; [exact Hset|]. split.
  { unfold Network.find_pathways.
    replace (Network.has_precursors Rxn st) with true; [exact Hfold|].
    symmetry. unfold Network.has_precursors. subst st. simpl.
    by apply bool_decide_eq_true_2. }
  eapply Forall2_impl; [exact Hgroups|].
  intros x grp (Hl & t' & Hx & Hgrp). split; [exact Hl|].
  exists t'. split; [|exact Hgrp].
  by rewrite <- (resolve_same_entries self st x Hent).
Qed.

End NetFind.

(** X18.  On a network that was just made (no precursors, no target) from a
    non-empty reaction set, with a cost function that gives no reaction of
    the set a negative cost: after [build] and a [set_precursors] whose
    arguments resolve to a non-empty list of entries of the network,
    [find_pathways] raises nothing for any list of targets that resolve to
    entries of the network.  The list it returns is made of one group of
    pathways for each target, in the order of the targets.  The group of a
    target holds at most [max 1 k] pathways; each of them holds reactions
    only (no loopback, precursor or target marker), has the weights of its
    reactions as costs, in order, and ends with a reaction that produces
    the target. *)
Theorem find_pathways_after_setup `{Countable Entry} (Rxn : Type)
    (reactant_entries product_entries : Rxn → list Entry)
    (get_min_entry_by_formula : gset Entry → string → Py.result Entry)
    (self : Network.ReactionNetwork (Entry:=Entry) Rxn)
    (precursors : list (Network.EntryOrStr (Entry:=Entry)))
    (ps : list Entry)
    (targets : list (Network.EntryOrStr (Entry:=Entry)))
    (cf : Rxn → Q) (k : Z) :
  Network.rxns Rxn self ≠ [] →
  Network._precursors Rxn self = None →
  Network._target Rxn self = None →
  Network.resolve_all Rxn get_min_entry_by_formula self precursors
  = Py.Ok ps →
  ps ≠ [] →
  list_to_set ps ⊆ Network.net_entries Rxn self →
  Forall (λ target,
            ∃ t : Entry,
              Network.resolve Rxn get_min_entry_by_formula self target
              = Py.Ok t
              ∧ t ∈ Network.net_entries Rxn self) targets →
  (∀ r, r ∈ Network.rxns Rxn self → (0 <= cf r)%Q) →
  ∃ st st' groups,
    Network.set_precursors Rxn get_min_entry_by_formula
      (Network.build Rxn reactant_entries product_entries self) precursors
    = Py.Ok st
    ∧ Network.find_pathways Rxn get_min_entry_by_formula st cf targets k
      = Py.Ok (st', concat groups)
    ∧ Forall2
        (λ target (grp : list (list (Network.EdgeObj Rxn) * list Q)),
           (Z.of_nat (length grp) ≤ Z.max 1 k)%Z
           ∧ ∃ t : Entry,
               Network.resolve Rxn get_min_entry_by_formula self target
               = Py.Ok t
               ∧ Forall
                   (λ p : list (Network.EdgeObj Rxn) * list Q,
                      Forall (λ o, ∃ r, o = Network.ReactionEdge Rxn r) p.1
                      ∧ p.2 = map (λ o, Network.get_edge_weight Rxn o cf)
                                  p.1
                      ∧ ∃ r, last p.1 = Some (Network.ReactionEdge Rxn r)
                             ∧ t ∈ product_entries r)
                   grp)
        targets groups.
Proof. apply find_pathways_spec. Qed.

(** The reaction set of the Yen example, from precursors [A, B] to the
    targets [T] and [D], two pathways each. *)
Lemma find_pathways_after_setup_witness :
  ∃ st st' groups,
    Network.set_precursors Examples.Rx Examples.no_formula
      (Examples.rx_network Examples.yen_rxns)
      [Network.AsEntry 0; Network.AsEntry 1]
    = Py.Ok st
    ∧ Network.find_pathways Examples.Rx Examples.no_formula st
        Examples.rx_cost [Network.AsEntry 4; Network.AsEntry 3] 2
      = Py.Ok (st', concat groups)
    ∧ Forall2
        (λ target (grp : list (list (Network.EdgeObj Examples.Rx) * list Q)),
           (Z.of_nat (length grp) ≤ Z.max 1 2)%Z
           ∧ ∃ t : nat,
               Network.resolve Examples.Rx Examples.no_formula
                 (Network.mkReactionNetwork Examples.Rx Examples.yen_rxns
                    (list_to_set
                       (Examples.yen_rxns ≫= λ r, r.1.1 ++ r.1.2))
                    None None None) target
               = Py.Ok t
               ∧ Forall
                   (λ p : list (Network.EdgeObj Examples.Rx) * list Q,
                      Forall (λ o, ∃ r, o = Network.ReactionEdge
                                              Examples.Rx r) p.1
                      ∧ p.2 = map (λ o, Network.get_edge_weight Examples.Rx
                                          o Examples.rx_cost) p.1
                      ∧ ∃ r : Examples.Rx,
                          last p.1
                          = Some (Network.ReactionEdge Examples.Rx r)
                          ∧ t ∈ r.1.2)
                   grp)
        [Network.AsEntry 4; Network.AsEntry 3] groups.
Proof.
  apply (find_pathways_after_setup Examples.Rx (λ r, r.1.1) (λ r, r.1.2)
           Examples.no_formula
           (Network.mkReactionNetwork Examples.Rx Examples.yen_rxns
              (list_to_set (Examples.yen_rxns ≫= λ r, r.1.1 ++ r.1.2))
              None None None)
           [Network.AsEntry 0; Network.AsEntry 1] [0; 1]
           [Network.AsEntry 4; Network.AsEntry 3] Examples.rx_cost 2).
  - discriminate.
  - reflexivity.
  - reflexivity.
  - reflexivity.
  - discriminate.
  - by_compute.
  - repeat constructor; eexists; (split; [reflexivity | by_compute]).
  - simpl. intros r Hr.
    repeat (apply elem_of_cons in Hr as [->|Hr]; [by vm_compute|]).
    by apply elem_of_nil in Hr.
Defined.

Section NetRebuild.
Context `{Countable Entry}.
Variable Rxn : Type.
Variable reactant_entries : Rxn → list Entry.
Variable product_entries : Rxn → list Entry.
Variable get_min_entry_by_formula : gset Entry → string → Py.result Entry.

Implicit Types (self : Network.ReactionNetwork (Entry:=Entry) Rxn).

(** The graph that [build] stores is either empty or holds Reactants and
    Products nodes only. *)
Lemma build_no_terminal self (t : Network.NetworkEntryType) :
  t ≠ Network.Reactants → t ≠ Network.Products →
  match Network.graph_built Rxn
          (Network.build Rxn reactant_entries product_entries self) with
  | Some g => Network.find_tagged Rxn g t = None
  | None => True
  end.
Proof.
  intros Hr Hp. destruct (Network.rxns Rxn self) as [|r rs] eqn:Hrxns.
  { unfold Network.build, Network.get_rxn_nodes_and_edges.
    rewrite Hrxns. reflexivity. }
  destruct (build_typed Rxn reactant_entries product_entries self)
    as (g & _ & -> & _ & Hkinds); [by rewrite Hrxns|].
  unfold Network.find_tagged.
  destruct (list_find _ _) as [[i x]|] eqn:Hfind; [|reflexivity].
  apply list_find_Some in Hfind as (_ & Hx & _).
  destruct (Network.get_node_data Rxn g x) as [n|] eqn:Hn; [|discriminate].
  injection Hx as Hx. destruct (Hkinds x n Hn); congruence.
Qed.

Lemma build_fields self :
  Network._precursors Rxn
    (Network.build Rxn reactant_entries product_entries self)
  = Network._precursors Rxn self
  ∧ Network._target Rxn
      (Network.build Rxn reactant_entries product_entries self)
    = Network._target Rxn self
  ∧ Network.net_entries Rxn
      (Network.build Rxn reactant_entries product_entries self)
    = Network.net_entries Rxn self.
Proof.
  unfold Network.build.
  by destruct (Network.get_rxn_nodes_and_edges _ _ _ _).
Qed.

Lemma rebuild_set_precursors self precursors (ps : list Entry) :
  Network.has_precursors Rxn self = true →
  Network.resolve_all Rxn get_min_entry_by_formula self precursors
  = Py.Ok ps →
  Some (list_to_set ps) ≠ Network._precursors Rxn self →
  Network.set_precursors Rxn get_min_entry_by_formula
    (Network.build Rxn reactant_entries product_entries self) precursors
  = Py.Raise Py.ValueError.
Proof.
  intros Hhas Hres Hne.
  pose proof (build_no_terminal self Network.Precursors) as Hnone.
  destruct (build_fields self) as (HP & HT & HE).
  unfold Network.set_precursors.
  destruct (Network.graph_built Rxn _) as [g|]; [|reflexivity].
  rewrite (resolve_all_build Rxn get_min_entry_by_formula), Hres.
  cbn [mbind Py.result_bind]. rewrite HP.
  rewrite (bool_decide_eq_false_2 _ Hne).
  destruct (bool_decide _); [|reflexivity].
  unfold Network.has_precursors in *. rewrite HP, Hhas.
  by rewrite Hnone.
Qed.

Lemma rebuild_set_target self target (t : Entry) :
  is_Some (Network._target Rxn self) →
  Network.resolve Rxn get_min_entry_by_formula self target = Py.Ok t →
  Some t ≠ Network._target Rxn self →
  Network.set_target Rxn get_min_entry_by_formula
    (Network.build Rxn reactant_entries product_entries self) target
  = Py.Raise Py.ValueError.
Proof.
  intros Hhas Hres Hne.
  pose proof (build_no_terminal self Network.Target) as Hnone.
  destruct (build_fields self) as (HP & HT & HE).
  unfold Network.set_target.
  destruct (Network.graph_built Rxn _) as [g|]; [|reflexivity].
  assert (Hres' : Network.resolve Rxn get_min_entry_by_formula
                    (Network.build Rxn reactant_entries product_entries
                       self) target = Py.Ok t).
  { destruct target; [exact Hres|]. simpl in *. by rewrite HE. }
  rewrite Hres'. cbn [mbind Py.result_bind]. rewrite HT.
  rewrite (bool_decide_eq_false_2 _ Hne).
  destruct (bool_decide (t ∈ _)); [|reflexivity].
  rewrite (bool_decide_eq_true_2 _ Hhas). by rewrite Hnone.
Qed.

End NetRebuild.

(** X19.  [build] replaces the graph but keeps the recorded precursors and
    target.  So on a network that has precursors and a target, once
    [build] is called again, a [set_precursors] to any other set and a
    [set_target] to any other entry raise [ValueError]: the node to remove
    is not in the new graph, and neither can be re-pointed. *)
Theorem rebuild_strands_precursors_and_target `{Countable Entry}
    (Rxn : Type) (reactant_entries product_entries : Rxn → list Entry)
    (get_min_entry_by_formula : gset Entry → string → Py.result Entry)
    (self : Network.ReactionNetwork (Entry:=Entry) Rxn)
    (precursors : list (Network.EntryOrStr (Entry:=Entry)))
    (ps : list Entry) (target : Network.EntryOrStr (Entry:=Entry))
    (t : Entry) :
  Network.has_precursors Rxn self = true →
  Network.resolve_all Rxn get_min_entry_by_formula self precursors
  = Py.Ok ps →
  Some (list_to_set ps) ≠ Network._precursors Rxn self →
  is_Some (Network._target Rxn self) →
  Network.resolve Rxn get_min_entry_by_formula self target = Py.Ok t →
  Some t ≠ Network._target Rxn self →
  Network.set_precursors Rxn get_min_entry_by_formula
    (Network.build Rxn reactant_entries product_entries self) precursors
  = Py.Raise Py.ValueError
  ∧ Network.set_target Rxn get_min_entry_by_formula
      (Network.build Rxn reactant_entries product_entries self) target
    = Py.Raise Py.ValueError.
Proof.
  intros HP Hps Hne HT Ht Hne'. split.
  - by apply rebuild_set_precursors with ps.
  - by apply rebuild_set_target with t.
Qed.

(** The network of the Yen example (precursors [A, B], target [T]),
    rebuilt and then pointed at [A] alone and at [D]. *)
Lemma rebuild_strands_precursors_and_target_witness :
  Network.set_precursors Examples.Rx Examples.no_formula
    (Network.build Examples.Rx (λ r, r.1.1) (λ r, r.1.2)
       Examples.yen_network) [Network.AsEntry 0]
  = Py.Raise Py.ValueError
  ∧ Network.set_target Examples.Rx Examples.no_formula
      (Network.build Examples.Rx (λ r, r.1.1) (λ r, r.1.2)
         Examples.yen_network) (Network.AsEntry 3)
    = Py.Raise Py.ValueError.
Proof.
  apply (rebuild_strands_precursors_and_target Examples.Rx
           (λ r, r.1.1) (λ r, r.1.2) Examples.no_formula
           Examples.yen_network [Network.AsEntry 0] [0]
           (Network.AsEntry 3) 3).
  - by_compute.
  - reflexivity.
  - by_compute.
  - by eexists.
  - reflexivity.
  - discriminate.
Defined.

(** ** Asking for more paths *)

Section YenPrefix.
Context `{Countable Entry}.
Variable Rxn : Type.

Implicit Types (g : Network.PyDiGraph (Entry:=Entry) Rxn) (cf : Rxn → Q).
Implicit Types (a r : list (list nat)) (b : list (Q * list nat)).
Implicit Types (ks : list nat) (costs : list Q).

Lemma drain_extends fuel a costs b a' costs' b' :
  Network.drain fuel a costs b = (a', costs', b') → a `prefix_of` a'.
Proof.
  revert b. induction fuel as [|fuel IH]; intros b; simpl.
  { by intros [= <- _ _]. }
  destruct (Network.b_get b) as [[[cost_ path_] b1]|]; [|by intros [= <- _ _]].
  destruct (bool_decide (path_ ∈ a)); [apply IH|].
  intros [= <- _ _]. by apply prefix_app_r.
Qed.

Lemma yens_loop_extends cf (t : nat) ks :
  ∀ g a costs b r,
    Network.yens_loop Rxn cf t ks g a costs b = Py.Ok r → a `prefix_of` r.
Proof.
  induction ks as [|k ks IH]; intros g a costs b r; simpl.
  { by intros [= <-]. }
  destruct (a !! (k - 1)) as [prev|]; [|by intros [= <-]].
  destruct (foldl _ _ _) as [[g' b']|err]; [|discriminate]. simpl.
  destruct (Network.drain _ _ _ _) as [[a1 costs1] b1] eqn:Hdrain.
  intros Hloop. etrans; [by eapply drain_extends|]. by eapply IH.
Qed.

(** The loop over [ks ++ ks'] either stops where the loop over [ks] stops,
    or goes on from the list that the loop over [ks] returns. *)
Lemma yens_loop_app cf (t : nat) ks ks' :
  ∀ g a costs b r r',
    Network.yens_loop Rxn cf t ks g a costs b = Py.Ok r →
    Network.yens_loop Rxn cf t (ks ++ ks') g a costs b = Py.Ok r' →
    r' = r
    ∨ ∃ g' costs' b',
        Network.yens_loop Rxn cf t ks' g' r costs' b' = Py.Ok r'.
Proof.
  induction ks as [|k ks IH]; intros g a costs b r r'; simpl.
  { intros [= <-] Hr'. right. by exists g, costs, b. }
  destruct (a !! (k - 1)) as [prev|]; [|intros [= <-] [= <-]; by left].
  destruct (foldl _ _ _) as [[g' b']|err]; [|discriminate]. simpl.
  destruct (Network.drain _ _ _ _) as [[a1 costs1] b1]. apply IH.
Qed.

Lemma yens_ksp_more g cf (k k' : Z) (s t : nat) :
  Props.weights_nonneg Rxn cf (Network.edge_list Rxn g) →
  (k ≤ k')%Z →
  ∃ a a',
    Network.yens_ksp Rxn g cf k s t = Py.Ok a
    ∧ Network.yens_ksp Rxn g cf k' s t = Py.Ok a'
    ∧ a `prefix_of` a'
    ∧ ((Z.of_nat (length a) < k)%Z → a' = a)
    ∧ Network.dijkstra_shortest_paths Rxn g cf s t = Py.Ok (head a').
Proof.
  intros Hnn Hk. unfold Network.yens_ksp.
  destruct (dijkstra_shortest_paths_ok Rxn g cf s t Hnn) as (r & -> & Hr).
  cbn [mbind Py.result_bind]. destruct r as [path|].
  2:{ exists [], []. by repeat split. }
  destruct (Hr path eq_refl) as (Hwalk & Hlast & Hhead).
  destruct (path_cost_from_walk Rxn g cf path 0%Q Hwalk) as [c Hc].
  unfold Network.path_cost. rewrite Hc. cbn [mbind Py.result_bind].
  assert (Hrun : ∀ ks, ∃ a,
            Network.yens_loop Rxn cf t ks g [path] [c] [] = Py.Ok a).
  { intros ks.
    destruct (yens_loop_ok Rxn (Network.edge_list Rxn g) s t cf ks g
                [path] [c] [] Hnn) as (a & Ha & _).
    - reflexivity.
    - apply NoDup_singleton.
    - apply Forall_singleton. by repeat split.
    - constructor.
    - by exists a. }
  set (n := Z.to_nat (k - 1)). set (n' := Z.to_nat (k' - 1)).
  assert (Hn : n' = n + (n' - n)) by lia.
  destruct (Hrun (seq 1 n)) as [a Ha].
  destruct (Hrun (seq 1 n')) as [a' Ha'].
  exists a, a'. split; [exact Ha|]. split; [exact Ha'|].
  pose proof (yens_loop_extends cf t _ _ _ _ _ _ Ha') as Hpre'.
  assert (Hhd : head a' = Some path).
  { destruct Hpre' as [l ->]. reflexivity. }
  rewrite Hn, seq_app in Ha'.
  destruct (yens_loop_app cf t _ _ _ _ _ _ _ _ Ha Ha')
    as [->|(g' & costs' & b' & Hrest)].
  { split; [reflexivity|]. split; [done|]. by rewrite Hhd. }
  split; [by eapply yens_loop_extends|]. split; [|by rewrite Hhd].
  intros Hlen. destruct (n' - n) as [|m] eqn:Hm; simpl in Hrest.
  { by injection Hrest as <-. }
  replace (a !! (n - 0)) with (@None (list nat)) in Hrest.
  { by injection Hrest as <-. }
  symmetry. apply lookup_ge_None. lia.
Qed.

End YenPrefix.

(** X20.  On a graph without an edge of negative weight, for two node
    indices of the graph, [yens_ksp] raises nothing, and asking for more
    paths never changes the ones already found: for [k ≤ k'] the list
    returned for [k] is a prefix of the list returned for [k'].  When fewer
    than [k] paths are returned for [k], the same list is returned for
    every larger number.  The first path of a non-empty result is the one
    that [dijkstra_shortest_paths] gives, and the result is empty exactly
    when that finds nothing. *)
Theorem yens_ksp_prefix_stable `{Countable Entry} (Rxn : Type)
    (g : Network.PyDiGraph (Entry:=Entry) Rxn) (cf : Rxn → Q) (k k' : Z)
    (precursors_node target_node : nat) :
  Props.weights_nonneg Rxn cf (Network.edge_list Rxn g) →
  is_Some (Network.get_node_data Rxn g precursors_node) →
  is_Some (Network.get_node_data Rxn g target_node) →
  (k ≤ k')%Z →
  ∃ a a',
    Network.yens_ksp Rxn g cf k precursors_node target_node = Py.Ok a
    ∧ Network.yens_ksp Rxn g cf k' precursors_node target_node = Py.Ok a'
    ∧ a `prefix_of` a'
    ∧ ((Z.of_nat (length a) < k)%Z → a' = a)
    ∧ Network.dijkstra_shortest_paths Rxn g cf precursors_node target_node
      = Py.Ok (head a').
Proof. intros Hnn _ _. by apply yens_ksp_more. Qed.

(** Two and then five paths requested on the network of the Yen
    example. *)
Lemma yens_ksp_prefix_stable_witness :
  ∃ a a',
    Network.yens_ksp Examples.Rx Examples.yen_graph Examples.rx_cost 2 6 7
    = Py.Ok a
    ∧ Network.yens_ksp Examples.Rx Examples.yen_graph Examples.rx_cost 5 6 7
      = Py.Ok a'
    ∧ a `prefix_of` a'
    ∧ ((Z.of_nat (length a) < 2)%Z → a' = a)
    ∧ Network.dijkstra_shortest_paths Examples.Rx Examples.yen_graph
        Examples.rx_cost 6 7
      = Py.Ok (head a').
Proof.
  apply (yens_ksp_prefix_stable Examples.Rx Examples.yen_graph
           Examples.rx_cost 2 5 6 7).
  - exact yen_graph_nonneg.
  - vm_compute. by eexists.
  - vm_compute. by eexists.
  - lia.
Defined.
